(** * Multi-source log aggregation of [blimp logs]

    A shallow embedding of the [logs] package in its version with
    reconnecting readers ([Command.Run], [forwardLogs], [printLogs]): the
    timestamp codec [parseLogLine], the colour assigner [pickColor], the
    duplicate filter [isOldMessage], the flush of a window, and the
    goroutines of [Command.Run] as a transition system whose labels are the
    choices of the scheduler and of the environment (the log streams, the
    timers, the status notifier, the interrupt signal).

    After it come the first version of the command ([cli_logs]), the context
    of a YAML error and the environment of the Compose loader
    ([dockercompose]), the status printer ([up]) and the [up] command itself
    ([up_cmd]). *)

From Stdlib Require Import ZArith String Ascii Lia DecimalString.
From stdpp Require Import base option list strings sorting gmap.

Local Open Scope string_scope.
Local Open Scope list_scope.
Local Open Scope Z_scope.

(** ** Go values used by the package *)

(** Go's [error] values that the package tells apart: [io.EOF],
    [context.Canceled], a plain error string, and an error wrapped with a
    context string.  A nil [error] is [None : option GoError]. *)
Inductive GoError : Type :=
| EOF
| Canceled
| ErrorString (msg : string)
| Wrapped (context : string) (cause : GoError).

#[global] Instance GoError_eq_dec : EqDecision GoError.
Proof. solve_decision. Defined.

(** A [time.Time] is modelled by the instant it denotes, counted in
    nanoseconds from the zero [Time] (January 1, year 1, 00:00 UTC), so that
    [time.Time{}] is [0] and [Before]/[After] compare instants.  The
    monotonic reading that [time.Now()] attaches is taken to agree with the
    wall clock. *)
Module time.
Definition Time : Type := Z.
Definition zero : Time := 0.
Definition After (t u : Time) : bool := u <? t.
Definition Before (t u : Time) : bool := t <? u.
Definition IsZero (t : Time) : bool := t =? 0.
Definition RFC3339 : string := "2006-01-02T15:04:05Z07:00".
Definition RFC3339Nano : string := "2006-01-02T15:04:05.999999999Z07:00".
End time.
Abbreviation Time := time.Time.

(** The two calls into package [strings], specialised to the separators the
    package passes. *)
Module strings.
(** Splits [s] around its first space, if it has one. *)
Fixpoint cut_space (s : string) : option (string * string) :=
  match s with
  | EmptyString => None
  | String c s' =>
      if Ascii.eqb c " "%char then Some (EmptyString, s')
      else match cut_space s' with
           | Some (a, b) => Some (String c a, b)
           | None => None
           end
  end.

(** [strings.SplitN(s, " ", 2)]: at most two substrings, the second being
    the unsplit remainder. *)
Definition SplitN_space_2 (s : string) : list string :=
  match cut_space s with
  | Some (a, b) => [a; b]
  | None => [s]
  end.

Definition newline : ascii := ascii_of_nat 10.

(** [strings.TrimSuffix(s, "\n")]. *)
Fixpoint TrimSuffix_newline (s : string) : string :=
  match s with
  | EmptyString => EmptyString
  | String c s' =>
      match s' with
      | EmptyString => if Ascii.eqb c newline then EmptyString else s
      | String _ _ => String c (TrimSuffix_newline s')
      end
  end.
End strings.

(** Everything the package calls that lies outside the source tree:
    [time.Parse] of the Go standard library ([None] stands for a non-nil
    error), [goterm.Color], and [New] and [WithContext] of [pkg/errors].  The
    development is parametric in them. *)
Class GoLib : Type := {
  time_Parse : string -> string -> option Time;
  goterm_Color : string -> Z -> string;
  errors_New : string -> GoError;
  errors_WithContext : string -> GoError -> GoError;
}.

(** ** Data model *)

Record rawLogLine : Type := mkRaw {
  error : option GoError;
  fromContainer : string;
  message : string;
  receivedAt : Time;
}.

(** The fields [fromContainer] and [message] of [parsedLogLine] carry the
    prefix [p] here, since both structs live in one name space. *)
Record parsedLogLine : Type := mkParsed {
  pFromContainer : string;
  pMessage : string;
  loggedAt : Time;
  formatOverride : string;
}.

#[global] Instance rawLogLine_eq_dec : EqDecision rawLogLine.
Proof. solve_decision. Defined.
#[global] Instance parsedLogLine_eq_dec : EqDecision parsedLogLine.
Proof. solve_decision. Defined.

(** ** Timestamp codec *)

Definition parseLogLine `{GoLib} (rawMessage : string)
  : string * Time * option GoError :=
  let logParts := strings.SplitN_space_2 rawMessage in
  match logParts with
  | [rawTimestamp; message] =>
      match time_Parse time.RFC3339Nano rawTimestamp with
      | Some timestamp => (message, timestamp, None)
      | None =>
          match time_Parse time.RFC3339 rawTimestamp with
          | Some timestamp => (message, timestamp, None)
          | None => (EmptyString, time.zero, Some (errors_New "parse timestamp"))
          end
      end
  | _ => (EmptyString, time.zero, Some (errors_New "malformed line"))
  end.

(** ** Colour assigner *)

(** [hash/fnv]: the 32-bit FNV-1 hash, a [uint32] updated byte by byte. *)
Module fnv.
Definition offset32 : Z := 2166136261.
Definition prime32 : Z := 16777619.
Definition New32 : Z := offset32.
Definition Write (s : Z) (data : list Z) : Z * (Z * option GoError) :=
  (fold_left (fun hash c => Z.lxor ((hash * prime32) mod 2 ^ 32) c) data s,
   (Z.of_nat (length data), None)).
Definition Sum32 (s : Z) : Z := s.
End fnv.

(** [[]byte(s)]. *)
Definition bytes (s : string) : list Z :=
  map (fun c => Z.of_N (N_of_ascii c)) (list_ascii_of_string s).

(** The colour codes of [goterm] ([BLACK = iota], [RED], [GREEN], ...). *)
Module goterm.
Definition RED : Z := 1.
Definition GREEN : Z := 2.
Definition YELLOW : Z := 3.
Definition BLUE : Z := 4.
Definition MAGENTA : Z := 5.
Definition CYAN : Z := 6.
End goterm.

Definition colorList : list Z :=
  [goterm.BLUE; goterm.CYAN; goterm.GREEN; goterm.MAGENTA; goterm.RED;
   goterm.YELLOW].

(** [None] stands for a panic: a non-nil error of [hash.Write], or an index
    outside [colorList]. *)
Definition pickColor (container : string) : option Z :=
  let hash := fnv.New32 in
  let '(hash, (_, err)) := fnv.Write hash (bytes container) in
  match err with
  | Some _ => None
  | None =>
      let idx := fnv.Sum32 hash mod Z.of_nat (length colorList) in
      colorList !! Z.to_nat idx
  end.

(** A malformed line: it has no space, or the text before its first space
    parses under neither layout. *)
Definition malformed `{GoLib} (rawMessage : string) : Prop :=
  match strings.cut_space rawMessage with
  | None => True
  | Some (rawTimestamp, _) =>
      time_Parse time.RFC3339Nano rawTimestamp = None /\
      time_Parse time.RFC3339 rawTimestamp = None
  end.

(** ** Duplicate filter of [forwardLogs] *)

(** The closure [isOldMessage] of [forwardLogs].  It reads [sinceTime] and
    updates [lastMessageTime]; the new value of [lastMessageTime] is returned
    next to the verdict. *)
Definition isOldMessage `{GoLib} (sinceTime lastMessageTime : Time)
    (message : string) : bool * Time :=
  if decide (message = EmptyString) then (false, lastMessageTime)
  else
    let '(_, timestamp, err) := parseLogLine message in
    match err with
    | Some _ => (false, lastMessageTime)
    | None =>
        if negb (time.After timestamp sinceTime) then (true, lastMessageTime)
        else if time.After timestamp lastMessageTime then (false, timestamp)
        else (false, lastMessageTime)
    end.

(** ** Status messages *)

(** [printStatusMessage]: the text written to [os.Stderr]; [None] is a panic
    of [pickColor]. *)
Definition printStatusMessage `{GoLib} (service message : string)
    (hideServiceName : bool) : option string :=
  servicePrefix ←
    (if negb hideServiceName then
       color ← pickColor service;
       let coloredContainer := goterm_Color service color in
       Some (coloredContainer +:+ " - ")
     else Some EmptyString);
  Some (servicePrefix +:+ message +:+ String strings.newline EmptyString).

(** ** The flush of a window *)

(** One iteration of the parsing loop of [flush]: the entries appended to
    [parsedLogs] for [rawLog]. *)
Definition parseRaw `{GoLib} (rawLog : rawLogLine) : list parsedLogLine :=
  match error rawLog with
  | Some _ =>
      if decide (message rawLog <> EmptyString) then
        let '(message0, timestamp0, err) := parseLogLine (message rawLog) in
        let '(message1, timestamp1) :=
          match err with
          | Some _ => (message rawLog, receivedAt rawLog)
          | None => (message0, timestamp0)
          end in
        [mkParsed (fromContainer rawLog) message1 timestamp1 EmptyString]
      else []
  | None =>
      let '(message0, timestamp0, err) := parseLogLine (message rawLog) in
      let '(message1, timestamp1) :=
        match err with
        | Some _ => (message rawLog, receivedAt rawLog)
        | None => (message0, timestamp0)
        end in
      [mkParsed (fromContainer rawLog) message1 timestamp1 EmptyString]
  end.

Definition parseWindow `{GoLib} (window : list rawLogLine)
  : list parsedLogLine :=
  fold_left (fun parsedLogs rawLog => parsedLogs ++ parseRaw rawLog) window [].

(** [sort.SliceStable]: the stable sort of a slice by [less], here as a
    stable insertion sort. *)
Module sort.
Section SliceStable.
Context {A : Type} (less : A -> A -> bool).

Fixpoint insert (x : A) (l : list A) : list A :=
  match l with
  | [] => [x]
  | y :: l' => if less y x then y :: insert x l' else x :: y :: l'
  end.

Definition SliceStable (l : list A) : list A := foldr insert [] l.
End SliceStable.
End sort.

Definition byLogTime (a b : parsedLogLine) : bool :=
  time.Before (loggedAt a) (loggedAt b).

(** The order that the sort by [byLogTime] establishes. *)
Definition logTimeLe (a b : parsedLogLine) : Prop :=
  loggedAt a <= loggedAt b.

(** One iteration of the printing loop of [flush]: the text written to
    [os.Stdout]; [None] is a panic of [pickColor]. *)
Definition printLine `{GoLib} (hideServiceName : bool) (log : parsedLogLine)
  : option string :=
  if decide (formatOverride log <> EmptyString) then Some (formatOverride log)
  else if hideServiceName then
    Some (pMessage log +:+ String strings.newline EmptyString)
  else
    color ← pickColor (pFromContainer log);
    let coloredContainer := goterm_Color (pFromContainer log) color in
    Some (coloredContainer +:+ " › " +:+ pMessage log
          +:+ String strings.newline EmptyString).

(** [flush]: the writes to [os.Stdout], in order; the window is empty
    afterwards. *)
Definition flush `{GoLib} (hideServiceName : bool) (window : list rawLogLine)
  : option (list string) :=
  let parsedLogs := parseWindow window in
  let parsedLogs := sort.SliceStable byLogTime parsedLogs in
  mapM (printLine hideServiceName) parsedLogs.

(** ** The goroutines of [Command.Run] *)

(** The fields of [Command] that [Run] reads: the services and
    [Opts.Follow]. *)
Record Command : Type := mkCommand {
  Services : list string;
  Follow : bool;
}.

Definition hideServiceName (cmd : Command) : bool :=
  bool_decide (length (Services cmd) = 1%nat).

(** Where the goroutine started for one service stands.  The [Fwd] points lie
    inside [forwardLogs] and carry its locals [lastMessageTime] and
    [sinceTime]; the others lie in the loop of the goroutine around it. *)
Inductive readerPC : Type :=
(* top of the outer loop, before logsReq.Stream() *)
| FwdOpen (lastMessageTime sinceTime : Time)
(* Follow: the select after Stream() failed with err *)
| FwdOpenFailed (lastMessageTime sinceTime : Time) (err : GoError)
(* readLoop, before reader.ReadString *)
| FwdRead (lastMessageTime sinceTime : Time)
(* at combinedLogs <- line *)
| FwdSend (lastMessageTime sinceTime : Time) (line : rawLogLine)
(* Follow: the select after a read failed with err *)
| FwdRecvErr (lastMessageTime sinceTime : Time) (err : GoError)
(* forwardLogs returned err; before Lock *)
| Returned (err : GoError)
(* before runningCount-- *)
| DecLocked (err : GoError)
(* before Unlock *)
| DecDone (err : GoError)
(* Follow: the select on ctx.Done() and Running() *)
| AwaitRestart
(* before Lock, runningCount++ and Unlock *)
| IncWait
| IncLocked
| IncDone
(* the goroutine has returned *)
| Exited.

(** The goroutine that waits for [runningCount] to reach zero: before
    [Lock], at the test of its loop with the lock held, inside [Wait], woken by
    [Signal] and about to take the lock again, before [cancel()], done. *)
Inductive watcherPC : Type :=
| WStart
| WLocked
| WWaiting
| WWoken
| WCancel
| WDone.

(** [printLogs]: in its main [select] loop, in the draining loop of the
    [ctx.Done()] case, or returned. *)
Inductive printerPC : Type :=
| PLoop
| PDrain
| PReturned (err : option GoError).

(** Who holds [runningCountCond.L]. *)
Inductive holder : Type :=
| HReader (i : nat)
| HWatcher.

#[global] Instance readerPC_eq_dec : EqDecision readerPC.
Proof. solve_decision. Defined.
#[global] Instance watcherPC_eq_dec : EqDecision watcherPC.
Proof. solve_decision. Defined.
#[global] Instance printerPC_eq_dec : EqDecision printerPC.
Proof. solve_decision. Defined.
#[global] Instance holder_eq_dec : EqDecision holder.
Proof. solve_decision. Defined.

(** The shared state of [Run], once the cluster is connected and the
    services are known to have started: the points of the goroutines,
    [runningCount] and the holder of [runningCountCond.L], whether the
    goroutine behind [signalChan] still waits, whether [ctx] is cancelled, the
    buffer of [combinedLogs] and whether it was closed, the locals [window]
    and [flushTrigger] of [printLogs] ([flushTrigger] is [true] when the timer
    is set), and what was written to [os.Stdout] and [os.Stderr].  [sent] is
    a history variable: every line that went through a send on
    [combinedLogs], with the index of the sending goroutine.  The calls to the
    logger are left out. *)
Record state : Type := mkState {
  readers : list readerPC;
  runningCount : Z;
  mutex : option holder;
  watcher : watcherPC;
  signalHandler : bool;
  cancelled : bool;
  combinedLogs : list rawLogLine;
  closed : bool;
  printer : printerPC;
  window : list rawLogLine;
  flushTrigger : bool;
  stdout : list string;
  stderr : list string;
  sent : list (nat * rawLogLine);
}.

Definition set_readers v s :=
  mkState v (runningCount s) (mutex s) (watcher s) (signalHandler s)
    (cancelled s) (combinedLogs s) (closed s) (printer s) (window s)
    (flushTrigger s) (stdout s) (stderr s) (sent s).
Definition set_runningCount v s :=
  mkState (readers s) v (mutex s) (watcher s) (signalHandler s)
    (cancelled s) (combinedLogs s) (closed s) (printer s) (window s)
    (flushTrigger s) (stdout s) (stderr s) (sent s).
Definition set_mutex v s :=
  mkState (readers s) (runningCount s) v (watcher s) (signalHandler s)
    (cancelled s) (combinedLogs s) (closed s) (printer s) (window s)
    (flushTrigger s) (stdout s) (stderr s) (sent s).
Definition set_watcher v s :=
  mkState (readers s) (runningCount s) (mutex s) v (signalHandler s)
    (cancelled s) (combinedLogs s) (closed s) (printer s) (window s)
    (flushTrigger s) (stdout s) (stderr s) (sent s).
Definition set_signalHandler v s :=
  mkState (readers s) (runningCount s) (mutex s) (watcher s) v
    (cancelled s) (combinedLogs s) (closed s) (printer s) (window s)
    (flushTrigger s) (stdout s) (stderr s) (sent s).
Definition set_cancelled v s :=
  mkState (readers s) (runningCount s) (mutex s) (watcher s) (signalHandler s)
    v (combinedLogs s) (closed s) (printer s) (window s)
    (flushTrigger s) (stdout s) (stderr s) (sent s).
Definition set_combinedLogs v s :=
  mkState (readers s) (runningCount s) (mutex s) (watcher s) (signalHandler s)
    (cancelled s) v (closed s) (printer s) (window s)
    (flushTrigger s) (stdout s) (stderr s) (sent s).
Definition set_printer v s :=
  mkState (readers s) (runningCount s) (mutex s) (watcher s) (signalHandler s)
    (cancelled s) (combinedLogs s) (closed s) v (window s)
    (flushTrigger s) (stdout s) (stderr s) (sent s).
Definition set_window v s :=
  mkState (readers s) (runningCount s) (mutex s) (watcher s) (signalHandler s)
    (cancelled s) (combinedLogs s) (closed s) (printer s) v
    (flushTrigger s) (stdout s) (stderr s) (sent s).
Definition set_flushTrigger v s :=
  mkState (readers s) (runningCount s) (mutex s) (watcher s) (signalHandler s)
    (cancelled s) (combinedLogs s) (closed s) (printer s) (window s)
    v (stdout s) (stderr s) (sent s).
Definition set_stdout v s :=
  mkState (readers s) (runningCount s) (mutex s) (watcher s) (signalHandler s)
    (cancelled s) (combinedLogs s) (closed s) (printer s) (window s)
    (flushTrigger s) v (stderr s) (sent s).
Definition set_stderr v s :=
  mkState (readers s) (runningCount s) (mutex s) (watcher s) (signalHandler s)
    (cancelled s) (combinedLogs s) (closed s) (printer s) (window s)
    (flushTrigger s) (stdout s) v (sent s).
Definition set_sent v s :=
  mkState (readers s) (runningCount s) (mutex s) (watcher s) (signalHandler s)
    (cancelled s) (combinedLogs s) (closed s) (printer s) (window s)
    (flushTrigger s) (stdout s) (stderr s) v.

Definition set_reader (i : nat) (pc : readerPC) (s : state) : state :=
  set_readers (<[i:=pc]> (readers s)) s.

(** The state in which [Run] starts its goroutines: one reader per service
    entering [forwardLogs], [runningCount = len(cmd.Services)], an open and
    empty channel. *)
Definition init (cmd : Command) : state :=
  {| readers := (fun _ => FwdOpen time.zero time.zero) <$> Services cmd;
     runningCount := Z.of_nat (length (Services cmd));
     mutex := None;
     watcher := WStart;
     signalHandler := true;
     cancelled := false;
     combinedLogs := [];
     closed := false;
     printer := PLoop;
     window := [];
     flushTrigger := false;
     stdout := [];
     stderr := [];
     sent := [] |}.

(** The capacity of [combinedLogs]. *)
Definition capacity (cmd : Command) : nat := (length (Services cmd) * 32)%nat.

(** What a reader goroutine's next step depends on besides the state: the
    outcome of [logsReq.Stream()], of [reader.ReadString] (with the
    [time.Now()] of the line built from it), the case a [select] takes
    ([PodExited] and [ServiceRunning] are the channels of the status
    notifier, which lies outside the source tree and may fire at any time), or
    nothing ([ChanSend], [Lock], [Update], [Unlock] name the statement that
    runs). *)
Inductive readerEvent : Type :=
| StreamOpened
| StreamFailed (err : GoError)
| ReadString (message : string) (err : option GoError) (now : Time)
| ChanSend
| CtxDone
| TimerFired
| PodExited
| ServiceRunning
| Lock
| Update
| Unlock.

(** The case that the [select] of [printLogs] takes, or a turn of its
    draining loop. *)
Inductive printerEvent : Type :=
| Receive
| FlushTimer
| Cancellation
| Drain.

(** A step of the system: of a reader, of the watcher, of [printLogs], or of
    the goroutine that turns a signal into [cancel()]. *)
Inductive label : Type :=
| Reader (i : nat) (ev : readerEvent)
| Watcher
| Printer (ev : printerEvent)
| Interrupt.

(** The top of the outer loop of [forwardLogs]: on a reconnect, [sinceTime]
    becomes [lastMessageTime]. *)
Definition nextSinceTime (lastMessageTime sinceTime : Time) : Time :=
  if negb (time.IsZero lastMessageTime) then lastMessageTime else sinceTime.

(** [runningCountCond.Signal()]: wakes the watcher if it is waiting. *)
Definition Signal (s : state) : state :=
  match watcher s with
  | WWaiting => set_watcher WWoken s
  | _ => s
  end.

(** One step inside [forwardLogs], called by the goroutine of service number
    [i]; the return is the step to [Returned]. *)
Definition forwardLogs `{GoLib} (cmd : Command) (i : nat) (service : string)
    (ev : readerEvent) (pc : readerPC) (s : state) : option state :=
  match pc, ev with
  (* logsStream, err := logsReq.Stream() *)
  | FwdOpen last since, StreamOpened =>
      Some (set_reader i (FwdRead last (nextSinceTime last since)) s)
  | FwdOpen last since, StreamFailed err =>
      if negb (Follow cmd) then
        Some (set_reader i
                (Returned (errors_WithContext "start logs stream" err)) s)
      else
        Some (set_reader i
                (FwdOpenFailed last (nextSinceTime last since) err) s)
  (* the select after a failed Stream() *)
  | FwdOpenFailed last since err, CtxDone =>
      if cancelled s then Some (set_reader i (Returned Canceled) s) else None
  | FwdOpenFailed last since err, TimerFired =>
      Some (set_reader i (FwdOpen last since) s)
  | FwdOpenFailed last since err, PodExited =>
      out ← printStatusMessage service "The container exited."
              (hideServiceName cmd);
      Some (set_reader i
              (Returned (errors_WithContext "start logs stream" err))
              (set_stderr (stderr s ++ [out]) s))
  (* message, err := reader.ReadString('\n') *)
  | FwdRead last since, ReadString message err now =>
      let line :=
        {| fromContainer := service;
           message := strings.TrimSuffix_newline message;
           receivedAt := now;
           error := err |} in
      match err with
      | None =>
          let '(old, last') := isOldMessage since last message in
          if old then Some (set_reader i (FwdRead last' since) s)
          else Some (set_reader i (FwdSend last' since line) s)
      | Some _ => Some (set_reader i (FwdSend last since line) s)
      end
  (* combinedLogs <- rawLogLine{...} *)
  | FwdSend last since line, ChanSend =>
      if decide (length (combinedLogs s) < capacity cmd)%nat then
        let s' :=
          set_sent (sent s ++ [(i, line)])
            (set_combinedLogs (combinedLogs s ++ [line]) s) in
        match error line with
        | None => Some (set_reader i (FwdRead last since) s')
        | Some err =>
            if negb (Follow cmd) then
              Some (set_reader i
                      (Returned (errors_WithContext "recv log stream" err)) s')
            else Some (set_reader i (FwdRecvErr last since err) s')
        end
      else None
  (* the select after a failed read *)
  | FwdRecvErr last since err, CtxDone =>
      if cancelled s then Some (set_reader i (Returned Canceled) s) else None
  | FwdRecvErr last since err, TimerFired =>
      out ← printStatusMessage service "Disconnected from logs, reconnecting.."
              (hideServiceName cmd);
      Some (set_reader i (FwdOpen last since)
              (set_stderr (stderr s ++ [out]) s))
  | FwdRecvErr last since err, PodExited =>
      out ← printStatusMessage service "The container exited."
              (hideServiceName cmd);
      Some (set_reader i
              (Returned (errors_WithContext "recv log stream" err))
              (set_stderr (stderr s ++ [out]) s))
  | _, _ => None
  end.

(** One step of the goroutine of service number [i]: inside
    [forwardLogs], or in the loop around it. *)
Definition readerStep `{GoLib} (cmd : Command) (i : nat) (service : string)
    (ev : readerEvent) (pc : readerPC) (s : state) : option state :=
  match pc, ev with
  (* runningCountCond.L.Lock() *)
  | Returned err, Lock =>
      match mutex s with
      | None => Some (set_reader i (DecLocked err)
                        (set_mutex (Some (HReader i)) s))
      | Some _ => None
      end
  (* runningCount--; if runningCount == 0 { runningCountCond.Signal() } *)
  | DecLocked err, Update =>
      let s' := set_runningCount (runningCount s - 1) s in
      let s' := if decide (runningCount s' = 0) then Signal s' else s' in
      Some (set_reader i (DecDone err) s')
  (* runningCountCond.L.Unlock(), then the two tests that end the
     goroutine *)
  | DecDone err, Unlock =>
      let s' := set_mutex None s in
      if decide (err = Canceled) then Some (set_reader i Exited s')
      else if negb (Follow cmd) then Some (set_reader i Exited s')
      else Some (set_reader i AwaitRestart s')
  (* the select that waits for a restart *)
  | AwaitRestart, CtxDone =>
      if cancelled s then Some (set_reader i Exited s) else None
  | AwaitRestart, ServiceRunning =>
      out ← printStatusMessage service
              "The service has restarted, reconnecting..."
              (hideServiceName cmd);
      Some (set_reader i IncWait (set_stderr (stderr s ++ [out]) s))
  (* runningCountCond.L.Lock(); runningCount++; runningCountCond.L.Unlock() *)
  | IncWait, Lock =>
      match mutex s with
      | None => Some (set_reader i IncLocked (set_mutex (Some (HReader i)) s))
      | Some _ => None
      end
  | IncLocked, Update =>
      Some (set_reader i IncDone (set_runningCount (runningCount s + 1) s))
  | IncDone, Unlock =>
      Some (set_reader i (FwdOpen time.zero time.zero) (set_mutex None s))
  | _, _ => forwardLogs cmd i service ev pc s
  end.

(** One step of the watcher goroutine: [Lock], the test of the loop followed
    by [Wait] or by [Unlock], the wake-up that takes the lock again, and
    [cancel()]. *)
Definition watcherStep (s : state) : option state :=
  match watcher s with
  | WStart =>
      match mutex s with
      | None => Some (set_watcher WLocked (set_mutex (Some HWatcher) s))
      | Some _ => None
      end
  | WLocked =>
      if decide (runningCount s > 0) then
        Some (set_watcher WWaiting (set_mutex None s))
      else Some (set_watcher WCancel (set_mutex None s))
  | WWaiting => None
  | WWoken =>
      match mutex s with
      | None => Some (set_watcher WLocked (set_mutex (Some HWatcher) s))
      | Some _ => None
      end
  | WCancel => Some (set_watcher WDone (set_cancelled true s))
  | WDone => None
  end.

(** [return nil] in [printLogs]: the deferred [flush] runs. *)
Definition returnNil `{GoLib} (cmd : Command) (s : state) : option state :=
  out ← flush (hideServiceName cmd) (window s);
  Some (set_printer (PReturned None)
          (set_window [] (set_stdout (stdout s ++ out) s))).

(** One step of [printLogs]: a case of its [select], or one turn of the
    draining loop of the [ctx.Done()] case. *)
Definition printLogs `{GoLib} (cmd : Command) (ev : printerEvent)
    (s : state) : option state :=
  match printer s, ev with
  | PLoop, Receive =>
      match combinedLogs s with
      | logLine :: rest =>
          Some (set_flushTrigger true
                  (set_window (window s ++ [logLine])
                     (set_combinedLogs rest s)))
      | [] => if closed s then returnNil cmd s else None
      end
  | PLoop, FlushTimer =>
      if flushTrigger s then
        out ← flush (hideServiceName cmd) (window s);
        Some (set_flushTrigger false
                (set_window [] (set_stdout (stdout s ++ out) s)))
      else None
  | PLoop, Cancellation =>
      if cancelled s then Some (set_printer PDrain s) else None
  | PDrain, Drain =>
      match combinedLogs s with
      | logLine :: rest =>
          Some (set_window (window s ++ [logLine]) (set_combinedLogs rest s))
      | [] => returnNil cmd s
      end
  | _, _ => None
  end.

(** The goroutine that turns an interrupt signal into [cancel()]. *)
Definition interruptStep (s : state) : option state :=
  if signalHandler s then
    Some (set_signalHandler false (set_cancelled true s))
  else None.

Definition step `{GoLib} (cmd : Command) (l : label) (s : state)
  : option state :=
  match l with
  | Reader i ev =>
      pc ← readers s !! i;
      service ← Services cmd !! i;
      readerStep cmd i service ev pc s
  | Watcher => watcherStep s
  | Printer ev => printLogs cmd ev s
  | Interrupt => interruptStep s
  end.

(** Runs a schedule. *)
Fixpoint run `{GoLib} (cmd : Command) (ls : list label) (s : state)
  : option state :=
  match ls with
  | [] => Some s
  | l :: ls' => s' ← step cmd l s; run cmd ls' s'
  end.

Inductive reachable `{GoLib} (cmd : Command) : state -> Prop :=
| reachable_init : reachable cmd (init cmd)
| reachable_step l s s' :
    reachable cmd s -> step cmd l s = Some s' -> reachable cmd s'.

(** ** A concrete instance of [GoLib]

    Used to evaluate the definitions on concrete inputs.  [Parse] reads the
    UTC form [YYYY-MM-DDTHH:MM:SS[.fraction]Z] of RFC 3339, which Go accepts
    under both layouts; [Color] wraps the text in the ANSI escape of the
    colour. *)
Module Sample.
Definition digit (c : ascii) : option Z :=
  let n := Z.of_N (N_of_ascii c) in
  if (48 <=? n) && (n <=? 57) then Some (n - 48) else None.

Fixpoint number (n : nat) (s : string) (acc : Z) : option (Z * string) :=
  match n with
  | O => Some (acc, s)
  | S n' =>
      match s with
      | String c s' => d ← digit c; number n' s' (10 * acc + d)
      | EmptyString => None
      end
  end.

Definition expect (c : ascii) (s : string) : option string :=
  match s with
  | String c' s' => if Ascii.eqb c c' then Some s' else None
  | EmptyString => None
  end.

(** The digits of a fraction, scaled to nanoseconds. *)
Fixpoint fraction (s : string) (scale : Z) : option (Z * string) :=
  match s with
  | String c s' =>
      match digit c with
      | Some d =>
          if scale =? 0 then None
          else '(ns, rest) ← fraction s' (scale / 10); Some (d * scale + ns, rest)
      | None => Some (0, s)
      end
  | EmptyString => Some (0, s)
  end.

Definition isLeap (y : Z) : bool :=
  (y mod 4 =? 0) && (negb (y mod 100 =? 0) || (y mod 400 =? 0)).

Definition daysIn (y m : Z) : Z :=
  if m =? 2 then (if isLeap y then 29 else 28)
  else if (m =? 4) || (m =? 6) || (m =? 9) || (m =? 11) then 30 else 31.

(** Days from January 1 of year 1 to the given civil date. *)
Definition daysFromCivil (y m d : Z) : Z :=
  let y' := if m <=? 2 then y - 1 else y in
  let era := y' / 400 in
  let yoe := y' - era * 400 in
  let doy := (153 * (if 2 <? m then m - 3 else m + 9) + 2) / 5 + d - 1 in
  let doe := yoe * 365 + yoe / 4 - yoe / 100 + doy in
  era * 146097 + doe - 306.

Definition Parse (layout value : string) : option Time :=
  '(y, s) ← number 4 value 0;
  s ← expect "-" s;
  '(m, s) ← number 2 s 0;
  s ← expect "-" s;
  '(d, s) ← number 2 s 0;
  s ← expect "T" s;
  '(hh, s) ← number 2 s 0;
  s ← expect ":" s;
  '(mm, s) ← number 2 s 0;
  s ← expect ":" s;
  '(ss, s) ← number 2 s 0;
  '(ns, s) ←
    match s with
    | String "." (String c s') =>
        match digit c with
        | Some _ => fraction (String c s') 100000000
        | None => None
        end
    | _ => Some (0, s)
    end;
  if decide (s = "Z") then
    if (1 <=? m) && (m <=? 12) && (1 <=? d) && (d <=? daysIn y m)
       && (hh <? 24) && (mm <? 60) && (ss <? 60)
    then
      Some ((((daysFromCivil y m d * 24 + hh) * 60 + mm) * 60 + ss)
            * 1000000000 + ns)
    else None
  else None.

Definition escape : ascii := ascii_of_nat 27.

Definition Color (str : string) (color : Z) : string :=
  String escape ("[3" +:+ String (ascii_of_nat (48 + Z.to_nat color)) "m")
  +:+ str +:+ String escape "[0m".

Definition lib : GoLib :=
  {| time_Parse := Parse;
     goterm_Color := Color;
     errors_New := ErrorString;
     errors_WithContext := Wrapped |}.
End Sample.


(** ** Concrete runs

    Two services read without [Follow]: [web] delivers one line and then the
    end of its stream, the stream of [db] fails to open.  One service read
    with [Follow]: its stream breaks, and is opened again.  Two services with
    [Follow]: the container of [web] exits. *)
Module Demo.
Definition nl : string := String strings.newline EmptyString.
Definition hello : string := "2020-03-01T12:00:00Z hello".
Definition helloTime : Time := 63718660800000000000.
Definition garbled : string := "not-a-timestamp hello".

Definition cmd : Command := mkCommand ["web"; "db"] false.

Definition schedule : list label :=
  [Reader 0 StreamOpened; Reader 1 (StreamFailed (ErrorString "no pod"));
   Reader 0 (ReadString (hello +:+ nl) None 10); Reader 0 ChanSend;
   Printer Receive; Watcher; Watcher;
   Reader 1 Lock; Reader 1 Update; Reader 1 Unlock;
   Reader 0 (ReadString EmptyString (Some EOF) 20); Reader 0 ChanSend;
   Reader 0 Lock; Reader 0 Update; Reader 0 Unlock;
   Watcher; Watcher; Watcher;
   Printer Cancellation; Printer Drain; Printer Drain].

Definition final : state :=
  default (init cmd) (@run Sample.lib cmd schedule (init cmd)).

(** After the first step of [schedule]. *)
Definition opened : state :=
  default (init cmd) (@run Sample.lib cmd (take 1 schedule) (init cmd)).

(** An interrupt while one line is queued. *)
Definition interrupted : state :=
  default (init cmd)
    (@run Sample.lib cmd (take 4 schedule ++ [Interrupt]) (init cmd)).

Definition cmdFollow : Command := mkCommand ["web"] true.

Definition reconnect : list label :=
  [Reader 0 StreamOpened;
   Reader 0 (ReadString (hello +:+ nl) None 10); Reader 0 ChanSend;
   Reader 0 (ReadString EmptyString (Some (ErrorString "unexpected EOF")) 20);
   Reader 0 ChanSend; Reader 0 TimerFired; Reader 0 StreamOpened;
   Reader 0 (ReadString hello (Some EOF) 30); Reader 0 ChanSend].

Definition reconnected : state :=
  default (init cmdFollow)
    (@run Sample.lib cmdFollow reconnect (init cmdFollow)).

Definition cmdFollow2 : Command := mkCommand ["web"; "db"] true.

Definition exit : list label :=
  [Reader 0 StreamOpened;
   Reader 0 (ReadString EmptyString (Some EOF) 20); Reader 0 ChanSend;
   Reader 0 PodExited; Printer Receive; Printer FlushTimer].

Definition exited : state :=
  default (init cmdFollow2)
    (@run Sample.lib cmdFollow2 exit (init cmdFollow2)).

Definition window : list rawLogLine :=
  [mkRaw None "web" garbled 42; mkRaw None "db" hello 50].
End Demo.

(** ** Invariants of [Run] *)

(** A reader is counted in [runningCount] from its start, or from its
    increment after a restart, up to its decrement. *)
Definition counted (pc : readerPC) : bool :=
  match pc with
  | DecDone _ | AwaitRestart | IncWait | IncLocked | Exited => false
  | _ => true
  end.

(** The points between [Lock] and [Unlock]. *)
Definition holdsLock (pc : readerPC) : bool :=
  match pc with
  | DecLocked _ | DecDone _ | IncLocked | IncDone => true
  | _ => false
  end.

(** The points that only a reader that follows can reach. *)
Definition restarting (pc : readerPC) : bool :=
  match pc with
  | FwdOpenFailed _ _ _ | FwdRecvErr _ _ _
  | AwaitRestart | IncWait | IncLocked | IncDone => true
  | _ => false
  end.

(** The number of readers that are counted. *)
Definition tailing (pcs : list readerPC) : Z :=
  Z.of_nat (length (filter (fun pc => counted pc = true) pcs)).

(** The wake-up that a decrement to zero gives the watcher. *)
Definition wake (count : Z) (w : watcherPC) : watcherPC :=
  if decide (count = 0) then
    match w with WWaiting => WWoken | _ => w end
  else w.

(** What a step of reader [i] from [pc] to [pc'] does to the counter and its
    lock. *)
Inductive readerEffect (i : nat) (pc pc' : readerPC) (s s' : state) : Prop :=
| effect_local :
    counted pc' = counted pc -> holdsLock pc = false ->
    holdsLock pc' = false ->
    runningCount s' = runningCount s -> mutex s' = mutex s ->
    watcher s' = watcher s ->
    readerEffect i pc pc' s s'
| effect_lock :
    mutex s = None -> mutex s' = Some (HReader i) ->
    counted pc' = counted pc -> holdsLock pc = false ->
    holdsLock pc' = true ->
    runningCount s' = runningCount s -> watcher s' = watcher s ->
    readerEffect i pc pc' s s'
| effect_decrement err :
    pc = DecLocked err -> pc' = DecDone err ->
    runningCount s' = runningCount s - 1 -> mutex s' = mutex s ->
    watcher s' = wake (runningCount s - 1) (watcher s) ->
    readerEffect i pc pc' s s'
| effect_increment :
    pc = IncLocked -> pc' = IncDone ->
    runningCount s' = runningCount s + 1 -> mutex s' = mutex s ->
    watcher s' = watcher s ->
    readerEffect i pc pc' s s'
| effect_unlock :
    mutex s' = None ->
    counted pc' = counted pc -> holdsLock pc = true ->
    holdsLock pc' = false ->
    runningCount s' = runningCount s -> watcher s' = watcher s ->
    readerEffect i pc pc' s s'.

Record invariant (cmd : Command) (s : state) : Prop := {
  inv_length : length (readers s) = length (Services cmd);
  inv_count : runningCount s = tailing (readers s);
  inv_reader_lock : forall i pc,
    readers s !! i = Some pc -> holdsLock pc = true ->
    mutex s = Some (HReader i);
  inv_watcher_lock : watcher s = WLocked -> mutex s = Some HWatcher;
  inv_mutex_reader : forall i,
    mutex s = Some (HReader i) ->
    exists pc, readers s !! i = Some pc /\ holdsLock pc = true;
  inv_mutex_watcher : mutex s = Some HWatcher -> watcher s = WLocked;
  inv_waiting : watcher s = WWaiting -> runningCount s > 0;
  inv_closed : closed s = false;
  inv_cancelled :
    cancelled s = true -> signalHandler s = false \/ watcher s = WDone;
  inv_drain : printer s = PDrain -> cancelled s = true;
  inv_returned : forall err,
    printer s = PReturned err -> err = None /\ cancelled s = true;
  inv_done : watcher s = WDone -> cancelled s = true;
}.

(** What holds besides when no reader follows. *)
Record invariantNoFollow (s : state) : Prop := {
  nf_readers : Forall (fun pc => restarting pc = false) (readers s);
  nf_watcher :
    watcher s = WWoken \/ watcher s = WCancel \/ watcher s = WDone ->
    runningCount s = 0;
}.

(** The points after the return of [forwardLogs], when no reader follows. *)
Definition returned (pc : readerPC) : bool :=
  match pc with
  | Returned _ | DecLocked _ | DecDone _ | Exited => true
  | _ => false
  end.

Definition allReturned (s : state) : Prop :=
  Forall (fun pc => returned pc = true) (readers s).

(** A bound on the steps that are left once every reader has returned. *)
Definition readerFuel (pc : readerPC) : nat :=
  match pc with
  | Returned _ => 3
  | DecLocked _ => 2
  | DecDone _ => 1
  | _ => 0
  end.

Definition watcherFuel (s : state) : nat :=
  match watcher s with
  | WStart => 6
  | WLocked => if decide (runningCount s > 0) then 5 else 2
  | WWaiting => 4
  | WWoken => 3
  | WCancel => 1
  | WDone => 0
  end.

Definition printerFuel (s : state) : nat :=
  match printer s with
  | PLoop =>
      2 * length (combinedLogs s) + (if flushTrigger s then 1 else 0) + 2
  | PDrain => length (combinedLogs s) + 1
  | PReturned _ => 0
  end.

(** The lines that reader [i] has sent so far. *)
Definition sentBy (i : nat) (s : state) : list (nat * rawLogLine) :=
  filter (fun x => x.1 = i) (sent s).

(** What reader [i] has sent, by the point where it stands, when no reader
    follows: nothing before its stream is open, lines without an error while
    it reads, and after the return of [forwardLogs] either nothing (the
    stream did not open) or lines without an error and then one line with the
    error that ended the read. *)
Definition ended (i : nat) (history : list (nat * rawLogLine)) : Prop :=
  history = [] \/
  exists lines line err,
    history = lines ++ [(i, line)] /\ error line = Some err /\
    Forall (fun x => error x.2 = None) lines.

Definition historyAt (i : nat) (pc : readerPC)
    (history : list (nat * rawLogLine)) : Prop :=
  match pc with
  | FwdOpen _ _ => history = []
  | FwdRead _ _ | FwdSend _ _ _ =>
      Forall (fun x => error x.2 = None) history
  | Returned _ | DecLocked _ | DecDone _ | Exited => ended i history
  | _ => True
  end.

Definition fuel (s : state) : nat :=
  sum_list (readerFuel <$> readers s) + watcherFuel s + printerFuel s
  + (if signalHandler s then 1 else 0).

(** ** Further notions used in the statements

    Whether an entry of a window holds a line: it came without an error, or
    its message is not empty. *)
Definition holdsLine (rawLog : rawLogLine) : Prop :=
  error rawLog = None \/ message rawLog <> EmptyString.

#[global] Instance holdsLine_dec (rawLog : rawLogLine) :
  Decision (holdsLine rawLog).
Proof. unfold holdsLine. apply _. Defined.

(** The points inside [forwardLogs], with its two locals. *)
Definition forwardLocals (pc : readerPC) : option (Time * Time) :=
  match pc with
  | FwdOpen last since | FwdOpenFailed last since _ | FwdRead last since
  | FwdSend last since _ | FwdRecvErr last since _ => Some (last, since)
  | _ => None
  end.

(** The order that [forwardLogs] keeps between its locals. *)
Definition localsOrdered (pc : readerPC) : Prop :=
  match forwardLocals pc with
  | Some (last, since) => 0 <= since <= last
  | None => True
  end.

(** Every line sent is accounted for: the lines sent, in the order of their
    sends, are the lines already flushed, then the window, then the buffer of
    the channel; and [os.Stdout] has one line for each flushed entry that
    holds a line. *)
Definition linesAccounted (s : state) : Prop :=
  exists flushed,
    (snd <$> sent s) = flushed ++ window s ++ combinedLogs s /\
    length (stdout s) = length (filter holdsLine flushed).

(** * The first version of the command ([cli/logs/logs.go])

    The version without reconnection: [run] opens every stream itself, counts
    the readers with a [sync.WaitGroup], and a further goroutine closes
    [combinedLogs] once they are done; [printLogs] returns an error for a line
    that carries a read error.  [parseLogLine] and [pickColor] are those
    above. *)
Module cli_logs.

Record rawLogLine : Type := mkRaw {
  readError : option GoError;
  fromContainer : string;
  message : string;
  receivedAt : Time;
}.

Record parsedLogLine : Type := mkParsed {
  pFromContainer : string;
  pMessage : string;
  loggedAt : Time;
}.

(** The field of [logsCommand] that [run] reads besides the clients;
    [opts] goes to the log request as it is. *)
Record logsCommand : Type := mkCommand {
  containers : list string;
}.

(** [sort.Slice] of the Go standard library: a sort that need not be
    stable.  The development is parametric in it; [SliceContract] is what
    its documentation promises, for a [less] that compares an integer key. *)
Class GoSort : Type := {
  sort_Slice : forall A : Type, (A -> A -> bool) -> list A -> list A;
}.

Record SliceContract `{GoSort} : Prop := {
  Slice_Permutation : forall (A : Type) (less : A -> A -> bool) (l : list A),
    sort_Slice A less l ≡ₚ l;
  Slice_sorted : forall (A : Type) (key : A -> Z) (l : list A),
    StronglySorted (fun a b => key a <= key b)
      (sort_Slice A (fun a b => key a <? key b) l);
}.

(** The text of [fmt.Errorf] with a [%w] verb: the error wraps its cause. *)
Definition fmt_Errorf (context : string) (err : GoError) : GoError :=
  Wrapped context err.

(** ** The flush of a window *)

(** One iteration of the parsing loop of [flush]. *)
Definition parseRaw `{GoLib} (rawLog : rawLogLine) : parsedLogLine :=
  let '(message0, timestamp0, err) := parseLogLine (message rawLog) in
  let '(message1, timestamp1) :=
    match err with
    | Some _ => (message rawLog, receivedAt rawLog)
    | None => (message0, timestamp0)
    end in
  mkParsed (fromContainer rawLog) message1 timestamp1.

Definition parseWindow `{GoLib} (window : list rawLogLine)
  : list parsedLogLine :=
  fold_left (fun parsedLogs rawLog => parsedLogs ++ [parseRaw rawLog]) window [].

Definition byLogTime (a b : parsedLogLine) : bool :=
  time.Before (loggedAt a) (loggedAt b).

(** One iteration of the printing loop of [flush]; [None] is a panic of
    [pickColor]. *)
Definition printLine `{GoLib} (noColor : bool) (log : parsedLogLine)
  : option string :=
  if noColor then Some (pMessage log +:+ String strings.newline EmptyString)
  else
    color ← pickColor (pFromContainer log);
    let coloredContainer := goterm_Color (pFromContainer log) color in
    Some (coloredContainer +:+ " › " +:+ pMessage log
          +:+ String strings.newline EmptyString).

Definition flush `{GoLib} `{GoSort} (noColor : bool)
    (window : list rawLogLine) : option (list string) :=
  let parsedLogs := parseWindow window in
  let parsedLogs := sort_Slice _ byLogTime parsedLogs in
  mapM (printLine noColor) parsedLogs.

(** ** The goroutines of [run] *)

(** Where the goroutine of one container stands: not yet started by the loop
    of [run], before [scanner.Scan()], at the send of a scanned line, at the
    send of the line that carries the error of the scanner, back from
    [forwardLogs] and before [wg.Done()], done. *)
Inductive readerPC : Type :=
| NotStarted
| Scan
| Send (line : rawLogLine)
| SendError (line : rawLogLine)
| Returned
| Done.

#[global] Instance legacy_rawLogLine_eq_dec : EqDecision rawLogLine.
Proof. solve_decision. Defined.
#[global] Instance legacy_readerPC_eq_dec : EqDecision readerPC.
Proof. solve_decision. Defined.

(** The thread of [run]: in its loop before [logsReq.Stream()] of container
    number [k], in the [select] of [printLogs], or returned. *)
Inductive mainPC : Type :=
| Opening (k : nat)
| Printing
| Finished (err : option GoError).

(** The goroutine that closes the channel: not started, in [wg.Wait()],
    before [close(combinedLogs)], done. *)
Inductive closerPC : Type :=
| CIdle
| CWait
| CClose
| CDone.

(** The state of [run].  [panicked] records a run-time panic (a send on the
    closed channel, a second [close], a negative counter of the wait group);
    [sent] is a history variable as above. *)
Record state : Type := mkState {
  main : mainPC;
  readers : list readerPC;
  wg : Z;
  closer : closerPC;
  signalHandler : bool;
  cancelled : bool;
  combinedLogs : list rawLogLine;
  closed : bool;
  panicked : bool;
  window : list rawLogLine;
  flushTrigger : bool;
  stdout : list string;
  sent : list (nat * rawLogLine);
}.

Definition set_main v s :=
  mkState v (readers s) (wg s) (closer s) (signalHandler s) (cancelled s)
    (combinedLogs s) (closed s) (panicked s) (window s) (flushTrigger s)
    (stdout s) (sent s).
Definition set_readers v s :=
  mkState (main s) v (wg s) (closer s) (signalHandler s) (cancelled s)
    (combinedLogs s) (closed s) (panicked s) (window s) (flushTrigger s)
    (stdout s) (sent s).
Definition set_wg v s :=
  mkState (main s) (readers s) v (closer s) (signalHandler s) (cancelled s)
    (combinedLogs s) (closed s) (panicked s) (window s) (flushTrigger s)
    (stdout s) (sent s).
Definition set_closer v s :=
  mkState (main s) (readers s) (wg s) v (signalHandler s) (cancelled s)
    (combinedLogs s) (closed s) (panicked s) (window s) (flushTrigger s)
    (stdout s) (sent s).
Definition set_signalHandler v s :=
  mkState (main s) (readers s) (wg s) (closer s) v (cancelled s)
    (combinedLogs s) (closed s) (panicked s) (window s) (flushTrigger s)
    (stdout s) (sent s).
Definition set_cancelled v s :=
  mkState (main s) (readers s) (wg s) (closer s) (signalHandler s) v
    (combinedLogs s) (closed s) (panicked s) (window s) (flushTrigger s)
    (stdout s) (sent s).
Definition set_combinedLogs v s :=
  mkState (main s) (readers s) (wg s) (closer s) (signalHandler s)
    (cancelled s) v (closed s) (panicked s) (window s) (flushTrigger s)
    (stdout s) (sent s).
Definition set_closed v s :=
  mkState (main s) (readers s) (wg s) (closer s) (signalHandler s)
    (cancelled s) (combinedLogs s) v (panicked s) (window s) (flushTrigger s)
    (stdout s) (sent s).
Definition set_panicked v s :=
  mkState (main s) (readers s) (wg s) (closer s) (signalHandler s)
    (cancelled s) (combinedLogs s) (closed s) v (window s) (flushTrigger s)
    (stdout s) (sent s).
Definition set_window v s :=
  mkState (main s) (readers s) (wg s) (closer s) (signalHandler s)
    (cancelled s) (combinedLogs s) (closed s) (panicked s) v (flushTrigger s)
    (stdout s) (sent s).
Definition set_flushTrigger v s :=
  mkState (main s) (readers s) (wg s) (closer s) (signalHandler s)
    (cancelled s) (combinedLogs s) (closed s) (panicked s) (window s) v
    (stdout s) (sent s).
Definition set_stdout v s :=
  mkState (main s) (readers s) (wg s) (closer s) (signalHandler s)
    (cancelled s) (combinedLogs s) (closed s) (panicked s) (window s)
    (flushTrigger s) v (sent s).
Definition set_sent v s :=
  mkState (main s) (readers s) (wg s) (closer s) (signalHandler s)
    (cancelled s) (combinedLogs s) (closed s) (panicked s) (window s)
    (flushTrigger s) (stdout s) v.

Definition set_reader (i : nat) (pc : readerPC) (s : state) : state :=
  set_readers (<[i:=pc]> (readers s)) s.

(** The state in which [run] enters its loop over the containers. *)
Definition init (cmd : logsCommand) : state :=
  {| main := Opening 0;
     readers := (fun _ => NotStarted) <$> containers cmd;
     wg := 0;
     closer := CIdle;
     signalHandler := true;
     cancelled := false;
     combinedLogs := [];
     closed := false;
     panicked := false;
     window := [];
     flushTrigger := false;
     stdout := [];
     sent := [] |}.

(** The capacity of [combinedLogs]. *)
Definition capacity (cmd : logsCommand) : nat :=
  (length (containers cmd) * 32)%nat.

Definition noColor (cmd : logsCommand) : bool :=
  bool_decide (length (containers cmd) = 1%nat).

(** What a reader's next step depends on: the outcome of [scanner.Scan()]
    (a line with the [time.Now()] of its entry, or the end with
    [scanner.Err()]), or nothing. *)
Inductive readerEvent : Type :=
| Scanned (text : string) (now : Time)
| ScanEnded (err : option GoError)
| ChanSend
| WgDone.

(** What the next step of the thread of [run] depends on: the outcome of
    [logsReq.Stream()], the end of the loop, or the case that the [select]
    of [printLogs] takes. *)
Inductive mainEvent : Type :=
| StreamOpened
| StreamFailed (err : GoError)
| StartPrinting
| Receive
| FlushTimer
| Cancellation.

Inductive label : Type :=
| Main (ev : mainEvent)
| Reader (i : nat) (ev : readerEvent)
| Closer
| Interrupt.

(** [combinedLogs <- line]: a panic when the channel is closed, blocked
    when its buffer is full. *)
Definition send (cmd : logsCommand) (i : nat) (line : rawLogLine)
    (next : readerPC) (s : state) : option state :=
  if closed s then Some (set_panicked true s)
  else if decide (length (combinedLogs s) < capacity cmd)%nat then
    Some (set_reader i next
            (set_sent (sent s ++ [(i, line)])
               (set_combinedLogs (combinedLogs s ++ [line]) s)))
  else None.

(** One step inside [forwardLogs] for container number [i]. *)
Definition forwardLogs (cmd : logsCommand) (i : nat) (container : string)
    (ev : readerEvent) (pc : readerPC) (s : state) : option state :=
  match pc, ev with
  (* scanned := scanner.Scan() *)
  | Scan, Scanned text now =>
      Some (set_reader i
              (Send {| fromContainer := container;
                       message := text;
                       receivedAt := now;
                       readError := None |}) s)
  | Scan, ScanEnded (Some err) =>
      Some (set_reader i
              (SendError {| fromContainer := container;
                            readError := Some err;
                            message := EmptyString;
                            receivedAt := time.zero |}) s)
  | Scan, ScanEnded None => Some (set_reader i Returned s)
  | Send line, ChanSend => send cmd i line Scan s
  | SendError line, ChanSend => send cmd i line Returned s
  | _, _ => None
  end.

(** One step of the goroutine of container number [i]: inside
    [forwardLogs], or [wg.Done()]. *)
Definition readerStep (cmd : logsCommand) (i : nat) (container : string)
    (ev : readerEvent) (pc : readerPC) (s : state) : option state :=
  match pc, ev with
  | Returned, WgDone =>
      if decide (wg s - 1 < 0) then Some (set_panicked true s)
      else Some (set_reader i Done (set_wg (wg s - 1) s))
  | _, _ => forwardLogs cmd i container ev pc s
  end.

(** One step of the goroutine that runs [wg.Wait(); close(combinedLogs)]. *)
Definition closerStep (s : state) : option state :=
  match closer s with
  | CWait => if decide (wg s = 0) then Some (set_closer CClose s) else None
  | CClose =>
      if closed s then Some (set_panicked true s)
      else Some (set_closer CDone (set_closed true s))
  | _ => None
  end.

(** One case of the [select] of [printLogs]. *)
Definition printLogs `{GoLib} `{GoSort} (cmd : logsCommand) (ev : mainEvent)
    (s : state) : option state :=
  match ev with
  | Receive =>
      match combinedLogs s with
      | logLine :: rest =>
          match readError logLine with
          | Some err =>
              Some (set_main
                      (Finished
                         (Some (fmt_Errorf
                                  ("read logs for " +:+ fromContainer logLine)
                                  err)))
                      (set_combinedLogs rest s))
          | None =>
              Some (set_flushTrigger true
                      (set_window (window s ++ [logLine])
                         (set_combinedLogs rest s)))
          end
      | [] =>
          if closed s then
            out ← flush (noColor cmd) (window s);
            Some (set_main (Finished None)
                    (set_window [] (set_stdout (stdout s ++ out) s)))
          else None
      end
  | FlushTimer =>
      if flushTrigger s then
        out ← flush (noColor cmd) (window s);
        Some (set_flushTrigger false
                (set_window [] (set_stdout (stdout s ++ out) s)))
      else None
  | Cancellation =>
      if cancelled s then Some (set_main (Finished None) s) else None
  | _ => None
  end.

(** One step of the thread of [run]: one turn of its loop (a stream that
    opens is followed by [wg.Add(1)] and the [go] statement), the start of
    the closing goroutine and the call of [printLogs], or a step of
    [printLogs]. *)
Definition mainStep `{GoLib} `{GoSort} (cmd : logsCommand) (ev : mainEvent)
    (s : state) : option state :=
  match main s, ev with
  | Opening k, StreamOpened =>
      if decide (k < length (containers cmd))%nat then
        Some (set_main (Opening (S k))
                (set_wg (wg s + 1) (set_reader k Scan s)))
      else None
  | Opening k, StreamFailed err =>
      if decide (k < length (containers cmd))%nat then
        Some (set_main (Finished (Some (fmt_Errorf "start logs stream" err)))
                s)
      else None
  | Opening k, StartPrinting =>
      if decide (k = length (containers cmd)) then
        Some (set_main Printing (set_closer CWait s))
      else None
  | Printing, _ => printLogs cmd ev s
  | _, _ => None
  end.

Definition interruptStep (s : state) : option state :=
  if signalHandler s then
    Some (set_signalHandler false (set_cancelled true s))
  else None.

(** A panic ends the program. *)
Definition step `{GoLib} `{GoSort} (cmd : logsCommand) (l : label)
    (s : state) : option state :=
  if panicked s then None
  else
    match l with
    | Main ev => mainStep cmd ev s
    | Reader i ev =>
        pc ← readers s !! i;
        container ← containers cmd !! i;
        readerStep cmd i container ev pc s
    | Closer => closerStep s
    | Interrupt => interruptStep s
    end.

Fixpoint run `{GoLib} `{GoSort} (cmd : logsCommand) (ls : list label)
    (s : state) : option state :=
  match ls with
  | [] => Some s
  | l :: ls' => s' ← step cmd l s; run cmd ls' s'
  end.

Inductive reachable `{GoLib} `{GoSort} (cmd : logsCommand) : state -> Prop :=
| reachable_init : reachable cmd (init cmd)
| reachable_step l s s' :
    reachable cmd s -> step cmd l s = Some s' -> reachable cmd s'.

(** ** Invariants of [run] *)

(** A reader that the wait group counts. *)
Definition active (pc : readerPC) : bool :=
  match pc with
  | Scan | Send _ | SendError _ | Returned => true
  | NotStarted | Done => false
  end.

Definition counter (pcs : list readerPC) : Z :=
  Z.of_nat (length (filter (fun pc => active pc = true) pcs)).

(** The last point of [forwardLogs] and what lies behind it. *)
Definition finished (pc : readerPC) : bool :=
  match pc with
  | Returned | Done => true
  | _ => false
  end.

Record invariant (cmd : logsCommand) (s : state) : Prop := {
  inv_length : length (readers s) = length (containers cmd);
  inv_panicked : panicked s = false;
  inv_wg : wg s = counter (readers s);
  inv_opening : forall k,
    main s = Opening k ->
    (k <= length (containers cmd))%nat /\ closer s = CIdle /\
    forall i pc, readers s !! i = Some pc ->
      ((i < k)%nat -> pc <> NotStarted) /\ ((k <= i)%nat -> pc = NotStarted);
  inv_started :
    closer s <> CIdle -> Forall (fun pc => pc <> NotStarted) (readers s);
  inv_close :
    closer s = CClose \/ closer s = CDone ->
    Forall (fun pc => pc = Done) (readers s);
  inv_closed : closed s = true <-> closer s = CDone;
}.

(** The lines are accounted for while [printLogs] has not returned: those
    sent are those flushed, then the window, then the buffer; the flushed
    ones and the window carry no error, and each flushed one was printed. *)
Definition linesAccounted (s : state) : Prop :=
  exists flushed,
    (snd <$> sent s) = flushed ++ window s ++ combinedLogs s /\
    Forall (fun line => readError line = None) (flushed ++ window s) /\
    length (stdout s) = length flushed.

(** The lines that reader [i] has sent. *)
Definition sentBy (i : nat) (s : state) : list rawLogLine :=
  snd <$> filter (fun x => x.1 = i) (sent s).

(** [run] returned after the channel was closed and emptied: every line
    that was sent has been printed. *)
Definition allPrinted (s : state) : Prop :=
  closed s = true /\ combinedLogs s = [] /\ window s = [] /\
  Forall (fun x => readError x.2 = None) (sent s) /\
  length (stdout s) = length (sent s).

(** The line that a reader of [container] is about to send. *)
Definition pendingAt (container : string) (pc : readerPC) : Prop :=
  match pc with
  | Send line => fromContainer line = container /\ readError line = None
  | SendError line =>
      fromContainer line = container /\ is_Some (readError line) /\
      message line = EmptyString
  | _ => True
  end.

(** What a reader has sent, by the point where it stands: only a reader
    that is back from [forwardLogs] can have sent a line with an error, as
    its last line. *)
Definition historyAt (pc : readerPC) (history : list rawLogLine) : Prop :=
  match pc with
  | NotStarted => history = []
  | Scan | Send _ | SendError _ =>
      Forall (fun line => readError line = None) history
  | Returned | Done =>
      Forall (fun line => readError line = None) history \/
      exists lines line,
        history = lines ++ [line] /\
        Forall (fun line => readError line = None) lines /\
        is_Some (readError line) /\ message line = EmptyString
  end.

(** What [run] keeps about the lines: a line in the buffer was sent, a line
    that was sent names the container of its reader, a pending line is as
    [forwardLogs] builds it, and the lines of a reader are as [historyAt]
    says. *)
Record history (cmd : logsCommand) (s : state) : Prop := {
  hist_buffer : forall line,
    line ∈ combinedLogs s -> exists i, (i, line) ∈ sent s;
  hist_from : forall i line,
    (i, line) ∈ sent s -> containers cmd !! i = Some (fromContainer line);
  hist_pending : forall i pc container,
    readers s !! i = Some pc -> containers cmd !! i = Some container ->
    pendingAt container pc;
  hist_sent : forall i pc,
    readers s !! i = Some pc -> historyAt pc (sentBy i s);
}.

(** Where the error that [run] returned comes from: a stream that did not
    open, or a line with a read error that [printLogs] received. *)
Definition errorOrigin (cmd : logsCommand) (s : state) (err : GoError)
  : Prop :=
  (exists k e,
      err = fmt_Errorf "start logs stream" e /\
      readers s !! k = Some NotStarted /\ closer s = CIdle) \/
  (exists i line e,
      err = fmt_Errorf ("read logs for " +:+ fromContainer line) e /\
      (i, line) ∈ sent s /\ readError line = Some e).

(** What holds of the lines by the point where the thread of [run] stands:
    they are accounted for until [printLogs] returns, and a return with nil
    is either one after a cancellation or one with every line printed. *)
Definition accountedAt (s : state) : Prop :=
  match main s with
  | Finished None => cancelled s = true \/ allPrinted s
  | Finished (Some _) => True
  | _ => linesAccounted s
  end.

(** Every reader is back from [forwardLogs]. *)
Definition allFinished (s : state) : Prop :=
  Forall (fun pc => finished pc = true) (readers s).

(** A bound on the steps that are left once [printLogs] runs and every
    reader is back from [forwardLogs]. *)
Definition readerFuel (pc : readerPC) : nat :=
  match pc with
  | Returned => 1
  | _ => 0
  end.

Definition closerFuel (s : state) : nat :=
  match closer s with
  | CWait => 2
  | CClose => 1
  | _ => 0
  end.

Definition printerFuel (s : state) : nat :=
  match main s with
  | Printing =>
      2 * length (combinedLogs s) + (if flushTrigger s then 1 else 0) + 1
  | _ => 0
  end.

Definition fuel (s : state) : nat :=
  sum_list (readerFuel <$> readers s) + closerFuel s + printerFuel s
  + (if signalHandler s then 1 else 0).

(** The moves of a reader, with the line that the move sends. *)
Inductive readerMove (container : string)
  : readerPC -> readerPC -> option rawLogLine -> Prop :=
| move_scanned text now :
    readerMove container Scan
      (Send (mkRaw None container text now)) None
| move_failed err :
    readerMove container Scan
      (SendError (mkRaw (Some err) container EmptyString time.zero)) None
| move_ended : readerMove container Scan Returned None
| move_send line : readerMove container (Send line) Scan (Some line)
| move_sendError line :
    readerMove container (SendError line) Returned (Some line)
| move_done : readerMove container Returned Done None.

(** ** Concrete runs

    [sort.Slice] as the insertion sort above.  Two containers: [web]
    delivers one line and its stream ends, the scanner of [db] fails. *)
Module Demo.
Definition insertion : GoSort := {| sort_Slice := @sort.SliceStable |}.

Definition cmd : logsCommand := mkCommand ["web"; "db"].

Definition opening : list label :=
  [Main StreamOpened; Main StreamOpened; Main StartPrinting].

(** The scanner of [db] reports the end of its stream without an error. *)
Definition clean : list label :=
  opening ++
  [Reader 0 (Scanned "2020-03-01T12:00:00Z hello" 10); Reader 0 ChanSend;
   Reader 1 (ScanEnded None); Reader 0 (ScanEnded None);
   Main Receive; Reader 0 WgDone; Reader 1 WgDone;
   Closer; Closer; Main Receive].

(** The scanner of [db] fails while the line of [web] is in the window. *)
Definition failing : list label :=
  opening ++
  [Reader 0 (Scanned "2020-03-01T12:00:00Z hello" 10); Reader 0 ChanSend;
   Main Receive;
   Reader 1 (ScanEnded (Some (ErrorString "token too long")));
   Reader 1 ChanSend; Main Receive].

Definition window : list rawLogLine :=
  [mkRaw None "web" "2020-03-01T12:00:01Z second" 42;
   mkRaw None "db" "2020-03-01T12:00:00Z first" 50;
   mkRaw None "db" "no timestamp" 60].
End Demo.
End cli_logs.

(** An entry of the first version as an entry of the later one. *)
Definition upgrade (rawLog : cli_logs.rawLogLine) : rawLogLine :=
  {| error := cli_logs.readError rawLog;
     fromContainer := cli_logs.fromContainer rawLog;
     message := cli_logs.message rawLog;
     receivedAt := cli_logs.receivedAt rawLog |}.

Definition upgradeParsed (log : cli_logs.parsedLogLine) : parsedLogLine :=
  {| pFromContainer := cli_logs.pFromContainer log;
     pMessage := cli_logs.pMessage log;
     loggedAt := cli_logs.loggedAt log;
     formatOverride := EmptyString |}.

(** * The context of a YAML error ([pkg/dockercompose])

    [getErrorContext] with the calls it makes into the Go standard library,
    each specialised to the arguments it gets here.  [int] is taken to have
    64 bits. *)
Module dockercompose.

(** The value of an [int] expression, wrapped around. *)
Definition int (z : Z) : Z := (z + 2 ^ 63) mod 2 ^ 64 - 2 ^ 63.

Definition isDigit (c : ascii) : bool :=
  let n := N_of_ascii c in ((48 <=? n) && (n <=? 57))%N.

(** The rest of [s] behind the prefix [p], if [s] starts with [p]. *)
Fixpoint cutPrefix (p s : string) : option string :=
  match p, s with
  | EmptyString, _ => Some s
  | String a p', String b s' => if Ascii.eqb a b then cutPrefix p' s' else None
  | String _ _, EmptyString => None
  end.

(** The longest prefix of digits, and the rest. *)
Fixpoint spanDigits (s : string) : string * string :=
  match s with
  | String c s' =>
      if isDigit c then
        let '(digits, rest) := spanDigits s' in (String c digits, rest)
      else (EmptyString, s)
  | EmptyString => (EmptyString, EmptyString)
  end.

(** A match of [yaml: line ?(\d+):] at the start of [s]: the text of the
    group.  Either repetition has one way to match: a space cannot start the
    digits, and a digit cannot be the colon. *)
Definition matchHere (s : string) : option string :=
  rest ← cutPrefix "yaml: line" s;
  let rest := match rest with String " " rest' => rest' | _ => rest end in
  let '(digits, rest) := spanDigits rest in
  match digits, rest with
  | String _ _, String ":" _ => Some digits
  | _, _ => None
  end.

(** [regexp.MustCompile(`yaml: line ?(\d+):`).FindSubmatch]: the group of
    the leftmost match; [None] when nothing matches ([len(matches) == 0]). *)
Fixpoint FindSubmatch (s : string) : option string :=
  match matchHere s with
  | Some digits => Some digits
  | None =>
      match s with
      | String _ s' => FindSubmatch s'
      | EmptyString => None
      end
  end.

(** The value of a text of decimal digits; [None] when another character
    occurs. *)
Fixpoint digitsValue (s : string) (acc : Z) : option Z :=
  match s with
  | EmptyString => Some acc
  | String c s' =>
      if isDigit c then
        digitsValue s' (10 * acc + (Z.of_N (N_of_ascii c) - 48))
      else None
  end.

(** [strconv.Atoi]: an optional sign, then digits; [None] stands for a
    non-nil error (bad syntax, or a value outside [int]). *)
Definition Atoi (s : string) : option Z :=
  let '(neg, body) :=
    match s with
    | String "+" s' => (false, s')
    | String "-" s' => (true, s')
    | _ => (false, s)
    end in
  match body with
  | EmptyString => None
  | String _ _ =>
      n ← digitsValue body 0;
      let v := if neg : bool then - n else n in
      if (- 2 ^ 63 <=? v) && (v <? 2 ^ 63) then Some v else None
  end.

(** [strings.Split(s, "\n")]. *)
Fixpoint Split (s : string) : list string :=
  match s with
  | EmptyString => [EmptyString]
  | String c s' =>
      if Ascii.eqb c strings.newline then EmptyString :: Split s'
      else
        match Split s' with
        | x :: xs => String c x :: xs
        | [] => [String c EmptyString]
        end
  end.

(** [strings.Join(elems, "\n")]. *)
Fixpoint Join (elems : list string) : string :=
  match elems with
  | [] => EmptyString
  | [x] => x
  | x :: xs => x +:+ String strings.newline (Join xs)
  end.

(** [fmt.Sprintf("%d | %s", i, line)]. *)
Definition Sprintf (i : Z) (line : string) : string :=
  NilZero.string_of_int (Z.to_int i) +:+ " | " +:+ line.

(** [lines[i]]: [None] is the panic of an index out of range. *)
Definition index (lines : list string) (i : Z) : option string :=
  if i <? 0 then None else lines !! Z.to_nat i.

(** The loop [for i := startLine; i <= endLine; i++] of [getErrorContext],
    with [n] turns left; [None] is a panic. *)
Fixpoint contextLines `{GoLib} (lines : list string) (errorLine : Z)
    (i : Z) (n : nat) (printLines : list string) : option (list string) :=
  match n with
  | O => Some printLines
  | S n' =>
      text ← index lines (int (i - 1));
      let line := Sprintf i text in
      let line :=
        if i =? errorLine then goterm_Color line goterm.YELLOW else line in
      contextLines lines errorLine (int (i + 1)) n' (printLines ++ [line])
  end.

(** [getErrorContext]; [None] is a panic. *)
Definition getErrorContext `{GoLib} (file errMsg : string)
  : option (string * bool) :=
  match FindSubmatch errMsg with
  | None => Some (EmptyString, false)
  | Some group =>
      match Atoi group with
      | None => Some (EmptyString, false)
      | Some errorLine =>
          let lines := Split file in
          let inRange (line : Z) : bool := line <=? Z.of_nat (length lines) in
          let startLine := int (errorLine - 1) in
          if negb (inRange startLine) then Some (EmptyString, false)
          else
            let endLine := int (errorLine + 1) in
            match
              (if negb (inRange endLine) then
                 let endLine := errorLine in
                 if negb (inRange endLine) then None else Some endLine
               else Some endLine)
            with
            | None => Some (EmptyString, false)
            | Some endLine =>
                printLines ←
                  contextLines lines errorLine startLine
                    (Z.to_nat (endLine - startLine + 1)) [];
                Some (Join printLines, true)
            end
      end
  end.

(** A text made of decimal digits. *)
Definition allDigits (s : string) : Prop :=
  Forall (fun c => isDigit c = true) (list_ascii_of_string s).

(** ** The environment of [Load] *)

(** The text before and the text behind the first [sep] of [s]. *)
Fixpoint cut (sep : ascii) (s : string) : option (string * string) :=
  match s with
  | EmptyString => None
  | String c s' =>
      if Ascii.eqb c sep then Some (EmptyString, s')
      else match cut sep s' with
           | Some (a, b) => Some (String c a, b)
           | None => None
           end
  end.

(** [strings.SplitN(e, "=", 2)]. *)
Definition SplitN (e : string) : list string :=
  match cut "="%char e with
  | Some (a, b) => [a; b]
  | None => [e]
  end.

(** [parseEnvFile]: [parsed] is what [envfile.Parse] returned, [visits] the
    order in which the [range] goes through it. *)
Definition parseEnvFile (parsed : gmap string (option string) + GoError)
    (visits : list (string * option string))
  : gmap string string + GoError :=
  match parsed with
  | inr err => inr err
  | inl _ =>
      inl (foldl (fun ret '(k, vPtr) =>
                    let v := match vPtr with Some v => v | None => EmptyString end in
                    <[k := v]> ret)
             ∅ visits)
  end.

(** One turn of the loop of [Load] over [os.Environ()]. *)
Definition setenv (env : gmap string string) (e : string)
  : gmap string string :=
  let pair := SplitN e in
  let val := match pair with [_; v] => v | _ => EmptyString end in
  <[hd EmptyString pair := val]> env.

(** The part of [Load] that builds the environment given to the loader:
    [dotenv] is [None] when [os.Stat] finds no [.env] file, and the result
    of [parseEnvFile] otherwise; [environ] is [os.Environ()]. *)
Definition loadEnv `{GoLib} (dotenv : option (gmap string string + GoError))
    (environ : list string) : gmap string string + GoError :=
  let env : gmap string string := ∅ in
  match
    (match dotenv with
     | Some (inl dotenv) => inl dotenv
     | Some (inr err) => inr (errors_WithContext "parse .env file" err)
     | None => inl env
     end)
  with
  | inr err => inr err
  | inl env => inl (foldl setenv env environ)
  end.

(** The name and the value that an entry of [os.Environ()] sets. *)
Definition envKey (e : string) : string := hd EmptyString (SplitN e).
Definition envVal (e : string) : string :=
  match SplitN e with [_; v] => v | _ => EmptyString end.

(** A Compose file of three lines, and two messages of the YAML parser. *)
Module Demo.
Definition file : string :=
  "services:" +:+ String strings.newline
    ("  web" +:+ String strings.newline "    image: nginx").
Definition line2 : string :=
  "yaml: line 2: could not find expected ':'".
Definition line1 : string :=
  "yaml: line 1: did not find expected key".
End Demo.
End dockercompose.

(** * The status printer of [blimp up] ([cli/up/status.go])

    A Go map is a [gmap]; a [range] over a map visits its entries in an
    order that the language leaves open, so each such loop takes the order of
    its visits as an argument.  The pointers to trackers are not shared
    between services, so a tracker is the value stored under its service;
    the statuses of a message are taken to be non-nil. *)
Module up.

Record tracker : Type := mkTracker {
  phase : string;
  timer : Z;
}.

(** The field of [cluster.ServiceStatus] that the printer reads. *)
Record ServiceStatus : Type := mkServiceStatus {
  Phase : string;
}.

(** The field [tracker] is [trackers] here, next to the type of its
    values; the embedded mutex is left to the loop of [Run]. *)
Record statusPrinter : Type := mkStatusPrinter {
  services : list string;
  trackers : gmap string tracker;
  currStatus : gmap string ServiceStatus;
  hasPrinted : bool;
}.

(** What goes to the terminal: the two calls into [goterm] that move the
    cursor, and the lines given to the [tabwriter] on [os.Stdout]. *)
Inductive output : Type :=
| MoveCursorUp (n : nat)
| Flush
| Fprintln (line : string)
| Println (line : string).

(** [goterm.ResetLine], outside the source tree. *)
Class GoTerm : Type := {
  goterm_ResetLine : string -> string;
}.

(** [sort.Strings]: the increasing order of Go strings is the
    lexicographic order of their bytes, and the sorted list of a list of
    strings is unique, so any sort gives it. *)
Definition sort_Strings (l : list string) : list string :=
  sort.SliceStable String.ltb l.

(** [newStatusPrinter]; [visits] is the order in which [range dc.Services]
    yields the names. *)
Definition newStatusPrinter (visits : list string) : statusPrinter :=
  let sp := mkStatusPrinter [] ∅ ∅ false in
  let sp :=
    foldl (fun sp svc =>
             mkStatusPrinter (services sp ++ [svc])
               (<[svc := mkTracker "Pending" 0]> (trackers sp))
               (currStatus sp) (hasPrinted sp))
      sp visits in
  mkStatusPrinter (sort_Strings (services sp)) (trackers sp)
    (currStatus sp) (hasPrinted sp).

Definition donePhase : string := "Running".

(** [strings.Repeat(".", count)]: a panic for a negative count. *)
Definition Repeat_dot (count : Z) : option string :=
  if count <? 0 then None
  else Some (string_of_list_ascii (replicate (Z.to_nat count) "."%char)).

(** [tr.timer++] for one visit of the first loop of [printStatus]. *)
Definition tick (m : gmap string tracker) (svc : string)
  : gmap string tracker :=
  alter (fun tr => mkTracker (phase tr) (dockercompose.int (timer tr + 1)))
    svc m.

(** One visit of the second loop of [printStatus]. *)
Definition transition (m : gmap string tracker)
    (visit : string * ServiceStatus) : gmap string tracker :=
  let '(svc, status) := visit in
  match m !! svc with
  | None => m
  | Some tr =>
      if decide (phase tr <> Phase status) then
        <[svc := mkTracker (Phase status) 0]> m
      else m
  end.

(** The printing loop of [printStatus] from service [svcs] on; [None] is a
    panic (a nil tracker, a negative count of dots). *)
Fixpoint printRows `{GoLib} `{GoTerm} (m : gmap string tracker)
    (svcs : list string) (allReady : bool) (out : list output)
  : option (bool * list output) :=
  match svcs with
  | [] => Some (allReady, out)
  | svc :: svcs' =>
      tr ← m !! svc;
      '(allReady, phaseStr) ←
        (if decide (phase tr <> donePhase) then
           let ndots := dockercompose.int (timer tr + 2) in
           dots ← Repeat_dot ndots;
           Some (false, goterm_Color (phase tr +:+ dots) goterm.YELLOW)
         else Some (allReady, goterm_Color (phase tr) goterm.GREEN));
      let line := svc +:+ String (ascii_of_nat 9) phaseStr in
      printRows m svcs' allReady (out ++ [Fprintln (goterm_ResetLine line)])
  end.

(** [printStatus]: the printer afterwards, what went to the terminal, and
    the result.  [visits1] and [visits2] are the orders in which the two
    loops over maps visit [sp.tracker] and [sp.currStatus]. *)
Definition printStatus `{GoLib} `{GoTerm} (visits1 : list string)
    (visits2 : list (string * ServiceStatus)) (sp : statusPrinter)
  : option (statusPrinter * list output * bool) :=
  let m := foldl tick (trackers sp) visits1 in
  let m := foldl transition m visits2 in
  let out :=
    if hasPrinted sp then [MoveCursorUp (length (services sp)); Flush]
    else [] in
  '(allReady, out) ← printRows m (services sp) true out;
  Some (mkStatusPrinter (services sp) m (currStatus sp) true, out, allReady).

(** The orders in which a [range] may visit a map: every entry once. *)
Definition visitsKeys {A : Type} (m : gmap string A) (visits : list string)
  : Prop :=
  NoDup visits /\ forall k, k ∈ visits <-> is_Some (m !! k).

Definition visitsEntries {A : Type} (m : gmap string A)
    (visits : list (string * A)) : Prop :=
  NoDup visits.*1 /\ forall k v, (k, v) ∈ visits <-> m !! k = Some v.

(** One turn of the loop of [Run]: the value of [sp.currStatus] when
    [printStatus] runs (the last one that the receiving goroutine stored),
    and the orders of the visits. *)
Record turn : Type := mkTurn {
  status : gmap string ServiceStatus;
  visits1 : list string;
  visits2 : list (string * ServiceStatus);
}.

(** Where [Run] stands after some turns of its loop. *)
Inductive outcome : Type :=
| Returned (err : option GoError)
| Looping.

(** The loop of [Run] over the given turns; [None] is a panic. *)
Fixpoint loop `{GoLib} `{GoTerm} (turns : list turn) (sp : statusPrinter)
    (out : list output) : option (statusPrinter * list output * outcome) :=
  match turns with
  | [] => Some (sp, out, Looping)
  | t :: turns' =>
      let sp :=
        mkStatusPrinter (services sp) (trackers sp) (status t)
          (hasPrinted sp) in
      '(sp, rows, allReady) ← printStatus (visits1 t) (visits2 t) sp;
      if allReady : bool then
        Some (sp,
              out ++ rows
              ++ [Println
                    (goterm_Color "All containers successfully started"
                       goterm.GREEN)],
              Returned None)
      else loop turns' sp (out ++ rows)
  end.

(** [Run]: [watch] is the error of [clusterManager.WatchStatus]; the error
    of [fmt.Errorf] wraps it. *)
Definition Run `{GoLib} `{GoTerm} (watch : option GoError)
    (turns : list turn) (sp : statusPrinter)
  : option (statusPrinter * list output * outcome) :=
  match watch with
  | Some err => Some (sp, [], Returned (Some (Wrapped "watch status" err)))
  | None => loop turns sp []
  end.

(** ** Notions used in the statements *)

(** What the second loop of [printStatus] makes of the tracker of [svc]:
    a new tracker when the status names another phase. *)
Definition change (cs : gmap string ServiceStatus) (svc : string)
    (tr : tracker) : tracker :=
  match cs !! svc with
  | Some st =>
      if decide (phase tr <> Phase st) then mkTracker (Phase st) 0 else tr
  | None => tr
  end.

(** What one call of [printStatus] makes of the tracker of [svc]: one more
    on its timer, then the change of phase. *)
Definition advance (cs : gmap string ServiceStatus) (svc : string)
    (tr : tracker) : tracker :=
  change cs svc (mkTracker (phase tr) (timer tr + 1)).

(** The row that [printStatus] prints for a tracker. *)
Definition row `{GoLib} `{GoTerm} (svc : string) (tr : tracker) : output :=
  let phaseStr :=
    if decide (phase tr <> donePhase) then
      goterm_Color
        (phase tr
         +:+ string_of_list_ascii
               (replicate (Z.to_nat (timer tr + 2)) "."%char))
        goterm.YELLOW
    else goterm_Color (phase tr) goterm.GREEN in
  Fprintln (goterm_ResetLine (svc +:+ String (ascii_of_nat 9) phaseStr)).

(** Every declared service has a tracker, and the timers are far from the
    end of [int]. *)
Definition tracked (sp : statusPrinter) (bound : Z) : Prop :=
  (forall svc, svc ∈ services sp -> is_Some (trackers sp !! svc)) /\
  (forall svc tr, trackers sp !! svc = Some tr -> 0 <= timer tr < bound).

(** A turn whose visits are orders in which the two loops of [printStatus]
    may go through the maps. *)
Definition wfTurn (sp : statusPrinter) (t : turn) : Prop :=
  visitsKeys (trackers sp) (visits1 t) /\
  visitsEntries (status t) (visits2 t).

(** Every declared service is in its last phase. *)
Definition allRunning (sp : statusPrinter) : Prop :=
  forall svc tr,
    svc ∈ services sp -> trackers sp !! svc = Some tr -> phase tr = donePhase.

(** A concrete printer: two services, and the statuses of two turns. *)
Module Demo.
Definition term : GoTerm := {| goterm_ResetLine := fun s => s |}.
Definition sp : statusPrinter := newStatusPrinter ["web"; "db"].
Definition booting : list (string * ServiceStatus) :=
  [("syncthing", mkServiceStatus "Running");
   ("db", mkServiceStatus "Pending"); ("web", mkServiceStatus "Running")].
Definition booted : list (string * ServiceStatus) :=
  [("web", mkServiceStatus "Running"); ("db", mkServiceStatus "Running")].
Definition turn1 : turn := mkTurn (list_to_map booting) ["web"; "db"] booting.
Definition turn2 : turn := mkTurn (list_to_map booted) ["db"; "web"] booted.
End Demo.
End up.

(** * Building images and credentials for [blimp up]

    The functions of the [up] command that prepare a deployment:
    [getLocalRegistryCredentials], [bootSyncthing], [buildImage] and
    [buildImages], and then [createSandbox] and [run] that call them.  What
    they call outside the source tree is a parameter ([Docker], [Cluster]);
    the calls that act on the Docker daemon are recorded in the order in
    which they are made. *)
Module up_cmd.

(** The fields of the Compose types that these functions read. *)
Record ServiceVolumeConfig : Type := mkVolume {
  Type_ : string;
  Source : string;
  Target : string;
}.

Record BuildConfig : Type := mkBuild {
  Context : string;
  Dockerfile : string;
}.

(** A port mapping; [Target_] is its field [Target]. *)
Record ServicePortConfig : Type := mkPort {
  Published : Z;
  Target_ : Z;
}.

Record ServiceConfig : Type := mkService {
  Name : string;
  Build : option BuildConfig;
  Volumes : list ServiceVolumeConfig;
  Ports : list ServicePortConfig;
}.

Record Config : Type := mkConfig {
  Services : list ServiceConfig;
}.

(** [clitypes.AuthConfig], with one of the fields that are not copied, and
    [cluster.RegistryCredential]. *)
Record AuthConfig : Type := mkAuthConfig {
  Username : string;
  Password : string;
  IdentityToken : string;
}.

Record RegistryCredential : Type := mkCredential {
  cUsername : string;
  cPassword : string;
}.

(** The closure [addCredentials]; [visits] is the order of its [range]. *)
Definition addCredentials (creds : gmap string RegistryCredential)
    (visits : list (string * AuthConfig)) : gmap string RegistryCredential :=
  foldl (fun creds '(host, cred) =>
           <[host := mkCredential (Username cred) (Password cred)]> creds)
    creds visits.

(** [getLocalRegistryCredentials]: [load] is the error of [config.Load],
    [visits1] the order of the [range] over [cfg.GetAuthConfigs()], and
    [allCredentials] the result of [cfg.GetAllCredentials()] with the order of
    the [range] over it. *)
Definition getLocalRegistryCredentials (load : option GoError)
    (visits1 : list (string * AuthConfig))
    (allCredentials : list (string * AuthConfig) + GoError)
  : gmap string RegistryCredential + GoError :=
  match load with
  | Some err => inr err
  | None =>
      let creds : gmap string RegistryCredential := ∅ in
      let creds := addCredentials creds visits1 in
      match allCredentials with
      | inr err => inr err
      | inl visits2 => inl (addCredentials creds visits2)
      end
  end.

(** What the functions call outside the source tree: [volume.ID],
    [makeTar] (it walks the file system), the client of the Docker daemon,
    [jsonmessage.DisplayJSONMessagesStream] on the body of a build (the IDs
    that its callback decodes from the aux messages, [None] for one that
    [json.Unmarshal] rejects, and its error) and on the answer of a push, and
    [makeRegistryAuthHeader]. *)
Class Docker : Type := {
  volume_ID : string -> ServiceVolumeConfig -> string;
  makeTar : string -> string + GoError;
  ImageBuild : string -> string -> string + GoError;
  buildMessages : string -> list (option string) * option GoError;
  ImageTag : string -> string -> option GoError;
  makeRegistryAuthHeader : string -> string + GoError;
  ImagePush : string -> string -> string + GoError;
  pushMessages : string -> option GoError;
}.

(** The calls that act on the daemon. *)
Inductive call : Type :=
| Build_ (buildContextTar dockerfile : string)
| Tag (imageID name : string)
| Push (name registryAuth : string).

(** The fields of [up] and of its [auth] store that the functions read or
    write; [dockerClient] is whether the client is non-nil. *)
Record up : Type := mkUp {
  AuthToken : string;
  KubeNamespace : string;
  dockerClient : bool;
  imageNamespace : string;
  KubeToken : string;
  KubeHost : string;
  KubeCACrt : string;
  composePath : string;
  sandboxAddr : string;
  sandboxCert : string;
}.

(** [bootSyncthing]: the map of the bind volumes. *)
Definition idPathMap `{Docker} (cmd : up) (dcCfg : Config)
  : gmap string string :=
  let namespace := KubeNamespace cmd in
  foldl (fun idPathMap svc =>
           foldl (fun idPathMap v =>
                    if decide (Type_ v <> "bind") then idPathMap
                    else <[volume_ID namespace v := Source v]> idPathMap)
             idPathMap (Volumes svc))
    ∅ (Services dcCfg).

(** [bootSyncthing]: its result, and the argument of [syncthing.Run] when
    the goroutine is started. *)
Definition bootSyncthing `{Docker} (cmd : up) (dcCfg : Config)
  : bool * option (gmap string string) :=
  let idPathMap := idPathMap cmd dcCfg in
  if decide (size idPathMap = 0%nat) then (false, None)
  else (true, Some idPathMap).

(** The callback of [buildImage] over the aux messages: the last ID that
    is not empty. *)
Definition callback (imageID : string) (id : option string) : string :=
  match id with
  | None => imageID
  | Some ID => if decide (ID <> EmptyString) then ID else imageID
  end.

(** [strings.TrimPrefix(imageID, "sha256:")]. *)
Definition TrimPrefix (imageID : string) : string :=
  match dockercompose.cutPrefix "sha256:" imageID with
  | Some rest => rest
  | None => imageID
  end.

(** [buildImage]: the name or the error, and the calls made. *)
Definition buildImage `{Docker} (cmd : up) (spec : BuildConfig)
    (svc : string) : (string + GoError) * list call :=
  let Dockerfile := Dockerfile spec in
  let Dockerfile :=
    if decide (Dockerfile = EmptyString) then "Dockerfile" else Dockerfile in
  match makeTar (Context spec) with
  | inr err => (inr (Wrapped "tar context" err), [])
  | inl buildContextTar =>
      let calls := [Build_ buildContextTar Dockerfile] in
      match ImageBuild buildContextTar Dockerfile with
      | inr err => (inr (Wrapped "start build" err), calls)
      | inl body =>
          let '(ids, err) := buildMessages body in
          let imageID := foldl callback EmptyString ids in
          match err with
          | Some err => (inr (Wrapped "build image" err), calls)
          | None =>
              let name :=
                imageNamespace cmd +:+ "/" +:+ svc +:+ ":"
                +:+ TrimPrefix imageID in
              let calls := calls ++ [Tag imageID name] in
              match ImageTag imageID name with
              | Some err => (inr (Wrapped "tag image" err), calls)
              | None =>
                  match makeRegistryAuthHeader (AuthToken cmd) with
                  | inr err =>
                      (inr (Wrapped "make registry auth header" err), calls)
                  | inl registryAuth =>
                      let calls := calls ++ [Push name registryAuth] in
                      match ImagePush name registryAuth with
                      | inr err => (inr (Wrapped "start image push" err), calls)
                      | inl pushResp =>
                          match pushMessages pushResp with
                          | Some err => (inr (Wrapped "push image" err), calls)
                          | None => (inl name, calls)
                          end
                      end
                  end
              end
          end
      end
  end.

(** The loop of [buildImages] from service [svcs] on. *)
Fixpoint buildLoop `{Docker} (cmd : up) (svcs : list ServiceConfig)
    (images : gmap string string) (calls : list call)
  : (gmap string string + GoError) * list call :=
  match svcs with
  | [] => (inl images, calls)
  | svc :: svcs' =>
      match Build svc with
      | None => buildLoop cmd svcs' images calls
      | Some spec =>
          let '(r, made) := buildImage cmd spec (Name svc) in
          match r with
          | inr err =>
              (inr (Wrapped ("build " +:+ Name svc) err), calls ++ made)
          | inl imageName =>
              buildLoop cmd svcs' (<[Name svc := imageName]> images)
                (calls ++ made)
          end
      end
  end.

(** [buildImages]. *)
Definition buildImages `{Docker} (cmd : up) (composeFile : Config)
  : (gmap string string + GoError) * list call :=
  if negb (dockerClient cmd) then (inr (ErrorString "no docker client"), [])
  else buildLoop cmd (Services composeFile) ∅ [].

(** The calls that building the services [svcs] makes, when no build
    fails. *)
Definition callsOf `{Docker} (cmd : up) (svcs : list ServiceConfig)
  : list call :=
  svcs ≫= fun svc =>
    match Build svc with
    | Some spec => (buildImage cmd spec (Name svc)).2
    | None => []
    end.

(** The services [svcs] that have a build section are built without an
    error. *)
Definition allBuilt `{Docker} (cmd : up) (svcs : list ServiceConfig) : Prop :=
  forall svc spec,
    svc ∈ svcs -> Build svc = Some spec ->
    exists imageName, (buildImage cmd spec (Name svc)).1 = inl imageName.

(** A bind volume of the file. *)
Definition bindVolume (dcCfg : Config) (v : ServiceVolumeConfig) : Prop :=
  exists svc, svc ∈ Services dcCfg /\ v ∈ Volumes svc /\ Type_ v = "bind".

(** ** The command

    [createSandbox] and [run].  The progress printers and the analytics log
    are left out; what the command does to the world around it is recorded
    in the order in which it happens. *)

Inductive CLIAction : Type :=
| CLIAction_OK
| CLIAction_EXIT
| CLIAction_other.

Record KubeCredentials : Type := mkKubeCredentials {
  Token : string;
  Host : string;
  CaCrt : string;
  Namespace : string;
}.

(** The answer of the cluster manager; the credentials are behind a pointer
    that may be nil. *)
Record CreateSandboxResponse : Type := mkResponse {
  Message : string;
  Action : CLIAction;
  ImageNamespace : string;
  SandboxAddress : string;
  SandboxCert : string;
  GetKubeCredentials : option KubeCredentials;
}.

(** What the command calls besides the Docker daemon: the file system, the
    loader and the marshaller of Compose files, the configuration of the
    Docker client (the arguments of [getLocalRegistryCredentials]), the
    cluster manager, the store of the credentials, the connection to the
    sandbox, the status printer ([None] when it does not return) and the
    [logs] command. *)
Class Cluster : Type := {
  ReadFile : string -> string + GoError;
  Load : string -> string -> Config + GoError;
  Marshal : Config -> string + GoError;
  config_Load : option GoError;
  GetAuthConfigs : list (string * AuthConfig);
  GetAllCredentials : list (string * AuthConfig) + GoError;
  CreateSandbox :
    string -> string -> gmap string RegistryCredential
    -> CreateSandboxResponse + GoError;
  Save : up -> option GoError;
  DeployToSandbox :
    string -> string -> gmap string string -> option GoError;
  Dial : string -> string -> option GoError;
  ServiceNames : Config -> list string;
  statusPrinter_Run : list string -> string -> option (option GoError);
  LogsCommand_Run : list string -> option GoError;
  syncthing_Port : Z;
}.

(** What the command does to the world. *)
Inductive effect : Type :=
| ECreateSandbox (Token ComposeFile : string)
    (RegistryCredentials : gmap string RegistryCredential)
| EPrintf (format : string)
| ESave (cmd : up)
| ESyncthing (idPathMap : gmap string string)
| EDocker (c : call)
| EDeploy (Token ComposeFile : string) (BuiltImages : gmap string string)
| EDial (addr cert : string)
| ETunnel (token name : string) (hostPort containerPort : Z)
| EStatus (services : list string) (authToken : string)
| ELogs (Containers : list string) (Follow : bool)
| EFatal (msg : string) (err : GoError).

(** How a function ends when it does not return. *)
Inductive ended : Type :=
| Exit (code : Z)
| Panic.

(** [createSandbox]: the command with the fields that it has set and the
    error, unless the process ends. *)
Definition createSandbox `{Cluster} (cmd : up) (composeCfg : string)
  : list effect * (up * option GoError + ended) :=
  match
    getLocalRegistryCredentials config_Load GetAuthConfigs GetAllCredentials
  with
  | inr err =>
      ([], inl (cmd, Some (Wrapped "get local registry credentials" err)))
  | inl registryCredentials =>
      let effects :=
        [ECreateSandbox (AuthToken cmd) composeCfg registryCredentials] in
      match CreateSandbox (AuthToken cmd) composeCfg registryCredentials with
      | inr err => (effects, inl (cmd, Some err))
      | inl resp =>
          let effects :=
            if decide (Message resp <> EmptyString) then
              effects
              ++ [EPrintf (String (ascii_of_nat 10) (Message resp))]
            else effects in
          match Action resp with
          | CLIAction_OK =>
              match GetKubeCredentials resp with
              | None => (effects, inr Panic)
              | Some kubeCreds =>
                  let cmd :=
                    mkUp (AuthToken cmd) (Namespace kubeCreds)
                      (dockerClient cmd) (ImageNamespace resp)
                      (Token kubeCreds) (Host kubeCreds) (CaCrt kubeCreds)
                      (composePath cmd) (SandboxAddress resp)
                      (SandboxCert resp) in
                  (effects ++ [ESave cmd], inl (cmd, Save cmd))
              end
          | CLIAction_EXIT => (effects, inr (Exit 0))
          | CLIAction_other => (effects, inr (Exit 0))
          end
      end
  end.

(** The tunnels that [run] starts for the ports of the services. *)
Definition tunnels (cmd : up) (parsedCompose : Config) : list effect :=
  Services parsedCompose ≫= fun svc =>
    (fun mapping =>
       ETunnel (AuthToken cmd) (Name svc) (Published mapping)
         (Target_ mapping))
    <$> Ports svc.

(** How [run] ends: [Blocked] when the status printer does not return. *)
Inductive outcome : Type :=
| Return (err : option GoError)
| Ended (e : ended)
| Blocked.

(** [run]. *)
Definition run `{Docker} `{Cluster} (cmd : up) : list effect * outcome :=
  match ReadFile (composePath cmd) with
  | inr err => ([], Return (Some err))
  | inl rawCompose =>
  match Load (composePath cmd) rawCompose with
  | inr err => ([], Return (Some err))
  | inl parsedCompose =>
  match Marshal parsedCompose with
  | inr err => ([], Return (Some err))
  | inl parsedComposeBytes =>
  match createSandbox cmd parsedComposeBytes with
  | (effects, inr e) => (effects, Ended e)
  | (effects, inl (_, Some err)) =>
      (effects ++ [EFatal "Failed to create development sandbox" err],
       Ended (Exit 1))
  | (effects, inl (cmd, None)) =>
  let '(haveSyncthing, started) := bootSyncthing cmd parsedCompose in
  let effects :=
    effects
    ++ match started with
       | Some idPathMap => [ESyncthing idPathMap]
       | None => []
       end in
  let '(builtImages, calls) := buildImages cmd parsedCompose in
  let effects := effects ++ (EDocker <$> calls) in
  match builtImages with
  | inr err => (effects, Return (Some err))
  | inl builtImages =>
  let effects :=
    effects ++ [EDeploy (AuthToken cmd) parsedComposeBytes builtImages] in
  match DeployToSandbox (AuthToken cmd) parsedComposeBytes builtImages with
  | Some err => (effects, Return (Some err))
  | None =>
  let effects := effects ++ [EDial (sandboxAddr cmd) (sandboxCert cmd)] in
  match Dial (sandboxAddr cmd) (sandboxCert cmd) with
  | Some err => (effects, Return (Some err))
  | None =>
  let effects := effects ++ tunnels cmd parsedCompose in
  let effects :=
    if haveSyncthing : bool then
      effects
      ++ [ETunnel (AuthToken cmd) "syncthing" syncthing_Port syncthing_Port]
    else effects in
  let services := ServiceNames parsedCompose in
  let effects := effects ++ [EStatus services (AuthToken cmd)] in
  match statusPrinter_Run services (AuthToken cmd) with
  | None => (effects, Blocked)
  | Some _ =>
      (effects ++ [ELogs services true], Return (LogsCommand_Run services))
  end end end end end end end end.

(** ** Notions used in the statements about the command *)

(** The command as [createSandbox] leaves it. *)
Definition created (cmd : up) (resp : CreateSandboxResponse)
    (kubeCreds : KubeCredentials) : up :=
  mkUp (AuthToken cmd) (Namespace kubeCreds) (dockerClient cmd)
    (ImageNamespace resp) (Token kubeCreds) (Host kubeCreds)
    (CaCrt kubeCreds) (composePath cmd) (SandboxAddress resp)
    (SandboxCert resp).

(** What [createSandbox] does with the answer [resp] before it looks at the
    credentials in it. *)
Definition creation (cmd : up) (composeCfg : string)
    (creds : gmap string RegistryCredential) (resp : CreateSandboxResponse)
  : list effect :=
  ECreateSandbox (AuthToken cmd) composeCfg creds
  :: (if decide (Message resp <> EmptyString)
      then [EPrintf (String (ascii_of_nat 10) (Message resp))] else []).

(** What [run] does between [createSandbox] and the deployment when every
    build succeeds. *)
Definition preparation `{Docker} (cmd : up) (parsedCompose : Config)
  : list effect :=
  match (bootSyncthing cmd parsedCompose).2 with
  | Some idPathMap => [ESyncthing idPathMap]
  | None => []
  end
  ++ (EDocker <$> callsOf cmd (Services parsedCompose)).

(** The effects on the Docker daemon and the deployment. *)
Definition deploys (e : effect) : bool :=
  match e with
  | EDocker _ | EDeploy _ _ _ => true
  | _ => false
  end.

(** The effects that need the deployed sandbox: the connection, and the
    tunnels, the status printer and the logs over it. *)
Definition usesSandbox (e : effect) : bool :=
  match e with
  | EDial _ _ | ETunnel _ _ _ _ | EStatus _ _ | ELogs _ _ => true
  | _ => false
  end.

(** A daemon that builds every context but the one called [broken]. *)
Module Demo.
Definition docker : Docker :=
  {| volume_ID := fun namespace v => namespace +:+ "-" +:+ Source v;
     makeTar := fun dir => inl ("tar:" +:+ dir);
     ImageBuild := fun tar dockerfile =>
       if decide (tar = "tar:broken") then inr (ErrorString "no Dockerfile")
       else inl tar;
     buildMessages := fun body => ([None; Some "sha256:abc"; Some ""], None);
     ImageTag := fun imageID name => None;
     makeRegistryAuthHeader := fun token => inl ("auth:" +:+ token);
     ImagePush := fun name registryAuth => inl name;
     pushMessages := fun pushResp => None |}.

Definition cmd : up :=
  mkUp "token" "ns" true "registry/ns" EmptyString EmptyString EmptyString
    "docker-compose.yml" EmptyString EmptyString.

Definition compose : Config :=
  mkConfig
    [mkService "web" (Some (mkBuild "." EmptyString))
       [mkVolume "bind" "/src" "/app"] [mkPort 8080 80];
     mkService "db" None [mkVolume "volume" "data" "/var/lib"] [];
     mkService "job" (Some (mkBuild "broken" "Dockerfile.job")) [] [];
     mkService "api" (Some (mkBuild "api" EmptyString)) [] []].

(** The command on a machine without a Docker daemon. *)
Definition offline : up :=
  mkUp "token" "ns" false "registry/ns" EmptyString EmptyString EmptyString
    "docker-compose.yml" EmptyString EmptyString.

(** The same file without the service that does not build, and a cluster
    manager that accepts it. *)
Definition deployable : Config :=
  mkConfig (filter (fun svc => Name svc <> "job") (Services compose)).

Definition cluster : Cluster :=
  {| ReadFile := fun path => inl "services:";
     Load := fun path rawCompose => inl deployable;
     Marshal := fun cfg => inl "services: {}";
     config_Load := None;
     GetAuthConfigs := [("docker.io", mkAuthConfig "user" "plain" "")];
     GetAllCredentials := inl [("docker.io", mkAuthConfig "user" "secret" "")];
     CreateSandbox := fun token composeFile creds =>
       inl (mkResponse "Welcome" CLIAction_OK "registry/ns" "sandbox:443"
              "cert" (Some (mkKubeCredentials "kube" "host" "ca" "ns")));
     Save := fun cmd => None;
     DeployToSandbox := fun token composeFile images => None;
     Dial := fun addr cert => None;
     ServiceNames := fun cfg => Name <$> Services cfg;
     statusPrinter_Run := fun services token => Some None;
     LogsCommand_Run := fun containers => None;
     syncthing_Port := 8384 |}.
End Demo.
End up_cmd.

(** * Properties *)

(** ** Colour assigner *)

Lemma lxor_uint32 (a b : Z) :
  0 <= a < 2 ^ 32 -> 0 <= b < 2 ^ 32 -> 0 <= Z.lxor a b < 2 ^ 32.
Proof.
  intros Ha Hb.
  assert (Hnn : 0 <= Z.lxor a b) by (apply Z.lxor_nonneg; lia).
  split; [exact Hnn|].
  destruct (decide (Z.lxor a b = 0)) as [->|Hne]; [lia|].
  apply Z.log2_lt_pow2; [lia|].
  pose proof (Z.log2_lxor a b ltac:(lia) ltac:(lia)) as Hlog.
  assert (Z.log2 a < 32).
  { destruct (decide (a = 0)) as [->|]; [simpl; lia|].
    apply Z.log2_lt_pow2; lia. }
  assert (Z.log2 b < 32).
  { destruct (decide (b = 0)) as [->|]; [simpl; lia|].
    apply Z.log2_lt_pow2; lia. }
  lia.
Qed.

Lemma bytes_range (s : string) : Forall (fun c => 0 <= c < 256) (bytes s).
Proof.
  unfold bytes. apply Forall_map, Forall_forall. intros c _. simpl.
  pose proof (N_ascii_bounded c). lia.
Qed.

Lemma Write_uint32 (data : list Z) (s : Z) :
  Forall (fun c => 0 <= c < 256) data -> 0 <= s < 2 ^ 32 ->
  0 <= (fnv.Write s data).1 < 2 ^ 32.
Proof.
  unfold fnv.Write. simpl. intros Hdata. revert s.
  induction Hdata as [|c data Hc _ IH]; intros s Hs; simpl; [exact Hs|].
  apply IH. apply lxor_uint32; [|lia].
  apply Z.mod_pos_bound. lia.
Qed.

Lemma pickColor_unfold (name : string) :
  pickColor name =
  colorList !! Z.to_nat (fnv.Sum32 (fnv.Write fnv.New32 (bytes name)).1 mod 6).
Proof. reflexivity. Qed.

Lemma pickColor_in_palette (name : string) :
  exists color, pickColor name = Some color /\ color ∈ colorList.
Proof.
  rewrite pickColor_unfold.
  set (hash := fnv.Sum32 _).
  assert (Hidx : (Z.to_nat (hash mod 6) < length colorList)%nat).
  { pose proof (Z.mod_pos_bound hash 6 ltac:(lia)). simpl. lia. }
  apply lookup_lt_is_Some_2 in Hidx as [color Hcolor].
  exists color. split; [exact Hcolor|].
  eapply list_elem_of_lookup_2. exact Hcolor.
Qed.

Lemma pickColor_total (name : string) : is_Some (pickColor name).
Proof. destruct (pickColor_in_palette name) as (c & Hc & _). eauto. Qed.

(** C9: [pickColor] depends on the name alone, never panics, and returns the
    entry of the six-colour palette at index FNV-32(name) mod 6; the hash is
    a [uint32]. *)
Theorem pickColor_deterministic_palette (name : string) :
  let hash := fnv.Sum32 (fnv.Write fnv.New32 (bytes name)).1 in
  length colorList = 6%nat /\
  0 <= hash < 2 ^ 32 /\
  (exists color,
      pickColor name = Some color /\
      color ∈ colorList /\
      colorList !! Z.to_nat (hash mod 6) = Some color) /\
  (forall name', name' = name -> pickColor name' = pickColor name).
Proof.
  intros hash. split; [reflexivity|]. split.
  { apply Write_uint32; [apply bytes_range|].
    unfold fnv.New32, fnv.offset32. lia. }
  split; [|intros ? ->; reflexivity].
  destruct (pickColor_in_palette name) as (color & Hcolor & Hin).
  exists color. split; [exact Hcolor|]. split; [exact Hin|].
  rewrite <- Hcolor. reflexivity.
Qed.

(** ** The flush of a window *)

Section flush_facts.
Context `{GoLib}.

Lemma parseWindow_bind (window : list rawLogLine) :
  parseWindow window = window ≫= parseRaw.
Proof.
  unfold parseWindow.
  enough (Hgen : forall acc,
             fold_left (fun parsedLogs rawLog => parsedLogs ++ parseRaw rawLog)
               window acc = acc ++ (window ≫= parseRaw))
    by apply (Hgen []).
  induction window as [|r window IH]; intros acc; simpl.
  - by rewrite app_nil_r.
  - by rewrite IH, app_assoc.
Qed.

Lemma parseWindow_app (w1 w2 : list rawLogLine) :
  parseWindow (w1 ++ w2) = parseWindow w1 ++ parseWindow w2.
Proof. by rewrite !parseWindow_bind, bind_app. Qed.

(** The entry that [flush] builds from a line whose timestamp does not
    parse. *)
Lemma parseRaw_fallback (r : rawLogLine) :
  (parseLogLine (message r)).2 <> None ->
  error r = None \/ message r <> EmptyString ->
  parseRaw r =
  [mkParsed (fromContainer r) (message r) (receivedAt r) EmptyString].
Proof.
  intros Herr Hline. unfold parseRaw.
  destruct (parseLogLine (message r)) as [[m ts] [e|]]; simpl in Herr;
    [|done].
  destruct (error r); [|done].
  destruct Hline as [?|Hne]; [done|].
  by rewrite decide_True.
Qed.

Lemma parseRaw_formatOverride (r : rawLogLine) (p : parsedLogLine) :
  p ∈ parseRaw r -> formatOverride p = EmptyString.
Proof.
  unfold parseRaw.
  destruct (parseLogLine (message r)) as [[m ts] [e|]];
    destruct (error r); repeat case_decide;
    intros Hin; try (by apply elem_of_nil in Hin);
    apply list_elem_of_singleton in Hin; by subst.
Qed.

Lemma printLine_total (hide : bool) (p : parsedLogLine) :
  is_Some (printLine hide p).
Proof.
  unfold printLine. case_decide; [eauto|].
  destruct hide; [eauto|].
  destruct (pickColor_total (pFromContainer p)) as [c ->]. simpl. eauto.
Qed.

Lemma flush_total (hide : bool) (window : list rawLogLine) :
  is_Some (flush hide window).
Proof.
  unfold flush. apply mapM_is_Some, Forall_forall.
  intros p _. apply printLine_total.
Qed.
End flush_facts.

(** [sort.SliceStable] by [byLogTime] permutes, orders by [loggedAt], and
    keeps entries of equal [loggedAt] in their order. *)
Section sort_facts.
Lemma insert_Permutation (x : parsedLogLine) (l : list parsedLogLine) :
  sort.insert byLogTime x l ≡ₚ x :: l.
Proof.
  induction l as [|y l IH]; simpl; [done|].
  destruct (byLogTime y x); [|done].
  rewrite IH. apply Permutation_swap.
Qed.

Lemma SliceStable_Permutation (l : list parsedLogLine) :
  sort.SliceStable byLogTime l ≡ₚ l.
Proof.
  induction l as [|x l IH]; simpl; [done|].
  rewrite insert_Permutation. by f_equiv.
Qed.

Lemma insert_sorted (x : parsedLogLine) (l : list parsedLogLine) :
  StronglySorted logTimeLe l ->
  StronglySorted logTimeLe (sort.insert byLogTime x l).
Proof.
  induction 1 as [|y l Hl IH Hy]; simpl.
  - repeat constructor.
  - unfold byLogTime, time.Before at 1.
    destruct (Z.ltb_spec (loggedAt y) (loggedAt x)) as [Hlt|Hge].
    + constructor; [exact IH|].
      rewrite insert_Permutation. constructor; [|exact Hy].
      unfold logTimeLe. lia.
    + constructor; [by constructor|].
      constructor; [exact Hge|].
      eapply Forall_impl; [exact Hy|].
      unfold logTimeLe. intros z ?. simpl in *. lia.
Qed.

Lemma SliceStable_sorted (l : list parsedLogLine) :
  StronglySorted logTimeLe (sort.SliceStable byLogTime l).
Proof.
  induction l as [|x l IH]; simpl; [constructor|].
  by apply insert_sorted.
Qed.

Lemma insert_stable (t : Time) (x : parsedLogLine)
    (l : list parsedLogLine) :
  filter (fun p => loggedAt p = t) (sort.insert byLogTime x l) =
  filter (fun p => loggedAt p = t) (x :: l).
Proof.
  induction l as [|y l IH]; [done|].
  cbn [sort.insert]. unfold byLogTime at 1, time.Before.
  destruct (Z.ltb_spec (loggedAt y) (loggedAt x)) as [Hlt|Hge]; [|done].
  rewrite (filter_cons _ y), IH, !filter_cons.
  destruct (decide (loggedAt y = t)), (decide (loggedAt x = t));
    try done; lia.
Qed.

Lemma SliceStable_stable (t : Time) (l : list parsedLogLine) :
  filter (fun p => loggedAt p = t) (sort.SliceStable byLogTime l) =
  filter (fun p => loggedAt p = t) l.
Proof.
  induction l as [|x l IH]; [done|].
  cbn [sort.SliceStable foldr]. fold (sort.SliceStable byLogTime l).
  rewrite insert_stable, !filter_cons, IH. done.
Qed.
End sort_facts.

Lemma stable_sorted_unique (l1 l2 : list parsedLogLine) :
  StronglySorted logTimeLe l1 -> StronglySorted logTimeLe l2 ->
  (forall t, filter (fun p => loggedAt p = t) l1 =
             filter (fun p => loggedAt p = t) l2) ->
  l1 = l2.
Proof.
  intros Hs1. revert l2.
  induction Hs1 as [|a l1 Hs1 IH Ha]; intros l2 Hs2 Hfilter.
  - destruct l2 as [|b l2]; [done|].
    specialize (Hfilter (loggedAt b)).
    rewrite filter_cons, decide_True in Hfilter by done. done.
  - destruct Hs2 as [|b l2 Hs2 Hb].
    { specialize (Hfilter (loggedAt a)).
      rewrite filter_cons, decide_True in Hfilter by done. done. }
    assert (Hab : loggedAt a <= loggedAt b).
    { assert (Hin : b ∈ a :: l1).
      { eapply (list_elem_of_filter (fun p => loggedAt p = loggedAt b)).
        rewrite Hfilter, filter_cons, decide_True by done. left. }
      apply elem_of_cons in Hin as [->|Hin]; [lia|].
      rewrite Forall_forall in Ha. by apply Ha. }
    assert (Hba : loggedAt b <= loggedAt a).
    { assert (Hin : a ∈ b :: l2).
      { eapply (list_elem_of_filter (fun p => loggedAt p = loggedAt a)).
        rewrite <- Hfilter, filter_cons, decide_True by done. left. }
      apply elem_of_cons in Hin as [->|Hin]; [lia|].
      rewrite Forall_forall in Hb. by apply Hb. }
    assert (Heq : loggedAt a = loggedAt b) by lia.
    pose proof (Hfilter (loggedAt a)) as Hhead.
    rewrite !filter_cons, decide_True, (decide_True (P := _ b = _ a))
      in Hhead by done.
    injection Hhead as -> Htail. f_equal.
    apply IH; [exact Hs2|]. intros t.
    destruct (decide (loggedAt b = t)) as [<-|Hne]; [exact Htail|].
    specialize (Hfilter t).
    by rewrite !filter_cons, !decide_False in Hfilter by done.
Qed.

(** Any stable sort by [loggedAt] gives the list that [sort.SliceStable]
    gives. *)
Lemma SliceStable_unique (l sorted : list parsedLogLine) :
  StronglySorted logTimeLe sorted ->
  (forall t, filter (fun p => loggedAt p = t) sorted =
             filter (fun p => loggedAt p = t) l) ->
  sorted = sort.SliceStable byLogTime l.
Proof.
  intros Hsorted Hstable.
  apply stable_sorted_unique; [done|apply SliceStable_sorted|].
  intros t. by rewrite SliceStable_stable.
Qed.

(** C2: the lines that a flush prints are the parsed lines of the window in
    non-decreasing order of [loggedAt], lines of equal [loggedAt] in their
    order of arrival in the window. *)
Theorem flush_sorted_stable `{GoLib} (hide : bool)
    (window : list rawLogLine) :
  let printed := sort.SliceStable byLogTime (parseWindow window) in
  (exists out,
      flush hide window = Some out /\
      Forall2 (fun p o => printLine hide p = Some o) printed out) /\
  StronglySorted logTimeLe printed /\
  printed ≡ₚ parseWindow window /\
  (forall t,
      filter (fun p => loggedAt p = t) printed =
      filter (fun p => loggedAt p = t) (parseWindow window)).
Proof.
  intros printed. repeat split.
  - destruct (flush_total hide window) as [out Hout].
    exists out. split; [exact Hout|]. by apply mapM_Some.
  - apply SliceStable_sorted.
  - apply SliceStable_Permutation.
  - intros t. apply SliceStable_stable.
Qed.

(** ** Malformed lines *)

Section malformed_facts.
Context `{GoLib}.

Lemma parseLogLine_error (rawMessage : string) :
  (parseLogLine rawMessage).2 <> None <-> malformed rawMessage.
Proof.
  unfold parseLogLine, malformed, strings.SplitN_space_2.
  destruct (strings.cut_space rawMessage) as [[ts rest]|]; simpl; [|done].
  destruct (time_Parse time.RFC3339Nano ts);
    destruct (time_Parse time.RFC3339 ts); simpl;
    (split; [intros ?|intros [? ?]]); done.
Qed.

Lemma malformed_empty : malformed EmptyString.
Proof. done. Qed.

Lemma isOldMessage_error (sinceTime lastMessageTime : Time)
    (message : string) :
  message = EmptyString \/ malformed message ->
  isOldMessage sinceTime lastMessageTime message = (false, lastMessageTime).
Proof.
  intros Hbad. unfold isOldMessage. case_decide; [done|].
  destruct Hbad as [?|Hbad]; [done|].
  apply parseLogLine_error in Hbad.
  destruct (parseLogLine message) as [[m ts] [e|]]; done.
Qed.

Lemma isOldMessage_parsed (sinceTime lastMessageTime : Time)
    (message rest : string) (timestamp : Time) :
  parseLogLine message = (rest, timestamp, None) ->
  isOldMessage sinceTime lastMessageTime message =
  if decide (timestamp <= sinceTime) then (true, lastMessageTime)
  else (false, Z.max lastMessageTime timestamp).
Proof.
  intros Hparse. unfold isOldMessage. rewrite Hparse.
  assert (message <> EmptyString) as Hne.
  { intros ->. by pose proof (proj2 (parseLogLine_error "") malformed_empty)
      as Herr; rewrite Hparse in Herr. }
  rewrite decide_False by done. unfold time.After.
  destruct (Z.ltb_spec sinceTime timestamp); simpl.
  - rewrite decide_False by lia.
    destruct (Z.ltb_spec lastMessageTime timestamp); f_equal; lia.
  - by rewrite decide_True by lia.
Qed.
End malformed_facts.

(** C6: a malformed line of a window (no space, or a timestamp that parses
    under neither layout), read without an error or with a message that is
    not empty, is printed by the flush, its entry carrying the whole message
    and [receivedAt] as [loggedAt], the key of the sort; a flush writes one
    line per parsed entry.  (An entry with an error and an empty message marks
    the end of a read and holds no line.) *)
Theorem malformed_line_printed `{GoLib} (hide : bool)
    (window : list rawLogLine) (r : rawLogLine) :
  r ∈ window ->
  malformed (message r) ->
  error r = None \/ message r <> EmptyString ->
  let p := mkParsed (fromContainer r) (message r) (receivedAt r) EmptyString in
  p ∈ parseWindow window /\
  p ∈ sort.SliceStable byLogTime (parseWindow window) /\
  loggedAt p = receivedAt r /\
  exists out o,
    flush hide window = Some out /\
    length out = length (parseWindow window) /\
    printLine hide p = Some o /\
    o ∈ out.
Proof.
  intros Hin Hbad Hline p.
  assert (Hp : p ∈ parseWindow window).
  { rewrite parseWindow_bind. apply list_elem_of_bind. exists r.
    split; [|exact Hin].
    rewrite parseRaw_fallback; [left| |done]. by apply parseLogLine_error. }
  assert (Hsorted : p ∈ sort.SliceStable byLogTime (parseWindow window))
    by by rewrite SliceStable_Permutation.
  repeat split; [exact Hp|exact Hsorted|].
  destruct (flush_total hide window) as [out Hout].
  pose proof Hout as Hall. unfold flush in Hall. apply mapM_Some in Hall.
  destruct (list_elem_of_lookup_1 _ _ Hsorted) as [k Hk].
  destruct (Forall2_lookup_l _ _ _ _ _ Hall Hk) as (o & Ho & Hprint).
  exists out, o. repeat split; [exact Hout| |exact Hprint|].
  - apply Forall2_length in Hall. rewrite <- Hall.
    by rewrite SliceStable_Permutation.
  - by eapply list_elem_of_lookup_2.
Qed.

(** C10: [isOldMessage] answers false, whatever [sinceTime] is, for the empty
    message and for every malformed one, and leaves [lastMessageTime] as it
    is; a reader that reads such a line without an error goes on to send
    it. *)
Theorem isOldMessage_malformed `{GoLib} (cmd : Command) (i : nat)
    (service message : string) (sinceTime lastMessageTime now : Time)
    (s : state) :
  message = EmptyString \/ malformed message ->
  isOldMessage sinceTime lastMessageTime message = (false, lastMessageTime) /\
  forwardLogs cmd i service (ReadString message None now)
    (FwdRead lastMessageTime sinceTime) s =
  Some (set_reader i
          (FwdSend lastMessageTime sinceTime
             (mkRaw None service (strings.TrimSuffix_newline message) now))
          s).
Proof.
  intros Hbad. split; [by apply isOldMessage_error|].
  simpl. by rewrite isOldMessage_error.
Qed.

(** ** The transition system *)

(** Splits every test of a step that went through. *)
Ltac step_cases :=
  repeat case_match; simplify_option_eq; try discriminate.

Section step_facts.
Context `{GoLib} (cmd : Command).

Lemma run_app (ls1 ls2 : list label) (s : state) :
  run cmd (ls1 ++ ls2) s = s' ← run cmd ls1 s; run cmd ls2 s'.
Proof.
  revert s. induction ls1 as [|l ls1 IH]; intros s; simpl; [done|].
  destruct (step cmd l s) as [s1|]; simpl; [apply IH|done].
Qed.

Lemma run_reachable_from (ls : list label) (s s' : state) :
  reachable cmd s -> run cmd ls s = Some s' -> reachable cmd s'.
Proof.
  revert s. induction ls as [|l ls IH]; intros s Hs Hrun; simpl in Hrun.
  - by simplify_eq.
  - destruct (step cmd l s) as [s1|] eqn:Hstep; [|done].
    eapply IH; [|exact Hrun]. by eapply reachable_step.
Qed.

Lemma run_reachable (ls : list label) (s : state) :
  run cmd ls (init cmd) = Some s -> reachable cmd s.
Proof. apply run_reachable_from, reachable_init. Qed.

Lemma reachable_run (s : state) :
  reachable cmd s -> exists ls, run cmd ls (init cmd) = Some s.
Proof.
  induction 1 as [|l s s' _ [ls Hls] Hstep].
  - by exists [].
  - exists (ls ++ [l]). rewrite run_app, Hls. simpl. by rewrite Hstep.
Qed.

Lemma Signal_spec (s : state) :
  Signal s = set_watcher (wake 0 (watcher s)) s.
Proof. unfold Signal, wake. destruct s as [? ? ? []]; done. Qed.

(** A step of reader [i] changes its own point only, and leaves the
    printer's side of the state alone. *)
Lemma readerStep_frame (i : nat) (service : string) (ev : readerEvent)
    (pc : readerPC) (s s' : state) :
  readerStep cmd i service ev pc s = Some s' ->
  exists pc',
    readers s' = <[i:=pc']> (readers s) /\
    readerEffect i pc pc' s s' /\
    closed s' = closed s /\ printer s' = printer s /\
    signalHandler s' = signalHandler s /\ cancelled s' = cancelled s /\
    stdout s' = stdout s /\ window s' = window s /\
    flushTrigger s' = flushTrigger s.
Proof.
  intros Hstep.
  destruct pc, ev; simpl in Hstep; try discriminate;
    try rewrite Signal_spec in Hstep;
    step_cases;
    (eexists; split; [reflexivity|]; split; [|done]).
  all: try (by apply effect_local).
  all: try (by apply effect_lock).
  all: try (by apply effect_unlock).
  all: try (by eapply effect_decrement).
  all: try (by eapply effect_increment).
  all: eapply effect_decrement; try done; simpl; unfold wake.
  - by rewrite !decide_True.
  - by rewrite decide_False.
Qed.

Lemma tailing_insert (pcs : list readerPC) (i : nat) (pc pc' : readerPC) :
  pcs !! i = Some pc ->
  tailing (<[i:=pc']> pcs) =
  tailing pcs - (if counted pc then 1 else 0)
  + (if counted pc' then 1 else 0).
Proof.
  unfold tailing. revert i.
  induction pcs as [|x pcs IH]; intros i Hi; [done|].
  destruct i as [|i]; simpl in Hi |- *.
  - simplify_eq. rewrite !filter_cons.
    destruct (counted pc), (counted pc'); simpl; lia.
  - specialize (IH i Hi). rewrite !filter_cons.
    destruct (decide (counted x = true)); simpl length; lia.
Qed.

Lemma tailing_bounds (pcs : list readerPC) :
  0 <= tailing pcs <= Z.of_nat (length pcs).
Proof.
  unfold tailing. pose proof (length_filter (fun pc => counted pc = true) pcs).
  lia.
Qed.

Lemma wake_inv (count : Z) (w : watcherPC) :
  wake count w = w \/ (count = 0 /\ w = WWaiting /\ wake count w = WWoken).
Proof. unfold wake. case_decide; destruct w; auto. Qed.

Lemma invariant_init : invariant cmd (init cmd).
Proof.
  split; simpl; try done.
  - by rewrite length_fmap.
  - unfold tailing. f_equal.
    induction (Services cmd) as [|x l IH]; [done|].
    simpl. by rewrite IH at 1.
  - intros i pc Hi Hlock.
    apply list_lookup_fmap_Some in Hi as (? & -> & ?). done.
Qed.

Lemma invariant_readerStep (i : nat) (service : string) (ev : readerEvent)
    (pc : readerPC) (s s' : state) :
  invariant cmd s -> readers s !! i = Some pc ->
  readerStep cmd i service ev pc s = Some s' -> invariant cmd s'.
Proof.
  intros Hinv Hpc Hstep.
  destruct (readerStep_frame _ _ _ _ _ _ Hstep)
    as (pc' & Hreaders & Heffect & Hclosed & Hprinter & Hsig & Hcancel & _).
  destruct Hinv as [Hlen Hcount Hrlock Hwlock Hmr Hmw Hwait Hcl Hcan Hdr Hret Hdone].
  pose proof (Hrlock i pc Hpc) as Hmine.
  assert (Hi : (i < length (readers s))%nat) by by eapply lookup_lt_Some.
  assert (Hlookup : forall j pcj,
             readers s' !! j = Some pcj ->
             (j = i /\ pcj = pc') \/ (j <> i /\ readers s !! j = Some pcj)).
  { intros j pcj. rewrite Hreaders. destruct (decide (j = i)) as [->|Hne].
    - rewrite list_lookup_insert_eq by done. intros [= <-]. by left.
    - rewrite list_lookup_insert_ne by done. by right. }
  split.
  - by rewrite Hreaders, length_insert.
  - rewrite Hreaders, (tailing_insert _ _ pc) by done.
    destruct Heffect as [Hc _ _ Hrc _ _|_ _ Hc _ _ Hrc _| e -> -> Hrc _ _
                        | -> -> Hrc _ _|_ Hc _ _ Hrc _];
      rewrite Hrc, Hcount; try rewrite Hc; simpl;
      try destruct (counted pc); lia.
  - intros j pcj Hj Hlock. apply Hlookup in Hj as [[-> ->]|[Hne Hj]].
    + destruct Heffect as [_ _ Hl _ _ _|_ Hm _ _ _ _ _| e -> -> _ Hm _
                          | -> -> _ Hm _|_ _ _ Hl _ _];
        try congruence; rewrite Hm; by apply Hmine.
    + specialize (Hrlock j pcj Hj Hlock).
      destruct Heffect as [_ _ _ _ Hm _|Hm _ _ _ _ _ _| e -> -> _ Hm _
                          | -> -> _ Hm _|_ _ Hl _ _ _];
        try congruence.
      specialize (Hmine Hl). congruence.
  - intros Hw.
    destruct Heffect as [_ _ _ _ Hm Hw'|Hm _ _ _ _ _ Hw'| e -> -> _ Hm Hw'
                        | -> -> _ Hm Hw'|_ _ Hl _ _ Hw'].
    + rewrite Hm. apply Hwlock. congruence.
    + rewrite Hw' in Hw. specialize (Hwlock Hw). congruence.
    + specialize (Hmine eq_refl).
      destruct (wake_inv (runningCount s - 1) (watcher s)) as [Hk|(_&_&Hk)];
        rewrite Hk in Hw'; [|congruence].
      rewrite Hw' in Hw. specialize (Hwlock Hw). congruence.
    + specialize (Hmine eq_refl). rewrite Hw' in Hw.
      specialize (Hwlock Hw). congruence.
    + specialize (Hmine Hl). rewrite Hw' in Hw.
      specialize (Hwlock Hw). congruence.
  - intros j Hm'.
    assert (Hkeep : mutex s = Some (HReader j) -> j <> i ->
                    exists pcj, readers s' !! j = Some pcj /\
                                holdsLock pcj = true).
    { intros Hm Hne. destruct (Hmr j Hm) as (pcj & Hj & Hl).
      exists pcj. by rewrite Hreaders, list_lookup_insert_ne. }
    assert (Hself : holdsLock pc' = true ->
                    exists pcj, readers s' !! i = Some pcj /\
                                holdsLock pcj = true).
    { intros Hl. exists pc'. by rewrite Hreaders, list_lookup_insert_eq. }
    destruct Heffect as [_ Hl _ _ Hm _|_ Hm _ _ Hl' _ _| e -> -> _ Hm _
                        | -> -> _ Hm _|Hm _ _ _ _ _].
    + rewrite Hm in Hm'.
      destruct (decide (j = i)) as [->|Hne]; [|by apply Hkeep].
      destruct (Hmr i Hm') as (pcj & Hj & Hlj).
      rewrite Hpc in Hj. injection Hj as <-. congruence.
    + rewrite Hm in Hm'. injection Hm' as <-. by apply Hself.
    + rewrite Hm in Hm'.
      destruct (decide (j = i)) as [->|Hne];
        [by apply Hself|by apply Hkeep].
    + rewrite Hm in Hm'.
      destruct (decide (j = i)) as [->|Hne];
        [by apply Hself|by apply Hkeep].
    + congruence.
  - intros Hm'.
    destruct Heffect as [_ _ _ _ Hm Hw'|_ Hm _ _ _ _ _| e -> -> _ Hm Hw'
                        | -> -> _ Hm Hw'|Hm _ _ _ _ _]; try congruence.
    + rewrite Hw'. apply Hmw. congruence.
    + specialize (Hmine eq_refl). congruence.
    + specialize (Hmine eq_refl). congruence.
  - intros Hw.
    destruct Heffect as [_ _ _ Hrc _ Hw'|_ _ _ _ _ Hrc Hw'| e -> -> Hrc _ Hw'
                        | -> -> Hrc _ Hw'|_ _ _ _ Hrc Hw'];
      rewrite Hrc; try (apply Hwait; congruence).
    + destruct (wake_inv (runningCount s - 1) (watcher s))
        as [Hk|(_&_&Hk)]; rewrite Hk in Hw'; [|congruence].
      unfold wake in Hk. rewrite Hw' in Hw. case_decide as Hz.
      * by rewrite Hw in Hk.
      * specialize (Hwait Hw). lia.
    + rewrite Hw' in Hw. specialize (Hwait Hw). lia.
  - congruence.
  - rewrite Hcancel, Hsig. intros Hc. destruct (Hcan Hc) as [?|Hw]; [by left|].
    right.
    destruct Heffect as [_ _ _ _ _ Hw'|_ _ _ _ _ _ Hw'| e -> -> _ _ Hw'
                        | -> -> _ _ Hw'|_ _ _ _ _ Hw']; rewrite Hw'; try done.
    rewrite Hw. unfold wake. by case_decide.
  - rewrite Hprinter, Hcancel. apply Hdr.
  - rewrite Hprinter, Hcancel. apply Hret.
  - rewrite Hcancel. intros Hw. apply Hdone.
    destruct Heffect as [_ _ _ _ _ Hw'|_ _ _ _ _ _ Hw'| e -> -> _ _ Hw'
                        | -> -> _ _ Hw'|_ _ _ _ _ Hw']; try congruence.
    destruct (wake_inv (runningCount s - 1) (watcher s)) as [Hk|(_&_&Hk)];
      congruence.
Qed.

Lemma invariant_watcherStep (s s' : state) :
  invariant cmd s -> watcherStep s = Some s' -> invariant cmd s'.
Proof.
  intros [Hlen Hcount Hrlock Hwlock Hmr Hmw Hwait Hcl Hcan Hdr Hret Hdone] Hstep.
  unfold watcherStep in Hstep.
  destruct (watcher s) eqn:Hw; step_cases;
    (split; simpl; try done; try congruence).
  all: try (intros i pc Hi Hl; specialize (Hrlock i pc Hi Hl);
            specialize (Hwlock eq_refl); congruence).
  all: try (intros Hc; destruct (Hcan Hc); [by left|congruence]).
  all: try (intros _; lia).
  all: try (by right).
  all: try (intros err Herr; split; [by apply (Hret err)|done]).
  all: try (intros i pc Hi Hl; specialize (Hrlock i pc Hi Hl); congruence).
  all: intros Hm; specialize (Hmw Hm); congruence.
Qed.

Lemma invariant_interruptStep (s s' : state) :
  invariant cmd s -> interruptStep s = Some s' -> invariant cmd s'.
Proof.
  intros [Hlen Hcount Hrlock Hwlock Hmr Hmw Hwait Hcl Hcan Hdr Hret Hdone] Hstep.
  unfold interruptStep in Hstep. step_cases.
  split; simpl; try done.
  - by left.
  - intros err Herr. split; [by apply (Hret err)|done].
Qed.

Lemma invariant_returnNil (s s' : state) :
  invariant cmd s -> cancelled s = true ->
  returnNil cmd s = Some s' -> invariant cmd s'.
Proof.
  intros [Hlen Hcount Hrlock Hwlock Hmr Hmw Hwait Hcl Hcan Hdr Hret Hdone] Hc Hstep.
  unfold returnNil in Hstep. step_cases.
  split; simpl; try done.
  by intros err [= <-].
Qed.

Lemma invariant_printLogs (ev : printerEvent) (s s' : state) :
  invariant cmd s -> printLogs cmd ev s = Some s' -> invariant cmd s'.
Proof.
  intros Hinv Hstep. unfold printLogs in Hstep.
  destruct (printer s) eqn:Hp, ev; try discriminate.
  - destruct (combinedLogs s) eqn:Hq.
    + rewrite (inv_closed _ _ Hinv) in Hstep. discriminate.
    + destruct Hinv. simplify_eq. split; simpl; try done.
      all: congruence.
  - destruct Hinv. step_cases. split; simpl; try done.
    all: congruence.
  - destruct Hinv. step_cases. split; simpl; try done.
    auto.
  - destruct (combinedLogs s) eqn:Hq.
    + eapply invariant_returnNil; [done| |done]. by eapply inv_drain.
    + destruct Hinv. simplify_eq. split; simpl; try done.
      all: congruence.
Qed.

Lemma invariant_step (l : label) (s s' : state) :
  invariant cmd s -> step cmd l s = Some s' -> invariant cmd s'.
Proof.
  intros Hinv Hstep. destruct l as [i ev| |ev|]; simpl in Hstep.
  - destruct (readers s !! i) as [pc|] eqn:Hpc; [|done].
    destruct (Services cmd !! i) as [service|]; [|done].
    by eapply invariant_readerStep.
  - by eapply invariant_watcherStep.
  - by eapply invariant_printLogs.
  - by eapply invariant_interruptStep.
Qed.

Lemma reachable_invariant (s : state) : reachable cmd s -> invariant cmd s.
Proof.
  induction 1 as [|l s s' _ IH Hstep];
    [apply invariant_init|by eapply invariant_step].
Qed.

(** Only the [Update] steps change [runningCount]: by [-1] between
    [DecLocked] and [DecDone], by [+1] between [IncLocked] and [IncDone]. *)
Lemma step_runningCount (l : label) (s s' : state) :
  step cmd l s = Some s' ->
  match l with
  | Reader i Update =>
      (exists err,
          readers s !! i = Some (DecLocked err) /\
          readers s' = <[i:=DecDone err]> (readers s) /\
          runningCount s' = runningCount s - 1) \/
      (readers s !! i = Some IncLocked /\
       readers s' = <[i:=IncDone]> (readers s) /\
       runningCount s' = runningCount s + 1)
  | _ => runningCount s' = runningCount s
  end.
Proof.
  intros Hstep. destruct l as [i ev| |ev|]; simpl in Hstep.
  - destruct (readers s !! i) as [pc|] eqn:Hpc; [|done].
    destruct (Services cmd !! i) as [service|]; [|done]. simpl in Hstep.
    destruct pc, ev; simpl in Hstep; try discriminate;
      try rewrite Signal_spec in Hstep; step_cases; try done.
    all: try (left; eexists; by repeat split).
    by right.
  - unfold watcherStep in Hstep. step_cases; done.
  - unfold printLogs, returnNil in Hstep. step_cases; done.
  - unfold interruptStep in Hstep. step_cases; done.
Qed.
End step_facts.

(** ** Runs in which no reader follows *)

Section no_follow.
Context `{GoLib} (cmd : Command) (Hfollow : Follow cmd = false).

(** Without [Follow], a reader never reaches the points of a reconnect or
    restart, never increments, and is silent once [forwardLogs] has
    returned. *)
Lemma readerStep_noFollow (i : nat) (service : string) (ev : readerEvent)
    (pc : readerPC) (s s' : state) :
  restarting pc = false ->
  readerStep cmd i service ev pc s = Some s' ->
  exists pc',
    readers s' = <[i:=pc']> (readers s) /\
    restarting pc' = false /\
    runningCount s' <= runningCount s /\
    (returned pc = true ->
     returned pc' = true /\ (readerFuel pc' < readerFuel pc)%nat /\
     combinedLogs s' = combinedLogs s /\ sent s' = sent s /\
     stderr s' = stderr s).
Proof using Hfollow.
  intros Hpc Hstep.
  destruct pc, ev; simpl in Hstep; try discriminate; try done;
    try rewrite Signal_spec in Hstep; rewrite ?Hfollow in Hstep;
    step_cases;
    (eexists; split; [reflexivity|]; simpl; repeat split; try done; lia).
Qed.

Lemma invariantNoFollow_init : invariantNoFollow (init cmd).
Proof using Type.
  split; simpl.
  - apply Forall_fmap, Forall_forall. done.
  - intros [?|[?|?]]; done.
Qed.

Lemma invariantNoFollow_step (l : label) (s s' : state) :
  invariant cmd s -> invariantNoFollow s ->
  step cmd l s = Some s' -> invariantNoFollow s'.
Proof using Hfollow.
  intros Hinv [Hpcs Hw] Hstep.
  pose proof (invariant_step _ _ _ _ Hinv Hstep) as Hinv'.
  destruct l as [i ev| |ev|]; simpl in Hstep.
  - destruct (readers s !! i) as [pc|] eqn:Hpc; [|done].
    destruct (Services cmd !! i) as [service|]; [|done]. simpl in Hstep.
    assert (Hr : restarting pc = false).
    { rewrite Forall_lookup in Hpcs. by eapply Hpcs. }
    destruct (readerStep_noFollow _ _ _ _ _ _ Hr Hstep)
      as (pc' & Hreaders & Hr' & Hle & _).
    destruct (readerStep_frame _ _ _ _ _ _ _ Hstep)
      as (pc'' & _ & Heffect & _).
    split.
    + rewrite Hreaders. by apply Forall_insert.
    + intros Hw'.
      assert (Hzero : runningCount s' = 0 \/ runningCount s = 0).
      { destruct Heffect as [_ _ _ _ _ Hk|_ _ _ _ _ _ Hk| e _ _ Hrc _ Hk
                            | _ _ _ _ Hk|_ _ _ _ _ Hk];
          try (right; apply Hw; congruence).
        destruct (wake_inv (runningCount s - 1) (watcher s))
          as [Hk'|(Hz&_&_)]; [|left; lia].
        right. apply Hw. congruence. }
      pose proof (tailing_bounds (readers s')).
      rewrite <- (inv_count _ _ Hinv') in *. lia.
  - split; [|intros Hw'];
      unfold watcherStep in Hstep; step_cases; simpl in *; try done.
    all: try (by apply Hw; auto).
    all: try (destruct Hw' as [?|[?|?]]; done).
    all: pose proof (tailing_bounds (readers s));
      rewrite <- (inv_count _ _ Hinv) in *; lia.
  - unfold printLogs, returnNil in Hstep.
    step_cases; split; simpl; done.
  - unfold interruptStep in Hstep.
    step_cases; split; simpl; done.
Qed.

Lemma reachable_invariantNoFollow (s : state) :
  reachable cmd s -> invariantNoFollow s.
Proof using Hfollow.
  induction 1 as [|l s s' Hs IH Hstep]; [apply invariantNoFollow_init|].
  eapply invariantNoFollow_step; [|done..]. by apply reachable_invariant.
Qed.

Lemma tailing_zero (pcs : list readerPC) :
  tailing pcs = 0 -> Forall (fun pc => counted pc = false) pcs.
Proof using Type.
  unfold tailing. intros Hz. apply Forall_forall. intros pc Hin.
  destruct (counted pc) eqn:Hc; [|done].
  assert (pc ∈ filter (fun pc => counted pc = true) pcs)
    by by apply list_elem_of_filter.
  destruct (filter _ pcs); [by apply elem_of_nil in H0|simpl in Hz; lia].
Qed.

Lemma sum_list_insert (l : list nat) (i x y : nat) :
  l !! i = Some x -> (sum_list (<[i:=y]> l) + x = sum_list l + y)%nat.
Proof using Type.
  revert i. induction l as [|z l IH]; intros i Hi; [done|].
  destruct i as [|i]; simpl in *.
  - simplify_eq. lia.
  - specialize (IH i Hi). lia.
Qed.

Lemma watcherFuel_wake (s s' : state) :
  runningCount s' = runningCount s - 1 ->
  watcher s' = wake (runningCount s - 1) (watcher s) ->
  (watcherFuel s' <= watcherFuel s)%nat.
Proof using Type.
  intros Hrc Hw. unfold watcherFuel. rewrite Hw, Hrc. unfold wake.
  destruct (watcher s); repeat case_decide; lia.
Qed.

(** Once every reader has returned, every step uses up fuel. *)
Lemma step_fuel (l : label) (s s' : state) :
  invariant cmd s -> invariantNoFollow s -> allReturned s ->
  step cmd l s = Some s' ->
  allReturned s' /\ (fuel s' < fuel s)%nat.
Proof using Hfollow.
  intros Hinv Hnf Hall Hstep. unfold allReturned in *.
  destruct l as [i ev| |ev|]; simpl in Hstep.
  - destruct (readers s !! i) as [pc|] eqn:Hpc; [|done].
    destruct (Services cmd !! i) as [service|]; [|done]. simpl in Hstep.
    assert (Hr : restarting pc = false).
    { destruct Hnf as [Hpcs _]. rewrite Forall_lookup in Hpcs.
      by eapply Hpcs. }
    assert (Hret : returned pc = true).
    { rewrite Forall_lookup in Hall. by eapply Hall. }
    destruct (readerStep_noFollow _ _ _ _ _ _ Hr Hstep)
      as (pc' & Hreaders & _ & _ & Hquiet).
    destruct (Hquiet Hret) as (Hret' & Hfuel & Hchan & _).
    destruct (readerStep_frame _ _ _ _ _ _ _ Hstep)
      as (pc'' & Hreaders' & Heffect & _ & Hprinter & Hsig & _ & _ & _
          & Htrigger).
    assert (pc'' = pc') as ->.
    { assert (Hi : (i < length (readers s))%nat) by by eapply lookup_lt_Some.
      pose proof (list_lookup_insert_eq (readers s) i pc'' Hi) as E1.
      pose proof (list_lookup_insert_eq (readers s) i pc' Hi) as E2.
      congruence. }
    split; [rewrite Hreaders; by apply Forall_insert|].
    assert (Hw : (watcherFuel s' <= watcherFuel s)%nat).
    { destruct Heffect as [_ _ _ Hrc _ Hk|_ _ _ _ _ Hrc Hk| e _ _ Hrc _ Hk
                          | -> _ _ _ _|_ _ _ _ Hrc Hk];
        try (unfold watcherFuel; by rewrite Hrc, Hk);
        [by apply watcherFuel_wake|done]. }
    assert (Hp : printerFuel s' = printerFuel s).
    { unfold printerFuel. by rewrite Hprinter, Hchan, Htrigger. }
    pose proof (sum_list_insert (readerFuel <$> readers s) i
                  (readerFuel pc) (readerFuel pc')) as Hsum.
    rewrite list_lookup_fmap, Hpc in Hsum. specialize (Hsum eq_refl).
    unfold fuel. rewrite Hreaders, list_fmap_insert, Hp, Hsig. lia.
  - destruct Hnf as [_ Hzero]. unfold watcherStep in Hstep.
    destruct (watcher s) eqn:Hw; step_cases; (split; [done|]);
      unfold fuel, watcherFuel, printerFuel; simpl; rewrite Hw;
      repeat case_decide; try lia.
    specialize (Hzero ltac:(auto)). lia.
  - unfold printLogs, returnNil in Hstep.
    destruct (printer s) eqn:Hp, ev; try discriminate;
      destruct (combinedLogs s) eqn:Hq;
      destruct (flushTrigger s) eqn:Ht;
      step_cases; (split; [done|]);
      unfold fuel, watcherFuel, printerFuel; simpl;
      rewrite ?Hp, ?Hq, ?Ht; simpl; lia.
  - unfold interruptStep in Hstep.
    destruct (signalHandler s) eqn:Hsig; step_cases;
      (split; [done|]).
    unfold fuel, watcherFuel, printerFuel; simpl. rewrite Hsig. lia.
Qed.

Lemma tailing_pos (pcs : list readerPC) :
  tailing pcs > 0 -> exists i pc, pcs !! i = Some pc /\ counted pc = true.
Proof using Type.
  unfold tailing. intros Hpos.
  destruct (filter (fun pc => counted pc = true) pcs) as [|pc l] eqn:Hf;
    [simpl in Hpos; lia|].
  assert (Hin : pc ∈ filter (fun pc => counted pc = true) pcs)
    by (rewrite Hf; left).
  apply list_elem_of_filter in Hin as [Hc Hin].
  apply list_elem_of_lookup_1 in Hin as [i Hi]. eauto.
Qed.

(** Once every reader has returned, some goroutine can take a step as long
    as [printLogs] has not returned. *)
Lemma progress (s : state) :
  invariant cmd s -> invariantNoFollow s -> allReturned s ->
  (forall err, printer s <> PReturned err) ->
  exists l s', l <> Interrupt /\ step cmd l s = Some s'.
Proof using Hfollow.
  intros Hinv Hnf Hall Hprinter.
  assert (Hsvc : forall i pc,
             readers s !! i = Some pc -> is_Some (Services cmd !! i)).
  { intros i pc Hi. apply lookup_lt_is_Some.
    rewrite <- (inv_length _ _ Hinv). by eapply lookup_lt_Some. }
  destruct (mutex s) as [[i|]|] eqn:Hm.
  - destruct (inv_mutex_reader _ _ Hinv i Hm) as (pc & Hpc & Hl).
    destruct (Hsvc i pc Hpc) as [service Hs].
    assert (Hr : restarting pc = false).
    { destruct Hnf as [Hpcs _]. rewrite Forall_lookup in Hpcs.
      by eapply Hpcs. }
    destruct pc; try discriminate.
    + exists (Reader i Update). eexists. split; [done|].
      simpl. rewrite Hpc, Hs. reflexivity.
    + exists (Reader i Unlock). simpl. rewrite Hpc, Hs. simpl.
      rewrite Hfollow. case_decide; eauto.
  - exists Watcher. simpl. unfold watcherStep.
    rewrite (inv_mutex_watcher _ _ Hinv Hm). case_decide; eauto.
  - destruct (watcher s) eqn:Hw.
    + exists Watcher. simpl. unfold watcherStep. rewrite Hw, Hm. eauto.
    + pose proof (inv_watcher_lock _ _ Hinv Hw). congruence.
    + pose proof (inv_waiting _ _ Hinv Hw) as Hpos.
      rewrite (inv_count _ _ Hinv) in Hpos.
      destruct (tailing_pos _ Hpos) as (i & pc & Hpc & Hc).
      destruct (Hsvc i pc Hpc) as [service Hs].
      assert (Hret : returned pc = true).
      { unfold allReturned in Hall. rewrite Forall_lookup in Hall.
        by eapply Hall. }
      destruct pc; try discriminate.
      * exists (Reader i Lock). eexists. split; [done|].
        simpl. rewrite Hpc, Hs. simpl. rewrite Hm. reflexivity.
      * pose proof (inv_reader_lock _ _ Hinv i _ Hpc eq_refl). congruence.
    + exists Watcher. simpl. unfold watcherStep. rewrite Hw, Hm. eauto.
    + exists Watcher. simpl. unfold watcherStep. rewrite Hw. eauto.
    + pose proof (inv_done _ _ Hinv Hw) as Hc.
      destruct (printer s) as [| |err] eqn:Hp; [| |by destruct (Hprinter err)].
      * exists (Printer Cancellation). simpl. unfold printLogs.
        rewrite Hp, Hc. eauto.
      * exists (Printer Drain). simpl. unfold printLogs, returnNil.
        rewrite Hp.
        destruct (combinedLogs s); [|eauto].
        destruct (flush_total (hideServiceName cmd) (window s)) as [out ->].
        simpl. eauto.
Qed.

(** Every schedule that starts once all readers have returned is bounded
    by [fuel], and cannot stop before [printLogs] has returned. *)
Lemma run_terminates (ls : list label) (s s' : state) :
  invariant cmd s -> invariantNoFollow s -> allReturned s ->
  run cmd ls s = Some s' ->
  (length ls + fuel s' <= fuel s)%nat /\
  invariant cmd s' /\ invariantNoFollow s' /\ allReturned s'.
Proof using Hfollow.
  revert s. induction ls as [|l ls IH]; intros s Hinv Hnf Hall Hrun;
    simpl in Hrun.
  - simplify_eq. split; [simpl; lia|done].
  - destruct (step cmd l s) as [s1|] eqn:Hstep; [|done]. simpl in Hrun.
    destruct (step_fuel _ _ _ Hinv Hnf Hall Hstep) as [Hall1 Hlt].
    pose proof (invariant_step _ _ _ _ Hinv Hstep) as Hinv1.
    pose proof (invariantNoFollow_step _ _ _ Hinv Hnf Hstep) as Hnf1.
    destruct (IH s1 Hinv1 Hnf1 Hall1 Hrun) as (Hle & Hrest).
    split; [simpl; lia|done].
Qed.
End no_follow.

(** ** What a reader sends *)

Section sends.
Context `{GoLib} (cmd : Command).

(** The only step that sends is [ChanSend], and it sends the line that
    the reader holds. *)
Lemma readerStep_sent (i : nat) (service : string) (ev : readerEvent)
    (pc : readerPC) (s s' : state) :
  readerStep cmd i service ev pc s = Some s' ->
  (sent s' = sent s /\ combinedLogs s' = combinedLogs s) \/
  (exists last since line,
      pc = FwdSend last since line /\ ev = ChanSend /\
      sent s' = sent s ++ [(i, line)] /\
      combinedLogs s' = combinedLogs s ++ [line]).
Proof.
  intros Hstep.
  destruct pc, ev; simpl in Hstep; try discriminate;
    try rewrite Signal_spec in Hstep; step_cases;
    try (by left); right; by repeat eexists.
Qed.

(** A step of another goroutine changes neither the point of reader [i]
    nor what it has sent. *)
Lemma step_other (i : nat) (l : label) (s s' : state) :
  (forall ev, l <> Reader i ev) ->
  step cmd l s = Some s' ->
  readers s' !! i = readers s !! i /\ sentBy i s' = sentBy i s.
Proof.
  intros Hl Hstep. destruct l as [j ev| |ev|]; simpl in Hstep.
  - assert (j <> i) by (intros ->; by apply (Hl ev)).
    destruct (readers s !! j) as [pc|] eqn:Hpc; [|done].
    destruct (Services cmd !! j) as [service|]; [|done]. simpl in Hstep.
    destruct (readerStep_frame _ _ _ _ _ _ _ Hstep) as (pc' & -> & _).
    split; [by apply list_lookup_insert_ne|].
    unfold sentBy.
    destruct (readerStep_sent _ _ _ _ _ _ Hstep)
      as [[-> _]|(? & ? & line & _ & _ & -> & _)]; [done|].
    rewrite filter_app, filter_cons, decide_False by done.
    by rewrite filter_nil, app_nil_r.
  - unfold watcherStep in Hstep. step_cases; done.
  - unfold printLogs, returnNil in Hstep. step_cases; done.
  - unfold interruptStep in Hstep. step_cases; done.
Qed.

Lemma label_reader_cases (i : nat) (l : label) :
  (exists ev, l = Reader i ev) \/ (forall ev, l <> Reader i ev).
Proof.
  destruct l as [j ev| | |]; try (right; done).
  destruct (decide (j = i)) as [->|Hne]; [left; eauto|].
  right. intros ev' [= ? _]. done.
Qed.

(** Without [Follow], a reader that is past the return of [forwardLogs]
    stays so, and sends nothing. *)
Lemma returned_stays (i : nat) (ls : list label) (s1 s2 : state) :
  Follow cmd = false ->
  (exists pc, readers s1 !! i = Some pc /\ returned pc = true) ->
  run cmd ls s1 = Some s2 ->
  (exists pc, readers s2 !! i = Some pc /\ returned pc = true) /\
  sentBy i s2 = sentBy i s1.
Proof.
  intros Hfollow. revert s1.
  induction ls as [|l ls IH]; intros s1 Hret Hrun;
    simpl in Hrun; [by simplify_eq|].
  destruct (step cmd l s1) as [s1'|] eqn:Hstep; [|done]. simpl in Hrun.
  destruct Hret as (pc & Hpc & Hret).
  enough (Hnext : (exists pc, readers s1' !! i = Some pc /\
                              returned pc = true) /\
                  sentBy i s1' = sentBy i s1).
  { destruct Hnext as [Hret' <-]. by apply IH. }
  destruct (label_reader_cases i l) as [[ev ->]|Hother].
  - simpl in Hstep. rewrite Hpc in Hstep. simpl in Hstep.
    destruct (Services cmd !! i) as [service|]; [|done]. simpl in Hstep.
    assert (Hr : restarting pc = false) by by destruct pc.
    destruct (readerStep_noFollow _ Hfollow _ _ _ _ _ _ Hr Hstep)
      as (pc' & Hreaders & _ & _ & Hquiet).
    destruct (Hquiet Hret) as (Hret' & _ & _ & Hsent & _).
    split; [|unfold sentBy; by rewrite Hsent].
    exists pc'. split; [|done]. rewrite Hreaders.
    apply list_lookup_insert_eq. by eapply lookup_lt_Some.
  - destruct (step_other i _ _ _ Hother Hstep) as [E1 E2].
    rewrite E1, E2. eauto.
Qed.
End sends.

(** ** The lines of a reader that does not follow *)

Section history.
Context `{GoLib} (cmd : Command) (Hfollow : Follow cmd = false).

Lemma sentBy_snoc (i : nat) (line : rawLogLine) (s s' : state) :
  sent s' = sent s ++ [(i, line)] ->
  sentBy i s' = sentBy i s ++ [(i, line)].
Proof using Type.
  intros Hsent. unfold sentBy. rewrite Hsent.
  rewrite filter_app, filter_cons, decide_True by done.
  by rewrite filter_nil.
Qed.

Lemma readerStep_history (i : nat) (service : string) (ev : readerEvent)
    (pc : readerPC) (s s' : state) :
  restarting pc = false ->
  historyAt i pc (sentBy i s) ->
  readerStep cmd i service ev pc s = Some s' ->
  exists pc',
    readers s' = <[i:=pc']> (readers s) /\ historyAt i pc' (sentBy i s').
Proof using Hfollow.
  intros Hr Hhist Hstep.
  destruct pc, ev; simpl in Hstep; try discriminate;
    try rewrite Signal_spec in Hstep; rewrite ?Hfollow in Hstep;
    step_cases;
    (eexists; split; [reflexivity|]); simpl;
    try (erewrite sentBy_snoc by reflexivity);
    try exact Hhist; try exact I; try (by left); simpl in Hhist.
  - unfold sentBy in *. simpl. rewrite Hhist. constructor.
  - right. by repeat eexists.
  - apply Forall_app. split; [done|]. by repeat constructor.
Qed.

Lemma reachable_history (s : state) :
  reachable cmd s ->
  forall i pc, readers s !! i = Some pc -> historyAt i pc (sentBy i s).
Proof using Hfollow.
  induction 1 as [|l s s' Hs IH Hstep]; intros i pc Hpc.
  - simpl in Hpc. apply list_lookup_fmap_Some in Hpc as (? & -> & _). done.
  - destruct (label_reader_cases i l) as [[ev ->]|Hother].
    + simpl in Hstep.
      destruct (readers s !! i) as [pc0|] eqn:Hpc0; [|done].
      destruct (Services cmd !! i) as [service|]; [|done]. simpl in Hstep.
      assert (Hr : restarting pc0 = false).
      { pose proof (nf_readers _ (reachable_invariantNoFollow _ Hfollow _ Hs))
          as Hpcs.
        rewrite Forall_lookup in Hpcs. by eapply Hpcs. }
      destruct (readerStep_history _ _ _ _ _ _ Hr (IH i pc0 Hpc0) Hstep)
        as (pc' & Hreaders & Hhist).
      rewrite Hreaders, list_lookup_insert_eq in Hpc
        by by eapply lookup_lt_Some.
      by simplify_eq.
    + destruct (step_other cmd i _ _ _ Hother Hstep) as [E1 E2].
      rewrite E2. apply IH. by rewrite <- E1.
Qed.
End history.

(** C1, as the code has it: in a run in which no reader follows,
    [combinedLogs] is never closed, and [printLogs] returns nil and only
    after the context was cancelled; as long as no interrupt signal has come,
    the context is cancelled by the watcher alone, and only when every
    reader has returned from [forwardLogs] and decremented [runningCount] to
    zero, each having sent the line with the error that ended its read as its
    last line, or no line at all when its stream did not open; and once every
    reader has returned from [forwardLogs], every schedule is bounded and
    goes on until [printLogs] has returned. *)
Theorem completion_by_cancellation `{GoLib} (cmd : Command)
    (ls : list label) (s : state) :
  Follow cmd = false ->
  run cmd ls (init cmd) = Some s ->
  closed s = false /\
  (forall err, printer s = PReturned err -> err = None /\ cancelled s = true) /\
  (cancelled s = true -> signalHandler s = true ->
   watcher s = WDone /\ runningCount s = 0 /\
   Forall (fun pc => pc = Exited \/ exists err, pc = DecDone err)
     (readers s) /\
   forall i, (i < length (Services cmd))%nat -> ended i (sentBy i s)) /\
  (allReturned s ->
   forall ls' s',
     run cmd ls' s = Some s' ->
     (length ls' <= fuel s)%nat /\
     ((exists err, printer s' = PReturned err) \/
      exists l s'', l <> Interrupt /\ step cmd l s' = Some s'')).
Proof.
  intros Hfollow Hrun. apply run_reachable in Hrun as Hreach.
  pose proof (reachable_invariant _ _ Hreach) as Hinv.
  pose proof (reachable_invariantNoFollow _ Hfollow _ Hreach) as Hnf.
  split; [by apply (inv_closed _ _ Hinv)|].
  split; [by apply (inv_returned _ _ Hinv)|].
  split.
  - intros Hc Hsig.
    destruct (inv_cancelled _ _ Hinv Hc) as [?|Hw]; [congruence|].
    assert (Hz : runningCount s = 0) by (apply (nf_watcher _ Hnf); auto).
    split; [done|]. split; [done|].
    rewrite (inv_count _ _ Hinv) in Hz. apply tailing_zero in Hz.
    pose proof (nf_readers _ Hnf) as Hr.
    assert (Hdone : Forall (fun pc => pc = Exited \/ exists err, pc = DecDone err)
                      (readers s)).
    { rewrite Forall_forall in Hz, Hr. apply Forall_forall. intros pc Hin.
      specialize (Hz pc Hin). specialize (Hr pc Hin).
      destruct pc; try discriminate; eauto. }
    split; [exact Hdone|]. intros i Hi.
    rewrite <- (inv_length _ _ Hinv) in Hi.
    apply lookup_lt_is_Some_2 in Hi as [pc Hpc].
    pose proof (reachable_history _ Hfollow _ Hreach i pc Hpc) as Hhist.
    rewrite Forall_lookup in Hdone.
    destruct (Hdone i pc Hpc) as [->|[err ->]]; exact Hhist.
  - intros Hall ls' s' Hrun'.
    destruct (run_terminates _ Hfollow _ _ _ Hinv Hnf Hall Hrun')
      as (Hle & Hinv' & Hnf' & Hall').
    split; [lia|].
    destruct (printer s') as [| |err] eqn:Hp; [right|right|left; eauto].
    all: apply (progress _ Hfollow); try done; rewrite Hp; done.
Qed.

(** C4: in every state that [Run] reaches, [runningCount] lies in [[0, N]]
    and equals the number of readers between their start (or their increment
    after a restart) and their decrement; it starts at [N], changes by [-1] at
    a reader's decrement after [forwardLogs] returned and by [+1] at its
    increment after a restart, and by nothing else; whoever stands at an
    access to it holds the mutex. *)
Theorem runningCount_invariant `{GoLib} (cmd : Command) (ls : list label)
    (s : state) :
  run cmd ls (init cmd) = Some s ->
  runningCount (init cmd) = Z.of_nat (length (Services cmd)) /\
  0 <= runningCount s <= Z.of_nat (length (Services cmd)) /\
  runningCount s = tailing (readers s) /\
  (forall i pc,
      readers s !! i = Some pc -> holdsLock pc = true ->
      mutex s = Some (HReader i)) /\
  (watcher s = WLocked -> mutex s = Some HWatcher) /\
  (forall l s',
      step cmd l s = Some s' ->
      match l with
      | Reader i Update =>
          (exists err,
              readers s !! i = Some (DecLocked err) /\
              readers s' = <[i:=DecDone err]> (readers s) /\
              runningCount s' = runningCount s - 1) \/
          (readers s !! i = Some IncLocked /\
           readers s' = <[i:=IncDone]> (readers s) /\
           runningCount s' = runningCount s + 1)
      | _ => runningCount s' = runningCount s
      end).
Proof.
  intros Hrun. apply run_reachable, reachable_invariant in Hrun as Hinv.
  destruct Hinv as [Hlen Hcount Hrlock Hwlock _ _ _ _ _ _ _ _].
  split; [done|]. split.
  { pose proof (tailing_bounds (readers s)). rewrite Hcount, <- Hlen. lia. }
  split; [done|]. split; [done|]. split; [done|].
  intros l s'. apply step_runningCount.
Qed.


(** C5: when no reader follows and a read of the stream of reader [i] ends
    with an error (end of stream included), the reader goes to send one line
    that carries this error, and sends it as soon as the channel has room,
    returning from [forwardLogs] with that; in whatever follows it either
    still waits at that send, or has sent exactly that line, as its last, and
    is past the return of [forwardLogs], from where it never sends nor reads
    again. *)
Theorem read_error_final_line `{GoLib} (cmd : Command) (i : nat)
    (service message : string) (err : GoError)
    (lastMessageTime sinceTime now : Time) (s : state) :
  Follow cmd = false ->
  readers s !! i = Some (FwdRead lastMessageTime sinceTime) ->
  Services cmd !! i = Some service ->
  let line :=
    mkRaw (Some err) service (strings.TrimSuffix_newline message) now in
  exists s1,
    step cmd (Reader i (ReadString message (Some err) now)) s = Some s1 /\
    readers s1 !! i = Some (FwdSend lastMessageTime sinceTime line) /\
    sent s1 = sent s /\ combinedLogs s1 = combinedLogs s /\
    ((length (combinedLogs s) < capacity cmd)%nat ->
     exists s2,
       step cmd (Reader i ChanSend) s1 = Some s2 /\
       combinedLogs s2 = combinedLogs s ++ [line] /\
       readers s2 !! i
       = Some (Returned (errors_WithContext "recv log stream" err))) /\
    forall ls s2,
      run cmd ls s1 = Some s2 ->
      (readers s2 !! i = Some (FwdSend lastMessageTime sinceTime line) /\
       sentBy i s2 = sentBy i s) \/
      ((exists pc, readers s2 !! i = Some pc /\ returned pc = true) /\
       sentBy i s2 = sentBy i s ++ [(i, line)]).
Proof.
  intros Hfollow Hpc Hsvc line.
  assert (Hi : (i < length (readers s))%nat) by by eapply lookup_lt_Some.
  eexists. split; [simpl; rewrite Hpc, Hsvc; reflexivity|].
  split; [by apply list_lookup_insert_eq|]. split; [done|]. split; [done|].
  fold line. split.
  { intros Hroom. eexists. split.
    - simpl. rewrite list_lookup_insert_eq, Hsvc by done. simpl.
      rewrite decide_True by done. rewrite Hfollow. reflexivity.
    - split; [done|]. simpl. apply list_lookup_insert_eq.
      by rewrite length_insert. }
  set (s1 := set_reader i (FwdSend lastMessageTime sinceTime line) s).
  assert (Hstart : readers s1 !! i =
                   Some (FwdSend lastMessageTime sinceTime line) /\
                   sentBy i s1 = sentBy i s)
    by (split; [by apply list_lookup_insert_eq|done]).
  clearbody s1. intros ls. revert s1 Hstart.
  induction ls as [|l ls IH]; intros s1 [Hpc1 Hsent1] s2 Hrun;
    simpl in Hrun; [simplify_eq; by left|].
  destruct (step cmd l s1) as [s1'|] eqn:Hstep; [|done]. simpl in Hrun.
  destruct (label_reader_cases i l) as [[ev ->]|Hother].
  - right. simpl in Hstep. rewrite Hpc1, Hsvc in Hstep. simpl in Hstep.
    destruct ev; try discriminate. simpl in Hstep.
    case_decide; [|done]. rewrite Hfollow in Hstep. simpl in Hstep.
    injection Hstep as <-.
    match type of Hrun with
    | run _ _ ?st = _ =>
        assert (Hret0 : exists pc,
                   readers st !! i = Some pc /\ returned pc = true)
    end.
    { eexists. split;
        [simpl; apply list_lookup_insert_eq; by eapply lookup_lt_Some|done]. }
    destruct (returned_stays cmd i ls _ _ Hfollow Hret0 Hrun)
      as [Hret Hsent2].
    split; [done|]. rewrite Hsent2. unfold sentBy at 1. simpl.
    rewrite filter_app, filter_cons, decide_True by done.
    by rewrite filter_nil, <- Hsent1.
  - destruct (step_other _ i _ _ _ Hother Hstep) as [E1 E2].
    apply (IH s1'); [|done]. by rewrite E1, E2.
Qed.

(** ** Cancellation of [printLogs] *)

Section drain.
Context `{GoLib} (cmd : Command).

(** The draining loop run on its own: one turn per queued line, and one
    more that finds the channel empty and returns. *)
Lemma drain_run (queue : list rawLogLine) (s : state) :
  printer s = PDrain -> combinedLogs s = queue ->
  exists out s',
    flush (hideServiceName cmd) (window s ++ queue) = Some out /\
    run cmd (replicate (S (length queue)) (Printer Drain)) s = Some s' /\
    printer s' = PReturned None /\
    stdout s' = stdout s ++ out /\
    window s' = [] /\ combinedLogs s' = [] /\
    readers s' = readers s /\ sent s' = sent s.
Proof.
  revert s. induction queue as [|logLine queue IH]; intros s Hp Hq.
  - destruct (flush_total (hideServiceName cmd) (window s)) as [out Hout].
    exists out. eexists. rewrite app_nil_r. split; [exact Hout|].
    simpl. unfold printLogs, returnNil. rewrite Hp, Hq, Hout. simpl.
    by repeat split.
  - set (s1 := set_window (window s ++ [logLine]) (set_combinedLogs queue s)).
    destruct (IH s1 Hp eq_refl)
      as (out & s' & Hout & Hrun & Hp' & Hstdout & Hw & Hc & Hr & Hs).
    exists out, s'. simpl in Hout. rewrite <- app_assoc in Hout.
    split; [exact Hout|]. split; [|by repeat split].
    cbn [replicate length run]. simpl. unfold printLogs.
    rewrite Hp, Hq. simpl. exact Hrun.
Qed.

(** The flush on the timer prints the window and clears it in one step. *)
Lemma flushTimer_step (s s' : state) :
  step cmd (Printer FlushTimer) s = Some s' ->
  exists out,
    flush (hideServiceName cmd) (window s) = Some out /\
    stdout s' = stdout s ++ out /\ window s' = [] /\
    combinedLogs s' = combinedLogs s /\ flushTrigger s' = false.
Proof.
  simpl. unfold printLogs. intros Hstep.
  destruct (printer s); try discriminate.
  destruct (flushTrigger s); [|discriminate].
  destruct (flush (hideServiceName cmd) (window s)) as [out|]; [|discriminate].
  simpl in Hstep. injection Hstep as <-. by exists out.
Qed.
End drain.

(** C7: when the context is cancelled, [printLogs] can take the [ctx.Done()]
    case (and only then); from there a turn of the draining loop is always
    possible, whatever the channel holds, and the loop run on the lines that
    are queued takes them all into the window, flushes the window and returns
    nil. *)
Theorem cancellation_drains `{GoLib} (cmd : Command) (s : state) :
  printer s = PLoop ->
  cancelled s = true ->
  step cmd (Printer Cancellation) s = Some (set_printer PDrain s) /\
  (forall s0, cancelled s0 = false -> step cmd (Printer Cancellation) s0 = None) /\
  (forall s1, printer s1 = PDrain -> is_Some (step cmd (Printer Drain) s1)) /\
  exists out s',
    flush (hideServiceName cmd) (window s ++ combinedLogs s) = Some out /\
    run cmd (Printer Cancellation
               :: replicate (S (length (combinedLogs s))) (Printer Drain)) s
    = Some s' /\
    printer s' = PReturned None /\
    stdout s' = stdout s ++ out /\
    window s' = [] /\ combinedLogs s' = [].
Proof.
  intros Hp Hc.
  assert (Hstep : step cmd (Printer Cancellation) s = Some (set_printer PDrain s)).
  { simpl. unfold printLogs. by rewrite Hp, Hc. }
  split; [exact Hstep|]. split.
  { intros s0 Hc0. simpl. unfold printLogs. rewrite Hc0.
    by destruct (printer s0). }
  split.
  { intros s1 Hp1. simpl. unfold printLogs, returnNil. rewrite Hp1.
    destruct (combinedLogs s1); [|eauto].
    destruct (flush_total (hideServiceName cmd) (window s1)) as [out ->].
    simpl. eauto. }
  destruct (drain_run cmd (combinedLogs s) (set_printer PDrain s) eq_refl eq_refl)
    as (out & s' & Hout & Hrun & Hp' & Hstdout & Hw & Hq & _).
  exists out, s'. split; [exact Hout|]. split; [|done].
  cbn [run]. rewrite Hstep. exact Hrun.
Qed.

(** ** The duplicate filter at a reconnect *)

(** C3, as the code has it: a reader that opens a stream again takes its
    [lastMessageTime], when that is set, as [sinceTime]; a line read without
    an error whose timestamp is not after [sinceTime] is dropped, the state
    staying as it is; one whose timestamp is after [sinceTime] goes to the
    send, and [lastMessageTime] follows it; a line read together with an
    error goes to the send whatever its timestamp is. *)
Theorem reconnect_filter `{GoLib} (cmd : Command) (i : nat)
    (service message rest : string)
    (timestamp sinceTime lastMessageTime now : Time) (s : state) :
  parseLogLine message = (rest, timestamp, None) ->
  let line err := mkRaw err service (strings.TrimSuffix_newline message) now in
  forwardLogs cmd i service StreamOpened (FwdOpen lastMessageTime sinceTime) s
  = Some (set_reader i
            (FwdRead lastMessageTime
               (if decide (lastMessageTime = time.zero) then sinceTime
                else lastMessageTime)) s) /\
  (timestamp <= sinceTime ->
   forwardLogs cmd i service (ReadString message None now)
     (FwdRead lastMessageTime sinceTime) s
   = Some (set_reader i (FwdRead lastMessageTime sinceTime) s)) /\
  (sinceTime < timestamp ->
   forwardLogs cmd i service (ReadString message None now)
     (FwdRead lastMessageTime sinceTime) s
   = Some (set_reader i
             (FwdSend (Z.max lastMessageTime timestamp) sinceTime (line None))
             s)) /\
  (forall err,
      forwardLogs cmd i service (ReadString message (Some err) now)
        (FwdRead lastMessageTime sinceTime) s
      = Some (set_reader i
                (FwdSend lastMessageTime sinceTime (line (Some err))) s)).
Proof.
  intros Hparse line. split; [|split; [|split]].
  - simpl. unfold nextSinceTime, time.IsZero, time.zero.
    destruct (Z.eqb_spec lastMessageTime 0); simpl;
      [by rewrite decide_True|by rewrite decide_False].
  - intros Hle. simpl.
    rewrite (isOldMessage_parsed _ _ _ _ _ Hparse).
    by rewrite decide_True.
  - intros Hlt. simpl.
    rewrite (isOldMessage_parsed _ _ _ _ _ Hparse).
    by rewrite decide_False by lia.
  - done.
Qed.

(** ** Status messages *)

Lemma printStatusMessage_total `{GoLib} (service message : string)
    (hide : bool) :
  is_Some (printStatusMessage service message hide).
Proof.
  unfold printStatusMessage. destruct hide; simpl; [eauto|].
  destruct (pickColor_total service) as [c ->]. simpl. eauto.
Qed.

(** C8, as the code has it: no line that a flush parses from a window has a
    [formatOverride]; the printer writes a non-empty [formatOverride] as it
    is, without colour or service name; the status messages of a reader that
    follows are written by [printStatusMessage] to [os.Stderr], and no step of
    a reader touches [os.Stdout] or the window. *)
Theorem status_messages_on_stderr `{GoLib} :
  (forall window p, p ∈ parseWindow window -> formatOverride p = EmptyString) /\
  (forall hide p,
      formatOverride p <> EmptyString ->
      printLine hide p = Some (formatOverride p)) /\
  (forall cmd i service last since err s,
      exists exited disconnected,
        printStatusMessage service "The container exited."
          (hideServiceName cmd) = Some exited /\
        printStatusMessage service "Disconnected from logs, reconnecting.."
          (hideServiceName cmd) = Some disconnected /\
        forwardLogs cmd i service PodExited (FwdRecvErr last since err) s
        = Some (set_reader i
                  (Returned (errors_WithContext "recv log stream" err))
                  (set_stderr (stderr s ++ [exited]) s)) /\
        forwardLogs cmd i service TimerFired (FwdRecvErr last since err) s
        = Some (set_reader i (FwdOpen last since)
                  (set_stderr (stderr s ++ [disconnected]) s))) /\
  (forall cmd i service ev pc s s',
      readerStep cmd i service ev pc s = Some s' ->
      stdout s' = stdout s /\ window s' = window s).
Proof.
  split; [|split; [|split]].
  - intros window p. rewrite parseWindow_bind.
    intros (r & Hp & _)%list_elem_of_bind. by eapply parseRaw_formatOverride.
  - intros hide p Hne. unfold printLine. by rewrite decide_True.
  - intros cmd i service last since err s.
    destruct (printStatusMessage_total service "The container exited."
                (hideServiceName cmd)) as [exited Hexited].
    destruct (printStatusMessage_total service
                "Disconnected from logs, reconnecting.."
                (hideServiceName cmd)) as [disconnected Hdisconnected].
    exists exited, disconnected. simpl. by rewrite Hexited, Hdisconnected.
  - intros cmd i service ev pc s s' Hstep.
    destruct (readerStep_frame _ _ _ _ _ _ _ Hstep) as (? & _ & _ & ? & ? & ? & ? & ? & ? & ?).
    done.
Qed.

(** ** The properties on concrete runs *)

Section examples.
#[local] Existing Instance Sample.lib.

Example parse_hello :
  parseLogLine (Demo.hello +:+ Demo.nl)
  = ("hello" +:+ Demo.nl, Demo.helloTime, None).
Proof. vm_compute. reflexivity. Qed.

Example parse_garbled :
  parseLogLine Demo.garbled
  = (EmptyString, time.zero, Some (ErrorString "parse timestamp")).
Proof. vm_compute. reflexivity. Qed.

Example run_schedule :
  run Demo.cmd Demo.schedule (init Demo.cmd) = Some Demo.final.
Proof. vm_compute. reflexivity. Qed.

Example schedule_prints :
  stdout Demo.final
  = [Sample.Color "web" goterm.MAGENTA +:+ " › hello" +:+ Demo.nl].
Proof. vm_compute. reflexivity. Qed.

(** Test vectors of 32-bit FNV-1. *)
Example fnv_a : (fnv.Write fnv.New32 (bytes "a")).1 = 0x050c5d7e.
Proof. reflexivity. Qed.

Example fnv_foobar : (fnv.Write fnv.New32 (bytes "foobar")).1 = 0x31f0b262.
Proof. reflexivity. Qed.

Example pickColor_web : pickColor "web" = Some goterm.MAGENTA.
Proof. reflexivity. Qed.

(** A window in which the line of [db], logged 50ms after the first line of
    [web], arrived first: the flush prints [web] before [db]. *)
Example flush_two_services :
  flush false
    [mkRaw None "db" "2020-03-01T12:00:00.05Z ready" 7;
     mkRaw None "web" "2020-03-01T12:00:00Z listening" 8]
  = Some [Sample.Color "web" goterm.MAGENTA +:+ " › listening" +:+ Demo.nl;
          Sample.Color "db" goterm.CYAN +:+ " › ready" +:+ Demo.nl].
Proof. vm_compute. reflexivity. Qed.

(** One service, not followed: three lines and the end of the stream; the
    lines come out in the order of their timestamps and [printLogs] returns
    nil. *)
Example single_service_run :
  let cmd := mkCommand ["web"] false in
  exists s,
    run cmd
      [Reader 0 StreamOpened;
       Reader 0 (ReadString ("2020-03-01T12:00:02Z c" +:+ Demo.nl) None 1);
       Reader 0 ChanSend;
       Reader 0 (ReadString ("2020-03-01T12:00:00Z a" +:+ Demo.nl) None 2);
       Reader 0 ChanSend;
       Reader 0 (ReadString ("2020-03-01T12:00:01Z b" +:+ Demo.nl) None 3);
       Reader 0 ChanSend;
       Reader 0 (ReadString EmptyString (Some EOF) 4); Reader 0 ChanSend;
       Printer Receive; Printer Receive; Printer Receive;
       Reader 0 Lock; Reader 0 Update; Reader 0 Unlock;
       Watcher; Watcher; Watcher;
       Printer Cancellation; Printer Drain; Printer Drain]
      (init cmd) = Some s /\
    printer s = PReturned None /\
    stdout s = ["a" +:+ Demo.nl; "b" +:+ Demo.nl; "c" +:+ Demo.nl].
Proof. eexists. vm_compute. repeat split; reflexivity. Qed.
End examples.

Lemma completion_by_cancellation_witness :
  Follow Demo.cmd = false /\
  @run Sample.lib Demo.cmd Demo.schedule (init Demo.cmd) = Some Demo.final /\
  closed Demo.final = false /\
  (forall err,
      printer Demo.final = PReturned err ->
      err = None /\ cancelled Demo.final = true) /\
  (cancelled Demo.final = true -> signalHandler Demo.final = true ->
   watcher Demo.final = WDone /\ runningCount Demo.final = 0 /\
   Forall (fun pc => pc = Exited \/ exists err, pc = DecDone err)
     (readers Demo.final) /\
   forall i, (i < 2)%nat -> ended i (sentBy i Demo.final)).
Proof.
  assert (Hrun : @run Sample.lib Demo.cmd Demo.schedule (init Demo.cmd)
                 = Some Demo.final) by (vm_compute; reflexivity).
  split; [reflexivity|]. split; [exact Hrun|].
  pose proof (@completion_by_cancellation Sample.lib Demo.cmd Demo.schedule
                Demo.final eq_refl Hrun) as (Hclosed & Hret & Hcancel & _).
  split; [exact Hclosed|]. split; [exact Hret|exact Hcancel].
Defined.

(** [printLogs] returns nil while [combinedLogs] is open, after the reader
    of [db] ended without a line of its own. *)
Lemma completion_without_close :
  @run Sample.lib Demo.cmd Demo.schedule (init Demo.cmd) = Some Demo.final /\
  printer Demo.final = PReturned None /\
  closed Demo.final = false /\
  readers Demo.final = [Exited; Exited] /\
  sentBy 1 Demo.final = [].
Proof. vm_compute. repeat split; reflexivity. Qed.

Lemma runningCount_invariant_witness :
  @run Sample.lib Demo.cmd (take 9 Demo.schedule) (init Demo.cmd)
  = Some (default (init Demo.cmd)
            (@run Sample.lib Demo.cmd (take 9 Demo.schedule) (init Demo.cmd)))
  /\
  let s := default (init Demo.cmd)
             (@run Sample.lib Demo.cmd (take 9 Demo.schedule) (init Demo.cmd)) in
  0 <= runningCount s <= 2 /\ runningCount s = tailing (readers s) /\
  mutex s = Some (HReader 1).
Proof.
  assert (Hrun : @run Sample.lib Demo.cmd (take 9 Demo.schedule) (init Demo.cmd)
                 = Some (default (init Demo.cmd)
                           (@run Sample.lib Demo.cmd (take 9 Demo.schedule)
                              (init Demo.cmd))))
    by (vm_compute; reflexivity).
  split; [exact Hrun|]. intros s.
  pose proof (@runningCount_invariant Sample.lib Demo.cmd _ _ Hrun)
    as (_ & Hbounds & Hcount & Hlock & _).
  split; [exact Hbounds|]. split; [exact Hcount|].
  apply (Hlock 1%nat (DecDone (Wrapped "start logs stream"
                                 (ErrorString "no pod")))); reflexivity.
Defined.

Lemma reconnect_filter_witness :
  @parseLogLine Sample.lib (Demo.hello +:+ Demo.nl)
  = ("hello" +:+ Demo.nl, Demo.helloTime, None) /\
  @forwardLogs Sample.lib Demo.cmdFollow 0 "web"
    (ReadString (Demo.hello +:+ Demo.nl) None 30)
    (FwdRead Demo.helloTime Demo.helloTime) (init Demo.cmdFollow)
  = Some (set_reader 0 (FwdRead Demo.helloTime Demo.helloTime)
            (init Demo.cmdFollow)) /\
  @forwardLogs Sample.lib Demo.cmdFollow 0 "web"
    (ReadString (Demo.hello +:+ Demo.nl) None 30)
    (FwdRead time.zero time.zero) (init Demo.cmdFollow)
  = Some (set_reader 0
            (FwdSend Demo.helloTime time.zero (mkRaw None "web" Demo.hello 30))
            (init Demo.cmdFollow)).
Proof.
  assert (Hparse : @parseLogLine Sample.lib (Demo.hello +:+ Demo.nl)
                   = ("hello" +:+ Demo.nl, Demo.helloTime, None))
    by (vm_compute; reflexivity).
  split; [exact Hparse|]. split.
  - apply (@reconnect_filter Sample.lib Demo.cmdFollow 0 "web" _ _ _
             Demo.helloTime Demo.helloTime 30 (init Demo.cmdFollow) Hparse).
    reflexivity.
  - apply (@reconnect_filter Sample.lib Demo.cmdFollow 0 "web" _ _ _
             time.zero time.zero 30 (init Demo.cmdFollow) Hparse).
    reflexivity.
Defined.

(** After a reconnect with [sinceTime] at the time of [hello], the line
    [hello] comes again, cut off by the end of the stream: it is sent a
    second time. *)
Lemma reconnect_forwards_old_line :
  @run Sample.lib Demo.cmdFollow Demo.reconnect (init Demo.cmdFollow)
  = Some Demo.reconnected /\
  readers Demo.reconnected
  = [FwdRecvErr Demo.helloTime Demo.helloTime EOF] /\
  @parseLogLine Sample.lib Demo.hello = ("hello", Demo.helloTime, None) /\
  Demo.helloTime <= Demo.helloTime /\
  sent Demo.reconnected
  = [(0%nat, mkRaw None "web" Demo.hello 10);
     (0%nat, mkRaw (Some (ErrorString "unexpected EOF")) "web" EmptyString 20);
     (0%nat, mkRaw (Some EOF) "web" Demo.hello 30)].
Proof. vm_compute. repeat split; try reflexivity. discriminate. Qed.

Lemma read_error_final_line_witness :
  Follow Demo.cmd = false /\
  readers Demo.opened !! 0%nat = Some (FwdRead time.zero time.zero) /\
  Services Demo.cmd !! 0%nat = Some "web" /\
  exists s1,
    @step Sample.lib Demo.cmd (Reader 0 (ReadString EmptyString (Some EOF) 20))
      Demo.opened = Some s1 /\
    readers s1 !! 0%nat
    = Some (FwdSend time.zero time.zero (mkRaw (Some EOF) "web" EmptyString 20)) /\
    sent s1 = sent Demo.opened.
Proof.
  split; [reflexivity|]. split; [reflexivity|]. split; [reflexivity|].
  destruct (@read_error_final_line Sample.lib Demo.cmd 0 "web" EmptyString EOF
              time.zero time.zero 20 Demo.opened eq_refl eq_refl eq_refl)
    as (s1 & Hstep & Hpc & Hsent & _).
  exists s1. split; [exact Hstep|]. split; [exact Hpc|exact Hsent].
Defined.

Lemma malformed_line_printed_witness :
  mkRaw None "web" Demo.garbled 42 ∈ Demo.window /\
  @malformed Sample.lib Demo.garbled /\
  (error (mkRaw None "web" Demo.garbled 42) = None \/
   Demo.garbled <> EmptyString) /\
  mkParsed "web" Demo.garbled 42 EmptyString
  ∈ sort.SliceStable byLogTime (@parseWindow Sample.lib Demo.window) /\
  exists out o,
    @flush Sample.lib false Demo.window = Some out /\
    length out = 2%nat /\
    @printLine Sample.lib false (mkParsed "web" Demo.garbled 42 EmptyString)
    = Some o /\
    o ∈ out.
Proof.
  assert (Hin : mkRaw None "web" Demo.garbled 42 ∈ Demo.window)
    by (unfold Demo.window; left).
  assert (Hbad : @malformed Sample.lib Demo.garbled)
    by (vm_compute; split; reflexivity).
  assert (Hline : error (mkRaw None "web" Demo.garbled 42) = None \/
                  Demo.garbled <> EmptyString) by (left; reflexivity).
  split; [exact Hin|]. split; [exact Hbad|]. split; [exact Hline|].
  destruct (@malformed_line_printed Sample.lib false Demo.window _
              Hin Hbad Hline) as (_ & Hsorted & _ & out & o & Hout & Hlen & Ho).
  split; [exact Hsorted|]. exists out, o.
  split; [exact Hout|]. split; [exact Hlen|exact Ho].
Defined.

Lemma cancellation_drains_witness :
  printer Demo.interrupted = PLoop /\
  cancelled Demo.interrupted = true /\
  combinedLogs Demo.interrupted = [mkRaw None "web" Demo.hello 10] /\
  exists out s',
    @flush Sample.lib false [mkRaw None "web" Demo.hello 10] = Some out /\
    @run Sample.lib Demo.cmd
      [Printer Cancellation; Printer Drain; Printer Drain] Demo.interrupted
    = Some s' /\
    printer s' = PReturned None /\
    stdout s' = out /\ window s' = [] /\ combinedLogs s' = [].
Proof.
  split; [reflexivity|]. split; [reflexivity|]. split; [reflexivity|].
  destruct (@cancellation_drains Sample.lib Demo.cmd Demo.interrupted
              eq_refl eq_refl) as (_ & _ & _ & out & s' & Hrest).
  exists out, s'. exact Hrest.
Defined.

Lemma isOldMessage_malformed_witness :
  (Demo.garbled = EmptyString \/ @malformed Sample.lib Demo.garbled) /\
  @isOldMessage Sample.lib Demo.helloTime Demo.helloTime Demo.garbled
  = (false, Demo.helloTime).
Proof.
  assert (Hbad : Demo.garbled = EmptyString \/ @malformed Sample.lib Demo.garbled)
    by (right; vm_compute; split; reflexivity).
  split; [exact Hbad|].
  apply (@isOldMessage_malformed Sample.lib Demo.cmdFollow 0 "web" Demo.garbled
           Demo.helloTime Demo.helloTime 30 (init Demo.cmdFollow) Hbad).
Defined.

(** The container of [web] exits while its logs are followed: the status
    message is on [os.Stderr]; the flush of the window prints nothing, and
    the window gives no entry with a [formatOverride]. *)
Lemma status_message_without_formatOverride :
  @run Sample.lib Demo.cmdFollow2 Demo.exit (init Demo.cmdFollow2)
  = Some Demo.exited /\
  stderr Demo.exited
  = [Sample.Color "web" goterm.MAGENTA +:+ " - The container exited."
     +:+ Demo.nl] /\
  stdout Demo.exited = [] /\
  sent Demo.exited = [(0%nat, mkRaw (Some EOF) "web" EmptyString 20)] /\
  @parseWindow Sample.lib [mkRaw (Some EOF) "web" EmptyString 20] = [].
Proof. vm_compute. repeat split; reflexivity. Qed.


(** * Further properties of the package *)

(** ** The shape of a line that parses *)

Lemma cut_space_app (rawTimestamp rest : string) :
  strings.cut_space rawTimestamp = None ->
  strings.cut_space (rawTimestamp +:+ String " " rest)
  = Some (rawTimestamp, rest).
Proof.
  induction rawTimestamp as [|c ts IH]; simpl; [done|].
  destruct (Ascii.eqb c " "); [done|].
  destruct (strings.cut_space ts) as [[a b]|] eqn:Hts; [done|].
  intros _. by rewrite IH.
Qed.

Lemma cut_space_inv (s rawTimestamp rest : string) :
  strings.cut_space s = Some (rawTimestamp, rest) ->
  s = rawTimestamp +:+ String " " rest /\
  strings.cut_space rawTimestamp = None.
Proof.
  revert rawTimestamp. induction s as [|c s IH]; intros ts; simpl; [done|].
  destruct (Ascii.eqb_spec c " ") as [->|Hc].
  - intros [= <- <-]. done.
  - destruct (strings.cut_space s) as [[a b]|]; [|done].
    intros [= <- <-]. destruct (IH a eq_refl) as [-> Ha].
    split; [done|]. simpl.
    destruct (Ascii.eqb_spec c " "); [done|]. by rewrite Ha.
Qed.

Lemma mapM_total {A B : Type} (f : A -> option B) (d : B) (l : list A) :
  (forall x, is_Some (f x)) ->
  mapM f l = Some (map (fun x => default d (f x)) l).
Proof.
  intros Hf. apply mapM_Some. induction l as [|x l IH]; simpl; [constructor|].
  constructor; [|exact IH]. by destruct (Hf x) as [y ->].
Qed.

Lemma flush_map `{GoLib} (hide : bool) (window : list rawLogLine) :
  flush hide window
  = Some (map (fun p => default EmptyString (printLine hide p))
            (sort.SliceStable byLogTime (parseWindow window))).
Proof. unfold flush. apply mapM_total. intros p. apply printLine_total. Qed.

(** X1: [parseLogLine] accepts exactly the lines made of a text without
    space that parses under one of the two layouts, one space, and a rest; it
    returns the rest as it is, later spaces included, with the time under
    [RFC3339Nano] when that layout parses and the time under [RFC3339]
    otherwise. *)
Theorem parseLogLine_shape `{GoLib} (rawMessage rest : string)
    (timestamp : Time) :
  parseLogLine rawMessage = (rest, timestamp, None) <->
  exists rawTimestamp,
    rawMessage = rawTimestamp +:+ String " " rest /\
    strings.cut_space rawTimestamp = None /\
    (time_Parse time.RFC3339Nano rawTimestamp = Some timestamp \/
     (time_Parse time.RFC3339Nano rawTimestamp = None /\
      time_Parse time.RFC3339 rawTimestamp = Some timestamp)).
Proof.
  unfold parseLogLine, strings.SplitN_space_2. split.
  - destruct (strings.cut_space rawMessage) as [[ts msg]|] eqn:Hcut; [|done].
    apply cut_space_inv in Hcut as [-> Hts]. intros Hparse. exists ts.
    destruct (time_Parse time.RFC3339Nano ts) as [t|] eqn:Hnano.
    + injection Hparse as -> ->. auto.
    + destruct (time_Parse time.RFC3339 ts) as [t|] eqn:Hsec; [|done].
      injection Hparse as -> ->. auto.
  - intros (ts & -> & Hts & Hparse). rewrite (cut_space_app _ _ Hts).
    destruct Hparse as [->|[-> ->]]; done.
Qed.

(** ** What a flush prints *)

Section flush_more.
Context `{GoLib}.

Lemma parseRaw_parsed (r : rawLogLine) (rest : string) (timestamp : Time) :
  parseLogLine (message r) = (rest, timestamp, None) ->
  parseRaw r = [mkParsed (fromContainer r) rest timestamp EmptyString].
Proof.
  intros Hparse. unfold parseRaw. rewrite Hparse.
  destruct (error r); [|done].
  rewrite decide_True; [done|]. intros Hempty. rewrite Hempty in Hparse.
  apply parseLogLine_shape in Hparse as (ts & Hts & _).
  by destruct ts.
Qed.

Lemma parseRaw_length (r : rawLogLine) :
  length (parseRaw r) = if decide (holdsLine r) then 1%nat else 0%nat.
Proof.
  destruct (decide (holdsLine r)) as [Hl|Hl]; unfold holdsLine in Hl;
    unfold parseRaw;
    destruct (parseLogLine (message r)) as [[m ts] [e|]];
    destruct (error r); repeat case_decide; try done;
    try (destruct Hl; done); destruct Hl; auto.
Qed.

Lemma parseWindow_length (window : list rawLogLine) :
  length (parseWindow window) = length (filter holdsLine window).
Proof.
  rewrite parseWindow_bind.
  induction window as [|r window IH]; [done|].
  rewrite bind_cons, length_app, parseRaw_length, filter_cons, IH.
  by case_decide.
Qed.

Lemma flush_length (hide : bool) (window : list rawLogLine)
    (out : list string) :
  flush hide window = Some out ->
  length out = length (filter holdsLine window).
Proof.
  rewrite flush_map. intros [= <-].
  by rewrite length_map, SliceStable_Permutation, parseWindow_length.
Qed.
End flush_more.

(** X2: a line of a window whose message parses is printed by the flush
    without the timestamp in front: its entry carries the rest of the message
    and the parsed time, not [receivedAt], as [loggedAt]; with one service the
    text written is the rest and a newline. *)
Theorem wellformed_line_printed `{GoLib} (hide : bool)
    (window : list rawLogLine) (r : rawLogLine) (rest : string)
    (timestamp : Time) :
  r ∈ window ->
  parseLogLine (message r) = (rest, timestamp, None) ->
  let p := mkParsed (fromContainer r) rest timestamp EmptyString in
  p ∈ sort.SliceStable byLogTime (parseWindow window) /\
  printLine true p = Some (rest +:+ String strings.newline EmptyString) /\
  exists out o,
    flush hide window = Some out /\ printLine hide p = Some o /\ o ∈ out.
Proof.
  intros Hin Hparse p.
  assert (Hsorted : p ∈ sort.SliceStable byLogTime (parseWindow window)).
  { rewrite SliceStable_Permutation, parseWindow_bind.
    apply list_elem_of_bind. exists r. split; [|exact Hin].
    rewrite (parseRaw_parsed _ _ _ Hparse). left. }
  split; [exact Hsorted|]. split; [done|].
  destruct (printLine_total hide p) as [o Ho].
  eexists _, o. split; [apply flush_map|]. split; [exact Ho|].
  apply list_elem_of_fmap. exists p. by rewrite Ho.
Qed.

(** X3: a flush writes exactly one line for every entry of the window that
    holds a line, and nothing for an entry that has an error and an empty
    message; for the empty window it writes nothing. *)
Theorem flush_one_line_per_entry `{GoLib} (hide : bool)
    (window : list rawLogLine) :
  flush hide [] = Some [] /\
  exists out,
    flush hide window = Some out /\
    length out = length (filter holdsLine window) /\
    (Forall (fun r => error r <> None /\ message r = EmptyString) window ->
     out = []).
Proof.
  split; [done|].
  destruct (flush_total hide window) as [out Hout]. exists out.
  split; [exact Hout|]. pose proof (flush_length _ _ _ Hout) as Hlen.
  split; [exact Hlen|]. intros Hnone.
  assert (Hfilter : filter holdsLine window = []).
  { clear Hout Hlen. induction Hnone as [|r window [Herr Hmsg] _ IH]; [done|].
    rewrite filter_cons, decide_False; [exact IH|].
    intros [?|?]; done. }
  rewrite Hfilter in Hlen. by destruct out.
Qed.

(** ** Two windows *)

Lemma StronglySorted_app_cross (l1 l2 : list parsedLogLine) :
  StronglySorted logTimeLe l1 -> StronglySorted logTimeLe l2 ->
  (forall p1 p2, p1 ∈ l1 -> p2 ∈ l2 -> loggedAt p1 <= loggedAt p2) ->
  StronglySorted logTimeLe (l1 ++ l2).
Proof.
  induction 1 as [|a l1 Hs1 IH Ha]; intros Hs2 Hcross; simpl; [done|].
  constructor.
  - apply IH; [done|]. intros p1 p2 H1 H2. apply Hcross; [by right|done].
  - apply Forall_app. split; [exact Ha|].
    apply Forall_forall. intros p2 H2. apply Hcross; [left|done].
Qed.

(** X4: flushing a window in two parts writes the same lines as flushing it
    at once, possibly in another order; when no line of the first part is
    logged after a line of the second, the two flushes write exactly what the
    single flush writes. *)
Theorem flush_split `{GoLib} (hide : bool) (w1 w2 : list rawLogLine) :
  exists out1 out2 out,
    flush hide w1 = Some out1 /\ flush hide w2 = Some out2 /\
    flush hide (w1 ++ w2) = Some out /\
    out ≡ₚ out1 ++ out2 /\
    ((forall p1 p2,
         p1 ∈ parseWindow w1 -> p2 ∈ parseWindow w2 ->
         loggedAt p1 <= loggedAt p2) ->
     out = out1 ++ out2).
Proof.
  eexists _, _, _. split; [apply flush_map|]. split; [apply flush_map|].
  split; [apply flush_map|]. rewrite <- map_app. split.
  - apply Permutation_map.
    by rewrite !SliceStable_Permutation, parseWindow_app.
  - intros Hcross. f_equal. symmetry. apply SliceStable_unique.
    + apply StronglySorted_app_cross; [apply SliceStable_sorted..|].
      intros p1 p2. rewrite !SliceStable_Permutation. apply Hcross.
    + intros t. by rewrite parseWindow_app, !filter_app, !SliceStable_stable.
Qed.

(** ** The counter and its lock, in every run *)

Section protocol.
Context `{GoLib} (cmd : Command).

Lemma step_reader_at (i : nat) (pc : readerPC) (service : string)
    (ev : readerEvent) (s : state) :
  readers s !! i = Some pc -> Services cmd !! i = Some service ->
  step cmd (Reader i ev) s = readerStep cmd i service ev pc s.
Proof. intros Hpc Hsvc. simpl. by rewrite Hpc, Hsvc. Qed.

Lemma reachable_service (i : nat) (pc : readerPC) (s : state) :
  reachable cmd s -> readers s !! i = Some pc ->
  is_Some (Services cmd !! i).
Proof.
  intros Hs Hpc. apply lookup_lt_is_Some.
  rewrite <- (inv_length _ _ (reachable_invariant _ _ Hs)).
  by eapply lookup_lt_Some.
Qed.

Lemma unlock_frees (i : nat) (pc : readerPC) (service : string) (s : state) :
  readers s !! i = Some pc -> Services cmd !! i = Some service ->
  (pc = IncDone \/ exists err, pc = DecDone err) ->
  exists s', step cmd (Reader i Unlock) s = Some s' /\ mutex s' = None.
Proof.
  intros Hpc Hsvc Hcase. rewrite (step_reader_at _ _ _ _ _ Hpc Hsvc).
  destruct Hcase as [->|[err ->]]; simpl; [eauto|].
  case_decide; [eauto|]. destruct (Follow cmd); simpl; eauto.
Qed.

Lemma update_keeps_lock (i : nat) (pc : readerPC) (service : string)
    (s : state) :
  readers s !! i = Some pc -> Services cmd !! i = Some service ->
  (pc = IncLocked \/ exists err, pc = DecLocked err) ->
  exists s' pc',
    step cmd (Reader i Update) s = Some s' /\
    readers s' !! i = Some pc' /\
    (pc' = IncDone \/ exists err, pc' = DecDone err).
Proof.
  intros Hpc Hsvc Hcase. rewrite (step_reader_at _ _ _ _ _ Hpc Hsvc).
  assert (Hi : (i < length (readers s))%nat) by by eapply lookup_lt_Some.
  destruct Hcase as [->|[err ->]]; simpl.
  - eexists _, _. split; [done|]. simpl.
    split; [by apply list_lookup_insert_eq|by left].
  - eexists _, _. split; [done|]. simpl. split; [|right; eauto].
    case_decide; [rewrite Signal_spec|]; simpl;
      by apply list_lookup_insert_eq.
Qed.
End protocol.

(** X5: whoever holds [runningCountCond.L] is never blocked: a reader that
    holds it frees it with its next step or the one after ([Update], then
    [Unlock]), and the watcher frees it with its next step ([Wait] or
    [Unlock]). *)
Theorem lock_holder_releases `{GoLib} (cmd : Command) (ls : list label)
    (s : state) :
  run cmd ls (init cmd) = Some s ->
  (forall i,
      mutex s = Some (HReader i) ->
      exists ls' s',
        (ls' = [Reader i Unlock] \/ ls' = [Reader i Update; Reader i Unlock]) /\
        run cmd ls' s = Some s' /\ mutex s' = None) /\
  (mutex s = Some HWatcher ->
   exists s', step cmd Watcher s = Some s' /\ mutex s' = None).
Proof.
  intros Hrun. apply run_reachable in Hrun as Hreach.
  pose proof (reachable_invariant _ _ Hreach) as Hinv. split.
  - intros i Hm. destruct (inv_mutex_reader _ _ Hinv i Hm) as (pc & Hpc & Hl).
    destruct (reachable_service _ _ _ _ Hreach Hpc) as [service Hsvc].
    assert (Hcase : (pc = IncDone \/ exists err, pc = DecDone err) \/
                    (pc = IncLocked \/ exists err, pc = DecLocked err))
      by (destruct pc; try discriminate; eauto).
    destruct Hcase as [Hdone|Hlocked].
    + destruct (unlock_frees _ _ _ _ _ Hpc Hsvc Hdone) as (s' & Hstep & Hfree).
      exists [Reader i Unlock], s'. split; [by left|].
      cbn [run]. by rewrite Hstep.
    + destruct (update_keeps_lock _ _ _ _ _ Hpc Hsvc Hlocked)
        as (s1 & pc1 & Hstep1 & Hpc1 & Hdone).
      destruct (unlock_frees _ _ _ _ _ Hpc1 Hsvc Hdone)
        as (s' & Hstep & Hfree).
      exists [Reader i Update; Reader i Unlock], s'. split; [by right|].
      cbn [run]. rewrite Hstep1. cbn [mbind option_bind]. by rewrite Hstep.
  - intros Hm. simpl. unfold watcherStep.
    rewrite (inv_mutex_watcher _ _ Hinv Hm). case_decide; eauto.
Qed.

(** X6: the watcher never sleeps on a count of zero: while it waits in
    [Wait], [runningCount] is positive and some reader is still counted; and
    at its test it goes on to [cancel()] only when [runningCount] is zero and
    no reader is inside [forwardLogs], and to [Wait] otherwise. *)
Theorem watcher_sees_zero `{GoLib} (cmd : Command) (ls : list label)
    (s : state) :
  run cmd ls (init cmd) = Some s ->
  (watcher s = WWaiting ->
   runningCount s > 0 /\
   exists i pc, readers s !! i = Some pc /\ counted pc = true) /\
  (watcher s = WLocked ->
   exists s',
     step cmd Watcher s = Some s' /\
     ((watcher s' = WCancel /\ runningCount s = 0 /\
       Forall (fun pc => counted pc = false) (readers s)) \/
      (watcher s' = WWaiting /\ runningCount s > 0))).
Proof.
  intros Hrun. apply run_reachable in Hrun as Hreach.
  pose proof (reachable_invariant _ _ Hreach) as Hinv. split.
  - intros Hw. pose proof (inv_waiting _ _ Hinv Hw) as Hpos.
    split; [exact Hpos|]. rewrite (inv_count _ _ Hinv) in Hpos.
    by apply tailing_pos.
  - intros Hw. simpl. unfold watcherStep. rewrite Hw.
    case_decide as Hpos; eexists; (split; [reflexivity|]); [by right|left].
    pose proof (tailing_bounds (readers s)) as Hb.
    rewrite <- (inv_count _ _ Hinv) in Hb.
    assert (Hz : runningCount s = 0) by lia.
    split; [done|]. split; [done|].
    apply tailing_zero. by rewrite <- (inv_count _ _ Hinv).
Qed.

(** ** The locals of [forwardLogs] *)

Section locals.
Context `{GoLib} (cmd : Command).

Lemma isOldMessage_mono (since last last' : Time) (message : string)
    (old : bool) :
  isOldMessage since last message = (old, last') -> last <= last'.
Proof.
  unfold isOldMessage, time.After. case_decide; [intros [= _ <-]; lia|].
  destruct (parseLogLine message) as [[m ts] [e|]]; [intros [= _ <-]; lia|].
  destruct (since <? ts); simpl; [|intros [= _ <-]; lia].
  destruct (Z.ltb_spec last ts); intros [= _ <-]; lia.
Qed.

Lemma nextSinceTime_between (last since : Time) :
  0 <= since <= last ->
  since <= nextSinceTime last since <= last.
Proof.
  unfold nextSinceTime, time.IsZero.
  destruct (Z.eqb_spec last 0); simpl; lia.
Qed.

Lemma readerStep_locals (i : nat) (service : string) (ev : readerEvent)
    (pc : readerPC) (s s' : state) :
  localsOrdered pc ->
  readerStep cmd i service ev pc s = Some s' ->
  exists pc',
    readers s' = <[i:=pc']> (readers s) /\ localsOrdered pc' /\
    forall last since last' since',
      forwardLocals pc = Some (last, since) ->
      forwardLocals pc' = Some (last', since') ->
      last <= last' /\ since <= since'.
Proof.
  intros Hord Hstep. unfold localsOrdered in *.
  destruct pc, ev; simpl in Hstep; try discriminate;
    try rewrite Signal_spec in Hstep; step_cases;
    (eexists; split; [reflexivity|]); simpl in *;
    repeat match goal with
           | E : isOldMessage _ _ _ = _ |- _ =>
               apply isOldMessage_mono in E
           end;
    try match goal with
        | |- context [nextSinceTime ?l ?s] =>
            pose proof (nextSinceTime_between l s Hord)
        end;
    (split; [try done; lia|]);
    intros ? ? ? ? ? ?; simplify_eq; lia.
Qed.

Lemma reachable_locals (s : state) :
  reachable cmd s -> Forall localsOrdered (readers s).
Proof.
  induction 1 as [|l s s' Hs IH Hstep].
  - simpl. apply Forall_fmap, Forall_forall. intros ? _.
    unfold localsOrdered. simpl. unfold time.zero. lia.
  - destruct l as [i ev| |ev|]; simpl in Hstep.
    + destruct (readers s !! i) as [pc|] eqn:Hpc; [|done].
      destruct (Services cmd !! i) as [service|]; [|done]. simpl in Hstep.
      assert (Hord : localsOrdered pc)
        by (rewrite Forall_lookup in IH; by eapply IH).
      destruct (readerStep_locals _ _ _ _ _ _ Hord Hstep)
        as (pc' & -> & Hord' & _).
      by apply Forall_insert.
    + unfold watcherStep in Hstep. step_cases; done.
    + unfold printLogs, returnNil in Hstep. step_cases; done.
    + unfold interruptStep in Hstep. step_cases; done.
Qed.
End locals.

(** X7: in every state that [Run] reaches, a reader inside [forwardLogs] has
    [0 <= sinceTime <= lastMessageTime]; and no step inside one call of
    [forwardLogs] lowers [lastMessageTime] or [sinceTime]. *)
Theorem forwardLogs_times_ordered `{GoLib} (cmd : Command) (ls : list label)
    (s : state) (i : nat) (pc : readerPC) (last since : Time) :
  run cmd ls (init cmd) = Some s ->
  readers s !! i = Some pc ->
  forwardLocals pc = Some (last, since) ->
  0 <= since <= last /\
  forall ev s' pc' last' since',
    step cmd (Reader i ev) s = Some s' ->
    readers s' !! i = Some pc' ->
    forwardLocals pc' = Some (last', since') ->
    last <= last' /\ since <= since'.
Proof.
  intros Hrun Hpc Hlocals. apply run_reachable in Hrun as Hreach.
  pose proof (reachable_locals _ _ Hreach) as Hall.
  rewrite Forall_lookup in Hall. specialize (Hall i pc Hpc).
  split; [unfold localsOrdered in Hall; by rewrite Hlocals in Hall|].
  intros ev s' pc' last' since' Hstep Hpc' Hlocals'.
  simpl in Hstep. rewrite Hpc in Hstep. simpl in Hstep.
  destruct (Services cmd !! i) as [service|]; [|done]. simpl in Hstep.
  destruct (readerStep_locals _ _ _ _ _ _ _ Hall Hstep)
    as (pc'' & Hreaders & _ & Hmono).
  rewrite Hreaders, list_lookup_insert_eq in Hpc'
    by by eapply lookup_lt_Some.
  simplify_eq. by eapply Hmono.
Qed.

(** ** From the send to the print *)

Section accounting.
Context `{GoLib} (cmd : Command).

Lemma readerStep_room (i : nat) (service : string) (ev : readerEvent)
    (pc : readerPC) (s s' : state) :
  readerStep cmd i service ev pc s = Some s' ->
  (length (combinedLogs s) <= capacity cmd)%nat ->
  (length (combinedLogs s') <= capacity cmd)%nat.
Proof.
  intros Hstep Hroom.
  destruct pc, ev; simpl in Hstep; try discriminate;
    try rewrite Signal_spec in Hstep; step_cases; simpl; try done;
    rewrite length_app; simpl; lia.
Qed.

Lemma returnNil_accounted (s s' : state) :
  linesAccounted s -> returnNil cmd s = Some s' -> linesAccounted s'.
Proof.
  intros (flushed & Hsent & Hout) Hstep. unfold returnNil in Hstep.
  destruct (flush (hideServiceName cmd) (window s)) as [out|] eqn:Hflush;
    [|done].
  simpl in Hstep. injection Hstep as <-.
  exists (flushed ++ window s). simpl. split.
  - by rewrite Hsent, <- app_assoc.
  - rewrite length_app, filter_app, length_app, Hout.
    by rewrite (flush_length _ _ _ Hflush).
Qed.

Lemma step_accounted (l : label) (s s' : state) :
  linesAccounted s /\ (length (combinedLogs s) <= capacity cmd)%nat ->
  step cmd l s = Some s' ->
  linesAccounted s' /\ (length (combinedLogs s') <= capacity cmd)%nat.
Proof.
  intros [Hacc Hroom] Hstep. destruct l as [i ev| |ev|]; simpl in Hstep.
  - destruct (readers s !! i) as [pc|] eqn:Hpc; [|done].
    destruct (Services cmd !! i) as [service|]; [|done]. simpl in Hstep.
    split; [|by eapply readerStep_room].
    destruct Hacc as (flushed & Hsent & Hout).
    destruct (readerStep_frame _ _ _ _ _ _ _ Hstep)
      as (pc' & _ & _ & _ & _ & _ & _ & Hstdout & Hwindow & _).
    exists flushed. rewrite Hstdout, Hwindow. split; [|done].
    destruct (readerStep_sent _ _ _ _ _ _ _ Hstep)
      as [[-> ->]|(? & ? & line & _ & _ & -> & ->)]; [done|].
    rewrite fmap_app, Hsent. simpl. by rewrite <- !app_assoc.
  - unfold watcherStep in Hstep. step_cases; done.
  - unfold printLogs in Hstep.
    destruct (printer s), ev; try discriminate.
    + destruct (combinedLogs s) as [|logLine rest] eqn:Hq.
      * destruct (closed s); [|done].
        split; [by eapply returnNil_accounted|].
        unfold returnNil in Hstep. step_cases. simpl. by rewrite Hq.
      * injection Hstep as <-. simpl in *. split; [|lia].
        destruct Hacc as (flushed & Hsent & Hout). exists flushed. simpl.
        rewrite Hq in Hsent. by rewrite Hsent, <- app_assoc.
    + destruct (flushTrigger s); [|done].
      destruct (flush (hideServiceName cmd) (window s)) as [out|] eqn:Hflush;
        [|done].
      simpl in Hstep. injection Hstep as <-. simpl. split; [|done].
      destruct Hacc as (flushed & Hsent & Hout).
      exists (flushed ++ window s). simpl. split.
      * by rewrite Hsent, <- app_assoc.
      * rewrite length_app, filter_app, length_app, Hout.
        by rewrite (flush_length _ _ _ Hflush).
    + destruct (cancelled s); [|done]. by injection Hstep as <-.
    + destruct (combinedLogs s) as [|logLine rest] eqn:Hq.
      * split; [by eapply returnNil_accounted|].
        unfold returnNil in Hstep. step_cases. simpl. by rewrite Hq.
      * injection Hstep as <-. simpl in *. split; [|lia].
        destruct Hacc as (flushed & Hsent & Hout). exists flushed. simpl.
        rewrite Hq in Hsent. by rewrite Hsent, <- app_assoc.
  - unfold interruptStep in Hstep. step_cases; done.
Qed.
End accounting.

(** X8: in every state that [Run] reaches the lines sent so far are, in the
    order of their sends, those already flushed, then those in the window,
    then those in the buffer of [combinedLogs], which never holds more than
    [32 * len(cmd.Services)] lines; and [os.Stdout] has received exactly one
    line for each flushed entry that holds a line: [printLogs] receives the
    lines in the order of the sends, loses none and prints none twice. *)
Theorem lines_accounted `{GoLib} (cmd : Command) (ls : list label)
    (s : state) :
  run cmd ls (init cmd) = Some s ->
  (length (combinedLogs s) <= 32 * length (Services cmd))%nat /\
  exists flushed,
    (snd <$> sent s) = flushed ++ window s ++ combinedLogs s /\
    length (stdout s) = length (filter holdsLine flushed).
Proof.
  intros Hrun. apply run_reachable in Hrun as Hreach.
  enough (Hboth : linesAccounted s /\
                  (length (combinedLogs s) <= capacity cmd)%nat).
  { destruct Hboth as [Hacc Hroom]. unfold capacity in Hroom.
    split; [lia|exact Hacc]. }
  clear Hrun. induction Hreach as [|l s s' _ IH Hstep].
  - split; [by exists []|simpl; lia].
  - by eapply step_accounted.
Qed.

(** ** A reader that follows: exit, restart, cancellation *)

Lemma Signal_wake (count : Z) (s : state) :
  (if decide (count = 0) then Signal s else s)
  = set_watcher (wake count (watcher s)) s.
Proof.
  unfold wake, Signal. destruct s as [? ? ? w]. simpl.
  destruct (decide (count = 0)); destruct w; reflexivity.
Qed.

(** Brings a state written with the setters to the form of a record. *)
Ltac flat_state :=
  cbv beta iota zeta delta
    [set_reader set_readers set_runningCount set_mutex set_watcher
     set_signalHandler set_cancelled set_combinedLogs set_printer set_window
     set_flushTrigger set_stdout set_stderr set_sent
     readers runningCount mutex watcher signalHandler cancelled combinedLogs
     closed printer window flushTrigger stdout stderr sent].

(** Takes the next step of a schedule, for a reader whose point is the one
    set by the step before. *)
Ltac reader_step Hsvc Hi :=
  cbn [run];
  erewrite step_reader_at;
  [|flat_state; apply list_lookup_insert_eq; rewrite ?length_insert; exact Hi
   |exact Hsvc];
  cbn [readerStep forwardLogs]; flat_state; cbn [mbind option_bind].

(** X9: while the logs are followed, a container that exits after a failed
    read and then runs again takes its reader through the decrement, the wait
    for the restart and the increment back to the start of [forwardLogs] with
    [lastMessageTime] and [sinceTime] at zero, so that the filter of
    duplicates starts afresh; [runningCount] is what it was, the lock is free
    again, two status messages went to [os.Stderr] and nothing was sent. *)
Theorem exit_and_restart `{GoLib} (cmd : Command) (i : nat)
    (service : string) (last since : Time) (err : GoError) (s : state) :
  Follow cmd = true ->
  readers s !! i = Some (FwdRecvErr last since err) ->
  Services cmd !! i = Some service ->
  mutex s = None ->
  errors_WithContext "recv log stream" err <> Canceled ->
  exists exited restarted s',
    printStatusMessage service "The container exited." (hideServiceName cmd)
    = Some exited /\
    printStatusMessage service "The service has restarted, reconnecting..."
      (hideServiceName cmd) = Some restarted /\
    run cmd
      [Reader i PodExited; Reader i Lock; Reader i Update; Reader i Unlock;
       Reader i ServiceRunning; Reader i Lock; Reader i Update;
       Reader i Unlock] s = Some s' /\
    readers s' = <[i:=FwdOpen time.zero time.zero]> (readers s) /\
    runningCount s' = runningCount s /\
    mutex s' = None /\
    watcher s' = wake (runningCount s - 1) (watcher s) /\
    stderr s' = stderr s ++ [exited; restarted] /\
    sent s' = sent s /\ combinedLogs s' = combinedLogs s.
Proof.
  intros Hfollow Hpc Hsvc Hm Hwrap.
  assert (Hi : (i < length (readers s))%nat) by by eapply lookup_lt_Some.
  destruct (printStatusMessage_total service "The container exited."
              (hideServiceName cmd)) as [exited Hexited].
  destruct (printStatusMessage_total service
              "The service has restarted, reconnecting..."
              (hideServiceName cmd)) as [restarted Hrestarted].
  exists exited, restarted.
  destruct s as [rs rc mu w sh ca ch cl pr win ft so se snt].
  cbn in Hm, Hi. subst mu.
  eexists. split; [exact Hexited|]. split; [exact Hrestarted|]. split.
  - cbn [run]. rewrite (step_reader_at _ _ _ _ _ _ Hpc Hsvc).
    cbn [readerStep forwardLogs]. rewrite Hexited.
    flat_state. cbn [mbind option_bind].
    reader_step Hsvc Hi.
    reader_step Hsvc Hi. rewrite Signal_wake. flat_state. cbn [mbind option_bind].
    reader_step Hsvc Hi. rewrite decide_False by done. rewrite Hfollow.
    cbn [negb]. flat_state. cbn [mbind option_bind].
    reader_step Hsvc Hi. rewrite Hrestarted.
    flat_state. cbn [mbind option_bind].
    reader_step Hsvc Hi.
    reader_step Hsvc Hi.
    reader_step Hsvc Hi.
    reflexivity.
  - flat_state. rewrite !list_insert_insert_eq, <- app_assoc.
    repeat split; try done. lia.
Qed.

(** X10: once the context is cancelled, a reader that waits in a [select]
    of [forwardLogs] can take the [ctx.Done()] case, and then leaves for
    good after its decrement, also when it follows: it sends nothing, prints
    no status message, and does not wait for a restart; a reader that waits
    for a restart leaves at once, without touching [runningCount]. *)
Theorem cancelled_reader_exits `{GoLib} (cmd : Command) (i : nat)
    (service : string) (pc : readerPC) (s : state) :
  cancelled s = true ->
  readers s !! i = Some pc ->
  Services cmd !! i = Some service ->
  mutex s = None ->
  ((exists last since err,
       pc = FwdOpenFailed last since err \/ pc = FwdRecvErr last since err) ->
   exists s',
     run cmd [Reader i CtxDone; Reader i Lock; Reader i Update; Reader i Unlock]
       s = Some s' /\
     readers s' = <[i:=Exited]> (readers s) /\
     runningCount s' = runningCount s - 1 /\
     mutex s' = None /\
     stderr s' = stderr s /\ sent s' = sent s) /\
  (pc = AwaitRestart ->
   step cmd (Reader i CtxDone) s = Some (set_reader i Exited s)).
Proof.
  intros Hc Hpc Hsvc Hm.
  assert (Hi : (i < length (readers s))%nat) by by eapply lookup_lt_Some.
  destruct s as [rs rc mu w sh ca ch cl pr win ft so se snt].
  cbn in Hm, Hi, Hc. subst mu ca.
  split.
  - intros (last & since & err & Hcase). eexists. split.
    + cbn [run]. rewrite (step_reader_at _ _ _ _ _ _ Hpc Hsvc).
      match goal with
      | |- context [readerStep cmd i service CtxDone pc ?st] =>
          assert (Hfirst : readerStep cmd i service CtxDone pc st
                           = Some (set_reader i (Returned Canceled) st))
            by (destruct Hcase as [->| ->]; reflexivity)
      end.
      rewrite Hfirst. flat_state. cbn [mbind option_bind].
      reader_step Hsvc Hi.
      reader_step Hsvc Hi. rewrite Signal_wake. flat_state. cbn [mbind option_bind].
      reader_step Hsvc Hi.
      reflexivity.
    + flat_state. by rewrite !list_insert_insert_eq.
  - intros ->. by rewrite (step_reader_at _ _ _ _ _ _ Hpc Hsvc).
Qed.

(** ** The properties above on the concrete runs *)

Lemma wellformed_line_printed_witness :
  mkRaw None "db" Demo.hello 50 ∈ Demo.window /\
  @parseLogLine Sample.lib Demo.hello = ("hello", Demo.helloTime, None) /\
  mkParsed "db" "hello" Demo.helloTime EmptyString
  ∈ sort.SliceStable byLogTime (@parseWindow Sample.lib Demo.window) /\
  exists out o,
    @flush Sample.lib false Demo.window = Some out /\
    @printLine Sample.lib false
      (mkParsed "db" "hello" Demo.helloTime EmptyString) = Some o /\
    o ∈ out.
Proof.
  assert (Hin : mkRaw None "db" Demo.hello 50 ∈ Demo.window)
    by (unfold Demo.window; right; left).
  assert (Hparse : @parseLogLine Sample.lib Demo.hello
                   = ("hello", Demo.helloTime, None))
    by (vm_compute; reflexivity).
  split; [exact Hin|]. split; [exact Hparse|].
  destruct (@wellformed_line_printed Sample.lib false Demo.window _ _ _
              Hin Hparse) as (Hsorted & _ & Hout).
  split; [exact Hsorted|exact Hout].
Defined.

Lemma lock_holder_releases_witness :
  let s := default (init Demo.cmd)
             (@run Sample.lib Demo.cmd (take 9 Demo.schedule) (init Demo.cmd)) in
  @run Sample.lib Demo.cmd (take 9 Demo.schedule) (init Demo.cmd) = Some s /\
  mutex s = Some (HReader 1) /\
  exists ls' s',
    (ls' = [Reader 1 Unlock] \/ ls' = [Reader 1 Update; Reader 1 Unlock]) /\
    @run Sample.lib Demo.cmd ls' s = Some s' /\ mutex s' = None.
Proof.
  intros s.
  assert (Hrun : @run Sample.lib Demo.cmd (take 9 Demo.schedule) (init Demo.cmd)
                 = Some s) by (vm_compute; reflexivity).
  split; [exact Hrun|]. split; [reflexivity|].
  destruct (@lock_holder_releases Sample.lib Demo.cmd _ _ Hrun) as [Hreader _].
  apply (Hreader 1%nat). reflexivity.
Defined.

Lemma watcher_sees_zero_witness :
  let s := default (init Demo.cmd)
             (@run Sample.lib Demo.cmd (take 7 Demo.schedule) (init Demo.cmd)) in
  @run Sample.lib Demo.cmd (take 7 Demo.schedule) (init Demo.cmd) = Some s /\
  watcher s = WWaiting /\
  runningCount s > 0 /\
  exists i pc, readers s !! i = Some pc /\ counted pc = true.
Proof.
  intros s.
  assert (Hrun : @run Sample.lib Demo.cmd (take 7 Demo.schedule) (init Demo.cmd)
                 = Some s) by (vm_compute; reflexivity).
  split; [exact Hrun|]. split; [reflexivity|].
  destruct (@watcher_sees_zero Sample.lib Demo.cmd _ _ Hrun) as [Hwait _].
  apply Hwait. reflexivity.
Defined.

Lemma forwardLogs_times_ordered_witness :
  let s := default (init Demo.cmd)
             (@run Sample.lib Demo.cmd (take 3 Demo.schedule) (init Demo.cmd)) in
  @run Sample.lib Demo.cmd (take 3 Demo.schedule) (init Demo.cmd) = Some s /\
  readers s !! 0%nat
  = Some (FwdSend Demo.helloTime time.zero (mkRaw None "web" Demo.hello 10)) /\
  0 <= time.zero <= Demo.helloTime /\
  forall ev s' pc' last' since',
    @step Sample.lib Demo.cmd (Reader 0 ev) s = Some s' ->
    readers s' !! 0%nat = Some pc' ->
    forwardLocals pc' = Some (last', since') ->
    Demo.helloTime <= last' /\ time.zero <= since'.
Proof.
  intros s.
  assert (Hrun : @run Sample.lib Demo.cmd (take 3 Demo.schedule) (init Demo.cmd)
                 = Some s) by (vm_compute; reflexivity).
  assert (Hpc : readers s !! 0%nat
                = Some (FwdSend Demo.helloTime time.zero
                          (mkRaw None "web" Demo.hello 10)))
    by (vm_compute; reflexivity).
  split; [exact Hrun|]. split; [exact Hpc|].
  apply (@forwardLogs_times_ordered Sample.lib Demo.cmd _ _ _ _ _ _
           Hrun Hpc eq_refl).
Defined.

Lemma lines_accounted_witness :
  @run Sample.lib Demo.cmd Demo.schedule (init Demo.cmd) = Some Demo.final /\
  (length (combinedLogs Demo.final) <= 32 * length (Services Demo.cmd))%nat /\
  exists flushed,
    (snd <$> sent Demo.final)
    = flushed ++ window Demo.final ++ combinedLogs Demo.final /\
    length (stdout Demo.final) = length (filter holdsLine flushed).
Proof.
  assert (Hrun : @run Sample.lib Demo.cmd Demo.schedule (init Demo.cmd)
                 = Some Demo.final) by (vm_compute; reflexivity).
  split; [exact Hrun|].
  apply (@lines_accounted Sample.lib Demo.cmd _ _ Hrun).
Defined.

Lemma exit_and_restart_witness :
  let s := default (init Demo.cmdFollow2)
             (@run Sample.lib Demo.cmdFollow2 (take 3 Demo.exit)
                (init Demo.cmdFollow2)) in
  readers s !! 0%nat = Some (FwdRecvErr time.zero time.zero EOF) /\
  mutex s = None /\
  exists exited restarted s',
    @run Sample.lib Demo.cmdFollow2
      [Reader 0 PodExited; Reader 0 Lock; Reader 0 Update; Reader 0 Unlock;
       Reader 0 ServiceRunning; Reader 0 Lock; Reader 0 Update;
       Reader 0 Unlock] s = Some s' /\
    readers s' = <[0%nat:=FwdOpen time.zero time.zero]> (readers s) /\
    runningCount s' = runningCount s /\
    stderr s' = stderr s ++ [exited; restarted] /\
    sent s' = sent s.
Proof.
  intros s.
  assert (Hpc : readers s !! 0%nat = Some (FwdRecvErr time.zero time.zero EOF))
    by (vm_compute; reflexivity).
  assert (Hm : mutex s = None) by reflexivity.
  split; [exact Hpc|]. split; [exact Hm|].
  destruct (@exit_and_restart Sample.lib Demo.cmdFollow2 0 "web" _ _ _ s
              eq_refl Hpc eq_refl Hm)
    as (exited & restarted & s' & _ & _ & Hrun & Hreaders & Hcount & _ & _
        & Herr & Hsent & _).
  { simpl. discriminate. }
  exists exited, restarted, s'.
  split; [exact Hrun|]. split; [exact Hreaders|]. split; [exact Hcount|].
  split; [exact Herr|exact Hsent].
Defined.

Lemma cancelled_reader_exits_witness :
  let s := default (init Demo.cmdFollow2)
             (@run Sample.lib Demo.cmdFollow2 (take 3 Demo.exit ++ [Interrupt])
                (init Demo.cmdFollow2)) in
  cancelled s = true /\
  readers s !! 0%nat = Some (FwdRecvErr time.zero time.zero EOF) /\
  mutex s = None /\
  exists s',
    @run Sample.lib Demo.cmdFollow2
      [Reader 0 CtxDone; Reader 0 Lock; Reader 0 Update; Reader 0 Unlock] s
    = Some s' /\
    readers s' = <[0%nat:=Exited]> (readers s) /\
    runningCount s' = runningCount s - 1 /\
    mutex s' = None /\
    stderr s' = stderr s /\ sent s' = sent s.
Proof.
  intros s.
  assert (Hc : cancelled s = true) by reflexivity.
  assert (Hpc : readers s !! 0%nat = Some (FwdRecvErr time.zero time.zero EOF))
    by (vm_compute; reflexivity).
  assert (Hm : mutex s = None) by reflexivity.
  split; [exact Hc|]. split; [exact Hpc|]. split; [exact Hm|].
  destruct (@cancelled_reader_exits Sample.lib Demo.cmdFollow2 0 "web" _ s
              Hc Hpc eq_refl Hm) as [Hleave _].
  apply Hleave. exists time.zero, time.zero, EOF. by right.
Defined.

(** * The first version of the command *)

(** ** The wait group and the close of the channel *)

Section legacy_invariant.
Import cli_logs.
Context `{GoLib} `{GoSort} (cmd : logsCommand).

Lemma counter_insert (pcs : list readerPC) (i : nat) (pc pc' : readerPC) :
  pcs !! i = Some pc ->
  counter (<[i:=pc']> pcs) =
  counter pcs - (if active pc then 1 else 0) + (if active pc' then 1 else 0).
Proof.
  unfold counter. revert i.
  induction pcs as [|x pcs IH]; intros i Hi; [done|].
  destruct i as [|i]; simpl in Hi |- *.
  - simplify_eq. rewrite !filter_cons.
    destruct (active pc), (active pc'); simpl; lia.
  - specialize (IH i Hi). rewrite !filter_cons.
    destruct (decide (active x = true)); simpl length; lia.
Qed.

Lemma counter_zero (pcs : list readerPC) :
  counter pcs = 0 -> Forall (fun pc => active pc = false) pcs.
Proof.
  unfold counter. induction pcs as [|x pcs IH]; [done|].
  rewrite filter_cons. destruct (decide (active x = true)) as [|Hx];
    simpl length; [lia|].
  intros Hz. constructor; [by destruct (active x)|by apply IH].
Qed.

Lemma counter_pos (pcs : list readerPC) (i : nat) (pc : readerPC) :
  pcs !! i = Some pc -> active pc = true -> 1 <= counter pcs.
Proof.
  unfold counter. revert i.
  induction pcs as [|x pcs IH]; intros i Hi Ha; [done|].
  rewrite filter_cons. destruct i as [|i]; simpl in Hi.
  - simplify_eq. rewrite decide_True by done. simpl length. lia.
  - specialize (IH i Hi Ha). case_decide; simpl length; lia.
Qed.

Lemma counter_bounds (pcs : list readerPC) :
  0 <= counter pcs <= Z.of_nat (length pcs).
Proof.
  unfold counter. pose proof (length_filter (fun pc => active pc = true) pcs).
  lia.
Qed.

Lemma cl_run_app (ls1 ls2 : list label) (s : state) :
  run cmd (ls1 ++ ls2) s = s' ← run cmd ls1 s; run cmd ls2 s'.
Proof.
  revert s. induction ls1 as [|l ls1 IH]; intros s; simpl; [done|].
  destruct (step cmd l s) as [s1|]; simpl; [apply IH|done].
Qed.

Lemma cl_run_reachable_from (ls : list label) (s s' : state) :
  reachable cmd s -> run cmd ls s = Some s' -> reachable cmd s'.
Proof.
  revert s. induction ls as [|l ls IH]; intros s Hs Hrun; simpl in Hrun.
  - by simplify_eq.
  - destruct (step cmd l s) as [s1|] eqn:Hstep; [|done].
    eapply IH; [|exact Hrun]. by eapply reachable_step.
Qed.

Lemma cl_run_reachable (ls : list label) (s : state) :
  run cmd ls (init cmd) = Some s -> reachable cmd s.
Proof. apply cl_run_reachable_from, reachable_init. Qed.

Lemma cl_invariant_init : invariant cmd (init cmd).
Proof.
  split; simpl.
  - by rewrite length_fmap.
  - done.
  - unfold counter. induction (containers cmd) as [|c l IH]; [done|].
    simpl. by rewrite filter_cons, decide_False.
  - intros k [= <-]. split; [lia|]. split; [done|].
    intros i pc (? & -> & ?)%list_lookup_fmap_Some. split; [lia|done].
  - done.
  - intros [?|?]; done.
  - split; done.
Qed.

(** A reader that can take a step is not done: the channel is open. *)
Lemma reader_open (i : nat) (pc : readerPC) (s : state) :
  invariant cmd s -> readers s !! i = Some pc -> pc <> Done ->
  closer s <> CClose /\ closer s <> CDone /\ closed s = false.
Proof.
  intros Hinv Hpc Hnd.
  assert (Hnc : ~ (closer s = CClose \/ closer s = CDone)).
  { intros Hc. pose proof (inv_close _ _ Hinv Hc) as Hall.
    rewrite Forall_lookup in Hall. by apply Hnd, (Hall i). }
  split; [tauto|]. split; [tauto|].
  destruct (closed s) eqn:Hcl; [|done].
  destruct Hnc. right. by apply (inv_closed _ _ Hinv).
Qed.

Lemma cl_invariant_reader (i : nat) (container : string) (ev : readerEvent)
    (pc : readerPC) (s s' : state) :
  invariant cmd s -> readers s !! i = Some pc ->
  readerStep cmd i container ev pc s = Some s' ->
  invariant cmd s'.
Proof.
  intros Hinv Hpc Hstep.
  assert (Hi : (i < length (readers s))%nat) by by eapply lookup_lt_Some.
  assert (Hopen : pc <> Done -> closer s <> CClose /\ closer s <> CDone /\
                                closed s = false)
    by (by apply (reader_open i)).
  assert (Hcount : forall pc',
            counter (<[i:=pc']> (readers s)) =
            counter (readers s) - (if active pc then 1 else 0)
            + (if active pc' then 1 else 0))
    by (intros pc'; by apply counter_insert).
  assert (Hkeep : forall pc' st,
            readers st = <[i:=pc']> (readers s) ->
            pc <> NotStarted -> pc <> Done ->
            pc' <> NotStarted -> pc' <> Done ->
            wg s - (if active pc then 1 else 0) + (if active pc' then 1 else 0)
            = wg s ->
            wg st = wg s ->
            main st = main s -> closer st = closer s ->
            closed st = closed s -> panicked st = panicked s ->
            invariant cmd st).
  { intros pc' st Hrs Hns Hnd Hns' Hnd' Hwg Hw Hm Hc Hcl Hp.
    destruct (Hopen Hnd) as (Hc1 & Hc2 & Hclosed).
    split.
    - by rewrite Hrs, length_insert, (inv_length _ _ Hinv).
    - by rewrite Hp, (inv_panicked _ _ Hinv).
    - rewrite Hw, Hrs, (Hcount pc'), <- (inv_wg _ _ Hinv). lia.
    - intros k Hk. rewrite Hm in Hk.
      destruct (inv_opening _ _ Hinv k Hk) as (Hle & Hidle & Hrest).
      split; [done|]. split; [by rewrite Hc|].
      intros j pcj. rewrite Hrs. destruct (decide (j = i)) as [->|Hne].
      + rewrite list_lookup_insert_eq by done. intros [= <-].
        split; [done|]. intros Hki.
        destruct (Hrest i pc Hpc) as [_ Hnot]. by specialize (Hnot Hki).
      + rewrite list_lookup_insert_ne by done. apply Hrest.
    - rewrite Hc, Hrs. intros Hidle. apply Forall_insert; [|done].
      by apply (inv_started _ _ Hinv).
    - rewrite Hc. tauto.
    - rewrite Hcl, Hc. apply (inv_closed _ _ Hinv). }
  destruct pc, ev; simpl in Hstep; try discriminate; unfold send in Hstep.
  - (* Scan, Scanned *)
    injection Hstep as <-. eapply Hkeep; [reflexivity|try done; simpl; lia..].
  - (* Scan, ScanEnded *)
    destruct err; injection Hstep as <-; (eapply Hkeep; [reflexivity|try done; simpl; lia..]).
  - (* Send *)
    destruct Hopen as (_ & _ & Hcl); [done|]. rewrite Hcl in Hstep.
    case_decide; [|done]. injection Hstep as <-.
    eapply Hkeep; [reflexivity|try done; simpl; lia..].
  - (* SendError *)
    destruct Hopen as (_ & _ & Hcl); [done|]. rewrite Hcl in Hstep.
    case_decide; [|done]. injection Hstep as <-.
    eapply Hkeep; [reflexivity|try done; simpl; lia..].
  - (* Returned, WgDone *)
    destruct Hopen as (Hc1 & Hc2 & Hclosed); [done|].
    pose proof (counter_pos _ _ _ Hpc eq_refl) as Hpos.
    rewrite <- (inv_wg _ _ Hinv) in Hpos.
    rewrite decide_False in Hstep by lia. injection Hstep as <-.
    split; simpl.
    + by rewrite length_insert, (inv_length _ _ Hinv).
    + apply (inv_panicked _ _ Hinv).
    + rewrite (Hcount Done), <- (inv_wg _ _ Hinv). simpl. lia.
    + intros k Hk.
      destruct (inv_opening _ _ Hinv k Hk) as (Hle & Hidle & Hrest).
      split; [done|]. split; [done|].
      intros j pcj. destruct (decide (j = i)) as [->|Hne].
      * rewrite list_lookup_insert_eq by done. intros [= <-].
        split; [done|]. intros Hki.
        destruct (Hrest i Returned Hpc) as [_ Hnot]. by specialize (Hnot Hki).
      * rewrite list_lookup_insert_ne by done. apply Hrest.
    + intros Hidle. apply Forall_insert; [|done].
      by apply (inv_started _ _ Hinv).
    + tauto.
    + apply (inv_closed _ _ Hinv).
Qed.
Lemma cl_invariant_frame (s s' : state) :
  invariant cmd s ->
  readers s' = readers s -> wg s' = wg s -> closer s' = closer s ->
  closed s' = closed s -> panicked s' = panicked s ->
  (forall k, main s' = Opening k -> main s = Opening k) ->
  invariant cmd s'.
Proof.
  intros Hinv Hrs Hw Hc Hcl Hp Hm. split.
  - rewrite Hrs. apply (inv_length _ _ Hinv).
  - rewrite Hp. apply (inv_panicked _ _ Hinv).
  - rewrite Hw, Hrs. apply (inv_wg _ _ Hinv).
  - intros k Hk. rewrite Hc, Hrs. apply (inv_opening _ _ Hinv), Hm, Hk.
  - rewrite Hc, Hrs. apply (inv_started _ _ Hinv).
  - rewrite Hc, Hrs. apply (inv_close _ _ Hinv).
  - rewrite Hcl, Hc. apply (inv_closed _ _ Hinv).
Qed.

Lemma cl_invariant_main (ev : mainEvent) (s s' : state) :
  invariant cmd s -> mainStep cmd ev s = Some s' -> invariant cmd s'.
Proof.
  intros Hinv Hstep. unfold mainStep in Hstep.
  destruct (main s) as [k| |err] eqn:Hmain; [|
    unfold printLogs in Hstep; step_cases;
      (eapply cl_invariant_frame; [exact Hinv|done..]) |done].
  destruct (inv_opening _ _ Hinv k Hmain) as (Hle & Hidle & Hrest).
  destruct ev; try discriminate; case_decide; try discriminate;
    injection Hstep as <-.
  - (* a stream opens: wg.Add(1) and the go statement *)
    assert (Hk : readers s !! k = Some NotStarted).
    { destruct (lookup_lt_is_Some_2 (readers s) k) as [pc Hpc];
        [by rewrite (inv_length _ _ Hinv)|].
      destruct (Hrest k pc Hpc) as [_ Hns]. by rewrite Hpc, Hns. }
    assert (Hlt : (k < length (readers s))%nat) by by eapply lookup_lt_Some.
    split; simpl.
    + by rewrite length_insert, (inv_length _ _ Hinv).
    + apply (inv_panicked _ _ Hinv).
    + rewrite (counter_insert _ _ _ _ Hk), <- (inv_wg _ _ Hinv). simpl. lia.
    + intros k' [= <-]. split; [lia|]. split; [done|].
      intros j pcj. destruct (decide (j = k)) as [->|Hne].
      * rewrite list_lookup_insert_eq by done. intros [= <-].
        split; [done|lia].
      * rewrite list_lookup_insert_ne by done. intros Hj.
        destruct (Hrest j pcj Hj) as [Hlow Hhigh].
        split; [intros ?; apply Hlow; lia|intros ?; apply Hhigh; lia].
    + by rewrite Hidle.
    + rewrite Hidle. intros [?|?]; done.
    + rewrite Hidle. rewrite (inv_closed _ _ Hinv), Hidle. done.
  - (* a stream fails to open *)
    eapply cl_invariant_frame; [exact Hinv|done..].
  - (* the end of the loop *)
    split; simpl.
    + apply (inv_length _ _ Hinv).
    + apply (inv_panicked _ _ Hinv).
    + apply (inv_wg _ _ Hinv).
    + done.
    + intros _. apply Forall_lookup. intros j pcj Hj.
      destruct (Hrest j pcj Hj) as [Hlow _]. apply Hlow.
      rewrite <- (inv_length _ _ Hinv) in *. subst k.
      by eapply lookup_lt_Some.
    + intros [?|?]; done.
    + rewrite (inv_closed _ _ Hinv), Hidle. done.
Qed.

Lemma cl_invariant_closer (s s' : state) :
  invariant cmd s -> closerStep s = Some s' -> invariant cmd s'.
Proof.
  intros Hinv Hstep. unfold closerStep in Hstep.
  destruct (closer s) eqn:Hc; try discriminate.
  - (* wg.Wait() returns *)
    case_decide as Hz; [|done]. injection Hstep as <-.
    assert (Hdone : Forall (fun pc => pc = Done) (readers s)).
    { rewrite (inv_wg _ _ Hinv) in Hz. apply counter_zero in Hz.
      assert (Hst : Forall (fun pc => pc <> NotStarted) (readers s))
        by (apply (inv_started _ _ Hinv); by rewrite Hc).
      rewrite Forall_lookup in Hz, Hst. apply Forall_lookup. intros j pc Hj.
      specialize (Hz j pc Hj). specialize (Hst j pc Hj). by destruct pc. }
    split; simpl; try apply Hinv; try done.
    + intros k Hk. destruct (inv_opening _ _ Hinv k Hk) as (_ & Hidle & _).
      by rewrite Hc in Hidle.
    + intros _. by apply (inv_started _ _ Hinv); rewrite Hc.
    + rewrite (inv_closed _ _ Hinv), Hc. done.
  - (* close(combinedLogs) *)
    assert (Hopen : closed s = false).
    { destruct (closed s) eqn:Hcl; [|done].
      apply (inv_closed _ _ Hinv) in Hcl. by rewrite Hc in Hcl. }
    rewrite Hopen in Hstep. injection Hstep as <-.
    split; simpl; try apply Hinv; try done.
    + intros k Hk. destruct (inv_opening _ _ Hinv k Hk) as (_ & Hidle & _).
      by rewrite Hc in Hidle.
    + intros _. by apply (inv_started _ _ Hinv); rewrite Hc.
    + intros _. apply (inv_close _ _ Hinv). rewrite Hc. by left.
Qed.

Lemma cl_step_invariant (l : label) (s s' : state) :
  invariant cmd s -> step cmd l s = Some s' -> invariant cmd s'.
Proof.
  intros Hinv Hstep. unfold step in Hstep.
  rewrite (inv_panicked _ _ Hinv) in Hstep.
  destruct l as [ev|i ev| |].
  - by eapply cl_invariant_main.
  - destruct (readers s !! i) as [pc|] eqn:Hpc; [|done].
    destruct (containers cmd !! i) as [container|]; [|done].
    simpl in Hstep. by eapply cl_invariant_reader.
  - by eapply cl_invariant_closer.
  - unfold interruptStep in Hstep. step_cases.
    eapply cl_invariant_frame; [exact Hinv|done..].
Qed.

Lemma cl_reachable_invariant (s : state) :
  reachable cmd s -> invariant cmd s.
Proof.
  induction 1 as [|l s s' _ IH Hstep];
    [apply cl_invariant_init|by eapply cl_step_invariant].
Qed.
End legacy_invariant.

(** ** The lines, from the send to the print *)

Section legacy_lines.
Import cli_logs.
Context `{GoLib} `{GoSort} (cmd : logsCommand).

Lemma cl_readerStep_move (i : nat) (container : string) (ev : readerEvent)
    (pc : readerPC) (s s' : state) :
  invariant cmd s -> readers s !! i = Some pc ->
  readerStep cmd i container ev pc s = Some s' ->
  exists pc' line,
    readerMove container pc pc' line /\
    readers s' = <[i:=pc']> (readers s) /\
    sent s' = sent s ++ (match line with Some x => [(i, x)] | None => [] end) /\
    combinedLogs s' = combinedLogs s ++ option_list line /\
    main s' = main s /\ closer s' = closer s /\ closed s' = closed s /\
    cancelled s' = cancelled s /\ window s' = window s /\
    flushTrigger s' = flushTrigger s /\ stdout s' = stdout s.
Proof.
  intros Hinv Hpc Hstep.
  pose proof (reader_open _ _ _ _ Hinv Hpc) as Hopen.
  destruct pc, ev; simpl in Hstep; try discriminate; unfold send in Hstep.
  - injection Hstep as <-. eexists _, None.
    split; [apply move_scanned|]. simpl. by rewrite !app_nil_r.
  - destruct err; injection Hstep as <-; eexists _, None;
      (split; [constructor|]); simpl; by rewrite !app_nil_r.
  - destruct Hopen as (_ & _ & Hcl); [done|]. rewrite Hcl in Hstep.
    case_decide; [|done]. injection Hstep as <-. eexists _, (Some line).
    split; [constructor|]. done.
  - destruct Hopen as (_ & _ & Hcl); [done|]. rewrite Hcl in Hstep.
    case_decide; [|done]. injection Hstep as <-. eexists _, (Some line).
    split; [constructor|]. done.
  - pose proof (counter_pos _ _ _ Hpc eq_refl) as Hpos.
    rewrite <- (inv_wg _ _ Hinv) in Hpos.
    rewrite decide_False in Hstep by lia. injection Hstep as <-.
    eexists _, None. split; [constructor|]. simpl. by rewrite !app_nil_r.
Qed.
Lemma cl_mainStep_frame (ev : mainEvent) (s s' : state) :
  mainStep cmd ev s = Some s' ->
  sent s' = sent s /\ closed s' = closed s /\ closer s' = closer s \/
  main s = Opening (length (containers cmd)) /\ ev = StartPrinting /\
  s' = set_main Printing (set_closer CWait s).
Proof.
  unfold mainStep, printLogs. intros Hstep.
  destruct (main s); step_cases; auto.
Qed.

Lemma cl_mainStep_readers (ev : mainEvent) (s s' : state) :
  mainStep cmd ev s = Some s' ->
  sent s' = sent s /\
  (combinedLogs s' = combinedLogs s \/
   exists line, combinedLogs s = line :: combinedLogs s') /\
  (readers s' = readers s \/
   exists k, main s = Opening k /\ readers s' = <[k:=Scan]> (readers s)).
Proof.
  unfold mainStep, printLogs. intros Hstep.
  destruct (main s) eqn:Hm; step_cases; simpl; eauto 8.
Qed.

Lemma cl_closerStep_frame (s s' : state) :
  closerStep s = Some s' ->
  sent s' = sent s /\ combinedLogs s' = combinedLogs s /\
  readers s' = readers s /\ main s' = main s /\ window s' = window s /\
  stdout s' = stdout s /\ cancelled s' = cancelled s /\
  (closed s = true -> closed s' = true).
Proof. unfold closerStep. intros Hstep. step_cases; done. Qed.

Lemma cl_interruptStep_frame (s s' : state) :
  interruptStep s = Some s' ->
  sent s' = sent s /\ combinedLogs s' = combinedLogs s /\
  readers s' = readers s /\ main s' = main s /\ window s' = window s /\
  stdout s' = stdout s /\ closed s' = closed s /\ closer s' = closer s /\
  cancelled s' = true.
Proof. unfold interruptStep. intros Hstep. step_cases; done. Qed.

Lemma cl_sentBy_snoc (i j : nat) (line : rawLogLine) (s s' : state) :
  sent s' = sent s ++ [(j, line)] ->
  sentBy i s' = sentBy i s ++ (if decide (j = i) then [line] else []).
Proof.
  unfold sentBy. intros ->. rewrite filter_app, fmap_app. f_equal.
  rewrite filter_cons, filter_nil. simpl. by case_decide.
Qed.

Lemma history_same (s s' : state) :
  history cmd s ->
  sent s' = sent s -> readers s' = readers s ->
  (forall line, line ∈ combinedLogs s' -> line ∈ combinedLogs s) ->
  history cmd s'.
Proof.
  intros Hh Hsent Hrs Hbuf. split.
  - intros line Hin. rewrite Hsent. apply (hist_buffer _ _ Hh), Hbuf, Hin.
  - rewrite Hsent. apply (hist_from _ _ Hh).
  - rewrite Hrs. apply (hist_pending _ _ Hh).
  - intros i pc. unfold sentBy. rewrite Hsent, Hrs. apply (hist_sent _ _ Hh).
Qed.

Lemma cl_history_init : history cmd (init cmd).
Proof.
  split; simpl.
  - intros line Hin. by apply elem_of_nil in Hin.
  - intros i line Hin. by apply elem_of_nil in Hin.
  - intros i pc c (? & -> & ?)%list_lookup_fmap_Some _. done.
  - intros i pc (? & -> & ?)%list_lookup_fmap_Some. done.
Qed.

Lemma cl_history_reader (i : nat) (container : string) (ev : readerEvent)
    (pc : readerPC) (s s' : state) :
  invariant cmd s -> history cmd s ->
  readers s !! i = Some pc -> containers cmd !! i = Some container ->
  readerStep cmd i container ev pc s = Some s' ->
  history cmd s'.
Proof.
  intros Hinv Hh Hpc Hc Hstep.
  assert (Hi : (i < length (readers s))%nat) by by eapply lookup_lt_Some.
  destruct (cl_readerStep_move _ _ _ _ _ _ Hinv Hpc Hstep)
    as (pc' & o & Hmove & Hrs & Hsent & Hbuf & _).
  pose proof (hist_pending _ _ Hh i pc container Hpc Hc) as Hpend.
  pose proof (hist_sent _ _ Hh i pc Hpc) as Hhist.
  split.
  - (* the buffer *)
    intros line. rewrite Hbuf, Hsent, elem_of_app. intros [Hin|Hin].
    + destruct (hist_buffer _ _ Hh line Hin) as [j Hj]. exists j.
      apply elem_of_app. by left.
    + destruct o as [x|]; simpl in Hin; [|by apply elem_of_nil in Hin].
      apply list_elem_of_singleton in Hin as ->. exists i.
      apply elem_of_app. right. by apply list_elem_of_singleton.
  - (* the container of a line *)
    intros j line. rewrite Hsent, elem_of_app. intros [Hin|Hin];
      [by apply (hist_from _ _ Hh)|].
    destruct o as [x|]; [|by apply elem_of_nil in Hin].
    apply list_elem_of_singleton in Hin as [= -> ->].
    rewrite Hc. f_equal. inversion Hmove; subst; simpl in Hpend; by destruct Hpend.
  - (* the pending line *)
    intros j pcj c. rewrite Hrs. destruct (decide (j = i)) as [->|Hne].
    + rewrite list_lookup_insert_eq by done. intros [= <-] Hc'.
      rewrite Hc in Hc'. injection Hc' as <-.
      destruct Hmove; simpl; eauto.
    + rewrite list_lookup_insert_ne by done. apply (hist_pending _ _ Hh).
  - (* the lines of each reader *)
    intros j pcj. rewrite Hrs. destruct (decide (j = i)) as [->|Hne].
    + rewrite list_lookup_insert_eq by done. intros [= <-].
      destruct Hmove; simpl in *.
      * unfold sentBy. by rewrite Hsent, app_nil_r.
      * unfold sentBy. by rewrite Hsent, app_nil_r.
      * left. unfold sentBy. by rewrite Hsent, app_nil_r.
      * rewrite (cl_sentBy_snoc i i line s s' Hsent), decide_True by done.
        apply Forall_app. split; [done|]. constructor; [|done].
        by destruct Hpend.
      * right. exists (sentBy i s), line.
        rewrite (cl_sentBy_snoc i i line s s' Hsent), decide_True by done.
        split; [done|]. split; [done|]. by destruct Hpend as (_ & ? & ?).
      * unfold sentBy. by rewrite Hsent, app_nil_r.
    + rewrite list_lookup_insert_ne by done. intros Hj.
      pose proof (hist_sent _ _ Hh j pcj Hj) as Hold.
      destruct o as [x|].
      * rewrite (cl_sentBy_snoc j i x s s' Hsent), decide_False, app_nil_r
          by done. exact Hold.
      * unfold sentBy. by rewrite Hsent, app_nil_r.
Qed.

Lemma cl_step_history (l : label) (s s' : state) :
  invariant cmd s -> history cmd s -> step cmd l s = Some s' ->
  history cmd s'.
Proof.
  intros Hinv Hh Hstep. unfold step in Hstep.
  rewrite (inv_panicked _ _ Hinv) in Hstep.
  destruct l as [ev|i ev| |].
  - destruct (cl_mainStep_readers _ _ _ Hstep)
      as (Hsent & Hbuf & [Hrs|(k & Hm & Hrs)]).
    + apply (history_same s); [done..|].
      intros line Hin. destruct Hbuf as [<-|[x ->]]; [done|by right].
    + destruct (inv_opening _ _ Hinv k Hm) as (_ & _ & Hrest).
      assert (Hbuf' : forall line,
                line ∈ combinedLogs s' -> line ∈ combinedLogs s).
      { intros line Hin. destruct Hbuf as [<-|[x ->]]; [done|by right]. }
      split.
      * intros line Hin. rewrite Hsent.
        by apply (hist_buffer _ _ Hh), Hbuf'.
      * rewrite Hsent. apply (hist_from _ _ Hh).
      * intros j pcj c. rewrite Hrs.
        destruct (decide (j = k)) as [->|Hne].
        -- intros Hj%list_lookup_insert_Some. by destruct Hj as [(_ & <- & _)|[? _]].
        -- rewrite list_lookup_insert_ne by done. apply (hist_pending _ _ Hh).
      * intros j pcj. unfold sentBy. rewrite Hrs, Hsent.
        destruct (decide (j = k)) as [->|Hne].
        -- intros Hj%list_lookup_insert_Some.
           destruct Hj as [(_ & <- & Hk)|[? _]]; [|done].
           destruct (lookup_lt_is_Some_2 (readers s) k Hk) as [pck Hpck].
           pose proof (hist_sent _ _ Hh k pck Hpck) as Hold.
           destruct (Hrest k pck Hpck) as [_ Hns].
           rewrite Hns in Hold by lia. simpl in Hold. unfold sentBy in Hold.
           simpl. by rewrite Hold.
        -- rewrite list_lookup_insert_ne by done. apply (hist_sent _ _ Hh).
  - destruct (readers s !! i) as [pc|] eqn:Hpc; [|done].
    destruct (containers cmd !! i) as [container|] eqn:Hc; [|done].
    simpl in Hstep. by eapply cl_history_reader.
  - destruct (cl_closerStep_frame _ _ Hstep) as (Hsent & Hbuf & Hrs & _).
    apply (history_same s); [done..|]. by rewrite Hbuf.
  - destruct (cl_interruptStep_frame _ _ Hstep) as (Hsent & Hbuf & Hrs & _).
    apply (history_same s); [done..|]. by rewrite Hbuf.
Qed.

Lemma cl_reachable_history (s : state) :
  reachable cmd s -> history cmd s.
Proof.
  induction 1 as [|l s s' Hs IH Hstep]; [apply cl_history_init|].
  eapply cl_step_history; [|done..]. by apply cl_reachable_invariant.
Qed.
End legacy_lines.

(** ** The flush of the first version *)

Section legacy_flush.
Import cli_logs.
Context `{GoLib} `{GoSort}.

Lemma cl_parseWindow_fmap (window : list rawLogLine) :
  parseWindow window = parseRaw <$> window.
Proof.
  unfold parseWindow.
  enough (Hgen : forall acc,
             fold_left (fun parsedLogs rawLog => parsedLogs ++ [parseRaw rawLog])
               window acc = acc ++ (parseRaw <$> window)) by apply Hgen.
  induction window as [|r window IH]; intros acc; simpl.
  - by rewrite app_nil_r.
  - by rewrite IH, <- app_assoc.
Qed.

Lemma cl_printLine_total (noColor : bool) (log : parsedLogLine) :
  is_Some (printLine noColor log).
Proof.
  unfold printLine. destruct noColor; [eauto|].
  destruct (pickColor_total (pFromContainer log)) as [c ->]. simpl. eauto.
Qed.

Lemma cl_flush_map (noColor : bool) (window : list rawLogLine) :
  flush noColor window
  = Some (map (fun log => default EmptyString (printLine noColor log))
            (sort_Slice _ byLogTime (parseWindow window))).
Proof. unfold flush. apply mapM_total. intros p. apply cl_printLine_total. Qed.

Lemma cl_flush_length (noColor : bool) (window : list rawLogLine)
    (out : list string) :
  SliceContract -> flush noColor window = Some out ->
  length out = length window.
Proof.
  intros Hc. rewrite cl_flush_map. intros [= <-].
  by rewrite length_map, (Slice_Permutation Hc), cl_parseWindow_fmap,
    length_fmap.
Qed.
End legacy_flush.

Section legacy_accounting.
Import cli_logs.
Context `{GoLib} `{GoSort} (cmd : logsCommand).
Hypothesis contract : SliceContract.

Lemma cl_accounted_main (ev : mainEvent) (s s' : state) :
  accountedAt s -> mainStep cmd ev s = Some s' -> accountedAt s'.
Proof.
  unfold accountedAt, mainStep, printLogs. intros Hacc Hstep.
  destruct (main s) eqn:Hm; [| |done].
  - step_cases; simpl; try done.
  - destruct Hacc as (flushed & Hsent & Hnoerr & Hout).
    destruct ev; try discriminate.
    + (* a receive *)
      destruct (combinedLogs s) as [|logLine rest] eqn:Hbuf.
      * destruct (closed s) eqn:Hcl; [|done].
        destruct (flush (noColor cmd) (window s)) as [out|] eqn:Hflush;
          [|done].
        injection Hstep as <-. simpl. right. unfold allPrinted. simpl.
        rewrite app_nil_r in Hsent.
        assert (Hlen : length (sent s) = length (flushed ++ window s))
          by (by rewrite <- Hsent, length_fmap).
        split; [done|]. split; [done|]. split; [done|]. split.
        -- rewrite <- Hsent in Hnoerr. by apply Forall_fmap in Hnoerr.
        -- rewrite Hlen, !length_app, Hout.
           by rewrite (cl_flush_length _ _ _ contract Hflush).
      * destruct (readError logLine) eqn:Herr; injection Hstep as <-; simpl;
          [done|].
        rewrite Hm. exists flushed. simpl.
        split; [by rewrite Hsent, <- !app_assoc|]. split; [|done].
        rewrite app_assoc. apply Forall_app. split; [done|].
        by constructor.
    + (* the timer of the window *)
      destruct (flushTrigger s); [|done].
      destruct (flush (noColor cmd) (window s)) as [out|] eqn:Hflush; [|done].
      injection Hstep as <-. simpl. rewrite Hm.
      exists (flushed ++ window s). simpl.
      split; [by rewrite Hsent, <- app_assoc|].
      split; [by rewrite app_nil_r|].
      rewrite !length_app, Hout.
      by rewrite (cl_flush_length _ _ _ contract Hflush).
    + (* the cancellation *)
      destruct (cancelled s) eqn:Hc; [|done]. injection Hstep as <-.
      simpl. by left.
Qed.

Lemma cl_step_accounted (l : label) (s s' : state) :
  invariant cmd s -> accountedAt s -> step cmd l s = Some s' ->
  accountedAt s'.
Proof.
  intros Hinv Hacc Hstep. unfold step in Hstep.
  rewrite (inv_panicked _ _ Hinv) in Hstep.
  destruct l as [ev|i ev| |].
  - by eapply cl_accounted_main.
  - destruct (readers s !! i) as [pc|] eqn:Hpc; [|done].
    destruct (containers cmd !! i) as [container|] eqn:Hc; [|done].
    simpl in Hstep.
    destruct (cl_readerStep_move _ _ _ _ _ _ _ Hinv Hpc Hstep)
      as (pc' & o & Hmove & Hrs & Hsent & Hbuf & Hm & _ & Hcl & Hca & Hw
          & _ & Hout).
    assert (Hopen : closed s = false).
    { eapply reader_open; [done..|]. intros ->. inversion Hmove. }
    unfold accountedAt in *. rewrite Hm.
    destruct (main s) as [k| |[err|]]; [| |done|].
    + destruct Hacc as (flushed & Hs & Hnoerr & Hlen). exists flushed.
      rewrite Hw, Hout, Hbuf, Hsent, fmap_app, Hs.
      split; [|done]. rewrite <- !app_assoc. do 3 f_equal. by destruct o.
    + destruct Hacc as (flushed & Hs & Hnoerr & Hlen). exists flushed.
      rewrite Hw, Hout, Hbuf, Hsent, fmap_app, Hs.
      split; [|done]. rewrite <- !app_assoc. do 3 f_equal. by destruct o.
    + destruct Hacc as [Hc'|(Hclosed & _)]; [left; by rewrite Hca|].
      by rewrite Hopen in Hclosed.
  - destruct (cl_closerStep_frame _ _ Hstep)
      as (Hsent & Hbuf & Hrs & Hm & Hw & Hout & Hca & Hcl).
    unfold accountedAt, linesAccounted, allPrinted in *.
    rewrite Hm, Hsent, Hbuf, Hw, Hout, Hca.
    destruct (main s) as [k| |[err|]]; try done.
    destruct Hacc as [?|(? & ?)]; [by left|right]. split; [auto|done].
  - destruct (cl_interruptStep_frame _ _ Hstep)
      as (Hsent & Hbuf & Hrs & Hm & Hw & Hout & Hcl & _ & Hca).
    unfold accountedAt, linesAccounted, allPrinted in *.
    rewrite Hm, Hsent, Hbuf, Hw, Hout, Hca.
    destruct (main s) as [k| |[err|]]; try done. by left.
Qed.

Lemma cl_reachable_accounted (s : state) :
  reachable cmd s -> accountedAt s.
Proof.
  induction 1 as [|l s s' Hs IH Hstep].
  - exists []. done.
  - eapply cl_step_accounted; [|done..]. by apply cl_reachable_invariant.
Qed.
End legacy_accounting.

Section legacy_end.
Import cli_logs.
Context `{GoLib} `{GoSort} (cmd : logsCommand).

Lemma elem_of_sentBy (i : nat) (line : rawLogLine) (s : state) :
  line ∈ sentBy i s <-> (i, line) ∈ sent s.
Proof.
  unfold sentBy. rewrite list_elem_of_fmap. split.
  - intros ([j x] & -> & [Hj Hin]%list_elem_of_filter). simpl in *.
    by subst.
  - intros Hin. exists (i, line). split; [done|].
    by apply list_elem_of_filter.
Qed.

(** After the return of [run] nothing is printed. *)
Lemma cl_finished_step (l : label) (r : option GoError) (s s' : state) :
  main s = Finished r -> step cmd l s = Some s' ->
  main s' = Finished r /\ stdout s' = stdout s /\ window s' = window s.
Proof.
  intros Hm Hstep. unfold step in Hstep.
  destruct (panicked s); [done|]. destruct l as [ev|i ev| |].
  - unfold mainStep in Hstep. by rewrite Hm in Hstep.
  - destruct (readers s !! i) as [pc|]; [|done].
    destruct (containers cmd !! i) as [container|]; [|done].
    simpl in Hstep. rewrite <- Hm.
    destruct pc, ev; simpl in Hstep; try discriminate; unfold send in Hstep;
      step_cases; done.
  - unfold closerStep in Hstep. rewrite <- Hm. step_cases; done.
  - unfold interruptStep in Hstep. rewrite <- Hm. step_cases; done.
Qed.

Lemma cl_finished_run (ls : list label) (r : option GoError) (s s' : state) :
  main s = Finished r -> run cmd ls s = Some s' ->
  main s' = Finished r /\ stdout s' = stdout s /\ window s' = window s.
Proof.
  revert s. induction ls as [|l ls IH]; intros s Hm Hrun; simpl in Hrun.
  - by simplify_eq.
  - destruct (step cmd l s) as [s1|] eqn:Hstep; [|done]. simpl in Hrun.
    destruct (cl_finished_step _ _ _ _ Hm Hstep) as (Hm1 & Hout1 & Hw1).
    destruct (IH s1 Hm1 Hrun) as (? & ? & ?).
    split; [done|]. split; congruence.
Qed.

Lemma cl_step_origin (l : label) (s s' : state) :
  invariant cmd s -> history cmd s ->
  (forall err, main s = Finished (Some err) -> errorOrigin cmd s err) ->
  step cmd l s = Some s' ->
  forall err, main s' = Finished (Some err) -> errorOrigin cmd s' err.
Proof.
  intros Hinv Hh Hold Hstep err Hm'.
  destruct (main s) as [k| |r] eqn:Hm.
  - (* the loop of run *)
    unfold step in Hstep. rewrite (inv_panicked _ _ Hinv) in Hstep.
    destruct l as [ev|i ev| |].
    + unfold mainStep in Hstep. rewrite Hm in Hstep.
      destruct (inv_opening _ _ Hinv k Hm) as (Hle & Hidle & Hrest).
      destruct ev; try discriminate; case_decide; try discriminate;
        injection Hstep as <-; simpl in Hm'; try discriminate.
      injection Hm' as <-. left. exists k, err0. split; [done|].
      split; [|done]. simpl.
      destruct (lookup_lt_is_Some_2 (readers s) k) as [pc Hpc];
        [by rewrite (inv_length _ _ Hinv)|].
      destruct (Hrest k pc Hpc) as [_ Hns]. by rewrite Hpc, Hns.
    + destruct (readers s !! i) as [pc|] eqn:Hpc; [|done].
      destruct (containers cmd !! i) as [container|]; [|done].
      simpl in Hstep.
      destruct (cl_readerStep_move _ _ _ _ _ _ _ Hinv Hpc Hstep)
        as (_ & _ & _ & _ & _ & _ & Hmain & _). congruence.
    + destruct (cl_closerStep_frame _ _ Hstep) as (_ & _ & _ & Hmain & _).
      congruence.
    + destruct (cl_interruptStep_frame _ _ Hstep)
        as (_ & _ & _ & Hmain & _). congruence.
  - (* printLogs *)
    unfold step in Hstep. rewrite (inv_panicked _ _ Hinv) in Hstep.
    destruct l as [ev|i ev| |].
    + unfold mainStep in Hstep. rewrite Hm in Hstep.
      unfold printLogs in Hstep.
      destruct ev; try discriminate.
      * destruct (combinedLogs s) as [|logLine rest] eqn:Hbuf.
        { step_cases; simpl in *; congruence. }
        destruct (readError logLine) as [e|] eqn:Herr;
          injection Hstep as <-; simpl in Hm'; [|by rewrite Hm in Hm'].
        injection Hm' as <-.
        destruct (hist_buffer _ _ Hh logLine) as [i Hi];
          [rewrite Hbuf; left|].
        right. by exists i, logLine, e.
      * step_cases; simpl in *; congruence.
      * step_cases; simpl in *; congruence.
    + destruct (readers s !! i) as [pc|] eqn:Hpc; [|done].
      destruct (containers cmd !! i) as [container|]; [|done].
      simpl in Hstep.
      destruct (cl_readerStep_move _ _ _ _ _ _ _ Hinv Hpc Hstep)
        as (_ & _ & _ & _ & _ & _ & Hmain & _). congruence.
    + destruct (cl_closerStep_frame _ _ Hstep) as (_ & _ & _ & Hmain & _).
      congruence.
    + destruct (cl_interruptStep_frame _ _ Hstep)
        as (_ & _ & _ & Hmain & _). congruence.
  - (* run has returned *)
    destruct (cl_finished_step _ _ _ _ Hm Hstep) as (Hmain & _).
    rewrite Hmain in Hm'. injection Hm' as ->.
    specialize (Hold err eq_refl).
    unfold step in Hstep. rewrite (inv_panicked _ _ Hinv) in Hstep.
    destruct l as [ev|i ev| |].
    + unfold mainStep in Hstep. by rewrite Hm in Hstep.
    + destruct (readers s !! i) as [pc|] eqn:Hpc; [|done].
      destruct (containers cmd !! i) as [container|]; [|done].
      simpl in Hstep.
      destruct (cl_readerStep_move _ _ _ _ _ _ _ Hinv Hpc Hstep)
        as (pc' & o & Hmove & Hrs & Hsent & _ & _ & Hc & _).
      destruct Hold as [(k & e & -> & Hk & Hidle)|(j & line & e & -> & Hin & He)].
      * left. exists k, e. split; [done|]. rewrite Hrs, Hc. split; [|done].
        rewrite list_lookup_insert_ne; [done|]. intros ->.
        rewrite Hpc in Hk. injection Hk as ->. inversion Hmove.
      * right. exists j, line, e. split; [done|]. split; [|done].
        rewrite Hsent. apply elem_of_app. by left.
    + unfold closerStep in Hstep.
      destruct Hold as [(k & e & -> & Hk & Hidle)|(j & line & e & -> & Hin & He)].
      * by rewrite Hidle in Hstep.
      * right. exists j, line, e. step_cases; done.
    + unfold interruptStep in Hstep. step_cases.
      destruct Hold as [(k & e & -> & Hk & Hidle)|(j & line & e & -> & Hin & He)].
      * left. by exists k, e.
      * right. by exists j, line, e.
Qed.

Lemma cl_reachable_origin (s : state) (err : GoError) :
  reachable cmd s -> main s = Finished (Some err) -> errorOrigin cmd s err.
Proof.
  intros Hs. revert err. induction Hs as [|l s s' Hs IH Hstep]; [done|].
  eapply cl_step_origin; [| |exact IH|exact Hstep].
  - by apply cl_reachable_invariant.
  - by apply cl_reachable_history.
Qed.
End legacy_end.

(** ** [sort.Slice] and [sort.SliceStable] *)

Section insertion_contract.
Context {A : Type}.

Lemma insert_Permutation_any (less : A -> A -> bool) (x : A) (l : list A) :
  sort.insert less x l ≡ₚ x :: l.
Proof.
  induction l as [|y l IH]; simpl; [done|].
  destruct (less y x); [|done].
  rewrite IH. apply Permutation_swap.
Qed.

Lemma SliceStable_Permutation_any (less : A -> A -> bool) (l : list A) :
  sort.SliceStable less l ≡ₚ l.
Proof.
  induction l as [|x l IH]; simpl; [done|].
  rewrite insert_Permutation_any. by f_equiv.
Qed.

Lemma insert_sorted_key (key : A -> Z) (x : A) (l : list A) :
  StronglySorted (fun a b => key a <= key b) l ->
  StronglySorted (fun a b => key a <= key b)
    (sort.insert (fun a b => key a <? key b) x l).
Proof.
  induction 1 as [|y l Hs IH Hy]; simpl; [repeat constructor|].
  destruct (Z.ltb_spec (key y) (key x)) as [Hlt|Hge].
  - constructor; [exact IH|].
    rewrite insert_Permutation_any. constructor; [lia|exact Hy].
  - constructor; [by constructor|]. constructor; [lia|].
    eapply Forall_impl; [exact Hy|]. simpl. intros z Hz. lia.
Qed.

Lemma SliceStable_sorted_key (key : A -> Z) (l : list A) :
  StronglySorted (fun a b => key a <= key b)
    (sort.SliceStable (fun a b => key a <? key b) l).
Proof.
  induction l as [|x l IH]; simpl; [constructor|].
  by apply insert_sorted_key.
Qed.

(** Of a list whose keys are pairwise distinct, at most one entry has a
    given key. *)
Lemma filter_key_NoDup (key : A -> Z) (t : Z) (l : list A) :
  NoDup (key <$> l) ->
  (length (filter (fun a => key a = t) l) <= 1)%nat.
Proof.
  induction l as [|x l IH]; simpl; [lia|].
  intros [Hx Hl]%NoDup_cons. specialize (IH Hl).
  rewrite filter_cons. case_decide as Hk; [|done]. simpl.
  destruct (filter (fun a => key a = t) l) as [|y ys] eqn:Hf; [simpl; lia|].
  assert (Hy : y ∈ filter (fun a => key a = t) l) by (rewrite Hf; left).
  apply list_elem_of_filter in Hy as [Hky Hy]. destruct Hx.
  apply list_elem_of_fmap. exists y. split; [congruence|done].
Qed.

Lemma Permutation_short (l1 l2 : list A) :
  l1 ≡ₚ l2 -> (length l1 <= 1)%nat -> l1 = l2.
Proof.
  intros Hp Hlen. destruct l1 as [|x [|? ?]]; simpl in Hlen; [| |lia].
  - symmetry. by apply Permutation_nil_r.
  - symmetry. by apply Permutation_singleton_r.
Qed.
End insertion_contract.

Lemma insertion_contract : @cli_logs.SliceContract cli_logs.Demo.insertion.
Proof.
  split; simpl.
  - intros A less l. apply SliceStable_Permutation_any.
  - intros A key l. apply SliceStable_sorted_key.
Qed.

Section versions.
Context `{GoLib} `{cli_logs.GoSort}.

Lemma parseRaw_upgrade (rawLog : cli_logs.rawLogLine) :
  cli_logs.readError rawLog = None ->
  parseRaw (upgrade rawLog) = [upgradeParsed (cli_logs.parseRaw rawLog)].
Proof.
  intros Herr. unfold parseRaw, cli_logs.parseRaw, upgrade, upgradeParsed.
  simpl. rewrite Herr.
  by destruct (parseLogLine (cli_logs.message rawLog)) as [[m t] [e|]].
Qed.

Lemma parseWindow_upgrade (window : list cli_logs.rawLogLine) :
  Forall (fun rawLog => cli_logs.readError rawLog = None) window ->
  parseWindow (upgrade <$> window)
  = upgradeParsed <$> cli_logs.parseWindow window.
Proof.
  rewrite parseWindow_bind, cl_parseWindow_fmap.
  induction 1 as [|r window Hr _ IH]; [done|].
  rewrite !fmap_cons, bind_cons, IH. by rewrite (parseRaw_upgrade _ Hr).
Qed.

Lemma printLine_upgrade (noColor : bool) (log : cli_logs.parsedLogLine) :
  printLine noColor (upgradeParsed log) = cli_logs.printLine noColor log.
Proof.
  unfold printLine, cli_logs.printLine. simpl. by destruct noColor.
Qed.
End versions.

(** X11: in every state that [run] of the first version reaches, no
    goroutine has panicked, the counter of the wait group is the number of
    readers that were started and have not called [wg.Done()], and it lies
    between 0 and the number of containers; [combinedLogs] is closed only
    when the counter is zero and every reader is done, and no step after the
    close sends a line or opens the channel again: there is no send on the
    closed channel. *)
Theorem wait_group_guards_close `{GoLib} `{cli_logs.GoSort}
    (cmd : cli_logs.logsCommand) (ls : list cli_logs.label)
    (s : cli_logs.state) :
  cli_logs.run cmd ls (cli_logs.init cmd) = Some s ->
  cli_logs.panicked s = false /\
  cli_logs.wg s = cli_logs.counter (cli_logs.readers s) /\
  0 <= cli_logs.wg s <= Z.of_nat (length (cli_logs.containers cmd)) /\
  (cli_logs.closed s = true ->
   cli_logs.wg s = 0 /\
   Forall (fun pc => pc = cli_logs.Done) (cli_logs.readers s) /\
   forall l s',
     cli_logs.step cmd l s = Some s' ->
     cli_logs.sent s' = cli_logs.sent s /\ cli_logs.closed s' = true).
Proof.
  intros Hrun. apply cl_run_reachable in Hrun as Hreach.
  pose proof (cl_reachable_invariant _ _ Hreach) as Hinv.
  split; [apply (cli_logs.inv_panicked _ _ Hinv)|].
  split; [apply (cli_logs.inv_wg _ _ Hinv)|].
  split.
  { rewrite (cli_logs.inv_wg _ _ Hinv), <- (cli_logs.inv_length _ _ Hinv).
    apply counter_bounds. }
  intros Hclosed.
  assert (Hcloser : cli_logs.closer s = cli_logs.CDone)
    by by apply (cli_logs.inv_closed _ _ Hinv).
  assert (Hdone : Forall (fun pc => pc = cli_logs.Done) (cli_logs.readers s))
    by (apply (cli_logs.inv_close _ _ Hinv); by right).
  split; [|split; [exact Hdone|]].
  - rewrite (cli_logs.inv_wg _ _ Hinv). unfold cli_logs.counter.
    clear -Hdone. induction Hdone as [|pc pcs -> _ IH]; [done|].
    by rewrite filter_cons, decide_False.
  - intros l s' Hstep. unfold cli_logs.step in Hstep.
    rewrite (cli_logs.inv_panicked _ _ Hinv) in Hstep.
    destruct l as [ev|i ev| |].
    + destruct (cl_mainStep_frame _ _ _ _ Hstep)
        as [(-> & -> & _)|(Hm & _)]; [done|].
      destruct (cli_logs.inv_opening _ _ Hinv _ Hm) as (_ & Hidle & _).
      by rewrite Hidle in Hcloser.
    + destruct (cli_logs.readers s !! i) as [pc|] eqn:Hpc; [|done].
      rewrite Forall_lookup in Hdone. rewrite (Hdone i pc Hpc) in Hstep.
      destruct (cli_logs.containers cmd !! i); [|done].
      by destruct ev.
    + unfold cli_logs.closerStep in Hstep. by rewrite Hcloser in Hstep.
    + destruct (cl_interruptStep_frame _ _ Hstep)
        as (-> & _ & _ & _ & _ & _ & -> & _). done.
Qed.

(** X12: when [run] of the first version returns nil and the context was
    not cancelled, the channel was closed and is empty, every reader is done,
    no line that was sent carried a read error, and each of them was
    printed: [os.Stdout] has one line for every line sent. *)
Theorem clean_end_prints_all `{GoLib} `{cli_logs.GoSort}
    (cmd : cli_logs.logsCommand) (ls : list cli_logs.label)
    (s : cli_logs.state) :
  cli_logs.SliceContract ->
  cli_logs.run cmd ls (cli_logs.init cmd) = Some s ->
  cli_logs.main s = cli_logs.Finished None ->
  cli_logs.cancelled s = false ->
  cli_logs.closed s = true /\ cli_logs.combinedLogs s = [] /\
  cli_logs.window s = [] /\
  Forall (fun pc => pc = cli_logs.Done) (cli_logs.readers s) /\
  Forall (fun x => cli_logs.readError x.2 = None) (cli_logs.sent s) /\
  length (cli_logs.stdout s) = length (cli_logs.sent s).
Proof.
  intros Hc Hrun Hm Hca. apply cl_run_reachable in Hrun as Hreach.
  pose proof (cl_reachable_invariant _ _ Hreach) as Hinv.
  pose proof (cl_reachable_accounted _ Hc _ Hreach) as Hacc.
  unfold cli_logs.accountedAt in Hacc. rewrite Hm in Hacc.
  destruct Hacc as [Hca'|(Hcl & Hbuf & Hw & Hnoerr & Hlen)];
    [by rewrite Hca in Hca'|].
  split; [done|]. split; [done|]. split; [done|]. split; [|done].
  apply (cli_logs.inv_close _ _ Hinv). right.
  by apply (cli_logs.inv_closed _ _ Hinv).
Qed.

(** X13: an error returned by [run] of the first version comes from one of
    two places.  Either a stream did not open: the error wraps the one of
    [Stream()] under "start logs stream", the reader of that container was
    never started and the channel is never closed.  Or [printLogs] received
    a line with a read error: the error wraps the one of the scanner under
    "read logs for" and the name of the container whose reader sent the
    line, and that reader is back from [forwardLogs]. *)
Theorem run_error_origin `{GoLib} `{cli_logs.GoSort}
    (cmd : cli_logs.logsCommand) (ls : list cli_logs.label)
    (s : cli_logs.state) (err : GoError) :
  cli_logs.run cmd ls (cli_logs.init cmd) = Some s ->
  cli_logs.main s = cli_logs.Finished (Some err) ->
  (exists k container e,
      cli_logs.containers cmd !! k = Some container /\
      err = cli_logs.fmt_Errorf "start logs stream" e /\
      cli_logs.readers s !! k = Some cli_logs.NotStarted /\
      cli_logs.closed s = false) \/
  (exists i container line e pc,
      cli_logs.containers cmd !! i = Some container /\
      err = cli_logs.fmt_Errorf ("read logs for " +:+ container) e /\
      (i, line) ∈ cli_logs.sent s /\
      cli_logs.readError line = Some e /\
      cli_logs.readers s !! i = Some pc /\ cli_logs.finished pc = true).
Proof.
  intros Hrun Hm. apply cl_run_reachable in Hrun as Hreach.
  pose proof (cl_reachable_invariant _ _ Hreach) as Hinv.
  pose proof (cl_reachable_history _ _ Hreach) as Hh.
  destruct (cl_reachable_origin _ _ _ Hreach Hm)
    as [(k & e & -> & Hk & Hidle)|(i & line & e & -> & Hin & He)].
  - left.
    destruct (lookup_lt_is_Some_2 (cli_logs.containers cmd) k) as [c Hc].
    { rewrite <- (cli_logs.inv_length _ _ Hinv). by eapply lookup_lt_Some. }
    exists k, c, e. split; [done|]. split; [done|]. split; [done|].
    destruct (cli_logs.closed s) eqn:Hcl; [|done].
    apply (cli_logs.inv_closed _ _ Hinv) in Hcl. by rewrite Hidle in Hcl.
  - right. pose proof (cli_logs.hist_from _ _ Hh i line Hin) as Hc.
    destruct (lookup_lt_is_Some_2 (cli_logs.readers s) i) as [pc Hpc].
    { rewrite (cli_logs.inv_length _ _ Hinv). by eapply lookup_lt_Some. }
    exists i, (cli_logs.fromContainer line), line, e, pc.
    split; [done|]. split; [done|]. split; [done|]. split; [done|].
    split; [done|].
    pose proof (cli_logs.hist_sent _ _ Hh i pc Hpc) as Hhist.
    apply elem_of_sentBy in Hin.
    destruct pc; simpl in Hhist |- *; try done.
    + rewrite Hhist in Hin. by apply elem_of_nil in Hin.
    + rewrite Forall_forall in Hhist. specialize (Hhist line Hin). congruence.
    + rewrite Forall_forall in Hhist. specialize (Hhist line Hin). congruence.
    + rewrite Forall_forall in Hhist. specialize (Hhist line Hin). congruence.
Qed.

(** X14: the first version returns without a flush when the context is
    cancelled and when it receives a line with a read error: the return
    leaves [os.Stdout] and the window as they are, and after the return of
    [run] no step prints: the lines that were in the window are never
    printed. *)
Theorem return_without_flush `{GoLib} `{cli_logs.GoSort}
    (cmd : cli_logs.logsCommand) (ls : list cli_logs.label)
    (s : cli_logs.state) :
  cli_logs.run cmd ls (cli_logs.init cmd) = Some s ->
  (cli_logs.main s = cli_logs.Printing -> cli_logs.cancelled s = true ->
   exists s',
     cli_logs.step cmd (cli_logs.Main cli_logs.Cancellation) s = Some s' /\
     cli_logs.main s' = cli_logs.Finished None /\
     cli_logs.stdout s' = cli_logs.stdout s /\
     cli_logs.window s' = cli_logs.window s) /\
  (forall line rest e,
      cli_logs.main s = cli_logs.Printing ->
      cli_logs.combinedLogs s = line :: rest ->
      cli_logs.readError line = Some e ->
      exists s',
        cli_logs.step cmd (cli_logs.Main cli_logs.Receive) s = Some s' /\
        cli_logs.main s'
        = cli_logs.Finished
            (Some (cli_logs.fmt_Errorf
                     ("read logs for " +:+ cli_logs.fromContainer line) e)) /\
        cli_logs.stdout s' = cli_logs.stdout s /\
        cli_logs.window s' = cli_logs.window s) /\
  (forall r ls' s',
      cli_logs.main s = cli_logs.Finished r ->
      cli_logs.run cmd ls' s = Some s' ->
      cli_logs.main s' = cli_logs.Finished r /\
      cli_logs.stdout s' = cli_logs.stdout s /\
      cli_logs.window s' = cli_logs.window s).
Proof.
  intros Hrun. apply cl_run_reachable in Hrun as Hreach.
  pose proof (cl_reachable_invariant _ _ Hreach) as Hinv.
  pose proof (cli_logs.inv_panicked _ _ Hinv) as Hp.
  split; [|split].
  - intros Hm Hca. eexists. unfold cli_logs.step, cli_logs.mainStep.
    rewrite Hp, Hm. simpl. rewrite Hca. done.
  - intros line rest e Hm Hbuf He. eexists.
    unfold cli_logs.step, cli_logs.mainStep.
    rewrite Hp, Hm. simpl. rewrite Hbuf, He. done.
  - intros r ls' s' Hm Hrun'. by eapply cl_finished_run.
Qed.

(** X15: in every state that [run] of the first version reaches, the lines
    that a reader has sent name its container and carry no read error,
    except that the last line of a reader that is back from [forwardLogs]
    may be the one with the error of its scanner, and that line has no
    message. *)
Theorem scanner_error_is_last_line `{GoLib} `{cli_logs.GoSort}
    (cmd : cli_logs.logsCommand) (ls : list cli_logs.label)
    (s : cli_logs.state) (i : nat) (pc : cli_logs.readerPC) :
  cli_logs.run cmd ls (cli_logs.init cmd) = Some s ->
  cli_logs.readers s !! i = Some pc ->
  Forall (fun line =>
            cli_logs.containers cmd !! i = Some (cli_logs.fromContainer line))
    (cli_logs.sentBy i s) /\
  exists lines rest,
    cli_logs.sentBy i s = lines ++ rest /\
    Forall (fun line => cli_logs.readError line = None) lines /\
    (rest = [] \/
     exists line,
       rest = [line] /\ is_Some (cli_logs.readError line) /\
       cli_logs.message line = EmptyString /\ cli_logs.finished pc = true).
Proof.
  intros Hrun Hpc. apply cl_run_reachable in Hrun as Hreach.
  pose proof (cl_reachable_history _ _ Hreach) as Hh. split.
  - apply Forall_forall. intros line Hin%elem_of_sentBy.
    by apply (cli_logs.hist_from _ _ Hh).
  - pose proof (cli_logs.hist_sent _ _ Hh i pc Hpc) as Hhist.
    destruct pc; simpl in Hhist.
    + exists [], []. rewrite Hhist. auto.
    + exists (cli_logs.sentBy i s), []. rewrite app_nil_r. auto.
    + exists (cli_logs.sentBy i s), []. rewrite app_nil_r. auto.
    + exists (cli_logs.sentBy i s), []. rewrite app_nil_r. auto.
    + destruct Hhist as [Hall|(lines & line & -> & Hall & He & Hmsg)].
      * exists (cli_logs.sentBy i s), []. rewrite app_nil_r. auto.
      * exists lines, [line]. split; [done|]. split; [done|]. right. eauto.
    + destruct Hhist as [Hall|(lines & line & -> & Hall & He & Hmsg)].
      * exists (cli_logs.sentBy i s), []. rewrite app_nil_r. auto.
      * exists lines, [line]. split; [done|]. split; [done|]. right. eauto.
Qed.

(** X16: the flush of the first version prints one line for every entry of
    its window.  On a window without read errors it prints the lines that
    the flush of the later version prints, possibly with lines of equal log
    time in another order ([sort.Slice] is not stable); when the log times
    of the window are pairwise distinct the two flushes print the same
    list. *)
Theorem flush_versions_agree `{GoLib} `{cli_logs.GoSort} (noColor : bool)
    (window : list cli_logs.rawLogLine) :
  cli_logs.SliceContract ->
  Forall (fun rawLog => cli_logs.readError rawLog = None) window ->
  exists out out',
    cli_logs.flush noColor window = Some out /\
    flush noColor (upgrade <$> window) = Some out' /\
    length out = length window /\
    out ≡ₚ out' /\
    (NoDup (cli_logs.loggedAt <$> cli_logs.parseWindow window) ->
     out = out').
Proof.
  intros Hc Hnoerr. eexists _, _.
  split; [apply cl_flush_map|]. split; [apply flush_map|].
  set (l := cli_logs.parseWindow window).
  assert (Hprint : forall l' : list cli_logs.parsedLogLine,
            map (fun log => default EmptyString (cli_logs.printLine noColor log))
              l'
            = map (fun p => default EmptyString (printLine noColor p))
                (upgradeParsed <$> l')).
  { intros l'. rewrite <- list_fmap_compose. apply list_fmap_ext.
    intros ? p _. simpl. by rewrite printLine_upgrade. }
  rewrite Hprint, (parseWindow_upgrade _ Hnoerr). fold l.
  split; [|split].
  - rewrite length_map, length_fmap, (cli_logs.Slice_Permutation Hc).
    unfold l. by rewrite cl_parseWindow_fmap, length_fmap.
  - apply Permutation_map.
    by rewrite SliceStable_Permutation, (cli_logs.Slice_Permutation Hc).
  - intros Hnodup. f_equal. apply SliceStable_unique.
    + eapply StronglySorted_fmap;
        [|apply (cli_logs.Slice_sorted Hc _ cli_logs.loggedAt l)].
      intros x y Hxy. exact Hxy.
    + intros t.
      assert (Hperm : upgradeParsed
                        <$> cli_logs.sort_Slice _ cli_logs.byLogTime l
                      ≡ₚ upgradeParsed <$> l)
        by (by rewrite (cli_logs.Slice_Permutation Hc)).
      apply Permutation_short; [by rewrite Hperm|].
      rewrite Hperm. apply (filter_key_NoDup loggedAt).
      by rewrite <- list_fmap_compose.
Qed.

(** ** The first version on the concrete runs *)

Lemma wait_group_guards_close_witness :
  let s := default (cli_logs.init cli_logs.Demo.cmd)
             (@cli_logs.run Sample.lib cli_logs.Demo.insertion
                cli_logs.Demo.cmd cli_logs.Demo.clean
                (cli_logs.init cli_logs.Demo.cmd)) in
  @cli_logs.run Sample.lib cli_logs.Demo.insertion cli_logs.Demo.cmd
    cli_logs.Demo.clean (cli_logs.init cli_logs.Demo.cmd) = Some s /\
  cli_logs.closed s = true /\
  cli_logs.panicked s = false /\ cli_logs.wg s = 0 /\
  Forall (fun pc => pc = cli_logs.Done) (cli_logs.readers s).
Proof.
  intros s.
  assert (Hrun : @cli_logs.run Sample.lib cli_logs.Demo.insertion
                   cli_logs.Demo.cmd cli_logs.Demo.clean
                   (cli_logs.init cli_logs.Demo.cmd) = Some s)
    by (vm_compute; reflexivity).
  split; [exact Hrun|]. split; [reflexivity|].
  destruct (@wait_group_guards_close Sample.lib cli_logs.Demo.insertion
              _ _ _ Hrun) as (Hp & _ & _ & Hclosed).
  split; [exact Hp|].
  destruct (Hclosed eq_refl) as (Hwg & Hdone & _).
  split; [exact Hwg|exact Hdone].
Defined.

Lemma clean_end_prints_all_witness :
  let s := default (cli_logs.init cli_logs.Demo.cmd)
             (@cli_logs.run Sample.lib cli_logs.Demo.insertion
                cli_logs.Demo.cmd cli_logs.Demo.clean
                (cli_logs.init cli_logs.Demo.cmd)) in
  @cli_logs.SliceContract cli_logs.Demo.insertion /\
  cli_logs.main s = cli_logs.Finished None /\
  cli_logs.cancelled s = false /\
  cli_logs.closed s = true /\
  length (cli_logs.stdout s) = length (cli_logs.sent s).
Proof.
  intros s.
  assert (Hrun : @cli_logs.run Sample.lib cli_logs.Demo.insertion
                   cli_logs.Demo.cmd cli_logs.Demo.clean
                   (cli_logs.init cli_logs.Demo.cmd) = Some s)
    by (vm_compute; reflexivity).
  split; [exact insertion_contract|].
  split; [reflexivity|]. split; [reflexivity|].
  destruct (@clean_end_prints_all Sample.lib cli_logs.Demo.insertion _ _ _
              insertion_contract Hrun eq_refl eq_refl)
    as (Hclosed & _ & _ & _ & _ & Hlen).
  split; [exact Hclosed|exact Hlen].
Defined.

Lemma run_error_origin_witness :
  let s := default (cli_logs.init cli_logs.Demo.cmd)
             (@cli_logs.run Sample.lib cli_logs.Demo.insertion
                cli_logs.Demo.cmd cli_logs.Demo.failing
                (cli_logs.init cli_logs.Demo.cmd)) in
  let err := Wrapped "read logs for db" (ErrorString "token too long") in
  cli_logs.main s = cli_logs.Finished (Some err) /\
  ((exists k container e,
       cli_logs.containers cli_logs.Demo.cmd !! k = Some container /\
       err = cli_logs.fmt_Errorf "start logs stream" e /\
       cli_logs.readers s !! k = Some cli_logs.NotStarted /\
       cli_logs.closed s = false) \/
   (exists i container line e pc,
       cli_logs.containers cli_logs.Demo.cmd !! i = Some container /\
       err = cli_logs.fmt_Errorf ("read logs for " +:+ container) e /\
       (i, line) ∈ cli_logs.sent s /\
       cli_logs.readError line = Some e /\
       cli_logs.readers s !! i = Some pc /\ cli_logs.finished pc = true)).
Proof.
  intros s err.
  assert (Hrun : @cli_logs.run Sample.lib cli_logs.Demo.insertion
                   cli_logs.Demo.cmd cli_logs.Demo.failing
                   (cli_logs.init cli_logs.Demo.cmd) = Some s)
    by (vm_compute; reflexivity).
  assert (Hm : cli_logs.main s = cli_logs.Finished (Some err))
    by reflexivity.
  split; [exact Hm|].
  apply (@run_error_origin Sample.lib cli_logs.Demo.insertion _ _ _ _
           Hrun Hm).
Defined.

Lemma return_without_flush_witness :
  let s := default (cli_logs.init cli_logs.Demo.cmd)
             (@cli_logs.run Sample.lib cli_logs.Demo.insertion
                cli_logs.Demo.cmd cli_logs.Demo.failing
                (cli_logs.init cli_logs.Demo.cmd)) in
  cli_logs.window s
  = [cli_logs.mkRaw None "web" "2020-03-01T12:00:00Z hello" 10] /\
  cli_logs.stdout s = [] /\
  forall ls' s',
    @cli_logs.run Sample.lib cli_logs.Demo.insertion cli_logs.Demo.cmd ls' s
    = Some s' ->
    cli_logs.stdout s' = cli_logs.stdout s.
Proof.
  intros s.
  assert (Hrun : @cli_logs.run Sample.lib cli_logs.Demo.insertion
                   cli_logs.Demo.cmd cli_logs.Demo.failing
                   (cli_logs.init cli_logs.Demo.cmd) = Some s)
    by (vm_compute; reflexivity).
  split; [reflexivity|]. split; [reflexivity|].
  intros ls' s' Hrun'.
  destruct (@return_without_flush Sample.lib cli_logs.Demo.insertion _ _ _
              Hrun) as (_ & _ & Hafter).
  by destruct (Hafter _ ls' s' eq_refl Hrun') as (_ & Hout & _).
Defined.

Lemma scanner_error_is_last_line_witness :
  let s := default (cli_logs.init cli_logs.Demo.cmd)
             (@cli_logs.run Sample.lib cli_logs.Demo.insertion
                cli_logs.Demo.cmd cli_logs.Demo.failing
                (cli_logs.init cli_logs.Demo.cmd)) in
  cli_logs.readers s !! 1%nat = Some cli_logs.Returned /\
  cli_logs.sentBy 1 s
  = [cli_logs.mkRaw (Some (ErrorString "token too long")) "db" EmptyString
       time.zero] /\
  Forall (fun line =>
            cli_logs.containers cli_logs.Demo.cmd !! 1%nat
            = Some (cli_logs.fromContainer line))
    (cli_logs.sentBy 1 s).
Proof.
  intros s.
  assert (Hrun : @cli_logs.run Sample.lib cli_logs.Demo.insertion
                   cli_logs.Demo.cmd cli_logs.Demo.failing
                   (cli_logs.init cli_logs.Demo.cmd) = Some s)
    by (vm_compute; reflexivity).
  assert (Hpc : cli_logs.readers s !! 1%nat = Some cli_logs.Returned)
    by reflexivity.
  split; [exact Hpc|]. split; [reflexivity|].
  by destruct (@scanner_error_is_last_line Sample.lib
                 cli_logs.Demo.insertion _ _ _ _ _ Hrun Hpc) as [Hfrom _].
Defined.

Lemma flush_versions_agree_witness :
  @cli_logs.SliceContract cli_logs.Demo.insertion /\
  Forall (fun rawLog => cli_logs.readError rawLog = None)
    cli_logs.Demo.window /\
  exists out out',
    @cli_logs.flush Sample.lib cli_logs.Demo.insertion false
      cli_logs.Demo.window = Some out /\
    @flush Sample.lib false (upgrade <$> cli_logs.Demo.window) = Some out' /\
    length out = 3%nat /\ out ≡ₚ out'.
Proof.
  assert (Hnoerr : Forall (fun rawLog => cli_logs.readError rawLog = None)
                     cli_logs.Demo.window)
    by (repeat constructor).
  split; [exact insertion_contract|]. split; [exact Hnoerr|].
  destruct (@flush_versions_agree Sample.lib cli_logs.Demo.insertion false
              _ insertion_contract Hnoerr)
    as (out & out' & Hout & Hout' & Hlen & Hperm & _).
  exists out, out'. split; [exact Hout|]. split; [exact Hout'|].
  split; [exact Hlen|exact Hperm].
Defined.

(** * The context of a YAML error *)

Section error_context.
Import dockercompose.
Context `{GoLib}.

Lemma int_id (z : Z) : - 2 ^ 63 <= z < 2 ^ 63 -> int z = z.
Proof.
  intros Hz. unfold int.
  rewrite Z.mod_small by lia. lia.
Qed.

Lemma spanDigits_allDigits (s digits rest : string) :
  spanDigits s = (digits, rest) -> allDigits digits.
Proof.
  unfold allDigits. revert digits rest.
  induction s as [|c s IH]; intros digits rest; simpl.
  - intros [= <- <-]. constructor.
  - destruct (isDigit c) eqn:Hc.
    + destruct (spanDigits s) as [d r]. intros [= <- <-]. simpl.
      constructor; [done|]. by eapply IH.
    + intros [= <- <-]. constructor.
Qed.

Lemma matchHere_digits (s digits : string) :
  matchHere s = Some digits ->
  allDigits digits /\ digits <> EmptyString.
Proof.
  unfold matchHere. destruct (cutPrefix "yaml: line" s) as [rest|]; [|done].
  simpl.
  destruct (spanDigits
              match rest with String " " rest' => rest' | _ => rest end)
    as [d r] eqn:Hspan.
  destruct d as [|c d]; [done|]. destruct r as [|c' r]; [done|].
  destruct (Ascii.eqb_spec c' ":"); [|by repeat case_match].
  subst. intros [= <-]. split; [by eapply spanDigits_allDigits|done].
Qed.

Lemma FindSubmatch_digits (s digits : string) :
  FindSubmatch s = Some digits ->
  allDigits digits /\ digits <> EmptyString.
Proof.
  induction s as [|c s IH]; simpl.
  - done.
  - destruct (matchHere (String c s)) eqn:Hm.
    + intros [= <-]. by eapply matchHere_digits.
    + exact IH.
Qed.

Lemma digitsValue_nonneg (s : string) (acc n : Z) :
  0 <= acc -> digitsValue s acc = Some n -> 0 <= n.
Proof.
  revert acc. induction s as [|c s IH]; intros acc Hacc; simpl.
  - by intros [= <-].
  - unfold isDigit. destruct (_ && _)%bool eqn:Hc; [|done].
    apply andb_prop in Hc as [Hlo%N.leb_le _]. apply IH. lia.
Qed.

Lemma Atoi_digits (s : string) (n : Z) :
  allDigits s -> Atoi s = Some n -> 0 <= n < 2 ^ 63.
Proof.
  unfold allDigits, Atoi. intros Hs.
  destruct s as [|c s]; [done|].
  apply Forall_cons in Hs as [Hc _].
  assert (Hsign : (c =? "+")%char = false /\ (c =? "-")%char = false).
  { unfold isDigit in Hc. apply andb_prop in Hc as [Hlo%N.leb_le Hhi%N.leb_le].
    split; apply Ascii.eqb_neq; intros ->; simpl in *; lia. }
  assert (Hbody : match String c s with
                  | String "+" s' => (false, s')
                  | String "-" s' => (true, s')
                  | _ => (false, String c s)
                  end = (false, String c s)).
  { destruct Hsign as [Hp Hm].
    destruct c as [[] [] [] [] [] [] [] []]; simpl in *; try done. }
  rewrite Hbody.
  destruct (digitsValue (String c s) 0) as [v|] eqn:Hv; [|done]. simpl.
  apply digitsValue_nonneg in Hv; [|done].
  destruct (_ && _)%bool eqn:Hr; [|done]. intros [= <-].
  apply andb_prop in Hr as [_ Hhi%Z.ltb_lt]. lia.
Qed.

Lemma Split_nonempty (s : string) : (1 <= length (Split s))%nat.
Proof.
  induction s as [|c s IH]; simpl; [lia|].
  destruct (Ascii.eqb c strings.newline); simpl; [lia|].
  destruct (Split s); simpl in *; lia.
Qed.
End error_context.

(** X17: for an error message that names a line ([yaml: line N:]),
    [getErrorContext] has three outcomes.  It panics on an index out of range
    when [N] is 0 or 1, whatever the file is; it returns no context when the
    file has fewer than [N] lines; otherwise it returns the line before, the
    line [N] in yellow and, if there is one, the line after, each behind its
    number, joined by newlines. *)
Theorem getErrorContext_outcomes `{GoLib} (file errMsg group : string)
    (errorLine : Z) :
  let lines := dockercompose.Split file in
  Z.of_nat (length lines) < 2 ^ 63 - 2 ->
  dockercompose.FindSubmatch errMsg = Some group ->
  dockercompose.Atoi group = Some errorLine ->
  0 <= errorLine /\
  (errorLine <= 1 -> dockercompose.getErrorContext file errMsg = None) /\
  (Z.of_nat (length lines) < errorLine ->
   dockercompose.getErrorContext file errMsg = Some (EmptyString, false)) /\
  (forall before at_,
      2 <= errorLine ->
      lines !! Z.to_nat (errorLine - 2) = Some before ->
      lines !! Z.to_nat (errorLine - 1) = Some at_ ->
      dockercompose.getErrorContext file errMsg
      = Some (dockercompose.Join
                ([dockercompose.Sprintf (errorLine - 1) before;
                  goterm_Color (dockercompose.Sprintf errorLine at_)
                    goterm.YELLOW]
                 ++ match lines !! Z.to_nat errorLine with
                    | Some after => [dockercompose.Sprintf (errorLine + 1) after]
                    | None => []
                    end),
              true)).
Proof.
  intros lines Hlen Hmatch Hatoi.
  destruct (FindSubmatch_digits _ _ Hmatch) as [Hdigits _].
  pose proof (Atoi_digits _ _ Hdigits Hatoi) as Hrange.
  pose proof (Split_nonempty file) as Hne. fold lines in Hne.
  split; [lia|].
  unfold dockercompose.getErrorContext. rewrite Hmatch, Hatoi.
  fold lines. cbv zeta.
  split; [|split].
  - (* the line before does not exist *)
    intros Hle. rewrite !int_id by lia.
    rewrite (proj2 (Z.leb_le _ _)) by lia. cbn [negb].
    assert (Hend : exists endLine,
               (if negb (errorLine + 1 <=? Z.of_nat (length lines))
                then if negb (errorLine <=? Z.of_nat (length lines))
                     then None else Some errorLine
                else Some (errorLine + 1)) = Some endLine /\
               errorLine <= endLine).
    { destruct (Z.leb_spec (errorLine + 1) (Z.of_nat (length lines)));
        cbn [negb]; [eexists; split; [done|lia]|].
      rewrite (proj2 (Z.leb_le _ _)) by lia. eexists; split; [done|lia]. }
    destruct Hend as (endLine & -> & Hge).
    destruct (Z.to_nat (endLine - (errorLine - 1) + 1)) as [|n] eqn:Hn;
      [exfalso; lia|].
    cbn [dockercompose.contextLines].
    rewrite (int_id (errorLine - 1 - 1)) by lia.
    unfold dockercompose.index. rewrite (proj2 (Z.ltb_lt _ _)) by lia. done.
  - (* the file is too short *)
    intros Hshort. rewrite (int_id (errorLine - 1)) by lia.
    destruct (Z.leb_spec (errorLine - 1) (Z.of_nat (length lines)));
      cbn [negb]; [|done].
    rewrite (int_id (errorLine + 1)) by lia.
    rewrite (proj2 (Z.leb_gt _ _)) by lia. cbn [negb].
    by rewrite (proj2 (Z.leb_gt _ _)) by lia.
  - (* the context *)
    intros before at_ Hge Hbefore Hat.
    assert (Hlt : errorLine <= Z.of_nat (length lines)).
    { apply lookup_lt_Some in Hat. lia. }
    rewrite !int_id by lia.
    rewrite (proj2 (Z.leb_le (errorLine - 1) _)) by lia. cbn [negb].
    assert (Hindex : forall i text,
               0 <= i -> lines !! Z.to_nat i = Some text ->
               dockercompose.index lines i = Some text).
    { intros i text Hi Htext. unfold dockercompose.index.
      by rewrite (proj2 (Z.ltb_ge _ _)) by lia. }
    destruct (Z.leb_spec (errorLine + 1) (Z.of_nat (length lines)))
      as [Hafter|Hlast]; cbn [negb].
    + destruct (lookup_lt_is_Some_2 lines (Z.to_nat errorLine)) as [after Ha];
        [lia|].
      rewrite Ha.
      replace (Z.to_nat (errorLine + 1 - (errorLine - 1) + 1)) with 3%nat
        by lia.
      cbn [dockercompose.contextLines].
      rewrite !int_id by lia.
      replace (errorLine - 1 - 1) with (errorLine - 2) by lia.
      rewrite (Hindex (errorLine - 2) before ltac:(lia) Hbefore). cbn [mbind option_bind].
      replace (errorLine - 1 + 1) with errorLine by lia.
      rewrite (Hindex (errorLine - 1) at_ ltac:(lia) Hat). cbn [mbind option_bind].
      replace (errorLine + 1 - 1) with errorLine by lia.
      rewrite (Hindex errorLine after ltac:(lia) Ha). cbn [mbind option_bind].
      rewrite (proj2 (Z.eqb_neq (errorLine - 1) errorLine)) by lia.
      rewrite Z.eqb_refl.
      rewrite (proj2 (Z.eqb_neq (errorLine + 1) errorLine)) by lia.
      done.
    + rewrite (proj2 (Z.leb_le errorLine _)) by lia. cbn [negb].
      rewrite (lookup_ge_None_2 lines (Z.to_nat errorLine)) by lia.
      replace (Z.to_nat (errorLine - (errorLine - 1) + 1)) with 2%nat by lia.
      cbn [dockercompose.contextLines].
      rewrite !int_id by lia.
      replace (errorLine - 1 - 1) with (errorLine - 2) by lia.
      rewrite (Hindex (errorLine - 2) before ltac:(lia) Hbefore). cbn [mbind option_bind].
      replace (errorLine - 1 + 1) with errorLine by lia.
      rewrite (Hindex (errorLine - 1) at_ ltac:(lia) Hat). cbn [mbind option_bind].
      rewrite (proj2 (Z.eqb_neq (errorLine - 1) errorLine)) by lia.
      rewrite Z.eqb_refl. done.
Qed.

Lemma getErrorContext_outcomes_witness :
  Z.of_nat (length (dockercompose.Split dockercompose.Demo.file)) < 2 ^ 63 - 2 /\
  dockercompose.FindSubmatch dockercompose.Demo.line2 = Some "2" /\
  dockercompose.Atoi "2" = Some 2 /\
  @dockercompose.getErrorContext Sample.lib dockercompose.Demo.file
    dockercompose.Demo.line2
  = Some (dockercompose.Join
            ["1 | services:";
             Sample.Color "2 |   web" goterm.YELLOW;
             "3 |     image: nginx"], true).
Proof.
  assert (Hlen : Z.of_nat (length (dockercompose.Split dockercompose.Demo.file))
                 < 2 ^ 63 - 2) by (vm_compute; reflexivity).
  assert (Hmatch : dockercompose.FindSubmatch dockercompose.Demo.line2
                   = Some "2") by (vm_compute; reflexivity).
  assert (Hatoi : dockercompose.Atoi "2" = Some 2) by (vm_compute; reflexivity).
  split; [exact Hlen|]. split; [exact Hmatch|]. split; [exact Hatoi|].
  destruct (@getErrorContext_outcomes Sample.lib dockercompose.Demo.file
              dockercompose.Demo.line2 "2" 2 Hlen Hmatch Hatoi)
    as (_ & _ & _ & Hcontext).
  apply (Hcontext "services:" "  web"); [lia|reflexivity|reflexivity].
Defined.

Section error_context_examples.
(** A message about the first line of the file. *)
Example getErrorContext_line1 :
  @dockercompose.getErrorContext Sample.lib dockercompose.Demo.file
    dockercompose.Demo.line1 = None.
Proof. vm_compute. reflexivity. Qed.

Example getErrorContext_no_line :
  @dockercompose.getErrorContext Sample.lib dockercompose.Demo.file
    "yaml: unmarshal errors" = Some (EmptyString, false).
Proof. vm_compute. reflexivity. Qed.

Example FindSubmatch_leftmost :
  dockercompose.FindSubmatch "x yaml: line12: yaml: line 3:" = Some "12".
Proof. vm_compute. reflexivity. Qed.
End error_context_examples.

(** * The status printer *)

(** ** The order of Go strings *)

Lemma Ascii_compare_refl (c : ascii) : Ascii.compare c c = Eq.
Proof. unfold Ascii.compare. apply N.compare_refl. Qed.

Lemma Ascii_compare_Lt_trans (a b c : ascii) :
  Ascii.compare a b = Lt -> Ascii.compare b c = Lt -> Ascii.compare a c = Lt.
Proof.
  unfold Ascii.compare. rewrite !N.compare_lt_iff. lia.
Qed.

Lemma String_compare_Lt_trans (s1 s2 s3 : string) :
  String.compare s1 s2 = Lt -> String.compare s2 s3 = Lt ->
  String.compare s1 s3 = Lt.
Proof.
  revert s2 s3. induction s1 as [|a s1 IH]; intros [|b s2] [|c s3];
    simpl; try done.
  destruct (Ascii.compare a b) eqn:Hab; [|intros _|done].
  - apply Ascii.compare_eq_iff in Hab as ->.
    destruct (Ascii.compare b c); [apply IH|done|done].
  - destruct (Ascii.compare b c) eqn:Hbc; [|intros _|done].
    + apply Ascii.compare_eq_iff in Hbc as <-. by rewrite Hab.
    + by rewrite (Ascii_compare_Lt_trans _ _ _ Hab Hbc).
Qed.

Lemma String_compare_refl (s : string) : String.compare s s = Eq.
Proof.
  induction s as [|c s IH]; simpl; [done|].
  by rewrite Ascii_compare_refl.
Qed.

Lemma String_leb_trans (s1 s2 s3 : string) :
  String.leb s1 s2 = true -> String.leb s2 s3 = true ->
  String.leb s1 s3 = true.
Proof.
  unfold String.leb.
  destruct (String.compare s1 s2) eqn:H12; [|intros _|done].
  - apply String.compare_eq_iff in H12 as ->. done.
  - destruct (String.compare s2 s3) eqn:H23; [|intros _|done].
    + apply String.compare_eq_iff in H23 as <-. by rewrite H12.
    + by rewrite (String_compare_Lt_trans _ _ _ H12 H23).
Qed.

Lemma String_ltb_false (s1 s2 : string) :
  String.ltb s1 s2 = false -> String.leb s2 s1 = true.
Proof.
  unfold String.ltb, String.leb. rewrite (String.compare_antisym s2 s1).
  by destruct (String.compare s1 s2).
Qed.

Lemma String_ltb_leb (s1 s2 : string) :
  String.ltb s1 s2 = true -> String.leb s1 s2 = true.
Proof.
  unfold String.ltb, String.leb. by destruct (String.compare s1 s2).
Qed.

#[local] Instance String_leb_antisym :
  AntiSymm eq (fun s1 s2 => String.leb s1 s2 = true).
Proof. intros s1 s2. apply String.leb_antisym. Qed.

Lemma insert_Strings_sorted (x : string) (l : list string) :
  StronglySorted (fun a b => String.leb a b = true) l ->
  StronglySorted (fun a b => String.leb a b = true)
    (sort.insert String.ltb x l).
Proof.
  induction 1 as [|y l Hs IH Hy]; simpl; [repeat constructor|].
  destruct (String.ltb y x) eqn:Hlt.
  - constructor; [exact IH|].
    rewrite insert_Permutation_any. constructor; [|exact Hy].
    by apply String_ltb_leb.
  - apply String_ltb_false in Hlt.
    constructor; [by constructor|]. constructor; [done|].
    eapply Forall_impl; [exact Hy|]. simpl. intros z Hz.
    by eapply String_leb_trans.
Qed.

Lemma sort_Strings_sorted (l : list string) :
  StronglySorted (fun a b => String.leb a b = true) (up.sort_Strings l).
Proof.
  unfold up.sort_Strings. induction l as [|x l IH]; simpl; [constructor|].
  by apply insert_Strings_sorted.
Qed.

Lemma sort_Strings_Permutation (l : list string) : up.sort_Strings l ≡ₚ l.
Proof. apply SliceStable_Permutation_any. Qed.

Lemma sort_Strings_unique (l1 l2 : list string) :
  l1 ≡ₚ l2 -> up.sort_Strings l1 = up.sort_Strings l2.
Proof.
  intros Hp.
  eapply (StronglySorted_unique (fun a b => String.leb a b = true)).
  - apply sort_Strings_sorted.
  - apply sort_Strings_sorted.
  - by rewrite !sort_Strings_Permutation.
Qed.

(** ** [newStatusPrinter] *)

Lemma newStatusPrinter_fold (visits : list string) (sp0 : up.statusPrinter) :
  let sp :=
    foldl (fun sp svc =>
             up.mkStatusPrinter (up.services sp ++ [svc])
               (<[svc := up.mkTracker "Pending" 0]> (up.trackers sp))
               (up.currStatus sp) (up.hasPrinted sp))
      sp0 visits in
  up.services sp = up.services sp0 ++ visits /\
  (forall k,
      up.trackers sp !! k
      = if decide (k ∈ visits) then Some (up.mkTracker "Pending" 0)
        else up.trackers sp0 !! k) /\
  up.currStatus sp = up.currStatus sp0 /\
  up.hasPrinted sp = up.hasPrinted sp0.
Proof.
  revert sp0. induction visits as [|svc visits IH]; intros sp0; cbn [foldl].
  - split; [by rewrite app_nil_r|]. split; [|done].
    intros k. rewrite decide_False; [done|]. apply not_elem_of_nil.
  - destruct (IH (up.mkStatusPrinter (up.services sp0 ++ [svc])
                    (<[svc := up.mkTracker "Pending" 0]> (up.trackers sp0))
                    (up.currStatus sp0) (up.hasPrinted sp0)))
      as (Hs & Ht & Hc & Hp).
    simpl in *. split; [by rewrite Hs, <- app_assoc|]. split; [|done].
    intros k. rewrite Ht.
    destruct (decide (k ∈ visits)) as [Hin|Hin].
    + rewrite decide_True; [done|by right].
    + destruct (decide (k = svc)) as [->|Hne].
      * rewrite lookup_insert_eq, decide_True; [done|left].
      * rewrite lookup_insert_ne by done.
        rewrite decide_False; [done|]. by intros [?|?]%elem_of_cons.
Qed.

(** X18: [newStatusPrinter] gives the same printer whatever the order in
    which the [range] over [dc.Services] yields the names: its services are
    the names in increasing order, each once, and its trackers are those of
    the names, each in phase "Pending" with its timer at zero; nothing has
    been printed and no status is known. *)
Theorem newStatusPrinter_sorted (visits visits' : list string) :
  NoDup visits -> visits ≡ₚ visits' ->
  let sp := up.newStatusPrinter visits in
  sp = up.newStatusPrinter visits' /\
  up.services sp ≡ₚ visits /\
  StronglySorted (fun a b => String.leb a b = true) (up.services sp) /\
  NoDup (up.services sp) /\
  (forall svc,
      up.trackers sp !! svc
      = if decide (svc ∈ visits) then Some (up.mkTracker "Pending" 0)
        else None) /\
  up.currStatus sp = ∅ /\ up.hasPrinted sp = false /\
  up.tracked sp 1.
Proof.
  intros Hnodup Hperm sp. unfold sp, up.newStatusPrinter.
  destruct (newStatusPrinter_fold visits (up.mkStatusPrinter [] ∅ ∅ false))
    as (Hs & Ht & Hc & Hp).
  destruct (newStatusPrinter_fold visits' (up.mkStatusPrinter [] ∅ ∅ false))
    as (Hs' & Ht' & Hc' & Hp').
  cbv zeta in *. simpl in Hs, Ht, Hc, Hp, Hs', Ht', Hc', Hp'. simpl.
  rewrite Hs, Hs', Hc, Hc', Hp, Hp'.
  assert (Hlookup : forall svc,
             up.trackers
               (foldl (fun sp svc =>
                         up.mkStatusPrinter (up.services sp ++ [svc])
                           (<[svc := up.mkTracker "Pending" 0]>
                              (up.trackers sp))
                           (up.currStatus sp) (up.hasPrinted sp))
                  (up.mkStatusPrinter [] ∅ ∅ false) visits) !! svc
             = if decide (svc ∈ visits) then Some (up.mkTracker "Pending" 0)
               else None).
  { intros svc. rewrite Ht. by case_decide. }
  split; [|split; [|split; [|split; [|split; [|split; [|split]]]]]].
  - f_equal; [by apply sort_Strings_unique|].
    apply map_eq. intros k. rewrite Ht, Ht'.
    destruct (decide (k ∈ visits)) as [Hin|Hin].
    + rewrite decide_True; [done|by rewrite <- Hperm].
    + rewrite decide_False; [done|by rewrite <- Hperm].
  - apply sort_Strings_Permutation.
  - apply sort_Strings_sorted.
  - by rewrite sort_Strings_Permutation.
  - exact Hlookup.
  - done.
  - done.
  - unfold up.tracked. cbn [up.services up.trackers]. split.
    + intros svc. rewrite sort_Strings_Permutation. intros Hin.
      rewrite Hlookup, decide_True by done. eauto.
    + intros svc tr. rewrite Hlookup. case_decide; [|done].
      intros [= <-]. simpl. lia.
Qed.

Lemma newStatusPrinter_sorted_witness :
  NoDup ["web"; "db"] /\ ["web"; "db"] ≡ₚ ["db"; "web"] /\
  up.newStatusPrinter ["web"; "db"] = up.newStatusPrinter ["db"; "web"] /\
  up.services (up.newStatusPrinter ["web"; "db"]) ≡ₚ ["web"; "db"] /\
  up.tracked (up.newStatusPrinter ["web"; "db"]) 1.
Proof.
  assert (Hnodup : NoDup ["web"; "db"]).
  { repeat constructor; [|apply not_elem_of_nil].
    intros Hin%list_elem_of_singleton. discriminate. }
  assert (Hperm : ["web"; "db"] ≡ₚ ["db"; "web"]) by apply Permutation_swap.
  split; [exact Hnodup|]. split; [exact Hperm|].
  destruct (newStatusPrinter_sorted _ _ Hnodup Hperm)
    as (Heq & Hs & _ & _ & _ & _ & _ & Htracked).
  split; [exact Heq|]. split; [exact Hs|exact Htracked].
Defined.

(** ** [printStatus] *)

Section printStatus_facts.
Import up.
Context `{GoLib} `{GoTerm}.

Lemma foldl_tick_lookup (visits : list string) (m : gmap string tracker)
    (k : string) :
  NoDup visits ->
  foldl tick m visits !! k
  = if decide (k ∈ visits) then
      (fun tr => mkTracker (phase tr) (dockercompose.int (timer tr + 1)))
        <$> m !! k
    else m !! k.
Proof.
  revert m. induction visits as [|x visits IH]; intros m Hnd; cbn [foldl].
  - rewrite decide_False; [done|apply not_elem_of_nil].
  - apply NoDup_cons in Hnd as [Hx Hnd]. rewrite (IH _ Hnd). unfold tick.
    destruct (decide (k = x)) as [->|Hne].
    + rewrite decide_False by done. rewrite decide_True by left.
      apply lookup_alter_eq.
    + rewrite lookup_alter_ne by done.
      destruct (decide (k ∈ visits)) as [Hin|Hin].
      * rewrite decide_True; [done|by right].
      * rewrite decide_False; [done|]. by intros [?|?]%elem_of_cons.
Qed.

Lemma transition_lookup (m : gmap string tracker) (x k : string)
    (st : ServiceStatus) :
  transition m (x, st) !! k
  = if decide (k = x) then
      (fun tr => if decide (phase tr <> Phase st)
                 then mkTracker (Phase st) 0 else tr) <$> m !! k
    else m !! k.
Proof.
  unfold transition. destruct (decide (k = x)) as [->|Hne].
  - destruct (m !! x) as [tr|] eqn:Hx; simpl; [|by rewrite Hx].
    case_decide; [by rewrite lookup_insert_eq|by rewrite Hx].
  - destruct (m !! x) as [tr|]; [|done].
    case_decide; [by rewrite lookup_insert_ne|done].
Qed.

Lemma foldl_transition_lookup (visits : list (string * ServiceStatus))
    (m : gmap string tracker) (k : string) :
  NoDup visits.*1 ->
  foldl transition m visits !! k
  = change (list_to_map visits) k <$> m !! k.
Proof.
  revert m. induction visits as [|[x st] visits IH]; intros m Hnd;
    cbn [foldl].
  - unfold change. simpl. rewrite lookup_empty. by destruct (m !! k).
  - simpl in Hnd. apply NoDup_cons in Hnd as [Hx Hnd].
    rewrite (IH _ Hnd), transition_lookup. unfold change. simpl.
    destruct (decide (k = x)) as [->|Hne].
    + rewrite lookup_insert_eq.
      rewrite (not_elem_of_list_to_map_1 _ _ Hx).
      by destruct (m !! x).
    + by rewrite lookup_insert_ne.
Qed.

Lemma visitsEntries_map {A : Type} (cs : gmap string A)
    (visits : list (string * A)) :
  visitsEntries cs visits -> list_to_map visits = cs.
Proof.
  intros [Hnd Hin]. apply map_eq. intros k.
  apply option_eq. intros v.
  rewrite <- (elem_of_list_to_map _ _ _ Hnd). apply Hin.
Qed.

(** The trackers after the two loops over the maps. *)
Lemma loops_lookup (sp : statusPrinter) (order1 : list string)
    (order2 : list (string * ServiceStatus)) (bound : Z) (k : string) :
  visitsKeys (trackers sp) order1 ->
  visitsEntries (currStatus sp) order2 ->
  tracked sp bound -> bound <= 2 ^ 63 - 1 ->
  foldl transition (foldl tick (trackers sp) order1) order2 !! k
  = advance (currStatus sp) k <$> trackers sp !! k.
Proof.
  intros [Hnd1 Hin1] He [_ Htimer] Hbound.
  rewrite (foldl_transition_lookup _ _ _ (proj1 He)).
  rewrite (visitsEntries_map _ _ He), (foldl_tick_lookup _ _ _ Hnd1).
  destruct (trackers sp !! k) as [tr|] eqn:Hk.
  - rewrite decide_True by (apply Hin1; eauto). simpl.
    unfold advance. specialize (Htimer k tr Hk).
    by rewrite int_id by lia.
  - by case_decide.
Qed.

Lemma printRows_spec (m : gmap string tracker) (svcs : list string)
    (allReady : bool) (out : list output) :
  (forall svc, svc ∈ svcs ->
     exists tr, m !! svc = Some tr /\ 0 <= timer tr < 2 ^ 63 - 2) ->
  exists rows allReady',
    printRows m svcs allReady out = Some (allReady', out ++ rows) /\
    Forall2 (fun svc r => exists tr, m !! svc = Some tr /\ r = row svc tr)
      svcs rows /\
    (allReady' = true <->
     allReady = true /\
     forall svc tr, svc ∈ svcs -> m !! svc = Some tr -> phase tr = donePhase).
Proof.
  revert allReady out.
  induction svcs as [|svc svcs IH]; intros allReady out Hall;
    cbn [printRows].
  - exists [], allReady. rewrite app_nil_r. split; [done|]. split; [done|].
    split; [intros ->; split; [done|]|by intros [? _]].
    intros svc tr Hin. by apply elem_of_nil in Hin.
  - destruct (Hall svc) as (tr & Htr & Htimer); [left|]. rewrite Htr.
    cbn [mbind option_bind].
    assert (Hrest : forall svc', svc' ∈ svcs ->
              exists tr, m !! svc' = Some tr /\ 0 <= timer tr < 2 ^ 63 - 2)
      by (intros svc' Hin; apply Hall; by right).
    destruct (decide (phase tr <> donePhase)) as [Hphase|Hphase].
    + rewrite int_id by lia. unfold Repeat_dot.
      rewrite (proj2 (Z.ltb_ge _ _)) by lia. cbn [mbind option_bind].
      destruct (IH false
                  (out ++ [Fprintln
                     (goterm_ResetLine
                        (svc +:+ String (ascii_of_nat 9)
                           (goterm_Color
                              (phase tr
                               +:+ string_of_list_ascii
                                     (replicate (Z.to_nat (timer tr + 2))
                                        "."%char))
                              goterm.YELLOW)))]) Hrest)
        as (rows & ready & Hprint & Hrows & Hready).
      exists (row svc tr :: rows), ready. split.
      * rewrite Hprint. f_equal. f_equal. rewrite <- app_assoc. simpl.
        unfold row. by rewrite decide_True by done.
      * split; [constructor; [eauto|done]|].
        split; [intros Hr; apply Hready in Hr as [? _]; done|].
        intros [_ Hdone]. destruct Hphase. apply (Hdone svc tr); [left|done].
    + cbn [mbind option_bind].
      destruct (IH allReady
                  (out ++ [Fprintln
                     (goterm_ResetLine
                        (svc +:+ String (ascii_of_nat 9)
                           (goterm_Color (phase tr) goterm.GREEN)))]) Hrest)
        as (rows & ready & Hprint & Hrows & Hready).
      exists (row svc tr :: rows), ready. split.
      * rewrite Hprint. f_equal. f_equal. rewrite <- app_assoc. simpl.
        unfold row. by rewrite decide_False by done.
      * split; [constructor; [eauto|done]|].
        rewrite Hready. apply dec_stable in Hphase.
        split; intros [Hr Hdone]; (split; [done|]); intros svc' tr' Hin Htr'.
        -- apply elem_of_cons in Hin as [->|Hin]; [|by eapply Hdone].
           rewrite Htr in Htr'. by injection Htr' as <-.
        -- apply (Hdone svc' tr'); [by right|done].
Qed.
End printStatus_facts.

Lemma advance_timer (cs : gmap string up.ServiceStatus) (svc : string)
    (tr : up.tracker) (bound : Z) :
  0 <= up.timer tr < bound ->
  0 <= up.timer (up.advance cs svc tr) < bound + 1.
Proof.
  unfold up.advance, up.change. intros Ht.
  destruct (cs !! svc); [case_decide|]; simpl; lia.
Qed.

(** X19: one call of [printStatus], for a printer whose declared services
    all have trackers: it does not panic, and what it gives does not depend
    on the order in which the two loops visit the maps.  The timer of every
    tracker goes up by one, except that a service whose status names another
    phase gets a new tracker in that phase with its timer at zero; a status
    for a service that was not declared is ignored.  It prints one row for
    each declared service, in the order of [services], after moving the
    cursor up by that many lines if it has printed before; and it returns
    true exactly when every declared service is in the phase "Running". *)
Theorem printStatus_outcome `{GoLib} `{up.GoTerm} (sp : up.statusPrinter)
    (visits1 visits1' : list string)
    (visits2 visits2' : list (string * up.ServiceStatus)) (bound : Z) :
  up.visitsKeys (up.trackers sp) visits1 ->
  up.visitsEntries (up.currStatus sp) visits2 ->
  up.visitsKeys (up.trackers sp) visits1' ->
  up.visitsEntries (up.currStatus sp) visits2' ->
  up.tracked sp bound -> bound <= 2 ^ 63 - 3 ->
  exists sp' rows allReady,
    up.printStatus visits1 visits2 sp
    = Some (sp',
            (if up.hasPrinted sp
             then [up.MoveCursorUp (length (up.services sp)); up.Flush]
             else []) ++ rows,
            allReady) /\
    up.printStatus visits1' visits2' sp
    = up.printStatus visits1 visits2 sp /\
    up.services sp' = up.services sp /\
    up.currStatus sp' = up.currStatus sp /\
    up.hasPrinted sp' = true /\
    (forall svc,
        up.trackers sp' !! svc
        = up.advance (up.currStatus sp) svc <$> up.trackers sp !! svc) /\
    up.tracked sp' (bound + 1) /\
    Forall2 (fun svc r =>
               exists tr, up.trackers sp' !! svc = Some tr /\ r = up.row svc tr)
      (up.services sp) rows /\
    (allReady = true <-> up.allRunning sp').
Proof.
  intros Hv1 Hv2 Hv1' Hv2' Htracked Hbound.
  set (m := foldl up.transition (foldl up.tick (up.trackers sp) visits1)
              visits2).
  assert (Hm : forall k,
             m !! k = up.advance (up.currStatus sp) k <$> up.trackers sp !! k)
    by (intros k; apply (loops_lookup sp _ _ bound); [done..|lia]).
  assert (Hm' : foldl up.transition
                  (foldl up.tick (up.trackers sp) visits1') visits2' = m).
  { apply map_eq. intros k. rewrite Hm.
    apply (loops_lookup sp _ _ bound); [done..|lia]. }
  destruct Htracked as [Hdeclared Htimer].
  assert (Htimer' : forall svc tr,
             m !! svc = Some tr -> 0 <= up.timer tr < bound + 1).
  { intros svc tr. rewrite Hm.
    destruct (up.trackers sp !! svc) as [tr0|] eqn:Hsvc; [|done].
    intros [= <-]. apply advance_timer. by eapply Htimer. }
  assert (Hrows : forall svc, svc ∈ up.services sp ->
             exists tr, m !! svc = Some tr /\ 0 <= up.timer tr < 2 ^ 63 - 2).
  { intros svc Hin. destruct (Hdeclared svc Hin) as [tr0 Hsvc].
    exists (up.advance (up.currStatus sp) svc tr0).
    split; [by rewrite Hm, Hsvc|].
    pose proof (advance_timer (up.currStatus sp) svc tr0 bound
                  (Htimer svc tr0 Hsvc)). lia. }
  destruct (printRows_spec m (up.services sp) true
              (if up.hasPrinted sp
               then [up.MoveCursorUp (length (up.services sp)); up.Flush]
               else []) Hrows)
    as (rows & allReady & Hprint & Hforall & Hready).
  exists (up.mkStatusPrinter (up.services sp) m (up.currStatus sp) true),
    rows, allReady.
  assert (Hcall : up.printStatus visits1 visits2 sp
                  = Some (up.mkStatusPrinter (up.services sp) m
                            (up.currStatus sp) true,
                          (if up.hasPrinted sp
                           then [up.MoveCursorUp (length (up.services sp));
                                 up.Flush]
                           else []) ++ rows,
                          allReady)).
  { unfold up.printStatus. fold m. cbv zeta. by rewrite Hprint. }
  split; [exact Hcall|]. split.
  { rewrite Hcall. unfold up.printStatus. rewrite Hm'. cbv zeta.
    by rewrite Hprint. }
  split; [done|]. split; [done|]. split; [done|]. split; [exact Hm|].
  split.
  { split; simpl; [|exact Htimer'].
    intros svc Hin. destruct (Hrows svc Hin) as (tr & -> & _). eauto. }
  split; [exact Hforall|].
  rewrite Hready. unfold up.allRunning. simpl. split; [by intros [_ ?]|done].
Qed.

(** ** The loop of [Run] *)

Section Run_facts.
Import up.
Context `{GoLib} `{GoTerm}.

Lemma phase_advance (cs : gmap string ServiceStatus) (svc : string)
    (tr : tracker) :
  phase (advance cs svc tr) = phase (change cs svc tr).
Proof.
  unfold advance, change. destruct (cs !! svc); [|done].
  simpl. by repeat case_decide.
Qed.

Lemma phase_change_again (cs : gmap string ServiceStatus) (svc : string)
    (tr : tracker) :
  phase (change cs svc (advance cs svc tr)) = phase (change cs svc tr).
Proof.
  unfold advance, change. destruct (cs !! svc); [|done].
  simpl. repeat case_decide; simpl in *; congruence.
Qed.

(** One turn of the loop, by [printStatus_outcome]. *)
Lemma turn_spec (sp : statusPrinter) (t : turn) (bound : Z) :
  tracked sp bound -> bound <= 2 ^ 63 - 3 -> wfTurn sp t ->
  exists sp' rows allReady,
    printStatus (visits1 t) (visits2 t)
      (mkStatusPrinter (services sp) (trackers sp) (status t)
         (hasPrinted sp))
    = Some (sp', rows, allReady) /\
    services sp' = services sp /\
    (forall svc,
        trackers sp' !! svc = advance (status t) svc <$> trackers sp !! svc) /\
    tracked sp' (bound + 1) /\
    (allReady = true <-> allRunning sp').
Proof.
  intros Htracked Hbound [Hv1 Hv2].
  destruct (printStatus_outcome
              (mkStatusPrinter (services sp) (trackers sp) (status t)
                 (hasPrinted sp))
              (visits1 t) (visits1 t) (visits2 t) (visits2 t) bound)
    as (sp' & rows & allReady & Hcall & _ & Hs & _ & _ & Hm & Ht & _ & Hr);
    try done.
  eexists sp', _, allReady. split; [exact Hcall|]. done.
Qed.

Lemma wfTurn_keys (sp sp' : statusPrinter) (t : turn) :
  (forall svc, is_Some (trackers sp' !! svc) <-> is_Some (trackers sp !! svc)) ->
  wfTurn sp t -> wfTurn sp' t.
Proof.
  intros Hkeys [[Hnd Hin] Hv2]. split; [|done]. split; [done|].
  intros k. by rewrite Hin, Hkeys.
Qed.

Lemma loop_spec (turns : list turn) (sp : statusPrinter)
    (out : list output) (bound : Z) :
  tracked sp bound -> bound + Z.of_nat (length turns) <= 2 ^ 63 - 3 ->
  Forall (wfTurn sp) turns ->
  exists sp' out' result,
    loop turns sp out = Some (sp', out', result) /\
    services sp' = services sp /\
    (forall svc,
        is_Some (trackers sp' !! svc) <-> is_Some (trackers sp !! svc)) /\
    (result = Returned None /\ allRunning sp' /\
     last out'
     = Some (Println
               (goterm_Color "All containers successfully started"
                  goterm.GREEN)) \/
     result = Looping /\ (turns = [] \/ ~ allRunning sp')).
Proof.
  revert sp out bound.
  induction turns as [|t turns IH]; intros sp out bound Htracked Hbound Hwf;
    cbn [loop].
  - exists sp, out, Looping. split; [done|]. split; [done|].
    split; [done|]. right. auto.
  - apply Forall_cons in Hwf as [Ht Hwf]. simpl length in Hbound.
    destruct (turn_spec sp t bound Htracked ltac:(lia) Ht)
      as (sp1 & rows & allReady & -> & Hs & Hm & Htracked1 & Hready).
    cbn [mbind option_bind].
    assert (Hkeys : forall svc,
              is_Some (trackers sp1 !! svc) <-> is_Some (trackers sp !! svc)).
    { intros svc. rewrite Hm. by rewrite fmap_is_Some. }
    destruct allReady.
    + exists sp1. eexists _, (Returned None). split; [done|].
      split; [done|]. split; [done|]. left. split; [done|].
      split; [by apply Hready|].
      by rewrite app_assoc, last_snoc.
    + destruct (IH sp1 (out ++ rows) (bound + 1) Htracked1 ltac:(lia))
        as (sp' & out' & result & Hloop & Hs' & Hkeys' & Hres).
      { eapply Forall_impl; [exact Hwf|]. intros t'. by apply wfTurn_keys. }
      exists sp', out', result. split; [exact Hloop|].
      split; [congruence|].
      split; [intros svc; by rewrite Hkeys', Hkeys|].
      destruct Hres as [?|[-> [->|Hnot]]]; [by left|right..].
      * split; [done|]. right. simpl in Hloop. injection Hloop as <- _.
        intros Hall. apply Hready in Hall. discriminate.
      * split; [done|]. by right.
Qed.

(** With the same status turn after turn, a service that the status leaves
    outside "Running" keeps the loop going. *)
Lemma loop_stuck (turns : list turn) (sp : statusPrinter)
    (out : list output) (bound : Z) (cs : gmap string ServiceStatus)
    (svc : string) (tr : tracker) :
  tracked sp bound -> bound + Z.of_nat (length turns) <= 2 ^ 63 - 3 ->
  Forall (fun t => wfTurn sp t /\ status t = cs) turns ->
  svc ∈ services sp -> trackers sp !! svc = Some tr ->
  phase (change cs svc tr) <> donePhase ->
  exists sp' out',
    loop turns sp out = Some (sp', out', Looping) /\
    exists tr',
      trackers sp' !! svc = Some tr' /\
      (turns <> [] -> phase tr' = phase (change cs svc tr)).
Proof.
  revert sp out bound tr.
  induction turns as [|t turns IH];
    intros sp out bound tr Htracked Hbound Hwf Hin Htr Hphase; cbn [loop].
  - exists sp, out. split; [done|]. exists tr. split; [done|]. done.
  - apply Forall_cons in Hwf as [[Ht Hcs] Hwf]. simpl length in Hbound.
    destruct (turn_spec sp t bound Htracked ltac:(lia) Ht)
      as (sp1 & rows & allReady & -> & Hs & Hm & Htracked1 & Hready).
    cbn [mbind option_bind]. rewrite Hcs in Hm.
    assert (Htr1 : trackers sp1 !! svc = Some (advance cs svc tr))
      by (by rewrite Hm, Htr).
    assert (Hnot : allReady = false).
    { destruct allReady; [|done]. destruct Hphase.
      rewrite <- phase_advance. apply (proj1 Hready eq_refl svc); [|done].
      by rewrite Hs. }
    rewrite Hnot.
    destruct (IH sp1 (out ++ rows) (bound + 1) (advance cs svc tr)
                Htracked1 ltac:(lia))
      as (sp' & out' & Hloop & tr' & Htr' & Hphase'); try done.
    + eapply Forall_impl; [exact Hwf|]. intros t' [Hwf' ?]. split; [|done].
      eapply wfTurn_keys; [|exact Hwf']. intros k. rewrite Hm.
      by rewrite fmap_is_Some.
    + by rewrite Hs.
    + by rewrite phase_change_again.
    + exists sp', out'. split; [exact Hloop|]. exists tr'.
      split; [exact Htr'|]. intros _.
      destruct turns as [|t2 turns].
      * simpl in Hloop. injection Hloop as <- _. rewrite Htr1 in Htr'.
        injection Htr' as <-. apply phase_advance.
      * rewrite Hphase' by done. apply phase_change_again.
Qed.
End Run_facts.

(** X20: [Run], once the status stream is open, for any number of turns of
    its loop: it does not panic and keeps the declared services; it returns
    nil only after a call of [printStatus] that left every declared service
    in the phase "Running", and then the message of success is the last
    thing printed; and while the status that the printer sees stays the same
    and leaves a declared service outside "Running" (because it names
    another phase, or because the stream ended before it named the
    service), [Run] does not return, however many turns pass. *)
Theorem Run_until_running `{GoLib} `{up.GoTerm} (sp : up.statusPrinter)
    (turns : list up.turn) (bound : Z) :
  up.tracked sp bound ->
  bound + Z.of_nat (length turns) <= 2 ^ 63 - 3 ->
  Forall (up.wfTurn sp) turns ->
  exists sp' out result,
    up.Run None turns sp = Some (sp', out, result) /\
    up.services sp' = up.services sp /\
    (result = up.Returned None /\ up.allRunning sp' /\
     last out
     = Some (up.Println
               (goterm_Color "All containers successfully started"
                  goterm.GREEN)) \/
     result = up.Looping /\ (turns = [] \/ ~ up.allRunning sp')) /\
    (forall cs svc tr,
        Forall (fun t => up.status t = cs) turns ->
        svc ∈ up.services sp -> up.trackers sp !! svc = Some tr ->
        up.phase (up.change cs svc tr) <> up.donePhase ->
        result = up.Looping).
Proof.
  intros Htracked Hbound Hwf. unfold up.Run.
  destruct (loop_spec turns sp [] bound Htracked Hbound Hwf)
    as (sp' & out & result & Hloop & Hs & _ & Hres).
  exists sp', out, result. split; [exact Hloop|]. split; [exact Hs|].
  split; [exact Hres|].
  intros cs svc tr Hcs Hin Htr Hphase.
  destruct (loop_stuck turns sp [] bound cs svc tr Htracked Hbound)
    as (sp2 & out2 & Hloop2 & _); try done.
  - apply Forall_forall. intros t Ht. rewrite Forall_forall in Hwf, Hcs.
    split; [by apply Hwf|by apply Hcs].
  - rewrite Hloop in Hloop2. by injection Hloop2 as _ _ ->.
Qed.

(** ** The status printer on a concrete case *)

Lemma demo_visitsKeys (visits : list string) :
  visits ≡ₚ ["web"; "db"] ->
  up.visitsKeys (up.trackers up.Demo.sp) visits.
Proof.
  intros Hp.
  assert (Hnodup : NoDup ["web"; "db"]).
  { repeat constructor; [|apply not_elem_of_nil].
    intros Hin%list_elem_of_singleton. discriminate. }
  destruct (newStatusPrinter_sorted ["web"; "db"] ["web"; "db"] Hnodup)
    as (_ & _ & _ & _ & Hlookup & _); [done|].
  split; [by rewrite Hp|]. intros k. fold up.Demo.sp in Hlookup.
  rewrite Hlookup, Hp. case_decide; split; try done; eauto.
Qed.

Lemma demo_visitsEntries {A : Type} (visits : list (string * A)) :
  NoDup visits.*1 -> up.visitsEntries (list_to_map visits) visits.
Proof.
  intros Hnd. split; [done|]. intros k v.
  by rewrite <- (elem_of_list_to_map _ _ _ Hnd).
Qed.

Lemma demo_tracked : up.tracked up.Demo.sp 1.
Proof.
  assert (Hnodup : NoDup ["web"; "db"]).
  { repeat constructor; [|apply not_elem_of_nil].
    intros Hin%list_elem_of_singleton. discriminate. }
  by destruct (newStatusPrinter_sorted ["web"; "db"] ["web"; "db"] Hnodup)
    as (_ & _ & _ & _ & _ & _ & _ & Htracked).
Qed.

Lemma demo_booting : NoDup up.Demo.booting.*1.
Proof.
  apply NoDup_cons. split.
  - intros [Hin|[Hin|Hin]%elem_of_cons]%elem_of_cons; try discriminate.
    by apply elem_of_nil in Hin.
  - apply NoDup_cons. split; [|apply NoDup_singleton].
    intros Hin%list_elem_of_singleton. discriminate.
Qed.

Lemma demo_booted : NoDup up.Demo.booted.*1.
Proof.
  apply NoDup_cons. split; [|apply NoDup_singleton].
  intros Hin%list_elem_of_singleton. discriminate.
Qed.

Lemma printStatus_outcome_witness :
  let sp := up.mkStatusPrinter (up.services up.Demo.sp)
              (up.trackers up.Demo.sp) (list_to_map up.Demo.booting) false in
  up.tracked sp 1 /\
  exists sp' rows,
    @up.printStatus Sample.lib up.Demo.term ["web"; "db"] up.Demo.booting sp
    = Some (sp', rows, false) /\
    @up.printStatus Sample.lib up.Demo.term ["db"; "web"] up.Demo.booting sp
    = Some (sp', rows, false) /\
    length rows = 2%nat /\
    up.trackers sp' !! "web" = Some (up.mkTracker "Running" 0) /\
    up.trackers sp' !! "db" = Some (up.mkTracker "Pending" 1) /\
    up.trackers sp' !! "syncthing" = None.
Proof.
  intros sp.
  assert (Htracked : up.tracked sp 1) by exact demo_tracked.
  split; [exact Htracked|].
  destruct (@printStatus_outcome Sample.lib up.Demo.term sp
              ["web"; "db"] ["db"; "web"] up.Demo.booting up.Demo.booting 1)
    as (sp' & rows & allReady & Hcall & Hcall' & _ & _ & _ & Hm & _ & Hrows
        & _).
  - by apply demo_visitsKeys.
  - apply demo_visitsEntries, demo_booting.
  - apply demo_visitsKeys, Permutation_swap.
  - apply demo_visitsEntries, demo_booting.
  - exact Htracked.
  - lia.
  - assert (Hready : allReady = false).
    { assert (Hc : snd <$> @up.printStatus Sample.lib up.Demo.term
                               ["web"; "db"] up.Demo.booting sp
                   = Some false) by (vm_compute; reflexivity).
      rewrite Hcall in Hc. by injection Hc as ->. }
    subst allReady. exists sp', rows. split; [exact Hcall|].
    split; [by rewrite Hcall'|].
    split; [by apply Forall2_length in Hrows|].
    rewrite !Hm. split; [|split]; vm_compute; reflexivity.
Defined.

Lemma Run_until_running_witness :
  up.tracked up.Demo.sp 1 /\
  Forall (up.wfTurn up.Demo.sp) [up.Demo.turn1; up.Demo.turn2] /\
  exists sp' out,
    @up.Run Sample.lib up.Demo.term None [up.Demo.turn1; up.Demo.turn2]
      up.Demo.sp = Some (sp', out, up.Returned None) /\
    up.allRunning sp' /\
    last out
    = Some (up.Println
              (Sample.Color "All containers successfully started"
                 goterm.GREEN)).
Proof.
  assert (Hwf : Forall (up.wfTurn up.Demo.sp) [up.Demo.turn1; up.Demo.turn2]).
  { apply Forall_cons. split; [split|apply Forall_singleton; split].
    - by apply demo_visitsKeys.
    - apply demo_visitsEntries, demo_booting.
    - apply demo_visitsKeys, Permutation_swap.
    - apply demo_visitsEntries, demo_booted. }
  split; [exact demo_tracked|]. split; [exact Hwf|].
  destruct (@Run_until_running Sample.lib up.Demo.term up.Demo.sp
              [up.Demo.turn1; up.Demo.turn2] 1 demo_tracked)
    as (sp' & out & result & Hrun & _ & Hres & _); [simpl; lia|exact Hwf|].
  assert (Hresult : result = up.Returned None).
  { assert (Hc : snd <$> @up.Run Sample.lib up.Demo.term None
                             [up.Demo.turn1; up.Demo.turn2] up.Demo.sp
                 = Some (up.Returned None)) by (vm_compute; reflexivity).
    rewrite Hrun in Hc. by injection Hc as ->. }
  subst result. exists sp', out. split; [exact Hrun|].
  destruct Hres as [(_ & Hall & Hlast)|[? _]]; [done|discriminate].
Defined.

(** * Preparing a deployment *)

(** ** The environment of the loader *)

Lemma foldl_setenv_lookup (environ : list string) (env : gmap string string)
    (k : string) :
  foldl dockercompose.setenv env environ !! k
  = match last (filter (fun e => dockercompose.envKey e = k) environ) with
    | Some e => Some (dockercompose.envVal e)
    | None => env !! k
    end.
Proof.
  revert env. induction environ as [|e environ IH] using rev_ind; intros env.
  - done.
  - rewrite foldl_snoc, filter_app, filter_cons, filter_nil.
    unfold dockercompose.setenv at 1.
    fold (dockercompose.envKey e). fold (dockercompose.envVal e).
    destruct (decide (dockercompose.envKey e = k)) as [<-|Hne].
    + by rewrite lookup_insert_eq, last_snoc.
    + rewrite lookup_insert_ne, app_nil_r by done. apply IH.
Qed.

Lemma foldl_insert_lookup {A B : Type} (f : A -> B)
    (visits : list (string * A)) (m : gmap string A) (k : string) :
  up.visitsEntries m visits ->
  forall acc : gmap string B,
    foldl (fun ret '(k, v) => <[k := f v]> ret) acc visits !! k
    = match m !! k with
      | Some v => Some (f v)
      | None => acc !! k
      end.
Proof.
  intros [Hnd Hin] acc.
  assert (Hm : m !! k = (list_to_map visits : gmap string A) !! k).
  { apply option_eq. intros v.
    by rewrite <- (elem_of_list_to_map _ _ _ Hnd), Hin. }
  rewrite Hm. clear Hm Hin m. revert acc.
  induction visits as [|[x v] visits IH]; intros acc; simpl.
  - by rewrite lookup_empty.
  - simpl in Hnd. apply NoDup_cons in Hnd as [Hx Hnd].
    rewrite (IH Hnd). destruct (decide (k = x)) as [->|Hne].
    + by rewrite (not_elem_of_list_to_map_1 _ _ Hx), !lookup_insert_eq.
    + by rewrite !lookup_insert_ne by done.
Qed.

(** X21: the environment that [Load] gives to the loader.  A variable of
    the shell takes precedence over the [.env] file: a name that
    [os.Environ()] sets has the value of its last entry there (the text
    behind the first [=], or the empty text when the entry has none), and any
    other name has its value of the [.env] file, if there is one.  An error
    of [parseEnvFile] is returned under "parse .env file".  [parseEnvFile]
    keeps every name of the parsed file, with the empty text for a name
    without a value, whatever the order of its loop. *)
Theorem shell_env_precedence `{GoLib}
    (dotenv : option (gmap string string + GoError)) (environ : list string) :
  match dotenv with
  | Some (inr err) =>
      dockercompose.loadEnv dotenv environ
      = inr (errors_WithContext "parse .env file" err)
  | _ =>
      exists env,
        dockercompose.loadEnv dotenv environ = inl env /\
        forall k,
          env !! k
          = match
              last (filter (fun e => dockercompose.envKey e = k) environ)
            with
            | Some e => Some (dockercompose.envVal e)
            | None =>
                match dotenv with
                | Some (inl file) => file !! k
                | _ => None
                end
            end
  end /\
  (forall parsed visits,
      up.visitsEntries parsed visits ->
      dockercompose.parseEnvFile (inl parsed) visits
      = inl (default EmptyString <$> parsed)).
Proof.
  split.
  - destruct dotenv as [[file|err]|]; simpl; [|done|].
    + eexists. split; [done|]. intros k. apply foldl_setenv_lookup.
    + eexists. split; [done|]. intros k. by rewrite foldl_setenv_lookup.
  - intros parsed visits Hv. unfold dockercompose.parseEnvFile. f_equal.
    apply map_eq. intros k.
    rewrite (foldl_insert_lookup (default EmptyString) visits parsed k Hv).
    rewrite lookup_fmap, lookup_empty. by destruct (parsed !! k).
Qed.

(** ** Registry credentials *)

(** X22: [getLocalRegistryCredentials] returns the user name and the
    password of every host of the two sources, the credentials of the
    credential helpers taking precedence over those saved in the
    configuration file, whatever the order in which the two loops go through
    the maps; an error of [config.Load] or of [GetAllCredentials] is returned
    as it is, without credentials. *)
Theorem secure_credentials_override
    (insecure secure : gmap string up_cmd.AuthConfig)
    (visits1 visits2 : list (string * up_cmd.AuthConfig)) :
  up.visitsEntries insecure visits1 ->
  up.visitsEntries secure visits2 ->
  (exists creds,
      up_cmd.getLocalRegistryCredentials None visits1 (inl visits2)
      = inl creds /\
      forall host,
        creds !! host
        = (fun cred =>
             up_cmd.mkCredential (up_cmd.Username cred) (up_cmd.Password cred))
            <$> match secure !! host with
                | Some cred => Some cred
                | None => insecure !! host
                end) /\
  (forall err,
      up_cmd.getLocalRegistryCredentials None visits1 (inr err) = inr err) /\
  (forall err allCredentials,
      up_cmd.getLocalRegistryCredentials (Some err) visits1 allCredentials
      = inr err).
Proof.
  intros Hv1 Hv2. split; [|done].
  eexists. split; [done|]. intros host. unfold up_cmd.addCredentials.
  rewrite (foldl_insert_lookup
             (fun cred =>
                up_cmd.mkCredential (up_cmd.Username cred)
                  (up_cmd.Password cred)) visits2 secure host Hv2).
  destruct (secure !! host); [done|].
  rewrite (foldl_insert_lookup
             (fun cred =>
                up_cmd.mkCredential (up_cmd.Username cred)
                  (up_cmd.Password cred)) visits1 insecure host Hv1).
  rewrite lookup_empty. by destruct (insecure !! host).
Qed.

Lemma secure_credentials_override_witness :
  let saved := [("docker.io", up_cmd.mkAuthConfig "me" "plain" EmptyString)] in
  let helper :=
    [("gcr.io", up_cmd.mkAuthConfig "_token" "t0" "id");
     ("docker.io", up_cmd.mkAuthConfig "me" "secret" EmptyString)] in
  exists creds,
    up_cmd.getLocalRegistryCredentials None saved (inl helper) = inl creds /\
    creds !! "docker.io" = Some (up_cmd.mkCredential "me" "secret") /\
    creds !! "gcr.io" = Some (up_cmd.mkCredential "_token" "t0").
Proof.
  intros saved helper.
  assert (Hsaved : up.visitsEntries (list_to_map saved) saved).
  { apply demo_visitsEntries. apply NoDup_singleton. }
  assert (Hhelper : up.visitsEntries (list_to_map helper) helper).
  { apply demo_visitsEntries. apply NoDup_cons. split; [|apply NoDup_singleton].
    intros Hin%list_elem_of_singleton. discriminate. }
  destruct (secure_credentials_override _ _ _ _ Hsaved Hhelper)
    as [(creds & Hcreds & Hlookup) _].
  exists creds. split; [exact Hcreds|].
  rewrite !Hlookup. split; vm_compute; reflexivity.
Defined.

(** ** Bind volumes *)

Section bind_volumes.
Import up_cmd.
Context `{Docker} (cmd : up).

Lemma volumes_lookup (vs : list ServiceVolumeConfig) (m : gmap string string)
    (id : string) :
  is_Some
    (foldl (fun idPathMap v =>
              if decide (Type_ v <> "bind") then idPathMap
              else <[volume_ID (KubeNamespace cmd) v := Source v]> idPathMap)
       m vs !! id)
  <-> is_Some (m !! id) \/
      exists v, v ∈ vs /\ Type_ v = "bind" /\
                volume_ID (KubeNamespace cmd) v = id.
Proof.
  revert m. induction vs as [|v vs IH]; intros m; simpl.
  - split; [by left|]. intros [?|(v & Hin & _)]; [done|].
    by apply elem_of_nil in Hin.
  - rewrite IH. case_decide as Hty.
    + split; (intros [?|(v' & Hin & Hb & Hid)]; [by left|right]).
      * exists v'. split; [by right|done].
      * apply elem_of_cons in Hin as [->|Hin]; [done|]. by exists v'.
    + destruct (decide (volume_ID (KubeNamespace cmd) v = id)) as [Hid|Hne].
      * rewrite <- Hid, lookup_insert_eq. split; intros _; [right|left; eauto].
        exists v. split; [left|done].
      * rewrite lookup_insert_ne by done.
        split; (intros [?|(v' & Hin & Hb & Hid)]; [by left|right]).
        -- exists v'. split; [by right|done].
        -- apply elem_of_cons in Hin as [->|Hin]; [done|]. by exists v'.
Qed.

Lemma idPathMap_lookup (dcCfg : Config) (id : string) :
  is_Some (idPathMap cmd dcCfg !! id)
  <-> exists v, bindVolume dcCfg v /\ volume_ID (KubeNamespace cmd) v = id.
Proof.
  unfold idPathMap, bindVolume.
  enough (Hgen : forall svcs (m : gmap string string),
            is_Some
              (foldl (fun idPathMap svc =>
                        foldl (fun idPathMap v =>
                                 if decide (Type_ v <> "bind") then idPathMap
                                 else <[volume_ID (KubeNamespace cmd) v
                                        := Source v]> idPathMap)
                          idPathMap (Volumes svc)) m svcs !! id)
            <-> is_Some (m !! id) \/
                exists v, (exists svc, svc ∈ svcs /\ v ∈ Volumes svc /\
                                       Type_ v = "bind") /\
                          volume_ID (KubeNamespace cmd) v = id).
  { rewrite Hgen, lookup_empty. split; [intros [[? ?]|?]; done|by right]. }
  induction svcs as [|svc svcs IH]; intros m; simpl.
  - split; [by left|]. intros [?|(v & (svc & Hin & _) & _)]; [done|].
    by apply elem_of_nil in Hin.
  - rewrite IH, volumes_lookup. split.
    + intros [[?|(v & Hin & Hb & Hid)]|(v & (svc' & Hin & Hv & Hb) & Hid)].
      * by left.
      * right. exists v. split; [|done]. exists svc. split; [left|done].
      * right. exists v. split; [|done]. exists svc'. split; [by right|done].
    + intros [?|(v & (svc' & Hin & Hv & Hb) & Hid)]; [by left; left|].
      apply elem_of_cons in Hin as [->|Hin].
      * left. right. by exists v.
      * right. exists v. split; [|done]. by exists svc'.
Qed.
End bind_volumes.

(** X23: [bootSyncthing] returns true, and starts the goroutine of
    [syncthing.Run], exactly when some service of the file has a volume of
    type "bind"; the map that it gives to [syncthing.Run] has an entry for the
    identifier of every bind volume, and for nothing else. *)
Theorem bootSyncthing_bind `{up_cmd.Docker} (cmd : up_cmd.up)
    (dcCfg : up_cmd.Config) :
  let idPathMap := up_cmd.idPathMap cmd dcCfg in
  (forall id,
      is_Some (idPathMap !! id)
      <-> exists v,
            up_cmd.bindVolume dcCfg v /\
            up_cmd.volume_ID (up_cmd.KubeNamespace cmd) v = id) /\
  ((exists v, up_cmd.bindVolume dcCfg v) ->
   up_cmd.bootSyncthing cmd dcCfg = (true, Some idPathMap)) /\
  ((forall v, ~ up_cmd.bindVolume dcCfg v) ->
   up_cmd.bootSyncthing cmd dcCfg = (false, None)).
Proof.
  intros idPathMap.
  split; [intros id; apply idPathMap_lookup|]. unfold up_cmd.bootSyncthing.
  fold idPathMap. split.
  - intros [v Hv]. rewrite decide_False; [done|].
    intros Hempty%map_size_empty_iff.
    assert (Hsome : is_Some (idPathMap
                               !! up_cmd.volume_ID (up_cmd.KubeNamespace cmd) v))
      by (apply idPathMap_lookup; eauto).
    rewrite Hempty, lookup_empty in Hsome. by destruct Hsome.
  - intros Hnone. rewrite decide_True; [done|].
    apply map_size_empty_iff, map_empty. intros id.
    apply eq_None_not_Some. intros (v & Hv & _)%idPathMap_lookup.
    by apply (Hnone v).
Qed.

(** ** Building the images *)

Section build_images.
Import up_cmd.
Context `{Docker} (cmd : up).

Lemma allBuilt_nil : allBuilt cmd [].
Proof. intros svc spec Hin. by apply elem_of_nil in Hin. Qed.

Lemma allBuilt_snoc (svcs : list ServiceConfig) (svc : ServiceConfig) :
  allBuilt cmd svcs ->
  (forall spec, Build svc = Some spec ->
     exists imageName, (buildImage cmd spec (Name svc)).1 = inl imageName) ->
  allBuilt cmd (svcs ++ [svc]).
Proof.
  intros Hall Hsvc svc' spec [Hin|Hin%list_elem_of_singleton]%elem_of_app.
  - by apply Hall.
  - subst. apply Hsvc.
Qed.

Lemma callsOf_snoc (svcs : list ServiceConfig) (svc : ServiceConfig) :
  callsOf cmd (svcs ++ [svc])
  = callsOf cmd svcs
    ++ match Build svc with
       | Some spec => (buildImage cmd spec (Name svc)).2
       | None => []
       end.
Proof. unfold callsOf. rewrite bind_app, bind_cons. simpl. by rewrite app_nil_r. Qed.

(** The loop, with the services [done_] already behind it. *)
Lemma buildLoop_spec (svcs done_ : list ServiceConfig)
    (images : gmap string string) :
  allBuilt cmd done_ ->
  (forall name,
      is_Some (images !! name)
      <-> exists svc, svc ∈ done_ /\ Name svc = name /\ is_Some (Build svc)) ->
  match buildLoop cmd svcs images (callsOf cmd done_) with
  | (inl images', calls) =>
      allBuilt cmd (done_ ++ svcs) /\
      calls = callsOf cmd (done_ ++ svcs) /\
      forall name,
        is_Some (images' !! name)
        <-> exists svc,
              svc ∈ done_ ++ svcs /\ Name svc = name /\ is_Some (Build svc)
  | (inr err, calls) =>
      exists pre svc spec post cause made,
        done_ ++ svcs = pre ++ svc :: post /\
        Build svc = Some spec /\
        buildImage cmd spec (Name svc) = (inr cause, made) /\
        err = Wrapped ("build " +:+ Name svc) cause /\
        allBuilt cmd pre /\
        calls = callsOf cmd pre ++ made
  end.
Proof.
  revert done_ images.
  induction svcs as [|svc svcs IH]; intros done_ images Hall Himages;
    cbn [buildLoop].
  - rewrite app_nil_r. done.
  - replace (done_ ++ svc :: svcs) with ((done_ ++ [svc]) ++ svcs)
      by (by rewrite <- app_assoc).
    destruct (Build svc) as [spec|] eqn:Hbuild.
    + destruct (buildImage cmd spec (Name svc)) as [[imageName|cause] made]
        eqn:Hcall.
      * assert (Hcalls : callsOf cmd done_ ++ made
                         = callsOf cmd (done_ ++ [svc]))
          by (by rewrite callsOf_snoc, Hbuild, Hcall).
        rewrite Hcalls. apply IH.
        -- apply allBuilt_snoc; [done|]. intros spec' Hs.
           rewrite Hbuild in Hs. injection Hs as <-. rewrite Hcall. eauto.
        -- intros name. destruct (decide (Name svc = name)) as [<-|Hne].
           ++ rewrite lookup_insert_eq. split; [intros _|eauto].
              exists svc. split; [|by rewrite Hbuild; eauto].
              apply elem_of_app. right. left.
           ++ rewrite lookup_insert_ne, Himages by done.
              split; intros (svc' & Hin & Hn & Hb); exists svc'.
              ** split; [apply elem_of_app; by left|done].
              ** apply elem_of_app in Hin as [Hin|Hin%list_elem_of_singleton];
                   [done|]. by subst.
      * exists done_, svc, spec, svcs, cause, made.
        split; [by rewrite <- app_assoc|]. done.
    + assert (Hcalls : callsOf cmd done_ = callsOf cmd (done_ ++ [svc]))
        by (by rewrite callsOf_snoc, Hbuild, app_nil_r).
      rewrite Hcalls. apply IH.
      * apply allBuilt_snoc; [done|]. intros spec' Hs. by rewrite Hbuild in Hs.
      * intros name. rewrite Himages.
        split; intros (svc' & Hin & Hn & Hb); exists svc'.
        -- split; [apply elem_of_app; by left|done].
        -- apply elem_of_app in Hin as [Hin|Hin%list_elem_of_singleton];
             [done|]. subst. rewrite Hbuild in Hb. by destruct Hb.
Qed.

Lemma buildImage_calls (spec : BuildConfig) (svc name : string)
    (calls : list call) :
  buildImage cmd spec svc = (inl name, calls) ->
  exists buildContextTar imageID registryAuth,
    calls
    = [Build_ buildContextTar
         (if decide (Dockerfile spec = EmptyString) then "Dockerfile"
          else Dockerfile spec);
       Tag imageID name; Push name registryAuth] /\
    name = imageNamespace cmd +:+ "/" +:+ svc +:+ ":" +:+ TrimPrefix imageID.
Proof.
  unfold buildImage. intros Hcall.
  destruct (makeTar (Context spec)) as [tar|]; [|done].
  destruct (ImageBuild tar _) as [body|]; [|done].
  destruct (buildMessages body) as [ids [err|]]; [done|].
  destruct (ImageTag _ _); [done|].
  destruct (makeRegistryAuthHeader _) as [auth|]; [|done].
  destruct (ImagePush _ _) as [resp|]; [|done].
  destruct (pushMessages resp); [done|].
  injection Hcall as <- <-. eauto.
Qed.
End build_images.

(** X24: [buildImages].  Without a Docker client it returns the error "no
    docker client" for every Compose file, also one without a build section,
    and calls nothing.  With a client it builds the services that have a build
    section in the order of the file: when every build succeeds, the map has
    an image for exactly the names of those services; otherwise the error
    names the first service whose build failed and wraps the cause, and no
    service after it is built.  [buildImage] returns a name only after the
    image was built, tagged with that name and pushed under it, in this
    order, and the Dockerfile is "Dockerfile" when the file names none. *)
Theorem buildImages_outcome `{up_cmd.Docker} (cmd : up_cmd.up)
    (composeFile : up_cmd.Config) :
  (up_cmd.dockerClient cmd = false ->
   up_cmd.buildImages cmd composeFile
   = (inr (ErrorString "no docker client"), [])) /\
  (up_cmd.dockerClient cmd = true ->
   match up_cmd.buildImages cmd composeFile with
   | (inl images, calls) =>
       up_cmd.allBuilt cmd (up_cmd.Services composeFile) /\
       calls = up_cmd.callsOf cmd (up_cmd.Services composeFile) /\
       forall name,
         is_Some (images !! name)
         <-> exists svc,
               svc ∈ up_cmd.Services composeFile /\
               up_cmd.Name svc = name /\ is_Some (up_cmd.Build svc)
   | (inr err, calls) =>
       exists pre svc spec post cause made,
         up_cmd.Services composeFile = pre ++ svc :: post /\
         up_cmd.Build svc = Some spec /\
         up_cmd.buildImage cmd spec (up_cmd.Name svc) = (inr cause, made) /\
         err = Wrapped ("build " +:+ up_cmd.Name svc) cause /\
         up_cmd.allBuilt cmd pre /\
         calls = up_cmd.callsOf cmd pre ++ made
   end) /\
  (forall spec svc name calls,
      up_cmd.buildImage cmd spec svc = (inl name, calls) ->
      exists buildContextTar imageID registryAuth,
        calls
        = [up_cmd.Build_ buildContextTar
             (if decide (up_cmd.Dockerfile spec = EmptyString)
              then "Dockerfile" else up_cmd.Dockerfile spec);
           up_cmd.Tag imageID name; up_cmd.Push name registryAuth] /\
        name
        = up_cmd.imageNamespace cmd +:+ "/" +:+ svc +:+ ":"
          +:+ up_cmd.TrimPrefix imageID).
Proof.
  split; [|split].
  - intros Hnil. unfold up_cmd.buildImages. by rewrite Hnil.
  - intros Hclient. unfold up_cmd.buildImages. rewrite Hclient. simpl.
    apply (buildLoop_spec cmd (up_cmd.Services composeFile) [] ∅).
    + apply allBuilt_nil.
    + intros name. rewrite lookup_empty.
      split; [by intros [? ?]|intros (svc & Hin & _)].
      by apply elem_of_nil in Hin.
  - apply buildImage_calls.
Qed.

Section deployment_examples.
(** The build of [job] fails: [web] was built, tagged and pushed before,
    and [api] is not built. *)
Example buildImages_first_failure :
  @up_cmd.buildImages up_cmd.Demo.docker up_cmd.Demo.cmd up_cmd.Demo.compose
  = (inr (Wrapped "build job"
            (Wrapped "start build" (ErrorString "no Dockerfile"))),
     [up_cmd.Build_ "tar:." "Dockerfile";
      up_cmd.Tag "sha256:abc" "registry/ns/web:abc";
      up_cmd.Push "registry/ns/web:abc" "auth:token";
      up_cmd.Build_ "tar:broken" "Dockerfile.job"]).
Proof. vm_compute. reflexivity. Qed.

Example bootSyncthing_demo :
  (@up_cmd.bootSyncthing up_cmd.Demo.docker up_cmd.Demo.cmd
     up_cmd.Demo.compose).1 = true.
Proof. vm_compute. reflexivity. Qed.

Example SplitN_examples :
  dockercompose.SplitN "PATH=/bin:/usr/bin" = ["PATH"; "/bin:/usr/bin"] /\
  dockercompose.SplitN "A=b=c" = ["A"; "b=c"] /\
  dockercompose.SplitN "EMPTY" = ["EMPTY"].
Proof. vm_compute. repeat split; reflexivity. Qed.
End deployment_examples.

(** * Completion of the first version *)

Section legacy_completion.
Import cli_logs.
Context `{GoLib} `{GoSort} (cmd : logsCommand).

(** Past the loop of [run], the closing goroutine exists. *)
Lemma cl_step_printing (l : label) (s s' : state) :
  (main s = Printing -> closer s <> CIdle) ->
  step cmd l s = Some s' ->
  main s' = Printing -> closer s' <> CIdle.
Proof.
  intros Hold Hstep Hm'. unfold step in Hstep.
  destruct (panicked s); [done|]. destruct l as [ev|i ev| |].
  - unfold mainStep, printLogs in Hstep.
    destruct (main s) eqn:Hm; step_cases; simpl in *; try done; auto.
  - destruct (readers s !! i) as [pc|]; [|done].
    destruct (containers cmd !! i) as [container|]; [|done].
    simpl in Hstep.
    destruct pc, ev; simpl in Hstep; try discriminate; unfold send in Hstep;
      step_cases; simpl in *; auto.
  - unfold closerStep in Hstep. step_cases; simpl in *; try done; congruence.
  - unfold interruptStep in Hstep. step_cases; simpl in *; auto.
Qed.

Lemma cl_reachable_printing (s : state) :
  reachable cmd s -> main s = Printing -> closer s <> CIdle.
Proof.
  induction 1 as [|l s s' _ IH Hstep]; [done|].
  by eapply cl_step_printing.
Qed.

Lemma cl_flush_total (window : list rawLogLine) :
  is_Some (flush (noColor cmd) window).
Proof. rewrite cl_flush_map. eauto. Qed.

(** Every step uses up fuel. *)
Lemma cl_step_fuel (l : label) (s s' : state) :
  invariant cmd s -> allFinished s -> (forall k, main s <> Opening k) ->
  step cmd l s = Some s' ->
  allFinished s' /\ (forall k, main s' <> Opening k) /\
  (fuel s' < fuel s)%nat.
Proof.
  intros Hinv Hall Hmain Hstep. unfold allFinished in *.
  unfold step in Hstep. rewrite (inv_panicked _ _ Hinv) in Hstep.
  destruct l as [ev|i ev| |].
  - unfold mainStep in Hstep.
    destruct (main s) as [k| |r] eqn:Hm; [by destruct (Hmain k)| |done].
    unfold printLogs in Hstep.
    destruct ev; try discriminate;
      destruct (combinedLogs s) eqn:Hbuf;
      destruct (flushTrigger s) eqn:Ht;
      step_cases;
      (split; [done|]); (split; [simpl; try rewrite Hm; done|]);
      unfold fuel, printerFuel, closerFuel; simpl;
      rewrite ?Hm, ?Hbuf, ?Ht; simpl; lia.
  - destruct (readers s !! i) as [pc|] eqn:Hpc; [|done].
    destruct (containers cmd !! i) as [container|]; [|done].
    simpl in Hstep.
    assert (Hfin : finished pc = true)
      by (rewrite Forall_lookup in Hall; by eapply Hall).
    destruct (cl_readerStep_move _ _ _ _ _ _ _ Hinv Hpc Hstep)
      as (pc' & o & Hmove & Hrs & Hsent & Hbuf & Hm & Hc & _ & _ & _ & Ht
          & _).
    assert (Hpcs : pc = Returned /\ pc' = Done /\ o = None)
      by (inversion Hmove; subst; done).
    destruct Hpcs as (-> & -> & ->).
    split; [rewrite Hrs; by apply Forall_insert|].
    split; [by rewrite Hm|].
    pose proof (sum_list_insert (readerFuel <$> readers s) i
                  (readerFuel Returned) (readerFuel Done)) as Hsum.
    rewrite list_lookup_fmap, Hpc in Hsum. specialize (Hsum eq_refl).
    assert (Hsig : signalHandler s' = signalHandler s).
    { destruct ev; simpl in Hstep; try discriminate.
      case_decide; injection Hstep as <-; done. }
    unfold fuel, printerFuel, closerFuel.
    rewrite Hrs, list_fmap_insert, Hm, Hc, Hbuf, Ht, Hsig, app_nil_r.
    simpl in Hsum. change (readerFuel Done) with 0%nat. lia.
  - unfold closerStep in Hstep.
    destruct (closer s) eqn:Hc; try discriminate.
    + case_decide; [|done]. injection Hstep as <-.
      split; [done|]. split; [done|].
      unfold fuel, printerFuel, closerFuel; simpl; rewrite Hc; lia.
    + assert (Hopen : closed s = false).
      { destruct (closed s) eqn:Hcl; [|done].
        apply (inv_closed _ _ Hinv) in Hcl. congruence. }
      rewrite Hopen in Hstep. injection Hstep as <-.
      split; [done|]. split; [done|].
      unfold fuel, printerFuel, closerFuel; simpl; rewrite Hc; lia.
  - unfold interruptStep in Hstep.
    destruct (signalHandler s) eqn:Hsig; step_cases.
    split; [done|]. split; [done|].
    unfold fuel, printerFuel, closerFuel. simpl. rewrite Hsig. lia.
Qed.

(** Until [run] has returned, some goroutine can take a step. *)
Lemma cl_progress (s : state) :
  invariant cmd s -> allFinished s -> main s = Printing ->
  closer s <> CIdle ->
  exists l s', l <> Interrupt /\ step cmd l s = Some s'.
Proof.
  intros Hinv Hall Hm Hcloser. unfold step.
  rewrite (inv_panicked _ _ Hinv).
  destruct (decide (Forall (fun pc => pc = Done) (readers s))) as [Hdone|Hnot].
  - destruct (closer s) eqn:Hc; [done| | |].
    + exists Closer. unfold closerStep. rewrite Hc.
      rewrite decide_True; [eauto|].
      rewrite (inv_wg _ _ Hinv). unfold counter. clear -Hdone.
      induction Hdone as [|pc pcs -> _ IH]; [done|].
      by rewrite filter_cons, decide_False.
    + exists Closer. unfold closerStep. rewrite Hc.
      destruct (closed s) eqn:Hcl; [|eauto].
      apply (inv_closed _ _ Hinv) in Hcl. congruence.
    + exists (Main Receive). unfold mainStep, printLogs. rewrite Hm.
      destruct (combinedLogs s) as [|logLine rest];
        [|destruct (readError logLine); eauto].
      rewrite (proj2 (inv_closed _ _ Hinv) Hc).
      destruct (cl_flush_total (window s)) as [out ->]. simpl. eauto.
  - apply not_Forall_Exists in Hnot; [|apply _].
    apply Exists_exists in Hnot as (pc & Hin & Hpc).
    apply list_elem_of_lookup_1 in Hin as [i Hi].
    assert (Hfin : finished pc = true)
      by (unfold allFinished in Hall; rewrite Forall_lookup in Hall;
          by eapply Hall).
    destruct pc; try discriminate; [|by destruct Hpc].
    destruct (lookup_lt_is_Some_2 (containers cmd) i) as [container Hc].
    { rewrite <- (inv_length _ _ Hinv). by eapply lookup_lt_Some. }
    exists (Reader i WgDone). rewrite Hi, Hc. simpl.
    pose proof (counter_pos _ _ _ Hi eq_refl) as Hpos.
    rewrite <- (inv_wg _ _ Hinv) in Hpos.
    rewrite decide_False by lia. eauto.
Qed.

Lemma cl_run_terminates (ls : list label) (s s' : state) :
  invariant cmd s -> allFinished s -> (forall k, main s <> Opening k) ->
  run cmd ls s = Some s' ->
  (length ls + fuel s' <= fuel s)%nat /\
  invariant cmd s' /\ allFinished s' /\ (forall k, main s' <> Opening k).
Proof.
  revert s. induction ls as [|l ls IH]; intros s Hinv Hall Hm Hrun;
    simpl in Hrun.
  - simplify_eq. split; [simpl; lia|done].
  - destruct (step cmd l s) as [s1|] eqn:Hstep; [|done]. simpl in Hrun.
    destruct (cl_step_fuel _ _ _ Hinv Hall Hm Hstep)
      as (Hall1 & Hm1 & Hlt).
    pose proof (cl_step_invariant _ _ _ _ Hinv Hstep) as Hinv1.
    destruct (IH s1 Hinv1 Hall1 Hm1 Hrun) as (Hle & Hrest).
    split; [simpl; lia|done].
Qed.
End legacy_completion.

(** X25: completion by the close of the channel, in the first version.
    Once [run] is in [printLogs] and every reader is back from [forwardLogs],
    every schedule is bounded, and as long as [run] has not returned some
    goroutine other than the signal handler can take a step: the readers call
    [wg.Done()], [wg.Wait()] returns, the channel is closed, and [printLogs]
    receives what is left and returns. *)
Theorem completion_by_close `{GoLib} `{cli_logs.GoSort}
    (cmd : cli_logs.logsCommand) (ls : list cli_logs.label)
    (s : cli_logs.state) :
  cli_logs.run cmd ls (cli_logs.init cmd) = Some s ->
  cli_logs.main s = cli_logs.Printing ->
  cli_logs.allFinished s ->
  forall ls' s',
    cli_logs.run cmd ls' s = Some s' ->
    (length ls' <= cli_logs.fuel s)%nat /\
    ((exists r, cli_logs.main s' = cli_logs.Finished r) \/
     exists l s'',
       l <> cli_logs.Interrupt /\ cli_logs.step cmd l s' = Some s'').
Proof.
  intros Hrun Hm Hall ls' s' Hrun'.
  apply cl_run_reachable in Hrun as Hreach.
  pose proof (cl_reachable_invariant _ _ Hreach) as Hinv.
  assert (Hmain : forall k, cli_logs.main s <> cli_logs.Opening k)
    by (intros k; by rewrite Hm).
  destruct (cl_run_terminates _ _ _ _ Hinv Hall Hmain Hrun')
    as (Hle & Hinv' & Hall' & Hmain').
  split; [lia|].
  destruct (cli_logs.main s') as [k| |r] eqn:Hm';
    [by destruct (Hmain' k)| |eauto].
  right. apply cl_progress; try done.
  apply (cl_reachable_printing cmd); [|done].
  by eapply cl_run_reachable_from.
Qed.

Lemma completion_by_close_witness :
  let s := default (cli_logs.init cli_logs.Demo.cmd)
             (@cli_logs.run Sample.lib cli_logs.Demo.insertion
                cli_logs.Demo.cmd (take 8 cli_logs.Demo.clean)
                (cli_logs.init cli_logs.Demo.cmd)) in
  cli_logs.main s = cli_logs.Printing /\
  cli_logs.allFinished s /\
  cli_logs.fuel s = 7%nat /\
  exists s',
    @cli_logs.run Sample.lib cli_logs.Demo.insertion cli_logs.Demo.cmd
      (drop 8 cli_logs.Demo.clean) s = Some s' /\
    (length (drop 8 cli_logs.Demo.clean) <= cli_logs.fuel s)%nat /\
    cli_logs.main s' = cli_logs.Finished None.
Proof.
  intros s.
  assert (Hrun : @cli_logs.run Sample.lib cli_logs.Demo.insertion
                   cli_logs.Demo.cmd (take 8 cli_logs.Demo.clean)
                   (cli_logs.init cli_logs.Demo.cmd) = Some s)
    by (vm_compute; reflexivity).
  assert (Hm : cli_logs.main s = cli_logs.Printing) by reflexivity.
  assert (Hall : cli_logs.allFinished s) by (repeat constructor).
  split; [exact Hm|]. split; [exact Hall|]. split; [reflexivity|].
  eexists. split; [vm_compute; reflexivity|].
  split; [|reflexivity].
  eapply (@completion_by_close Sample.lib cli_logs.Demo.insertion _ _ _
            Hrun Hm Hall (drop 8 cli_logs.Demo.clean)).
  vm_compute. reflexivity.
Defined.

(** * The command [blimp up] *)

Section up_run.
Import up_cmd.
Context `{Docker} `{Cluster}.

(** The ways in which [createSandbox] ends. *)
Lemma createSandbox_cases (cmd : up) (composeCfg : string) :
  (exists err,
      getLocalRegistryCredentials config_Load GetAuthConfigs GetAllCredentials
      = inr err /\
      createSandbox cmd composeCfg
      = ([], inl (cmd, Some (Wrapped "get local registry credentials" err))))
  \/
  exists creds,
    getLocalRegistryCredentials config_Load GetAuthConfigs GetAllCredentials
    = inl creds /\
    ((exists err,
         CreateSandbox (AuthToken cmd) composeCfg creds = inr err /\
         createSandbox cmd composeCfg
         = ([ECreateSandbox (AuthToken cmd) composeCfg creds],
            inl (cmd, Some err)))
     \/
     exists resp,
       CreateSandbox (AuthToken cmd) composeCfg creds = inl resp /\
       ((Action resp <> CLIAction_OK /\
         createSandbox cmd composeCfg
         = (creation cmd composeCfg creds resp, inr (Exit 0)))
        \/
        (Action resp = CLIAction_OK /\
         GetKubeCredentials resp = None /\
         createSandbox cmd composeCfg
         = (creation cmd composeCfg creds resp, inr Panic))
        \/
        exists kubeCreds,
          Action resp = CLIAction_OK /\
          GetKubeCredentials resp = Some kubeCreds /\
          createSandbox cmd composeCfg
          = (creation cmd composeCfg creds resp
             ++ [ESave (created cmd resp kubeCreds)],
             inl (created cmd resp kubeCreds,
                  Save (created cmd resp kubeCreds))))).
Proof.
  unfold createSandbox, creation, created.
  destruct (getLocalRegistryCredentials _ _ _) as [creds|err]; [right|left; eauto].
  exists creds. split; [done|].
  destruct (CreateSandbox _ _ _) as [resp|err]; [right|left; eauto].
  exists resp. split; [done|].
  destruct (Action resp) eqn:Haction.
  - destruct (GetKubeCredentials resp) as [kubeCreds|] eqn:Hkube.
    + right. right. exists kubeCreds. repeat split.
      by case_decide.
    + right. left. repeat split. by case_decide.
  - left. split; [done|]. by case_decide.
  - left. split; [done|]. by case_decide.
Qed.

(** [createSandbox] neither builds nor deploys, and does not use the
    sandbox. *)
Lemma creation_quiet (cmd : up) (composeCfg : string)
    (creds : gmap string RegistryCredential) (resp : CreateSandboxResponse) :
  Forall (fun e => deploys e = false /\ usesSandbox e = false)
    (creation cmd composeCfg creds resp).
Proof.
  unfold creation. case_decide; repeat constructor.
Qed.

Lemma tunnels_use (cmd : up) (parsedCompose : Config) :
  Forall (fun e => usesSandbox e = true) (tunnels cmd parsedCompose).
Proof.
  apply Forall_forall. intros e He. unfold tunnels in He.
  apply list_elem_of_bind in He as (svc & He & _).
  apply list_elem_of_fmap in He as (mapping & -> & _). done.
Qed.


Local Ltac effs :=
  unfold creation; simpl; rewrite <- ?app_assoc; simpl; reflexivity.

(** When [createSandbox] has returned without an error the rest of [run]
    is left. *)
Lemma run_created (cmd : up) (rawCompose : string) (parsedCompose : Config)
    (parsedComposeBytes : string) (creds : gmap string RegistryCredential)
    (resp : CreateSandboxResponse) (kubeCreds : KubeCredentials) :
  ReadFile (composePath cmd) = inl rawCompose ->
  Load (composePath cmd) rawCompose = inl parsedCompose ->
  Marshal parsedCompose = inl parsedComposeBytes ->
  createSandbox cmd parsedComposeBytes
  = (creation cmd parsedComposeBytes creds resp
     ++ [ESave (created cmd resp kubeCreds)],
     inl (created cmd resp kubeCreds, None)) ->
  forall effects out,
    run cmd = (effects, out) ->
    exists rest,
      effects
      = creation cmd parsedComposeBytes creds resp
        ++ [ESave (created cmd resp kubeCreds)] ++ rest /\
      let cmd := created cmd resp kubeCreds in
      match buildImages cmd parsedCompose with
      | (inr err, calls) =>
          rest
          = match (bootSyncthing cmd parsedCompose).2 with
            | Some idPathMap => [ESyncthing idPathMap]
            | None => []
            end ++ (EDocker <$> calls) /\
          out = Return (Some err)
      | (inl builtImages, calls) =>
          exists after,
            rest
            = match (bootSyncthing cmd parsedCompose).2 with
              | Some idPathMap => [ESyncthing idPathMap]
              | None => []
              end ++ (EDocker <$> calls)
              ++ [EDeploy (AuthToken cmd) parsedComposeBytes builtImages]
              ++ after /\
            Forall (fun e => usesSandbox e = true) after /\
            match
              DeployToSandbox (AuthToken cmd) parsedComposeBytes builtImages
            with
            | Some err => after = [] /\ out = Return (Some err)
            | None =>
                match Dial (sandboxAddr cmd) (sandboxCert cmd) with
                | Some err =>
                    after = [EDial (sandboxAddr cmd) (sandboxCert cmd)] /\
                    out = Return (Some err)
                | None =>
                    let services := ServiceNames parsedCompose in
                    match statusPrinter_Run services (AuthToken cmd) with
                    | None =>
                        exists pre,
                          after = pre ++ [EStatus services (AuthToken cmd)] /\
                          out = Blocked
                    | Some _ =>
                        exists pre,
                          after
                          = pre
                            ++ [EStatus services (AuthToken cmd);
                                ELogs services true] /\
                          out = Return (LogsCommand_Run services)
                    end
                end
            end
      end.
Proof.
  intros Hread Hload Hmarshal Hcreate effects out Hrun. cbv zeta.
  unfold run in Hrun. rewrite Hread, Hload, Hmarshal, Hcreate in Hrun.
  set (cmd' := created cmd resp kubeCreds) in *.
  destruct (bootSyncthing cmd' parsedCompose) as [haveSyncthing started] eqn:Hboot.
  cbn [snd fst].
  destruct (buildImages cmd' parsedCompose) as [[builtImages|err] calls].
  2:{ injection Hrun as <- <-. eexists. split; [|split; reflexivity].
      effs. }
  destruct (DeployToSandbox _ _ _) as [err|].
  { injection Hrun as <- <-. eexists. split.
    { effs. }
    exists []. split; [by rewrite app_nil_r|]. split; [constructor|done]. }
  destruct (Dial _ _) as [err|].
  { injection Hrun as <- <-. eexists. split.
    { effs. }
    eexists. split; [reflexivity|]. split; [repeat constructor|done]. }
  set (watch :=
         EDial (sandboxAddr cmd') (sandboxCert cmd')
         :: tunnels cmd' parsedCompose
         ++ (if haveSyncthing
             then [ETunnel (AuthToken cmd') "syncthing" syncthing_Port
                     syncthing_Port]
             else [])).
  assert (Hwatch : Forall (fun e => usesSandbox e = true) watch).
  { subst watch. constructor; [done|]. apply Forall_app. split.
    - apply tunnels_use.
    - destruct haveSyncthing; repeat constructor. }
  set (sync :=
         match started with
         | Some idPathMap => [ESyncthing idPathMap]
         | None => []
         end).
  destruct (statusPrinter_Run _ _) as [r|].
  - injection Hrun as <- <-.
    exists (sync ++ (EDocker <$> calls)
            ++ [EDeploy (AuthToken cmd') parsedComposeBytes builtImages]
            ++ watch
            ++ [EStatus (ServiceNames parsedCompose) (AuthToken cmd');
                ELogs (ServiceNames parsedCompose) true]).
    split; [subst watch; destruct haveSyncthing; effs|].
    exists (watch ++ [EStatus (ServiceNames parsedCompose) (AuthToken cmd');
                      ELogs (ServiceNames parsedCompose) true]).
    split; [done|]. split.
    + apply Forall_app. split; [done|repeat constructor].
    + by exists watch.
  - injection Hrun as <- <-.
    exists (sync ++ (EDocker <$> calls)
            ++ [EDeploy (AuthToken cmd') parsedComposeBytes builtImages]
            ++ watch
            ++ [EStatus (ServiceNames parsedCompose) (AuthToken cmd')]).
    split; [subst watch; destruct haveSyncthing; effs|].
    exists (watch ++ [EStatus (ServiceNames parsedCompose) (AuthToken cmd')]).
    split; [done|]. split.
    + apply Forall_app. split; [done|repeat constructor].
    + by exists watch.
Qed.

(** An effect that neither builds nor deploys is no deployment. *)
Lemma quiet_no_deploy (l : list effect) (Token ComposeFile : string)
    (BuiltImages : gmap string string) :
  Forall (fun e => deploys e = false /\ usesSandbox e = false) l ->
  EDeploy Token ComposeFile BuiltImages ∉ l.
Proof.
  intros Hl Hin. rewrite Forall_forall in Hl.
  by destruct (Hl _ Hin) as [? _].
Qed.

Lemma uses_no_deploy (l : list effect) (Token ComposeFile : string)
    (BuiltImages : gmap string string) :
  Forall (fun e => usesSandbox e = true) l ->
  EDeploy Token ComposeFile BuiltImages ∉ l.
Proof.
  intros Hl Hin. rewrite Forall_forall in Hl. by pose proof (Hl _ Hin).
Qed.

Lemma creation_elem (cmd : up) (composeCfg : string)
    (creds : gmap string RegistryCredential) (resp : CreateSandboxResponse)
    (e : effect) :
  e ∈ creation cmd composeCfg creds resp ->
  e = ECreateSandbox (AuthToken cmd) composeCfg creds
  \/ e = EPrintf (String (ascii_of_nat 10) (Message resp)).
Proof.
  unfold creation. intros [->|Hin]%elem_of_cons; [by left|right].
  case_decide; [by apply list_elem_of_singleton in Hin|by apply elem_of_nil in Hin].
Qed.

(** With a client, [buildImages] returns the images of the services that
    have a build section. *)
Lemma buildImages_images (cmd : up) (composeFile : Config)
    (images : gmap string string) (calls : list call) :
  buildImages cmd composeFile = (inl images, calls) ->
  dockerClient cmd = true /\
  allBuilt cmd (Services composeFile) /\
  calls = callsOf cmd (Services composeFile) /\
  forall name,
    is_Some (images !! name)
    <-> exists svc,
          svc ∈ Services composeFile /\ Name svc = name
          /\ is_Some (Build svc).
Proof.
  unfold buildImages. destruct (dockerClient cmd); [|done]. simpl.
  intros Hloop. split; [done|].
  pose proof (buildLoop_spec cmd (Services composeFile) [] ∅) as Hspec.
  simpl in Hspec. change (callsOf cmd []) with (@nil call) in Hspec.
  rewrite Hloop in Hspec. apply Hspec.
  - apply allBuilt_nil.
  - intros name. rewrite lookup_empty. split.
    + by intros [? ?].
    + intros (svc & Hin & _). by apply elem_of_nil in Hin.
Qed.
End up_run.

(** X26: [run] sends the deployment to the cluster manager only after the
    Compose file was read, loaded and marshalled, the manager answered the
    request for a sandbox (made with the token of the command, the marshalled
    file and the local registry credentials) with the action OK and with
    Kubernetes credentials, these were saved, and, with a Docker client at
    hand, every service that has a build section was built.  The deployment
    carries the same token and file, and an image for exactly the services
    that have a build section.  Before it come, in this order, the request
    for the sandbox, the message of the manager when there is one, the saving
    of the credentials, the start of Syncthing when there are bind volumes,
    and the calls to the Docker daemon; images are named and volumes
    identified with the namespaces that the manager returned.  After it come
    only the connection to the sandbox, the tunnels, the status printer and
    the logs. *)
Theorem deploy_after_sandbox_and_builds `{up_cmd.Docker} `{up_cmd.Cluster}
    (cmd : up_cmd.up) (effects : list up_cmd.effect) (out : up_cmd.outcome)
    (Token ComposeFile : string) (BuiltImages : gmap string string) :
  up_cmd.run cmd = (effects, out) ->
  up_cmd.EDeploy Token ComposeFile BuiltImages ∈ effects ->
  exists rawCompose parsedCompose creds resp kubeCreds after,
    up_cmd.ReadFile (up_cmd.composePath cmd) = inl rawCompose /\
    up_cmd.Load (up_cmd.composePath cmd) rawCompose = inl parsedCompose /\
    up_cmd.Marshal parsedCompose = inl ComposeFile /\
    up_cmd.getLocalRegistryCredentials up_cmd.config_Load
      up_cmd.GetAuthConfigs up_cmd.GetAllCredentials
    = inl creds /\
    Token = up_cmd.AuthToken cmd /\
    up_cmd.CreateSandbox Token ComposeFile creds = inl resp /\
    up_cmd.Action resp = up_cmd.CLIAction_OK /\
    up_cmd.GetKubeCredentials resp = Some kubeCreds /\
    up_cmd.Save (up_cmd.created cmd resp kubeCreds) = None /\
    up_cmd.dockerClient cmd = true /\
    up_cmd.allBuilt (up_cmd.created cmd resp kubeCreds)
      (up_cmd.Services parsedCompose) /\
    (forall name,
        is_Some (BuiltImages !! name)
        <-> exists svc,
              svc ∈ up_cmd.Services parsedCompose /\
              up_cmd.Name svc = name /\ is_Some (up_cmd.Build svc)) /\
    effects
    = up_cmd.creation cmd ComposeFile creds resp
      ++ [up_cmd.ESave (up_cmd.created cmd resp kubeCreds)]
      ++ up_cmd.preparation (up_cmd.created cmd resp kubeCreds) parsedCompose
      ++ [up_cmd.EDeploy Token ComposeFile BuiltImages]
      ++ after /\
    Forall (fun e => up_cmd.usesSandbox e = true) after.
Proof.
  intros Hrun Hin. pose proof Hrun as Hrun'. unfold up_cmd.run in Hrun'.
  destruct (up_cmd.ReadFile _) as [rawCompose|] eqn:Hread;
    [|injection Hrun' as <- <-; by apply elem_of_nil in Hin].
  destruct (up_cmd.Load _ _) as [parsedCompose|] eqn:Hload;
    [|injection Hrun' as <- <-; by apply elem_of_nil in Hin].
  destruct (up_cmd.Marshal _) as [bytes|] eqn:Hmarshal;
    [|injection Hrun' as <- <-; by apply elem_of_nil in Hin].
  destruct (createSandbox_cases cmd bytes)
    as [(err & _ & Hc)
       |(creds & Hcreds & [(err & _ & Hc)
                          |(resp & Hresp & [(_ & Hc)
                                           |[(_ & _ & Hc)
                                            |(k & Haction & Hkube & Hc)]])])];
    rewrite Hc in Hrun'.
  1-4: apply (f_equal fst) in Hrun'; cbn [fst] in Hrun'; subst effects;
    exfalso; revert Hin; apply quiet_no_deploy;
    rewrite ?Forall_app; repeat split; try apply creation_quiet;
    repeat constructor.
  clear Hrun'.
  destruct (up_cmd.Save (up_cmd.created cmd resp k)) as [err|] eqn:Hsave.
  { unfold up_cmd.run in Hrun. rewrite Hread, Hload, Hmarshal, Hc in Hrun.
    apply (f_equal fst) in Hrun; cbn [fst] in Hrun; subst effects.
    exfalso; revert Hin; apply quiet_no_deploy.
    rewrite ?Forall_app; repeat split; try apply creation_quiet;
      repeat constructor. }
  destruct (run_created cmd _ _ _ _ _ _ Hread Hload Hmarshal Hc _ _ Hrun)
    as (rest & -> & Hrest).
  cbv zeta in Hrest.
  destruct (up_cmd.buildImages _ _) as [[builtImages|err] calls] eqn:Hbuild.
  2:{ destruct Hrest as [-> _]. exfalso.
      rewrite !elem_of_app in Hin. destruct Hin as [Hin|[Hin|[Hin|Hin]]].
      - revert Hin. apply quiet_no_deploy, creation_quiet.
      - by apply list_elem_of_singleton in Hin.
      - destruct (up_cmd.bootSyncthing _ _).2;
          [by apply list_elem_of_singleton in Hin|by apply elem_of_nil in Hin].
      - by apply list_elem_of_fmap in Hin as (c & ? & _). }
  destruct Hrest as (after & -> & Hafter & _).
  apply buildImages_images in Hbuild as (Hclient & Hall & -> & Himages).
  assert (Heq : up_cmd.EDeploy Token ComposeFile BuiltImages
                = up_cmd.EDeploy (up_cmd.AuthToken cmd) bytes builtImages).
  { rewrite !elem_of_app in Hin.
    destruct Hin as [Hin|[Hin|[Hin|[Hin|[Hin|Hin]]]]].
    - exfalso. revert Hin. apply quiet_no_deploy, creation_quiet.
    - by apply list_elem_of_singleton in Hin.
    - destruct (up_cmd.bootSyncthing _ _).2;
        [by apply list_elem_of_singleton in Hin|by apply elem_of_nil in Hin].
    - by apply list_elem_of_fmap in Hin as (c & ? & _).
    - by apply list_elem_of_singleton in Hin.
    - exfalso. revert Hin. by apply uses_no_deploy. }
  injection Heq as -> -> ->.
  exists rawCompose, parsedCompose, creds, resp, k, after.
  split_and!; try done.
  unfold up_cmd.preparation. by rewrite <- !app_assoc.
Qed.

Lemma deploy_after_sandbox_and_builds_witness :
  let images : gmap string string :=
    <["api" := "registry/ns/api:abc"]>
      (<["web" := "registry/ns/web:abc"]> ∅) in
  let effects :=
    (@up_cmd.run up_cmd.Demo.docker up_cmd.Demo.cluster up_cmd.Demo.cmd).1 in
  up_cmd.EDeploy "token" "services: {}" images ∈ effects /\
  forall name,
    is_Some (images !! name)
    <-> exists svc,
          svc ∈ up_cmd.Services up_cmd.Demo.deployable /\
          up_cmd.Name svc = name /\ is_Some (up_cmd.Build svc).
Proof.
  intros images effects.
  assert (Hin : up_cmd.EDeploy "token" "services: {}" images ∈ effects).
  { apply (list_elem_of_lookup_2 _ 10%nat). vm_compute. reflexivity. }
  split; [exact Hin|].
  destruct (@deploy_after_sandbox_and_builds up_cmd.Demo.docker
              up_cmd.Demo.cluster up_cmd.Demo.cmd effects _ _ _ _
              (surjective_pairing _) Hin)
    as (rawCompose & parsedCompose & creds & resp & kubeCreds & after
        & _ & Hload & _ & _ & _ & _ & _ & _ & _ & _ & _ & Himages & _).
  simpl in Hload. injection Hload as <-. exact Himages.
Defined.

(** X27: without a Docker client [run] never succeeds, and it never builds,
    deploys or uses a sandbox; but it fails only after the sandbox was
    requested.  When the request is answered and the credentials are saved,
    [run] has asked for the sandbox, printed the message of the manager,
    saved the credentials and started Syncthing for the bind volumes, and
    then returns the error "no docker client", also for a Compose file in
    which no service has a build section. *)
Theorem run_without_docker_client `{up_cmd.Docker} `{up_cmd.Cluster}
    (cmd : up_cmd.up) (effects : list up_cmd.effect) (out : up_cmd.outcome) :
  up_cmd.dockerClient cmd = false ->
  up_cmd.run cmd = (effects, out) ->
  Forall (fun e => up_cmd.deploys e = false /\ up_cmd.usesSandbox e = false)
    effects /\
  out <> up_cmd.Return None /\
  out <> up_cmd.Blocked /\
  forall saved,
    up_cmd.ESave saved ∈ effects ->
    up_cmd.Save saved = None ->
    out = up_cmd.Return (Some (ErrorString "no docker client")) /\
    exists rawCompose parsedCompose ComposeFile creds resp,
      up_cmd.ReadFile (up_cmd.composePath cmd) = inl rawCompose /\
      up_cmd.Load (up_cmd.composePath cmd) rawCompose = inl parsedCompose /\
      up_cmd.Marshal parsedCompose = inl ComposeFile /\
      up_cmd.CreateSandbox (up_cmd.AuthToken cmd) ComposeFile creds
      = inl resp /\
      effects
      = up_cmd.creation cmd ComposeFile creds resp
        ++ [up_cmd.ESave saved]
        ++ match (up_cmd.bootSyncthing saved parsedCompose).2 with
           | Some idPathMap => [up_cmd.ESyncthing idPathMap]
           | None => []
           end.
Proof.
  intros Hclient Hrun. pose proof Hrun as Hrun'. unfold up_cmd.run in Hrun'.
  destruct (up_cmd.ReadFile _) as [rawCompose|] eqn:Hread.
  2:{ injection Hrun' as <- <-. split_and!; try done.
      intros saved Hin. by apply elem_of_nil in Hin. }
  destruct (up_cmd.Load _ _) as [parsedCompose|] eqn:Hload.
  2:{ injection Hrun' as <- <-. split_and!; try done.
      intros saved Hin. by apply elem_of_nil in Hin. }
  destruct (up_cmd.Marshal _) as [bytes|] eqn:Hmarshal.
  2:{ injection Hrun' as <- <-. split_and!; try done.
      intros saved Hin. by apply elem_of_nil in Hin. }
  destruct (createSandbox_cases cmd bytes)
    as [(err & _ & Hc)
       |(creds & Hcreds & [(err & _ & Hc)
                          |(resp & Hresp & [(_ & Hc)
                                           |[(_ & _ & Hc)
                                            |(k & Haction & Hkube & Hc)]])])];
    rewrite Hc in Hrun'.
  1-4: pose proof (f_equal snd Hrun') as Hout;
    apply (f_equal fst) in Hrun'; cbn [fst snd] in Hrun', Hout;
    subst effects out; split_and!; try done;
    [rewrite ?Forall_app; repeat split; try apply creation_quiet;
     repeat constructor
    |intros saved Hin; exfalso; rewrite ?elem_of_app in Hin;
     repeat match goal with
       | Hin : _ \/ _ |- _ => destruct Hin as [Hin|Hin]
       | Hin : _ ∈ up_cmd.creation _ _ _ _ |- _ =>
           apply creation_elem in Hin as [Hin|Hin]; discriminate Hin
       | Hin : _ ∈ [] |- _ => by apply elem_of_nil in Hin
       | Hin : _ ∈ [_] |- _ =>
           apply list_elem_of_singleton in Hin; discriminate Hin
       end].
  clear Hrun'.
  destruct (up_cmd.Save (up_cmd.created cmd resp k)) as [err|] eqn:Hsave.
  { unfold up_cmd.run in Hrun. rewrite Hread, Hload, Hmarshal, Hc in Hrun.
    pose proof (f_equal snd Hrun) as Hout.
    apply (f_equal fst) in Hrun. cbn [fst snd] in Hrun, Hout.
    subst effects out. split_and!; try done.
    - rewrite ?Forall_app; repeat split; try apply creation_quiet;
        repeat constructor.
    - intros saved Hin Hnone. exfalso. rewrite !elem_of_app in Hin.
      destruct Hin as [[Hin|Hin]|Hin].
      + apply creation_elem in Hin as [Hin|Hin]; discriminate Hin.
      + apply list_elem_of_singleton in Hin. injection Hin as ->. congruence.
      + apply list_elem_of_singleton in Hin. discriminate Hin. }
  destruct (run_created cmd _ _ _ _ _ _ Hread Hload Hmarshal Hc _ _ Hrun)
    as (rest & -> & Hrest).
  cbv zeta in Hrest.
  assert (Hbuild :
            up_cmd.buildImages (up_cmd.created cmd resp k) parsedCompose
            = (inr (ErrorString "no docker client"), [])).
  { unfold up_cmd.buildImages. cbn [up_cmd.dockerClient up_cmd.created].
    by rewrite Hclient. }
  rewrite Hbuild in Hrest. destruct Hrest as [-> ->].
  rewrite fmap_nil, app_nil_r.
  assert (Hsync :
            Forall (fun e => up_cmd.deploys e = false
                             /\ up_cmd.usesSandbox e = false)
              match
                (up_cmd.bootSyncthing (up_cmd.created cmd resp k)
                   parsedCompose).2
              with
              | Some idPathMap => [up_cmd.ESyncthing idPathMap]
              | None => []
              end).
  { destruct (up_cmd.bootSyncthing _ _).2; repeat constructor. }
  split_and!; try done.
  - rewrite !Forall_app. split_and!; try done; [apply creation_quiet|].
    repeat constructor.
  - intros saved Hin _. split; [done|].
    assert (saved = up_cmd.created cmd resp k) as ->.
    { rewrite !elem_of_app in Hin. destruct Hin as [Hin|[Hin|Hin]].
      - apply creation_elem in Hin as [Hin|Hin]; discriminate Hin.
      - apply list_elem_of_singleton in Hin. by injection Hin.
      - destruct (up_cmd.bootSyncthing _ _).2;
          [apply list_elem_of_singleton in Hin; discriminate Hin
          |by apply elem_of_nil in Hin]. }
    by exists rawCompose, parsedCompose, bytes, creds, resp.
Qed.

Lemma run_without_docker_client_witness :
  up_cmd.dockerClient up_cmd.Demo.offline = false /\
  exists effects,
    @up_cmd.run up_cmd.Demo.docker up_cmd.Demo.cluster up_cmd.Demo.offline
    = (effects, up_cmd.Return (Some (ErrorString "no docker client"))) /\
    Forall (fun e => up_cmd.deploys e = false /\ up_cmd.usesSandbox e = false)
      effects.
Proof.
  split; [reflexivity|].
  set (r := @up_cmd.run up_cmd.Demo.docker up_cmd.Demo.cluster
              up_cmd.Demo.offline).
  exists r.1.
  destruct (@run_without_docker_client up_cmd.Demo.docker up_cmd.Demo.cluster
              up_cmd.Demo.offline r.1 r.2 eq_refl (surjective_pairing r))
    as (Hquiet & _ & _ & Hsaved).
  split; [|exact Hquiet].
  destruct (Hsaved
              (up_cmd.mkUp "token" "ns" false "registry/ns" "kube" "host"
                 "ca" "docker-compose.yml" "sandbox:443" "cert"))
    as [Hout _].
  - apply (list_elem_of_lookup_2 _ 2%nat). vm_compute. reflexivity.
  - reflexivity.
  - rewrite <- Hout. apply surjective_pairing.
Defined.


